(** * ClawOps core: event log, card state machine, decision lifecycle, sweeper

    A shallow embedding of the Convex backend of ClawOps
    ([convex/events.ts], [convex/auth.ts], [convex/cards.ts],
    [convex/commands.ts], [convex/decisions.ts], [convex/sweeper.ts]) and
    the properties of its specification that were checked against it.

    Modelling conventions.
    - A Convex table is the list of its rows in insertion order; the
      document id [_id] of a row is its position, rows are never deleted.
    - A mutation is a transaction in a state-and-error monad: a thrown
      [Error] discards every write of the mutation.
    - [Date.now()] is an explicit argument [clk]; [Math.random()] inside
      [generateId] is a counter kept in the store.
    - Numbers that hold timestamps and counters are integers ([Z]). *)

From Stdlib Require Import ZArith Ascii String.
From stdpp Require Import base tactics option list strings numbers pretty relations sorting.

Local Open Scope string_scope.
Local Open Scope Z_scope.

Set Warnings "-register-all".

(** ** Regular expressions of the secret denylist *)

Module Regex.

Inductive re : Type :=
| Empty
| Eps
| Cls (p : ascii -> bool)
| Cat (r1 r2 : re)
| Alt (r1 r2 : re)
| Star (r : re).

Fixpoint nullable (r : re) : bool :=
  match r with
  | Empty => false
  | Eps => true
  | Cls _ => false
  | Cat r1 r2 => nullable r1 && nullable r2
  | Alt r1 r2 => nullable r1 || nullable r2
  | Star _ => true
  end.

Definition cat (r1 r2 : re) : re :=
  match r1, r2 with
  | Empty, _ => Empty
  | _, Empty => Empty
  | Eps, _ => r2
  | _, _ => Cat r1 r2
  end.

Definition alt (r1 r2 : re) : re :=
  match r1, r2 with
  | Empty, _ => r2
  | _, Empty => r1
  | _, _ => Alt r1 r2
  end.

(** Brzozowski derivative. *)
Fixpoint deriv (c : ascii) (r : re) : re :=
  match r with
  | Empty => Empty
  | Eps => Empty
  | Cls p => if p c then Eps else Empty
  | Cat r1 r2 =>
      if nullable r1
      then alt (cat (deriv c r1) r2) (deriv c r2)
      else cat (deriv c r1) r2
  | Alt r1 r2 => alt (deriv c r1) (deriv c r2)
  | Star r1 => cat (deriv c r1) (Star r1)
  end.

(** Some prefix of [s] is in the language of [r]. *)
Fixpoint matches_prefix (r : re) (s : string) : bool :=
  nullable r ||
  match s with
  | EmptyString => false
  | String c s' => matches_prefix (deriv c r) s'
  end.

(** [RegExp.prototype.test] of a pattern without anchors: some substring
    of [s] is in the language of [r]. *)
Fixpoint test (r : re) (s : string) : bool :=
  matches_prefix r s ||
  match s with
  | EmptyString => false
  | String _ s' => test r s'
  end.

Definition chr (c : ascii) : re := Cls (Ascii.eqb c).

Fixpoint lit (s : string) : re :=
  match s with
  | EmptyString => Eps
  | String c s' => Cat (chr c) (lit s')
  end.

Fixpoint rep (n : nat) (r : re) : re :=
  match n with
  | O => Eps
  | S n' => Cat r (rep n' r)
  end.

Definition at_least (n : nat) (r : re) : re := Cat (rep n r) (Star r).
Definition plus (r : re) : re := at_least 1 r.
Definition opt (r : re) : re := Alt Eps r.

Fixpoint seq (rs : list re) : re :=
  match rs with
  | [] => Eps
  | r :: rs' => Cat r (seq rs')
  end.

Definition in_range (lo hi : ascii) (c : ascii) : bool :=
  (nat_of_ascii lo <=? nat_of_ascii c)%nat && (nat_of_ascii c <=? nat_of_ascii hi)%nat.

Definition one_of (s : string) (c : ascii) : bool :=
  existsb (Ascii.eqb c) (list_ascii_of_string s).

Definition upper : ascii -> bool := in_range "A" "Z".
Definition lower : ascii -> bool := in_range "a" "z".
Definition digit : ascii -> bool := in_range "0" "9".
Definition alnum (c : ascii) : bool := upper c || lower c || digit c.

(** [\s] on code units below 256: TAB, LF, VT, FF, CR, SPACE, NBSP. *)
Definition space (c : ascii) : bool :=
  let n := nat_of_ascii c in
  ((9 <=? n)%nat && (n <=? 13)%nat) || (n =? 32)%nat || (n =? 160)%nat.

End Regex.

(** ** JSON-like values ([v.any()]) *)

Inductive JValue : Type :=
| JNull
| JUndefined
| JBool (b : bool)
| JNum (n : Z)
| JStr (s : string)
| JArr (items : list JValue)
| JObj (fields : list (string * JValue)).

Definition jopt {A} (f : A -> JValue) (o : option A) : JValue :=
  match o with
  | Some a => f a
  | None => JUndefined
  end.

(** ** Secret denylist ([events.ts]) *)

Module Secret.
Import Regex.

Definition word (c : ascii) : bool := alnum c || one_of "_" c.
Definition token68 (c : ascii) : bool := alnum c || one_of "-._~+/" c.
Definition slack (c : ascii) : bool := alnum c || one_of "._-" c.
Definition upper_digit (c : ascii) : bool := digit c || upper c.

Definition SECRET_PATTERNS : list re :=
  [ Cat (lit "ghp_") (at_least 36 (Cls word));
    Cat (lit "gho_") (at_least 36 (Cls word));
    Cat (lit "ghu_") (at_least 36 (Cls word));
    Cat (lit "ghs_") (at_least 36 (Cls word));
    Cat (lit "github_pat_") (at_least 22 (Cls word));
    Cat (lit "sk-") (at_least 20 (Cls alnum));
    Cat (lit "sk_live_") (at_least 20 (Cls alnum));
    Cat (lit "sk_test_") (at_least 20 (Cls alnum));
    seq [lit "Bearer"; plus (Cls space); plus (Cls token68); Star (chr "=")];
    seq [lit "-----BEGIN"; plus (Cls space);
         opt (Cat (lit "RSA") (plus (Cls space)));
         lit "PRIVATE"; plus (Cls space); lit "KEY-----"];
    seq [lit "-----BEGIN"; plus (Cls space); lit "CERTIFICATE-----"];
    Cat (lit "xoxb-") (at_least 6 (Cls slack));
    Cat (lit "xoxp-") (at_least 6 (Cls slack));
    Cat (lit "AKIA") (rep 16 (Cls upper_digit)) ].

(** [SECRET_PATTERNS.some((p) => p.test(value))] *)
Definition secret_string (s : string) : bool :=
  existsb (fun p => test p s) SECRET_PATTERNS.

Fixpoint containsSecret (v : JValue) : bool :=
  match v with
  | JNull | JUndefined => false
  | JStr s => secret_string s
  | JArr items =>
      (fix some (l : list JValue) : bool :=
         match l with
         | [] => false
         | x :: l' => containsSecret x || some l'
         end) items
  | JObj fields =>
      (fix some (l : list (string * JValue)) : bool :=
         match l with
         | [] => false
         | (_, x) :: l' => containsSecret x || some l'
         end) fields
  | JBool _ | JNum _ => false
  end.

End Secret.
Export Secret.

(** ** Schema ([schema.ts]) *)

Inductive CardState : Type :=
  READY | RUNNING | NEEDS_DECISION | RETRY_SCHEDULED | DONE | FAILED.

Inductive DecisionState : Type :=
  PENDING | CLAIMED | RENDERED | EXPIRED.

Inductive UrgencyLevel : Type := u_now | u_today | u_whenever.

Inductive CommandStatus : Type :=
  CmdPENDING | CmdRUNNING | CmdSUCCEEDED | CmdFAILED | CmdCANCELED.

Inductive RbacRole : Type := owner | operator | viewer | bot.

Inductive EventType : Type :=
| CommandRequested | CommandStarted | CommandSucceeded | CommandFailed
| CommandCanceled | CommandRetryScheduled | CommandSkippedDuplicate
| DecisionRequested | DecisionClaimed | DecisionRendered
| DecisionRenderRejected | DecisionExpired
| ArtifactProduced | CardCreated | CardTransitioned
| SloBreached | DecisionDeferred | DecisionClaimExpired | ReconciliationDrift.

#[global] Instance CardState_eq_dec : EqDecision CardState.
Proof. solve_decision. Defined.
#[global] Instance DecisionState_eq_dec : EqDecision DecisionState.
Proof. solve_decision. Defined.
#[global] Instance UrgencyLevel_eq_dec : EqDecision UrgencyLevel.
Proof. solve_decision. Defined.
#[global] Instance RbacRole_eq_dec : EqDecision RbacRole.
Proof. solve_decision. Defined.
#[global] Instance EventType_eq_dec : EqDecision EventType.
Proof. solve_decision. Defined.

(** The string literal of each enum member, as it appears in payloads. *)
Definition card_state_name (s : CardState) : string :=
  match s with
  | READY => "READY" | RUNNING => "RUNNING" | NEEDS_DECISION => "NEEDS_DECISION"
  | RETRY_SCHEDULED => "RETRY_SCHEDULED" | DONE => "DONE" | FAILED => "FAILED"
  end.

Definition decision_state_name (s : DecisionState) : string :=
  match s with
  | PENDING => "PENDING" | CLAIMED => "CLAIMED"
  | RENDERED => "RENDERED" | EXPIRED => "EXPIRED"
  end.

Definition urgency_name (u : UrgencyLevel) : string :=
  match u with u_now => "now" | u_today => "today" | u_whenever => "whenever" end.

Record Producer : Type := { service : string; pversion : string }.

Record DecisionOption : Type :=
  { key : string; label : string; consequence : string }.

Record SourceThread : Type :=
  { platform : string; channelId : string; messageId : string }.

Record CommandConstraints : Type :=
  { cc_priority : option Z; cc_timeoutMs : option Z;
    cc_maxRetries : option Z; cc_concurrencyKey : option string }.

Record CommandSpec : Type :=
  { cs_commandType : string; cs_commandVersion : option Z;
    cs_args : option JValue; cs_context : option JValue;
    cs_constraints : option CommandConstraints }.

Record CardConstraints : Type :=
  { concurrencyKey : option string; maxRetries : option Z }.

Record CardSpec : Type :=
  { commandType : string; args : option JValue;
    constraints : option CardConstraints }.

Module Event.
Record t : Type :=
  { eventId : string; tenantId : string; projectId : string;
    type : EventType; version : Z; ts : Z; correlationId : string;
    causationId : option string; commandId : option string;
    runId : option string; cardId : option string;
    decisionId : option string; idempotencyKey : option string;
    producer : Producer; tags : option JValue; payload : JValue }.
End Event.

Module Command.
Record t : Type :=
  { commandId : string; tenantId : string; projectId : string;
    status : CommandStatus; latestRunId : option string;
    lastEventId : option string; updatedTs : Z; priority : Z;
    commandSpec : CommandSpec }.
End Command.

Module Card.
Record t : Type :=
  { cardId : string; tenantId : string; projectId : string;
    state : CardState; priority : Z; title : string; spec : CardSpec;
    createdTs : Z; updatedTs : Z; attempt : Z; retryAtTs : option Z;
    capabilities : option (list string);
    leasedTo : option string; leaseUntilTs : option Z;
    lastHeartbeatTs : option Z }.

(** The fields a [ctx.db.patch] of this table writes. *)
Definition set_state (s : CardState) (c : t) : t :=
  {| cardId := cardId c; tenantId := tenantId c; projectId := projectId c;
     state := s; priority := priority c; title := title c; spec := spec c;
     createdTs := createdTs c; updatedTs := updatedTs c;
     attempt := attempt c; retryAtTs := retryAtTs c;
     capabilities := capabilities c; leasedTo := leasedTo c;
     leaseUntilTs := leaseUntilTs c; lastHeartbeatTs := lastHeartbeatTs c |}.

Definition set_updatedTs (u : Z) (c : t) : t :=
  {| cardId := cardId c; tenantId := tenantId c; projectId := projectId c;
     state := state c; priority := priority c; title := title c; spec := spec c;
     createdTs := createdTs c; updatedTs := u;
     attempt := attempt c; retryAtTs := retryAtTs c;
     capabilities := capabilities c; leasedTo := leasedTo c;
     leaseUntilTs := leaseUntilTs c; lastHeartbeatTs := lastHeartbeatTs c |}.

Definition set_attempt (a : Z) (c : t) : t :=
  {| cardId := cardId c; tenantId := tenantId c; projectId := projectId c;
     state := state c; priority := priority c; title := title c; spec := spec c;
     createdTs := createdTs c; updatedTs := updatedTs c;
     attempt := a; retryAtTs := retryAtTs c;
     capabilities := capabilities c; leasedTo := leasedTo c;
     leaseUntilTs := leaseUntilTs c; lastHeartbeatTs := lastHeartbeatTs c |}.

Definition set_retryAtTs (r : option Z) (c : t) : t :=
  {| cardId := cardId c; tenantId := tenantId c; projectId := projectId c;
     state := state c; priority := priority c; title := title c; spec := spec c;
     createdTs := createdTs c; updatedTs := updatedTs c;
     attempt := attempt c; retryAtTs := r;
     capabilities := capabilities c; leasedTo := leasedTo c;
     leaseUntilTs := leaseUntilTs c; lastHeartbeatTs := lastHeartbeatTs c |}.
End Card.

Module Decision.
Record t : Type :=
  { decisionId : string; tenantId : string; projectId : string;
    cardId : string; commandId : string; runId : string;
    state : DecisionState; urgency : UrgencyLevel; title : string;
    contextSummary : option string; options : list DecisionOption;
    artifactRefs : option (list string); sourceThread : option SourceThread;
    requestedAt : Z; expiresAt : option Z; fallbackOption : option string;
    claimedBy : option string; claimedUntil : option Z;
    renderedOption : option string; renderedAt : option Z;
    renderedBy : option string }.

Definition set_state (s : DecisionState) (d : t) : t :=
  {| decisionId := decisionId d; tenantId := tenantId d; projectId := projectId d;
     cardId := cardId d; commandId := commandId d; runId := runId d;
     state := s; urgency := urgency d; title := title d;
     contextSummary := contextSummary d; options := options d;
     artifactRefs := artifactRefs d; sourceThread := sourceThread d;
     requestedAt := requestedAt d; expiresAt := expiresAt d;
     fallbackOption := fallbackOption d;
     claimedBy := claimedBy d; claimedUntil := claimedUntil d;
     renderedOption := renderedOption d; renderedAt := renderedAt d;
     renderedBy := renderedBy d |}.

Definition set_expiresAt (e : option Z) (d : t) : t :=
  {| decisionId := decisionId d; tenantId := tenantId d; projectId := projectId d;
     cardId := cardId d; commandId := commandId d; runId := runId d;
     state := state d; urgency := urgency d; title := title d;
     contextSummary := contextSummary d; options := options d;
     artifactRefs := artifactRefs d; sourceThread := sourceThread d;
     requestedAt := requestedAt d; expiresAt := e;
     fallbackOption := fallbackOption d;
     claimedBy := claimedBy d; claimedUntil := claimedUntil d;
     renderedOption := renderedOption d; renderedAt := renderedAt d;
     renderedBy := renderedBy d |}.

Definition set_claim (by_ : option string) (until : option Z) (d : t) : t :=
  {| decisionId := decisionId d; tenantId := tenantId d; projectId := projectId d;
     cardId := cardId d; commandId := commandId d; runId := runId d;
     state := state d; urgency := urgency d; title := title d;
     contextSummary := contextSummary d; options := options d;
     artifactRefs := artifactRefs d; sourceThread := sourceThread d;
     requestedAt := requestedAt d; expiresAt := expiresAt d;
     fallbackOption := fallbackOption d;
     claimedBy := by_; claimedUntil := until;
     renderedOption := renderedOption d; renderedAt := renderedAt d;
     renderedBy := renderedBy d |}.

Definition set_claimedUntil (until : option Z) (d : t) : t :=
  set_claim (claimedBy d) until d.

Definition set_rendered (opt : option string) (by_ : option string)
    (at_ : option Z) (d : t) : t :=
  {| decisionId := decisionId d; tenantId := tenantId d; projectId := projectId d;
     cardId := cardId d; commandId := commandId d; runId := runId d;
     state := state d; urgency := urgency d; title := title d;
     contextSummary := contextSummary d; options := options d;
     artifactRefs := artifactRefs d; sourceThread := sourceThread d;
     requestedAt := requestedAt d; expiresAt := expiresAt d;
     fallbackOption := fallbackOption d;
     claimedBy := claimedBy d; claimedUntil := claimedUntil d;
     renderedOption := opt; renderedAt := at_;
     renderedBy := by_ |}.
End Decision.

Module Member.
Record t : Type :=
  { tenantId : string; projectId : string; userId : string; role : RbacRole }.
End Member.

(** ** The store and the transaction monad *)

Record Store : Type :=
  { events : list Event.t;
    commands : list Command.t;
    cards : list Card.t;
    decisions : list Decision.t;
    project_members : list Member.t;
    (** entropy consumed by [generateId] *)
    rng : nat;
    (** lines written by [console.error]: project and backlog count *)
    console : list (string * Z) }.

Definition empty_store : Store :=
  {| events := []; commands := []; cards := []; decisions := [];
     project_members := []; rng := 0%nat; console := [] |}.

Definition with_events (f : list Event.t -> list Event.t) (db : Store) : Store :=
  {| events := f (events db); commands := commands db; cards := cards db;
     decisions := decisions db; project_members := project_members db;
     rng := rng db; console := console db |}.

Definition with_commands (f : list Command.t -> list Command.t) (db : Store) : Store :=
  {| events := events db; commands := f (commands db); cards := cards db;
     decisions := decisions db; project_members := project_members db;
     rng := rng db; console := console db |}.

Definition with_cards (f : list Card.t -> list Card.t) (db : Store) : Store :=
  {| events := events db; commands := commands db; cards := f (cards db);
     decisions := decisions db; project_members := project_members db;
     rng := rng db; console := console db |}.

Definition with_decisions (f : list Decision.t -> list Decision.t) (db : Store) : Store :=
  {| events := events db; commands := commands db; cards := cards db;
     decisions := f (decisions db); project_members := project_members db;
     rng := rng db; console := console db |}.

Definition with_rng (f : nat -> nat) (db : Store) : Store :=
  {| events := events db; commands := commands db; cards := cards db;
     decisions := decisions db; project_members := project_members db;
     rng := f (rng db); console := console db |}.

Definition with_console (f : list (string * Z) -> list (string * Z)) (db : Store) : Store :=
  {| events := events db; commands := commands db; cards := cards db;
     decisions := decisions db; project_members := project_members db;
     rng := rng db; console := f (console db) |}.

(** The errors the handlers throw, one constructor per [throw new Error]
    (and one for the error [.unique()] raises on several matches). *)
Inductive Err : Type :=
| Unauthenticated
| NotAMember
| InsufficientPermissions (required : list RbacRole)
| SecretInPayload
| SecretInTags
| CardNotFound (cardId : string)
| InvalidTransition (from to : CardState)
| DecisionNotFound
| NotClaimable (state : DecisionState)
| NotYourClaim
| InvalidOption (optionKey : string)
| InvalidOptions
| InvalidFallback (fallbackOption : string)
| NotUnique.

Inductive Res (A : Type) : Type :=
| Ok (a : A)
| Throw (e : Err).
Arguments Ok {A} a.
Arguments Throw {A} e.

Definition M (A : Type) : Type := Store -> Res (A * Store).

Definition ret {A} (a : A) : M A := fun db => Ok (a, db).
Definition throw {A} (e : Err) : M A := fun _ => Throw e.
Definition bind {A B} (m : M A) (f : A -> M B) : M B :=
  fun db =>
    match m db with
    | Ok (a, db') => f a db'
    | Throw e => Throw e
    end.
Definition get : M Store := fun db => Ok (db, db).
Definition modify (f : Store -> Store) : M unit := fun db => Ok (tt, f db).
Definition lift {A} (r : Res A) : M A :=
  fun db => match r with Ok a => Ok (a, db) | Throw e => Throw e end.

Declare Scope tx_scope.
Delimit Scope tx_scope with tx.
Notation "x <- m ;; k" := (bind m (fun x => k))
  (at level 100, m at next level, right associativity) : tx_scope.
Notation "m ;;; k" := (bind m (fun _ => k))
  (at level 100, right associativity) : tx_scope.
Local Open Scope tx_scope.

(** [for (const x of xs) { await body(x) }] *)
Fixpoint for_each {X} (xs : list X) (body : X -> M unit) : M unit :=
  match xs with
  | [] => ret tt
  | x :: xs' => body x ;;; for_each xs' body
  end.

(** What a committed or aborted top-level mutation leaves behind. *)
Definition commit {A} (m : M A) (db : Store) : Store :=
  match m db with
  | Ok (_, db') => db'
  | Throw _ => db
  end.

(** *** Table access ([ctx.db]) *)

(** The rows that satisfy [p], each with its document id. *)
Fixpoint rows_from {A} (p : A -> bool) (i : nat) (l : list A) : list (nat * A) :=
  match l with
  | [] => []
  | x :: l' =>
      if p x then (i, x) :: rows_from p (S i) l' else rows_from p (S i) l'
  end.

(** [.collect()] *)
Definition collect {A} (p : A -> bool) (l : list A) : list (nat * A) :=
  rows_from p 0 l.

(** [.first()] *)
Definition first {A} (p : A -> bool) (l : list A) : option (nat * A) :=
  head (collect p l).

(** [.unique()]: the row, [null] when there is none, an error on several. *)
Definition unique {A} (p : A -> bool) (l : list A) : Res (option (nat * A)) :=
  match collect p l with
  | [] => Ok None
  | [r] => Ok (Some r)
  | _ => Throw NotUnique
  end.

(** [ctx.db.patch(_id, ...)] on the two tables that are patched. *)
Definition patch_card (id : nat) (f : Card.t -> Card.t) : M unit :=
  modify (with_cards (alter f id)).

Definition patch_decision (id : nat) (f : Decision.t -> Decision.t) : M unit :=
  modify (with_decisions (alter f id)).

(** [generateId(prefix)]: the prefix, the clock and fresh entropy. *)
Definition fresh_id (prefix : string) (clk : Z) (db : Store) : string :=
  prefix ++ "_" ++ pretty clk ++ "-" ++ pretty (rng db).

Definition generateId (prefix : string) (clk : Z) : M string :=
  fun db => Ok (fresh_id prefix clk db, with_rng S db).

(** ** Event log ([events.ts]) *)

Definition insert_event (e : Event.t) : M nat :=
  fun db => Ok (length (events db), with_events (fun l => (l ++ [e])%list) db).

(** [appendEvent]: the sole write path of the log. Returns the document id
    of the stored event, or of the event that already holds the
    idempotency key. *)
Definition appendEvent (args : Event.t) : M nat :=
  if containsSecret (Event.payload args) then throw SecretInPayload
  else if match Event.tags args with
          | Some t => containsSecret t
          | None => false
          end then throw SecretInTags
  else
    match Event.idempotencyKey args with
    | Some k =>
        db <- get ;;
        match first (fun e => bool_decide (Event.idempotencyKey e = Some k))
                    (events db) with
        | Some (id, _) => ret id
        | None => insert_event args
        end
    | None => insert_event args
    end.

(** ** Access guard ([auth.ts]) *)

Record Identity : Type :=
  { subject : option string; tokenIdentifier : string }.

Record AuthContext : Type :=
  { userId : string; tenantId : string; projectId : string; role : RbacRole }.

Definition ALL_ROLES : list RbacRole := [owner; operator; viewer; bot].

Definition resolveAuth (who : option Identity) (projectId : string) : M AuthContext :=
  match who with
  | None => throw Unauthenticated
  | Some identity =>
      let userId := default (tokenIdentifier identity) (subject identity) in
      db <- get ;;
      member <- lift (unique (fun m => bool_decide (Member.userId m = userId)
                                       && bool_decide (Member.projectId m = projectId))
                             (project_members db)) ;;
      match member with
      | None => throw NotAMember
      | Some (_, m) =>
          ret {| userId := userId; tenantId := Member.tenantId m;
                 projectId := Member.projectId m; role := Member.role m |}
      end
  end.

Definition includes {A} `{EqDecision A} (x : A) (l : list A) : bool :=
  existsb (fun y => bool_decide (y = x)) l.

(** [withAuth({ roles }, handler)] *)
Definition withAuth {R} (roles : list RbacRole)
    (handler : AuthContext -> M R) (who : option Identity) (projectId : string) : M R :=
  authCtx <- resolveAuth who projectId ;;
  if negb (bool_decide (role authCtx = owner)) && negb (includes (role authCtx) roles)
  then throw (InsufficientPermissions roles)
  else handler authCtx.

(** ** Cards ([cards.ts]) *)

Definition VALID_TRANSITIONS (from : CardState) : list CardState :=
  match from with
  | READY => [RUNNING]
  | RUNNING => [DONE; NEEDS_DECISION; FAILED; RETRY_SCHEDULED]
  | NEEDS_DECISION => [RUNNING; FAILED]
  | RETRY_SCHEDULED => [READY]
  | DONE => []
  | FAILED => []
  end.

Definition json_of_cardConstraints (c : CardConstraints) : JValue :=
  JObj [("concurrencyKey", jopt JStr (concurrencyKey c));
        ("maxRetries", jopt JNum (maxRetries c))].

Definition json_of_cardSpec (s : CardSpec) : JValue :=
  JObj [("commandType", JStr (commandType s));
        ("args", jopt id (args s));
        ("constraints", jopt json_of_cardConstraints (constraints s))].

Module CreateCard.
Record args : Type :=
  { tenantId : string; projectId : string; commandId : string;
    correlationId : string; title : string; priority : Z;
    spec : CardSpec; capabilities : option (list string) }.
End CreateCard.

Definition insert_card (c : Card.t) : M nat :=
  fun db => Ok (length (cards db), with_cards (fun l => (l ++ [c])%list) db).

(** [createCard]: a plain [mutation]; the handler reads no identity, the
    caller [who] is whoever reaches the endpoint. *)
Definition createCard (who : option Identity) (a : CreateCard.args) (clk : Z)
    : M (string * nat) :=
  let now := clk in
  cardId <- generateId "card" clk ;;
  docId <- insert_card
    {| Card.cardId := cardId; Card.tenantId := CreateCard.tenantId a;
       Card.projectId := CreateCard.projectId a; Card.state := READY;
       Card.priority := CreateCard.priority a; Card.title := CreateCard.title a;
       Card.spec := CreateCard.spec a; Card.createdTs := now;
       Card.updatedTs := now; Card.attempt := 0; Card.retryAtTs := None;
       Card.capabilities := CreateCard.capabilities a; Card.leasedTo := None;
       Card.leaseUntilTs := None; Card.lastHeartbeatTs := None |} ;;
  eventId <- generateId "evt" clk ;;
  appendEvent
    {| Event.eventId := eventId; Event.tenantId := CreateCard.tenantId a;
       Event.projectId := CreateCard.projectId a; Event.type := CardCreated;
       Event.version := 1; Event.ts := now;
       Event.correlationId := CreateCard.correlationId a;
       Event.causationId := None;
       Event.commandId := Some (CreateCard.commandId a);
       Event.runId := None; Event.cardId := Some cardId;
       Event.decisionId := None; Event.idempotencyKey := None;
       Event.producer := {| service := "clawops-cards"; pversion := "0.1.0" |};
       Event.tags := None;
       Event.payload :=
         JObj [("title", JStr (CreateCard.title a));
               ("priority", JNum (CreateCard.priority a));
               ("spec", json_of_cardSpec (CreateCard.spec a))] |} ;;;
  ret (cardId, docId).

Module Transition.
Record args : Type :=
  { cardId : string; to : CardState; reason : string;
    correlationId : string; commandId : option string;
    runId : option string; decisionId : option string;
    retryAtTs : option Z }.
End Transition.

Definition lookup_card (cardId : string) : M (option (nat * Card.t)) :=
  db <- get ;;
  lift (unique (fun c => bool_decide (Card.cardId c = cardId)) (cards db)).

(** The [patch] object [transitionCard] builds from the card it read. *)
Definition transition_patch (card : Card.t) (a : Transition.args) (now : Z)
    (row : Card.t) : Card.t :=
  let from := Card.state card in
  let p1 := Card.set_updatedTs now (Card.set_state (Transition.to a) row) in
  let p2 := if bool_decide (Transition.to a = RUNNING)
            then Card.set_attempt (Card.attempt card + 1) p1 else p1 in
  let p3 := match Transition.retryAtTs a with
            | Some r =>
                if bool_decide (Transition.to a = RETRY_SCHEDULED)
                then Card.set_retryAtTs (Some r) p2 else p2
            | None => p2
            end in
  if bool_decide (from = RETRY_SCHEDULED) then Card.set_retryAtTs None p3 else p3.

(** The [CardTransitioned] event of a transition of [card]. *)
Definition transition_event (eventId : string) (card : Card.t)
    (a : Transition.args) (now : Z) : Event.t :=
  {| Event.eventId := eventId; Event.tenantId := Card.tenantId card;
     Event.projectId := Card.projectId card;
     Event.type := CardTransitioned; Event.version := 1;
     Event.ts := now;
     Event.correlationId := Transition.correlationId a;
     Event.causationId := None;
     Event.commandId := Transition.commandId a;
     Event.runId := Transition.runId a;
     Event.cardId := Some (Card.cardId card);
     Event.decisionId := Transition.decisionId a;
     Event.idempotencyKey := None;
     Event.producer := {| service := "clawops-cards"; pversion := "0.1.0" |};
     Event.tags := None;
     Event.payload :=
       JObj [("from", JStr (card_state_name (Card.state card)));
             ("to", JStr (card_state_name (Transition.to a)));
             ("reason", JStr (Transition.reason a))] |}.

(** [transitionCard]: internal mutation validating the state machine. *)
Definition transitionCard (a : Transition.args) (clk : Z)
    : M (CardState * CardState) :=
  found <- lookup_card (Transition.cardId a) ;;
  match found with
  | None => throw (CardNotFound (Transition.cardId a))
  | Some (id, card) =>
      let from := Card.state card in
      let allowed := VALID_TRANSITIONS from in
      if negb (includes (Transition.to a) allowed)
      then throw (InvalidTransition from (Transition.to a))
      else
        let now := clk in
        patch_card id (transition_patch card a now) ;;;
        eventId <- generateId "evt" clk ;;
        appendEvent (transition_event eventId card a now) ;;;
        ret (from, Transition.to a)
  end.

(** ** Command admission ([commands.ts]) *)

Definition json_of_commandConstraints (c : CommandConstraints) : JValue :=
  JObj [("priority", jopt JNum (cc_priority c));
        ("timeoutMs", jopt JNum (cc_timeoutMs c));
        ("maxRetries", jopt JNum (cc_maxRetries c));
        ("concurrencyKey", jopt JStr (cc_concurrencyKey c))].

Definition json_of_commandSpec (s : CommandSpec) : JValue :=
  JObj [("commandType", JStr (cs_commandType s));
        ("commandVersion", jopt JNum (cs_commandVersion s));
        ("args", jopt id (cs_args s));
        ("context", jopt id (cs_context s));
        ("constraints", jopt json_of_commandConstraints (cs_constraints s))].

Module RequestCommand.
Record args : Type :=
  { projectId : string; correlationId : string; title : string;
    commandSpec : CommandSpec; capabilities : option (list string);
    idempotencyKey : option string }.
End RequestCommand.

Definition insert_command (c : Command.t) : M nat :=
  fun db => Ok (length (commands db), with_commands (fun l => (l ++ [c])%list) db).

Definition requestCommand_handler (a : RequestCommand.args) (clk : Z)
    (auth : AuthContext) : M (string * string) :=
  let now := clk in
  commandId <- generateId "cmd" clk ;;
  cardId <- generateId "card" clk ;;
  let priority :=
    match cs_constraints (RequestCommand.commandSpec a) with
    | Some c => default 50 (cc_priority c)
    | None => 50
    end in
  (* 1. Emit CommandRequested event *)
  eventId <- generateId "evt" clk ;;
  appendEvent
    {| Event.eventId := eventId; Event.tenantId := tenantId auth;
       Event.projectId := projectId auth; Event.type := CommandRequested;
       Event.version := 1; Event.ts := now;
       Event.correlationId := RequestCommand.correlationId a;
       Event.causationId := None; Event.commandId := Some commandId;
       Event.runId := None; Event.cardId := Some cardId;
       Event.decisionId := None;
       Event.idempotencyKey := RequestCommand.idempotencyKey a;
       Event.producer := {| service := "clawops-commands"; pversion := "0.1.0" |};
       Event.tags := None;
       Event.payload :=
         JObj [("commandSpec", json_of_commandSpec (RequestCommand.commandSpec a));
               ("title", JStr (RequestCommand.title a))] |} ;;;
  (* 2. Insert command read model *)
  insert_command
    {| Command.commandId := commandId; Command.tenantId := tenantId auth;
       Command.projectId := projectId auth; Command.status := CmdPENDING;
       Command.latestRunId := None; Command.lastEventId := Some eventId;
       Command.updatedTs := now; Command.priority := priority;
       Command.commandSpec := RequestCommand.commandSpec a |} ;;;
  (* 3. Create card in READY state *)
  insert_card
    {| Card.cardId := cardId; Card.tenantId := tenantId auth;
       Card.projectId := projectId auth; Card.state := READY;
       Card.priority := priority; Card.title := RequestCommand.title a;
       Card.spec :=
         {| commandType := cs_commandType (RequestCommand.commandSpec a);
            args := cs_args (RequestCommand.commandSpec a);
            constraints :=
              match cs_constraints (RequestCommand.commandSpec a) with
              | Some c => Some {| concurrencyKey := cc_concurrencyKey c;
                                  maxRetries := cc_maxRetries c |}
              | None => None
              end |};
       Card.createdTs := now; Card.updatedTs := now; Card.attempt := 0;
       Card.retryAtTs := None;
       Card.capabilities := RequestCommand.capabilities a;
       Card.leasedTo := None; Card.leaseUntilTs := None;
       Card.lastHeartbeatTs := None |} ;;;
  (* 4. Emit CardCreated event *)
  eventId2 <- generateId "evt" clk ;;
  appendEvent
    {| Event.eventId := eventId2; Event.tenantId := tenantId auth;
       Event.projectId := projectId auth; Event.type := CardCreated;
       Event.version := 1; Event.ts := now;
       Event.correlationId := RequestCommand.correlationId a;
       Event.causationId := None; Event.commandId := Some commandId;
       Event.runId := None; Event.cardId := Some cardId;
       Event.decisionId := None; Event.idempotencyKey := None;
       Event.producer := {| service := "clawops-commands"; pversion := "0.1.0" |};
       Event.tags := None;
       Event.payload :=
         JObj [("title", JStr (RequestCommand.title a));
               ("priority", JNum priority)] |} ;;;
  ret (commandId, cardId).

Definition requestCommand (who : option Identity) (a : RequestCommand.args)
    (clk : Z) : M (string * string) :=
  withAuth [operator; bot; owner] (requestCommand_handler a clk)
           who (RequestCommand.projectId a).

(** ** Decision lifecycle ([decisions.ts]) *)

(** Default claim duration: 5 minutes. *)
Definition DECISION_CLAIM_MS : Z := 5 * 60 * 1000.

(** The event object every decision and sweeper path builds: scope given
    by the caller, subject ids and correlation taken from the decision
    row, no causation, idempotency key or tags. *)
Definition decision_event (svc : string) (eventId tenantId projectId : string)
    (type : EventType) (ts : Z) (d : Decision.t) (payload : JValue) : Event.t :=
  {| Event.eventId := eventId; Event.tenantId := tenantId;
     Event.projectId := projectId; Event.type := type; Event.version := 1;
     Event.ts := ts; Event.correlationId := Decision.commandId d;
     Event.causationId := None;
     Event.commandId := Some (Decision.commandId d);
     Event.runId := Some (Decision.runId d);
     Event.cardId := Some (Decision.cardId d);
     Event.decisionId := Some (Decision.decisionId d);
     Event.idempotencyKey := None;
     Event.producer := {| service := svc; pversion := "0.1.0" |};
     Event.tags := None; Event.payload := payload |}.

Definition lookup_decision (decisionId : string) : M (option (nat * Decision.t)) :=
  db <- get ;;
  lift (unique (fun d => bool_decide (Decision.decisionId d = decisionId))
               (decisions db)).

Definition insert_decision (d : Decision.t) : M nat :=
  fun db => Ok (length (decisions db), with_decisions (fun l => (l ++ [d])%list) db).

Definition has_option (k : string) (opts : list DecisionOption) : bool :=
  existsb (fun o => bool_decide (key o = k)) opts.

Module RequestDecision.
Record args : Type :=
  { projectId : string; cardId : string; commandId : string;
    runId : string; correlationId : string; causationId : option string;
    urgency : UrgencyLevel; title : string; contextSummary : option string;
    options : list DecisionOption; artifactRefs : option (list string);
    sourceThread : option SourceThread; expiresAt : option Z;
    fallbackOption : option string }.
End RequestDecision.

Definition requestDecision_handler (a : RequestDecision.args) (clk : Z)
    (auth : AuthContext) : M (string * nat) :=
  if bool_decide (RequestDecision.options a = []) then throw InvalidOptions
  else
    match RequestDecision.fallbackOption a with
    | Some f =>
        if negb (has_option f (RequestDecision.options a))
        then throw (InvalidFallback f) else ret tt
    | None => ret tt
    end ;;;
    let now := clk in
    decisionId <- generateId "dec" clk ;;
    docId <- insert_decision
      {| Decision.decisionId := decisionId; Decision.tenantId := tenantId auth;
         Decision.projectId := projectId auth;
         Decision.cardId := RequestDecision.cardId a;
         Decision.commandId := RequestDecision.commandId a;
         Decision.runId := RequestDecision.runId a;
         Decision.state := PENDING;
         Decision.urgency := RequestDecision.urgency a;
         Decision.title := RequestDecision.title a;
         Decision.contextSummary := RequestDecision.contextSummary a;
         Decision.options := RequestDecision.options a;
         Decision.artifactRefs := RequestDecision.artifactRefs a;
         Decision.sourceThread := RequestDecision.sourceThread a;
         Decision.requestedAt := now;
         Decision.expiresAt := RequestDecision.expiresAt a;
         Decision.fallbackOption := RequestDecision.fallbackOption a;
         Decision.claimedBy := None; Decision.claimedUntil := None;
         Decision.renderedOption := None; Decision.renderedAt := None;
         Decision.renderedBy := None |} ;;
    eventId <- generateId "evt" clk ;;
    appendEvent
      {| Event.eventId := eventId; Event.tenantId := tenantId auth;
         Event.projectId := projectId auth; Event.type := DecisionRequested;
         Event.version := 1; Event.ts := now;
         Event.correlationId := RequestDecision.correlationId a;
         Event.causationId := RequestDecision.causationId a;
         Event.commandId := Some (RequestDecision.commandId a);
         Event.runId := Some (RequestDecision.runId a);
         Event.cardId := Some (RequestDecision.cardId a);
         Event.decisionId := Some decisionId;
         Event.idempotencyKey := None;
         Event.producer := {| service := "clawops-decisions"; pversion := "0.1.0" |};
         Event.tags := None;
         Event.payload :=
           JObj [("title", JStr (RequestDecision.title a));
                 ("urgency", JStr (urgency_name (RequestDecision.urgency a)));
                 ("optionKeys", JArr (map (fun o => JStr (key o))
                                          (RequestDecision.options a)));
                 ("expiresAt", jopt JNum (RequestDecision.expiresAt a));
                 ("fallbackOption", jopt JStr (RequestDecision.fallbackOption a))] |} ;;;
    ret (decisionId, docId).

Definition requestDecision (who : option Identity) (a : RequestDecision.args)
    (clk : Z) : M (string * nat) :=
  withAuth [bot; owner] (requestDecision_handler a clk)
           who (RequestDecision.projectId a).

Inductive ClaimResult : Type :=
| already_claimed (claimedBy : string) (claimedUntil : Z)
| claimed (claimedUntil : Z).

Definition is_open (s : DecisionState) : bool :=
  bool_decide (s = PENDING) || bool_decide (s = CLAIMED).

(** The guard of [claimDecision]: claimed by someone else and the claim
    has not expired. *)
Definition held_by_other (d : Decision.t) (caller : string) (now : Z)
    : option (string * Z) :=
  match Decision.claimedBy d, Decision.claimedUntil d with
  | Some by_, Some until =>
      if negb (bool_decide (by_ = caller)) && (now <? until)
      then Some (by_, until) else None
  | _, _ => None
  end.

Definition take_claim (caller : string) (claimedUntil : Z) (row : Decision.t)
    : Decision.t :=
  Decision.set_claim (Some caller) (Some claimedUntil)
                     (Decision.set_state CLAIMED row).

Definition claimed_payload (caller : string) (claimedUntil : Z) : JValue :=
  JObj [("claimedBy", JStr caller); ("claimedUntil", JNum claimedUntil)].

Definition claimDecision_handler (decisionId : string) (clk : Z)
    (auth : AuthContext) : M ClaimResult :=
  found <- lookup_decision decisionId ;;
  match found with
  | None => throw DecisionNotFound
  | Some (id, decision) =>
      (* Cross-project check *)
      if negb (bool_decide (Decision.projectId decision = projectId auth))
      then throw DecisionNotFound
      else if negb (is_open (Decision.state decision))
      then throw (NotClaimable (Decision.state decision))
      else
        let now := clk in
        match held_by_other decision (userId auth) now with
        | Some (by_, until) => ret (already_claimed by_ until)
        | None =>
            let claimedUntil := now + DECISION_CLAIM_MS in
            patch_decision id (take_claim (userId auth) claimedUntil) ;;;
            eventId <- generateId "evt" clk ;;
            appendEvent
              (decision_event "clawops-decisions" eventId (tenantId auth)
                 (projectId auth) DecisionClaimed now decision
                 (claimed_payload (userId auth) claimedUntil)) ;;;
            ret (claimed claimedUntil)
        end
  end.

Definition claimDecision (who : option Identity) (projectId decisionId : string)
    (clk : Z) : M ClaimResult :=
  withAuth [operator; owner] (claimDecision_handler decisionId clk) who projectId.

Definition renewDecisionClaim_handler (decisionId : string) (clk : Z)
    (auth : AuthContext) : M Z :=
  found <- lookup_decision decisionId ;;
  match found with
  | None => throw DecisionNotFound
  | Some (id, decision) =>
      if negb (bool_decide (Decision.projectId decision = projectId auth))
      then throw DecisionNotFound
      else if negb (bool_decide (Decision.state decision = CLAIMED))
              || negb (bool_decide (Decision.claimedBy decision = Some (userId auth)))
      then throw NotYourClaim
      else
        let claimedUntil := clk + DECISION_CLAIM_MS in
        patch_decision id (Decision.set_claimedUntil (Some claimedUntil)) ;;;
        (* No event emitted *)
        ret claimedUntil
  end.

Definition renewDecisionClaim (who : option Identity) (projectId decisionId : string)
    (clk : Z) : M Z :=
  withAuth [operator; owner] (renewDecisionClaim_handler decisionId clk) who projectId.

Inductive RenderResult : Type :=
| rejected (reason : string)
| rendered (optionKey : string).

Module RenderDecision.
Record args : Type :=
  { projectId : string; decisionId : string; optionKey : string;
    note : option string }.
End RenderDecision.

(** Is the decision claimed by somebody who is not [caller]? *)
Definition claimed_by_another (d : Decision.t) (caller : string) : bool :=
  bool_decide (Decision.state d = CLAIMED)
  && match Decision.claimedBy d with
     | Some by_ => negb (bool_decide (by_ = caller))
     | None => false
     end.

(** The payload of [DecisionRenderRejected]; the [reason] field is only
    present on the claimed-by-another path. *)
Definition rejected_payload (optionKey caller : string)
    (currentState : DecisionState) (reason : option string) : JValue :=
  JObj ([("attemptedOption", JStr optionKey);
         ("attemptedBy", JStr caller);
         ("currentState", JStr (decision_state_name currentState))]
        ++ match reason with
           | Some r => [("reason", JStr r)]
           | None => []
           end)%list.

Definition rendered_payload (optionKey caller : string) (note : option string)
    : JValue :=
  JObj [("selectedOption", JStr optionKey);
        ("renderedBy", JStr caller);
        ("note", jopt JStr note)].

Definition render_patch (optionKey caller : string) (now : Z)
    (row : Decision.t) : Decision.t :=
  Decision.set_claim None None
    (Decision.set_rendered (Some optionKey) (Some caller) (Some now)
       (Decision.set_state RENDERED row)).

Definition renderDecision_handler (a : RenderDecision.args) (clk : Z)
    (auth : AuthContext) : M RenderResult :=
  found <- lookup_decision (RenderDecision.decisionId a) ;;
  match found with
  | None => throw DecisionNotFound
  | Some (id, decision) =>
      if negb (bool_decide (Decision.projectId decision = projectId auth))
      then throw DecisionNotFound
      else
        let now := clk in
        (* CAS check: only PENDING or CLAIMED are renderable. *)
        if negb (is_open (Decision.state decision)) then
          eventId <- generateId "evt" clk ;;
          appendEvent
            (decision_event "clawops-decisions" eventId (tenantId auth)
               (projectId auth) DecisionRenderRejected now decision
               (rejected_payload (RenderDecision.optionKey a) (userId auth)
                                 (Decision.state decision) None)) ;;;
          ret (rejected ("Decision already resolved (state: "
                         ++ decision_state_name (Decision.state decision) ++ ")"))
        (* If CLAIMED, verify the caller owns the claim *)
        else if claimed_by_another decision (userId auth) then
          eventId <- generateId "evt" clk ;;
          appendEvent
            (decision_event "clawops-decisions" eventId (tenantId auth)
               (projectId auth) DecisionRenderRejected now decision
               (rejected_payload (RenderDecision.optionKey a) (userId auth)
                                 (Decision.state decision)
                                 (Some "claimed_by_another"))) ;;;
          ret (rejected "Decision is claimed by another operator")
        (* Validate option key exists *)
        else if negb (has_option (RenderDecision.optionKey a) (Decision.options decision))
        then throw (InvalidOption (RenderDecision.optionKey a))
        else
          (* Render *)
          patch_decision id
            (render_patch (RenderDecision.optionKey a) (userId auth) now) ;;;
          eventId <- generateId "evt" clk ;;
          appendEvent
            (decision_event "clawops-decisions" eventId (tenantId auth)
               (projectId auth) DecisionRendered now decision
               (rendered_payload (RenderDecision.optionKey a) (userId auth)
                                 (RenderDecision.note a))) ;;;
          ret (rendered (RenderDecision.optionKey a))
  end.

Definition renderDecision (who : option Identity) (a : RenderDecision.args)
    (clk : Z) : M RenderResult :=
  withAuth [operator; owner] (renderDecision_handler a clk)
           who (RenderDecision.projectId a).

(** ** Sweeper ([sweeper.ts]) *)

Definition DEFER_EXTENSION_MS : Z := 24 * 60 * 60 * 1000.

(** The sum of two numbers where one of them comes from a caller: the
    exact sum rounded to the nearest float64, ties to the even
    significand. Below 2^53 nothing is rounded. (A sum beyond the largest
    float64 would be [Infinity]; adding [DEFER_EXTENSION_MS] to a finite
    number never gets there.) *)
Definition to_float64 (z : Z) : Z :=
  let m := Z.abs z in
  if m <? 2 ^ 53 then z
  else
    let q := 2 ^ (Z.log2 m - 52) in
    let n := m / q in
    let r := m mod q in
    let n' := if 2 * r <? q then n
              else if q <? 2 * r then n + 1
              else if Z.even n then n else n + 1 in
    Z.sgn z * (n' * q).

Definition number_add (a b : Z) : Z := to_float64 (a + b).
Arguments number_add : simpl never.
Definition NOW_BACKLOG_DEFER_THRESHOLD : Z := 2.
Definition NOW_BACKLOG_ALERT_THRESHOLD : Z := 5.

Definition SWEEPER : string := "system:sweeper".

Definition console_error (line : string * Z) : M unit :=
  modify (with_console (fun l => (l ++ [line])%list)).

(** *** 1. Release retries *)

Definition release_args (card : Card.t) : Transition.args :=
  {| Transition.cardId := Card.cardId card; Transition.to := READY;
     Transition.reason := "retry timer fired";
     Transition.correlationId := Card.cardId card;
     Transition.commandId := None; Transition.runId := None;
     Transition.decisionId := None; Transition.retryAtTs := None |}.

Definition release_one (now clk : Z) (r : nat * Card.t) : M unit :=
  let card := r.2 in
  match Card.retryAtTs card with
  | Some retryAtTs =>
      if retryAtTs <=? now then
        transitionCard (release_args card) clk ;;;
        ret tt
      else ret tt
  | None => ret tt
  end.

Definition releaseRetries (now clk : Z) : M unit :=
  db <- get ;;
  let retryCards :=
    collect (fun c => bool_decide (Card.state c = RETRY_SCHEDULED)) (cards db) in
  for_each retryCards (release_one now clk).

(** *** 2. Expire decisions *)

(** The arguments the sweeper passes to [transitionCard] for the card of
    a decision. *)
Definition resume_args (decision : Decision.t) (to : CardState)
    (reason : string) : Transition.args :=
  {| Transition.cardId := Decision.cardId decision; Transition.to := to;
     Transition.reason := reason;
     Transition.correlationId := Decision.commandId decision;
     Transition.commandId := Some (Decision.commandId decision);
     Transition.runId := Some (Decision.runId decision);
     Transition.decisionId := Some (Decision.decisionId decision);
     Transition.retryAtTs := None |}.

(** [if (card && card.state === "NEEDS_DECISION") transitionCard(...)] *)
Definition resume_card (decision : Decision.t) (to : CardState)
    (reason : string) (clk : Z) : M unit :=
  card <- lookup_card (Decision.cardId decision) ;;
  match card with
  | Some (_, c) =>
      if bool_decide (Card.state c = NEEDS_DECISION) then
        transitionCard (resume_args decision to reason) clk ;;;
        ret tt
      else ret tt
  | None => ret tt
  end.

Definition sweeper_event (eventId : string) (type : EventType) (now : Z)
    (d : Decision.t) (payload : JValue) : Event.t :=
  decision_event "clawops-sweeper" eventId (Decision.tenantId d)
                 (Decision.projectId d) type now d payload.

Definition expired_payload (decision : Decision.t) : JValue :=
  JObj [("expiresAt", jopt JNum (Decision.expiresAt decision));
        ("hadFallback",
          JBool (bool_decide (Decision.fallbackOption decision <> None)))].

Definition sweeper_rendered_payload (fallbackOption note : string) : JValue :=
  JObj [("selectedOption", JStr fallbackOption);
        ("renderedBy", JStr SWEEPER);
        ("note", JStr note)].

(** The patch that resolves a decision with its fallback on expiry. *)
Definition expire_with_fallback (fallbackOption : string) (now : Z)
    (row : Decision.t) : Decision.t :=
  Decision.set_claim None None
    (Decision.set_rendered (Some fallbackOption) (Some SWEEPER) (Some now)
       (Decision.set_state RENDERED row)).

Definition expire_without_fallback (row : Decision.t) : Decision.t :=
  Decision.set_claim None None (Decision.set_state EXPIRED row).

Definition expire_one (now clk : Z) (r : nat * Decision.t) : M unit :=
  let '(id, decision) := r in
  (* Emit DecisionExpired *)
  eventId <- generateId "evt" clk ;;
  appendEvent
    (sweeper_event eventId DecisionExpired now decision
                   (expired_payload decision)) ;;;
  match Decision.fallbackOption decision with
  | Some fallbackOption =>
      (* Auto-resolve with fallback option *)
      patch_decision id (expire_with_fallback fallbackOption now) ;;;
      eventId <- generateId "evt" clk ;;
      appendEvent
        (sweeper_event eventId DecisionRendered now decision
           (sweeper_rendered_payload fallbackOption
              "auto-resolved via fallback on expiration")) ;;;
      (* Transition card back to RUNNING if it's in NEEDS_DECISION *)
      resume_card decision RUNNING "decision expired, fallback applied" clk
  | None =>
      (* No fallback: mark decision EXPIRED, fail the card *)
      patch_decision id expire_without_fallback ;;;
      resume_card decision FAILED "decision expired, no fallback" clk
  end.

Definition is_expired (now : Z) (d : Decision.t) : bool :=
  match Decision.expiresAt d with
  | Some expiresAt => expiresAt <=? now
  | None => false
  end.

Definition expireDecisions (now clk : Z) : M unit :=
  db <- get ;;
  let openDecisions :=
    collect (fun d => is_open (Decision.state d)) (decisions db) in
  let expired := List.filter (fun r => is_expired now r.2) openDecisions in
  for_each expired (expire_one now clk).

(** *** 3. Reclaim expired claims *)

Definition release_claim (row : Decision.t) : Decision.t :=
  Decision.set_claim None None (Decision.set_state PENDING row).

Definition reclaim_one (now clk : Z) (r : nat * Decision.t) : M unit :=
  let '(id, decision) := r in
  let previousClaimedBy := Decision.claimedBy decision in
  patch_decision id release_claim ;;;
  eventId <- generateId "evt" clk ;;
  appendEvent
    (sweeper_event eventId DecisionClaimExpired now decision
       (JObj [("previousClaimedBy", jopt JStr previousClaimedBy);
              ("claimedUntil", jopt JNum (Decision.claimedUntil decision))])) ;;;
  ret tt.

Definition claim_lapsed (now : Z) (d : Decision.t) : bool :=
  match Decision.claimedUntil d with
  | Some claimedUntil => claimedUntil <? now
  | None => false
  end.

Definition reclaimExpiredClaims (now clk : Z) : M unit :=
  db <- get ;;
  let claimedDecisions :=
    collect (fun d => bool_decide (Decision.state d = CLAIMED)) (decisions db) in
  let expiredClaims := List.filter (fun r => claim_lapsed now r.2) claimedDecisions in
  for_each expiredClaims (reclaim_one now clk).

(** *** 4. Load shedding *)

(** A JavaScript [Map<string, number>]: entries in insertion order. *)
Fixpoint map_get (k : string) (m : list (string * Z)) : option Z :=
  match m with
  | [] => None
  | (k', v) :: m' => if bool_decide (k' = k) then Some v else map_get k m'
  end.

Fixpoint map_set (k : string) (v : Z) (m : list (string * Z)) : list (string * Z) :=
  match m with
  | [] => [(k, v)]
  | (k', v') :: m' =>
      if bool_decide (k' = k) then (k', v) :: m' else (k', v') :: map_set k v m'
  end.

(** Group the ["now"] backlog by project. *)
Definition count_backlog (pendingNow : list (nat * Decision.t)) : list (string * Z) :=
  fold_left
    (fun nowBacklog r =>
       let d := r.2 in
       map_set (Decision.projectId d)
               (default 0 (map_get (Decision.projectId d) nowBacklog) + 1)
               nowBacklog)
    pendingNow [].

Definition deferred_resolved_payload (count : Z) : JValue :=
  JObj [("reason", JStr "load_shedding");
        ("originalUrgency", JStr "whenever");
        ("action", JStr "auto_resolved_with_fallback");
        ("nowBacklog", JNum count)].

Definition deferred_extended_payload (newExpiresAt count : Z) : JValue :=
  JObj [("reason", JStr "load_shedding");
        ("originalUrgency", JStr "whenever");
        ("action", JStr "extended_expiry");
        ("newExpiresAt", JNum newExpiresAt);
        ("nowBacklog", JNum count)].

(** The patch that resolves a deferred decision with its fallback. *)
Definition shed_with_fallback (fallbackOption : string) (now : Z)
    (row : Decision.t) : Decision.t :=
  Decision.set_rendered (Some fallbackOption) (Some SWEEPER) (Some now)
    (Decision.set_state RENDERED row).

Definition shed_one (now clk : Z) (count : Z) (r : nat * Decision.t) : M unit :=
  let '(id, decision) := r in
  match Decision.fallbackOption decision with
  | Some fallbackOption =>
      (* Auto-resolve with fallback *)
      patch_decision id (shed_with_fallback fallbackOption now) ;;;
      eventId <- generateId "evt" clk ;;
      appendEvent
        (sweeper_event eventId DecisionDeferred now decision
                       (deferred_resolved_payload count)) ;;;
      eventId <- generateId "evt" clk ;;
      appendEvent
        (sweeper_event eventId DecisionRendered now decision
           (sweeper_rendered_payload fallbackOption
              "auto-resolved via load shedding")) ;;;
      (* Transition card if in NEEDS_DECISION *)
      resume_card decision RUNNING "decision deferred, fallback applied" clk
  | None =>
      (* No fallback: extend expiresAt by 24h *)
      let newExpiresAt :=
        number_add (default now (Decision.expiresAt decision)) DEFER_EXTENSION_MS in
      patch_decision id (Decision.set_expiresAt (Some newExpiresAt)) ;;;
      eventId <- generateId "evt" clk ;;
      appendEvent
        (sweeper_event eventId DecisionDeferred now decision
                       (deferred_extended_payload newExpiresAt count)) ;;;
      ret tt
  end.

Definition is_whenever_pending (projectId : string) (d : Decision.t) : bool :=
  bool_decide (Decision.projectId d = projectId)
  && bool_decide (Decision.state d = PENDING)
  && bool_decide (Decision.urgency d = u_whenever).

Definition shed_project (now clk : Z) (entry : string * Z) : M unit :=
  let '(projectId, count) := entry in
  (* Emergency alert *)
  (if NOW_BACKLOG_ALERT_THRESHOLD <? count
   then console_error (projectId, count) else ret tt) ;;;
  (* Defer "whenever" decisions *)
  if NOW_BACKLOG_DEFER_THRESHOLD <? count then
    db <- get ;;
    let wheneverDecisions := collect (is_whenever_pending projectId) (decisions db) in
    for_each wheneverDecisions (shed_one now clk count)
  else ret tt.

Definition is_now_backlog (d : Decision.t) : bool :=
  is_open (Decision.state d) && bool_decide (Decision.urgency d = u_now).

Definition loadShed (now clk : Z) : M unit :=
  db <- get ;;
  let pendingNow := collect is_now_backlog (decisions db) in
  let nowBacklog := count_backlog pendingNow in
  for_each nowBacklog (shed_project now clk).

(** *** Main sweep: [now = args.now ?? Date.now()] *)

Definition sweep (now_arg : option Z) (clk : Z) : M unit :=
  let now := default clk now_arg in
  releaseRetries now clk ;;;
  expireDecisions now clk ;;;
  reclaimExpiredClaims now clk ;;;
  loadShed now clk.

(** * Vocabulary of the properties *)

(** The store after one more event. *)
Definition push_event (e : Event.t) (db : Store) : Store :=
  with_events (fun l => (l ++ [e])%list) db.

(** The store after a successful [transitionCard] of row [k]. *)
Definition transitioned (eventId : string) (k : nat) (card : Card.t)
    (a : Transition.args) (clk : Z) (db : Store) : Store :=
  push_event (transition_event eventId card a clk)
    (with_rng S (with_cards (alter (transition_patch card a clk) k) db)).


(** ** Operations and runs *)

(** The mutations of the backend, each with its caller, its arguments and
    the clock reading of the transaction. *)
Inductive Op : Type :=
| OpCreateCard (who : option Identity) (a : CreateCard.args) (clk : Z)
| OpTransitionCard (a : Transition.args) (clk : Z)
| OpRequestCommand (who : option Identity) (a : RequestCommand.args) (clk : Z)
| OpRequestDecision (who : option Identity) (a : RequestDecision.args) (clk : Z)
| OpClaimDecision (who : option Identity) (projectId decisionId : string) (clk : Z)
| OpRenewDecisionClaim (who : option Identity) (projectId decisionId : string) (clk : Z)
| OpRenderDecision (who : option Identity) (a : RenderDecision.args) (clk : Z)
| OpSweep (now : option Z) (clk : Z).

(** One mutation, committed or rolled back. *)
Definition run_op (op : Op) (db : Store) : Store :=
  match op with
  | OpCreateCard who a clk => commit (createCard who a clk) db
  | OpTransitionCard a clk => commit (transitionCard a clk) db
  | OpRequestCommand who a clk => commit (requestCommand who a clk) db
  | OpRequestDecision who a clk => commit (requestDecision who a clk) db
  | OpClaimDecision who p d clk => commit (claimDecision who p d clk) db
  | OpRenewDecisionClaim who p d clk => commit (renewDecisionClaim who p d clk) db
  | OpRenderDecision who a clk => commit (renderDecision who a clk) db
  | OpSweep now clk => commit (sweep now clk) db
  end.

Definition run_ops (ops : list Op) (db : Store) : Store :=
  fold_left (fun db op => run_op op db) ops db.

(** The operations on existing decisions: claims, renewals, renders by
    any caller, and sweeps. *)
Inductive DecisionOp : Type :=
| DoClaim (who : option Identity) (projectId decisionId : string) (clk : Z)
| DoRenew (who : option Identity) (projectId decisionId : string) (clk : Z)
| DoRender (who : option Identity) (a : RenderDecision.args) (clk : Z)
| DoSweep (now : option Z) (clk : Z).

Definition op_of (o : DecisionOp) : Op :=
  match o with
  | DoClaim who p d clk => OpClaimDecision who p d clk
  | DoRenew who p d clk => OpRenewDecisionClaim who p d clk
  | DoRender who a clk => OpRenderDecision who a clk
  | DoSweep now clk => OpSweep now clk
  end.

(** ** Counting events *)

Definition event_about (ty : EventType) (decisionId : string) (e : Event.t) : bool :=
  bool_decide (Event.type e = ty)
  && bool_decide (Event.decisionId e = Some decisionId).

Definition count_events (ty : EventType) (decisionId : string)
    (log : list Event.t) : nat :=
  length (List.filter (event_about ty decisionId) log).

(** The decision ids of the [DecisionRendered] events, in log order. *)
Definition rendered_id (e : Event.t) : list string :=
  if bool_decide (Event.type e = DecisionRendered)
  then match Event.decisionId e with Some id => [id] | None => [] end
  else [].

Definition rendered_ids (log : list Event.t) : list string :=
  flat_map rendered_id log.

(** The invariant behind the exactly-one-render property: decision rows
    have distinct ids, no id was rendered twice, and a decision that is
    still open was never rendered. *)
Definition RenderInv (db : Store) : Prop :=
  NoDup (map Decision.decisionId (decisions db)) /\
  NoDup (rendered_ids (events db)) /\
  Forall (fun d => is_open (Decision.state d) = true ->
                   Decision.decisionId d ∉ rendered_ids (events db))
         (decisions db).

(** ** Transition events *)

Definition card_state_of_name (s : string) : option CardState :=
  List.find (fun st => bool_decide (card_state_name st = s))
            [READY; RUNNING; NEEDS_DECISION; RETRY_SCHEDULED; DONE; FAILED].

(** The [(from, to)] pair a [CardTransitioned] payload records. *)
Definition payload_edge (p : JValue) : option (CardState * CardState) :=
  match p with
  | JObj (("from", JStr f) :: ("to", JStr t) :: _) =>
      match card_state_of_name f, card_state_of_name t with
      | Some from, Some to => Some (from, to)
      | _, _ => None
      end
  | _ => None
  end.

Definition valid_edge (from to : CardState) : bool :=
  includes to (VALID_TRANSITIONS from).

(** An event respects the transition table: a [CardTransitioned] event
    records an edge of the table. *)
Definition edge_ok (e : Event.t) : bool :=
  if bool_decide (Event.type e = CardTransitioned)
  then match payload_edge (Event.payload e) with
       | Some (from, to) => valid_edge from to
       | None => false
       end
  else true.

(** The [CardTransitioned] events of one card. *)
Definition transitions_of (cardId : string) (log : list Event.t) : list Event.t :=
  List.filter (fun e => bool_decide (Event.type e = CardTransitioned)
                        && bool_decide (Event.cardId e = Some cardId)) log.

(** ** Atomic effects

    Every successful mutation is a sequence of the following effects on
    the cards, the decisions and the log (the other tables and the
    entropy are free to change). [step false] leaves out the creation
    of decisions. *)

Definition quiet (e : Event.t) : Prop :=
  Event.type e <> CardTransitioned /\ Event.type e <> DecisionRendered.

Inductive step (creates : bool) (db db' : Store) : Prop :=
| step_quiet :
    cards db' = cards db ->
    decisions db' = decisions db ->
    (events db' = events db \/
     exists e, quiet e /\ events db' = (events db ++ [e])%list) ->
    step creates db db'
| step_insert_card c :
    cards db' = (cards db ++ [c])%list ->
    decisions db' = decisions db ->
    events db' = events db ->
    step creates db db'
| step_insert_decision d :
    creates = true ->
    decisions db' = (decisions db ++ [d])%list ->
    cards db' = cards db ->
    events db' = events db ->
    step creates db db'
| step_patch_decision i d f :
    decisions db !! i = Some d ->
    Decision.decisionId (f d) = Decision.decisionId d ->
    (is_open (Decision.state (f d)) = true -> is_open (Decision.state d) = true) ->
    decisions db' = alter f i (decisions db) ->
    cards db' = cards db ->
    events db' = events db ->
    step creates db db'
| step_render i d f e :
    decisions db !! i = Some d ->
    is_open (Decision.state d) = true ->
    Decision.decisionId (f d) = Decision.decisionId d ->
    is_open (Decision.state (f d)) = false ->
    Event.type e = DecisionRendered ->
    Event.decisionId e = Some (Decision.decisionId d) ->
    decisions db' = alter f i (decisions db) ->
    events db' = (events db ++ [e])%list ->
    cards db' = cards db ->
    step creates db db'
| step_transition k card a clk eventId :
    cards db !! k = Some card ->
    (forall k' c', cards db !! k' = Some c' ->
                   Card.cardId c' = Card.cardId card -> k' = k) ->
    valid_edge (Card.state card) (Transition.to a) = true ->
    cards db' = alter (transition_patch card a clk) k (cards db) ->
    events db' = (events db ++ [transition_event eventId card a clk])%list ->
    decisions db' = decisions db ->
    step creates db db'.

Definition steps (creates : bool) : Store -> Store -> Prop := rtc (step creates).

(** ** Stores the sweeper passes through *)

(** After the expiry of decision [d] (row [id]), before its card is
    looked at. *)
Definition expired_store (eid1 eid2 : string) (now : Z) (id : nat)
    (d : Decision.t) (db : Store) : Store :=
  let db1 :=
    push_event (sweeper_event eid1 DecisionExpired now d (expired_payload d))
               (with_rng S db) in
  match Decision.fallbackOption d with
  | Some f =>
      push_event
        (sweeper_event eid2 DecisionRendered now d
           (sweeper_rendered_payload f "auto-resolved via fallback on expiration"))
        (with_rng S (with_decisions (alter (expire_with_fallback f now) id) db1))
  | None => with_decisions (alter expire_without_fallback id) db1
  end.

(** The card transition that follows an expiry. *)
Definition expiry_target (d : Decision.t) : CardState :=
  match Decision.fallbackOption d with Some _ => RUNNING | None => FAILED end.

Definition expiry_reason (d : Decision.t) : string :=
  match Decision.fallbackOption d with
  | Some _ => "decision expired, fallback applied"
  | None => "decision expired, no fallback"
  end.

(** After the deferral of decision [d] (row [id]), before its card is
    looked at. *)
Definition shed_store (eid1 eid2 : string) (now count : Z) (id : nat)
    (d : Decision.t) (db : Store) : Store :=
  match Decision.fallbackOption d with
  | Some f =>
      push_event
        (sweeper_event eid2 DecisionRendered now d
           (sweeper_rendered_payload f "auto-resolved via load shedding"))
        (with_rng S
           (push_event
              (sweeper_event eid1 DecisionDeferred now d
                             (deferred_resolved_payload count))
              (with_rng S (with_decisions (alter (shed_with_fallback f now) id) db))))
  | None =>
      let newExpiresAt :=
        number_add (default now (Decision.expiresAt d)) DEFER_EXTENSION_MS in
      push_event
        (sweeper_event eid1 DecisionDeferred now d
                       (deferred_extended_payload newExpiresAt count))
        (with_rng S
           (with_decisions (alter (Decision.set_expiresAt (Some newExpiresAt)) id) db))
  end.


(** The edges of the card state machine, as the specification lists them. *)
Definition TRANSITION_TABLE : list (CardState * CardState) :=
  [(READY, RUNNING);
   (RUNNING, DONE); (RUNNING, NEEDS_DECISION); (RUNNING, FAILED);
   (RUNNING, RETRY_SCHEDULED);
   (NEEDS_DECISION, RUNNING); (NEEDS_DECISION, FAILED);
   (RETRY_SCHEDULED, READY)].

Definition terminal (s : CardState) : Prop := s = DONE \/ s = FAILED.

(** The decisions the expiry phase of a sweep visits, in order. *)
Definition expired_snapshot (now : Z) (db : Store) : list (nat * Decision.t) :=
  List.filter (fun r => is_expired now r.2)
              (collect (fun d => is_open (Decision.state d)) (decisions db)).

(** ** Frames *)

(** Snapshots list rows by increasing document id. *)
Definition by_id {A} (x y : nat * A) : Prop := (x.1 < y.1)%nat.

(** The log only grows. *)
Definition log_extends (db db' : Store) : Prop :=
  exists l, events db' = (events db ++ l)%list.

(** Row [i] of the decisions still holds [d]. *)
Definition keeps_decision (i : nat) (d : Decision.t) (db db' : Store) : Prop :=
  decisions db !! i = Some d -> decisions db' !! i = Some d.

(** Row [k] of the cards still holds [c]. *)
Definition keeps_card (k : nat) (c : Card.t) (db db' : Store) : Prop :=
  cards db !! k = Some c -> cards db' !! k = Some c.

(** ** The outcome of an expiry *)

(** No decision created before row [i] that expires in the same sweep is
    linked to the card of [d]. *)
Definition first_expiring (now : Z) (db : Store) (i : nat) (d : Decision.t) : Prop :=
  forall j dj,
    (j < i)%nat -> decisions db !! j = Some dj ->
    is_open (Decision.state dj) = true -> is_expired now dj = true ->
    Decision.cardId dj <> Decision.cardId d.

(** What the sweeper makes of the row of an expired decision [d]. *)
Definition expired_row (now : Z) (d : Decision.t) : Decision.t :=
  match Decision.fallbackOption d with
  | Some f => expire_with_fallback f now d
  | None => expire_without_fallback d
  end.

(** ** Load shedding *)

(** The backlog of a project: its ["now"]-urgency decisions that are
    [PENDING] or [CLAIMED]. *)
Definition backlog (projectId : string) (db : Store) : Z :=
  Z.of_nat (length (List.filter
                      (fun d => is_now_backlog d
                                && bool_decide (Decision.projectId d = projectId))
                      (decisions db))).

(** What load shedding makes of the row of a deferred decision [d]. *)
Definition shed_row (now : Z) (d : Decision.t) : Decision.t :=
  match Decision.fallbackOption d with
  | Some f => shed_with_fallback f now d
  | None =>
      Decision.set_expiresAt
        (Some (number_add (default now (Decision.expiresAt d)) DEFER_EXTENSION_MS)) d
  end.

(** The events load shedding appends for a deferred decision [d]:
    [DecisionDeferred] followed at once by [DecisionRendered] when [d] has
    a fallback, [DecisionDeferred] with the new expiry when it has none. *)
Definition deferral_logged (now count : Z) (d : Decision.t) (db db' : Store) : Prop :=
  exists pre post,
    match Decision.fallbackOption d with
    | Some f =>
        exists e1 e2,
          events db' = (events db ++ pre ++ e1 :: e2 :: post)%list /\
          Event.type e1 = DecisionDeferred /\
          Event.decisionId e1 = Some (Decision.decisionId d) /\
          Event.payload e1 = deferred_resolved_payload count /\
          Event.type e2 = DecisionRendered /\
          Event.decisionId e2 = Some (Decision.decisionId d) /\
          Event.payload e2
          = sweeper_rendered_payload f "auto-resolved via load shedding"
    | None =>
        exists e1,
          events db' = (events db ++ pre ++ e1 :: post)%list /\
          Event.type e1 = DecisionDeferred /\
          Event.decisionId e1 = Some (Decision.decisionId d) /\
          Event.payload e1
          = deferred_extended_payload
              (number_add (default now (Decision.expiresAt d)) DEFER_EXTENSION_MS) count
    end.

(** One turn of the grouping loop of [loadShed]. *)
Definition backlog_step (nowBacklog : list (string * Z)) (r : nat * Decision.t)
    : list (string * Z) :=
  map_set (Decision.projectId r.2)
          (default 0 (map_get (Decision.projectId r.2) nowBacklog) + 1)
          nowBacklog.

(** The number of snapshot rows of one project. *)
Definition rows_of_project (projectId : string) (l : list (nat * Decision.t)) : Z :=
  Z.of_nat (length (List.filter
                      (fun r => bool_decide (Decision.projectId r.2 = projectId)) l)).

(** Card row [k] holds [c] still, or a card of the same id that was moved
    to [RUNNING]. *)
Definition card_settled (k : nat) (c : Card.t) (db : Store) : Prop :=
  exists c', cards db !! k = Some c' /\ Card.cardId c' = Card.cardId c /\
             (c' = c \/ Card.state c' = RUNNING).

(** ** What a recorded rejection looks like *)

(** [renderDecision] returned [{status: "rejected"}] and appended one
    [DecisionRenderRejected] event for [d], leaving the decisions alone. *)
Definition rejection_recorded (r : Res (RenderResult * Store)) (db : Store)
    (d : Decision.t) (optionKey caller : string) (reason : option string) : Prop :=
  exists msg db' e,
    r = Ok (rejected msg, db') /\
    decisions db' = decisions db /\
    events db' = (events db ++ [e])%list /\
    Event.type e = DecisionRenderRejected /\
    Event.decisionId e = Some (Decision.decisionId d) /\
    Event.payload e = rejected_payload optionKey caller (Decision.state d) reason.

(** ** What a taken lease looks like *)

(** Another user holds an unexpired claim on [d]. *)
Definition claimed_elsewhere (d : Decision.t) (caller : string) (now : Z) : Prop :=
  exists other until,
    Decision.claimedBy d = Some other /\ other <> caller /\
    Decision.claimedUntil d = Some until /\ now < until.

(** [claimDecision] returned [{status: "claimed"}] with a lease of five
    minutes from [now], wrote the claim on row [i] and appended one
    [DecisionClaimed] event. *)
Definition lease_taken (r : Res (ClaimResult * Store)) (db : Store) (i : nat)
    (d : Decision.t) (caller : string) (now : Z) : Prop :=
  exists db' d' e,
    r = Ok (claimed (now + 5 * 60 * 1000), db') /\
    decisions db' = <[i := d']> (decisions db) /\
    Decision.state d' = CLAIMED /\
    Decision.claimedBy d' = Some caller /\
    Decision.claimedUntil d' = Some (now + 5 * 60 * 1000) /\
    d' = take_claim caller (now + 5 * 60 * 1000) d /\
    events db' = (events db ++ [e])%list /\
    Event.type e = DecisionClaimed /\
    Event.decisionId e = Some (Decision.decisionId d) /\
    Event.payload e = claimed_payload caller (now + 5 * 60 * 1000).

(** * Scenarios

    Small stores on which the statements below are exercised. *)

Module Scenario.

Definition user (name : string) : option Identity :=
  Some {| subject := Some name; tokenIdentifier := "token:" ++ name |}.

Definition member (name : string) (r : RbacRole) : Member.t :=
  {| Member.tenantId := "tenant_test"; Member.projectId := "proj_test";
     Member.userId := name; Member.role := r |}.

Definition auth (name : string) (r : RbacRole) : AuthContext :=
  {| userId := name; tenantId := "tenant_test"; projectId := "proj_test";
     role := r |}.

Definition members : list Member.t :=
  [member "user:alice" owner; member "user:olga" operator;
   member "user:oscar" operator; member "user:vic" viewer;
   member "user:bot" bot].

Definition options : list DecisionOption :=
  [{| key := "approve"; label := "Approve"; consequence := "Proceed" |};
   {| key := "reject"; label := "Reject"; consequence := "Stop" |}].

Definition decision (id project card : string) (st : DecisionState)
    (u : UrgencyLevel) (expiresAt : option Z) (fallback : option string)
    (claimedBy : option string) (claimedUntil : option Z) : Decision.t :=
  {| Decision.decisionId := id; Decision.tenantId := "tenant_test";
     Decision.projectId := project; Decision.cardId := card;
     Decision.commandId := "cmd_test"; Decision.runId := "run_test";
     Decision.state := st; Decision.urgency := u;
     Decision.title := "Test decision"; Decision.contextSummary := None;
     Decision.options := options; Decision.artifactRefs := None;
     Decision.sourceThread := None; Decision.requestedAt := 0;
     Decision.expiresAt := expiresAt; Decision.fallbackOption := fallback;
     Decision.claimedBy := claimedBy; Decision.claimedUntil := claimedUntil;
     Decision.renderedOption := None; Decision.renderedAt := None;
     Decision.renderedBy := None |}.

Definition card (id : string) (st : CardState) (retryAtTs : option Z) : Card.t :=
  {| Card.cardId := id; Card.tenantId := "tenant_test";
     Card.projectId := "proj_test"; Card.state := st; Card.priority := 50;
     Card.title := "Test card";
     Card.spec := {| commandType := "test.run"; args := None; constraints := None |};
     Card.createdTs := 0; Card.updatedTs := 0; Card.attempt := 1;
     Card.retryAtTs := retryAtTs; Card.capabilities := None;
     Card.leasedTo := None; Card.leaseUntilTs := None;
     Card.lastHeartbeatTs := None |}.

Definition store (cs : list Card.t) (ds : list Decision.t) : Store :=
  {| events := []; commands := []; cards := cs; decisions := ds;
     project_members := members; rng := 0%nat; console := [] |}.

Definition render (decisionId optionKey : string) : RenderDecision.args :=
  {| RenderDecision.projectId := "proj_test";
     RenderDecision.decisionId := decisionId;
     RenderDecision.optionKey := optionKey; RenderDecision.note := None |}.

(** A decision that was rendered already. *)
Definition resolved : Store :=
  store [] [decision "dec_1" "proj_test" "card_1" RENDERED u_today None None None None].

(** A decision claimed by olga until time 500. *)
Definition held : Store :=
  store [] [decision "dec_1" "proj_test" "card_1" CLAIMED u_today None None
                     (Some "user:olga") (Some 500)].

(** A pending decision nobody holds. *)
Definition pending : Store :=
  store [] [decision "dec_1" "proj_test" "card_1" PENDING u_today None None None None].

Definition transition (cardId : string) (to : CardState)
    (retryAtTs : option Z) : Transition.args :=
  {| Transition.cardId := cardId; Transition.to := to;
     Transition.reason := "test"; Transition.correlationId := "corr_test";
     Transition.commandId := None; Transition.runId := None;
     Transition.decisionId := None; Transition.retryAtTs := retryAtTs |}.

Definition create_card : CreateCard.args :=
  {| CreateCard.tenantId := "tenant_test"; CreateCard.projectId := "proj_test";
     CreateCard.commandId := "cmd_test"; CreateCard.correlationId := "corr_test";
     CreateCard.title := "Test card"; CreateCard.priority := 50;
     CreateCard.spec := {| commandType := "test.run"; args := None;
                           constraints := None |};
     CreateCard.capabilities := None |}.

(** One card, already done. *)
Definition finished : Store := store [card "card_1" DONE None] [].

(** One card, running. *)
Definition running : Store := store [card "card_1" RUNNING None] [].

(** A life of a card: created, run, failed, then pushed again. *)
Definition card_life : list Op :=
  [OpCreateCard (user "user:alice") create_card 1;
   OpTransitionCard (transition "card_1-0" RUNNING None) 2;
   OpTransitionCard (transition "card_1-0" FAILED None) 3;
   OpTransitionCard (transition "card_1-0" READY None) 4;
   OpSweep (Some 5) 5].

Definition command (idempotencyKey : option string) : RequestCommand.args :=
  {| RequestCommand.projectId := "proj_test";
     RequestCommand.correlationId := "corr_test";
     RequestCommand.title := "Test command";
     RequestCommand.commandSpec :=
       {| cs_commandType := "notes.sync"; cs_commandVersion := None;
          cs_args := None; cs_context := None;
          cs_constraints :=
            Some {| cc_priority := Some 30; cc_timeoutMs := None;
                    cc_maxRetries := Some 3;
                    cc_concurrencyKey := Some "notes-sync" |} |};
     RequestCommand.capabilities := None;
     RequestCommand.idempotencyKey := idempotencyKey |}.

(** The store after a first [requestCommand] with idempotency key "k1". *)
Definition requested_once : Store :=
  commit (requestCommand (user "user:bot") (command (Some "k1")) 1) (store [] []).

(** Two decisions past their deadline at time 100, seeded by hand; the
    fallback of the first one trips the secret denylist of the log. No
    request builds this store: [requestDecision] and
    [_httpRequestDecision] log the fallback themselves and refuse it. *)
Definition poisoned : Store :=
  store [card "card_2" NEEDS_DECISION None]
        [decision "dec_1" "proj_test" "card_1" PENDING u_today (Some 50)
                  (Some "sk-aaaaaaaaaaaaaaaaaaaa") None None;
         decision "dec_2" "proj_test" "card_2" PENDING u_today (Some 50)
                  None None None].

(** The second of these decisions alone. *)
Definition unpoisoned : Store :=
  store [card "card_2" NEEDS_DECISION None]
        [decision "dec_2" "proj_test" "card_2" PENDING u_today (Some 50)
                  None None None].

(** Four decisions past their deadline at time 100, two of them on one
    card; the cards wait for their decisions. *)
Definition overdue : Store :=
  store [card "card_1" NEEDS_DECISION None; card "card_2" NEEDS_DECISION None;
         card "card_3" NEEDS_DECISION None]
        [decision "dec_1" "proj_test" "card_1" PENDING u_today (Some 50)
                  (Some "reject") None None;
         decision "dec_2" "proj_test" "card_2" CLAIMED u_today (Some 100)
                  None (Some "user:olga") (Some 500);
         decision "dec_3" "proj_test" "card_3" PENDING u_today (Some 60)
                  None None None;
         decision "dec_4" "proj_test" "card_3" PENDING u_today (Some 70)
                  (Some "approve") None None].

(** A project with three urgent decisions open and two that can wait, one
    of them with a fallback; and a calm project with two urgent decisions
    and one that can wait. *)
Definition overloaded : Store :=
  store [card "card_4" NEEDS_DECISION None]
        [decision "dec_1" "proj_test" "card_1" PENDING u_now None None None None;
         decision "dec_2" "proj_test" "card_2" PENDING u_now None None None None;
         decision "dec_3" "proj_test" "card_3" CLAIMED u_now None None
                  (Some "user:olga") (Some 500);
         decision "dec_4" "proj_test" "card_4" PENDING u_whenever None
                  (Some "approve") None None;
         decision "dec_5" "proj_test" "card_5" PENDING u_whenever (Some 160)
                  None None None;
         decision "dec_6" "proj_calm" "card_6" PENDING u_now None None None None;
         decision "dec_7" "proj_calm" "card_7" PENDING u_now None None None None;
         decision "dec_8" "proj_calm" "card_8" PENDING u_whenever (Some 160)
                  (Some "approve") None None].

(** A claim, a render, a second render by another operator, a sweep. *)
Definition session : list DecisionOp :=
  [DoClaim (user "user:olga") "proj_test" "dec_1" 10;
   DoRender (user "user:olga") (render "dec_1" "approve") 20;
   DoRender (user "user:oscar") (render "dec_1" "reject") 30;
   DoSweep (Some 40) 40].

End Scenario.

(** * The rest of the backend

    The mutations and queries around the ones above: the public log
    append, the HTTP entry points, and the properties stated about them. *)

(** ** Event emission ([events.ts]) *)

Module EmitEvent.
Record args : Type :=
  { projectId : string; eventId : string; type : EventType; version : Z;
    ts : Z; correlationId : string; causationId : option string;
    commandId : option string; runId : option string; cardId : option string;
    decisionId : option string; idempotencyKey : option string;
    producer : Producer; tags : option JValue; payload : JValue }.
End EmitEvent.

(** [{ ...args, tenantId: auth.tenantId }] *)
Definition emitted (a : EmitEvent.args) (auth : AuthContext) : Event.t :=
  {| Event.eventId := EmitEvent.eventId a; Event.tenantId := tenantId auth;
     Event.projectId := EmitEvent.projectId a; Event.type := EmitEvent.type a;
     Event.version := EmitEvent.version a; Event.ts := EmitEvent.ts a;
     Event.correlationId := EmitEvent.correlationId a;
     Event.causationId := EmitEvent.causationId a;
     Event.commandId := EmitEvent.commandId a; Event.runId := EmitEvent.runId a;
     Event.cardId := EmitEvent.cardId a; Event.decisionId := EmitEvent.decisionId a;
     Event.idempotencyKey := EmitEvent.idempotencyKey a;
     Event.producer := EmitEvent.producer a; Event.tags := EmitEvent.tags a;
     Event.payload := EmitEvent.payload a |}.

(** [emitEvent]: public, for bots and owners. *)
Definition emitEvent (who : option Identity) (a : EmitEvent.args) : M nat :=
  withAuth [bot; owner] (fun auth => appendEvent (emitted a auth))
           who (EmitEvent.projectId a).

(** ** HTTP entry points ([commands.ts], [decisions.ts]) *)

Module HttpRequestCommand.
Record args : Type :=
  { tenantId : string; projectId : string; correlationId : string;
    title : string; commandSpec : CommandSpec;
    capabilities : option (list string); idempotencyKey : option string }.
End HttpRequestCommand.

(** [_httpRequestCommand]: internal, no access guard; the tenant comes
    with the arguments. *)
Definition _httpRequestCommand (a : HttpRequestCommand.args) (clk : Z)
    : M (string * string) :=
  let now := clk in
  commandId <- generateId "cmd" clk ;;
  cardId <- generateId "card" clk ;;
  let priority :=
    match cs_constraints (HttpRequestCommand.commandSpec a) with
    | Some c => default 50 (cc_priority c)
    | None => 50
    end in
  eventId <- generateId "evt" clk ;;
  appendEvent
    {| Event.eventId := eventId; Event.tenantId := HttpRequestCommand.tenantId a;
       Event.projectId := HttpRequestCommand.projectId a;
       Event.type := CommandRequested;
       Event.version := 1; Event.ts := now;
       Event.correlationId := HttpRequestCommand.correlationId a;
       Event.causationId := None; Event.commandId := Some commandId;
       Event.runId := None; Event.cardId := Some cardId;
       Event.decisionId := None;
       Event.idempotencyKey := HttpRequestCommand.idempotencyKey a;
       Event.producer := {| service := "clawops-commands"; pversion := "0.1.0" |};
       Event.tags := None;
       Event.payload :=
         JObj [("commandSpec",
                 json_of_commandSpec (HttpRequestCommand.commandSpec a));
               ("title", JStr (HttpRequestCommand.title a))] |} ;;;
  insert_command
    {| Command.commandId := commandId;
       Command.tenantId := HttpRequestCommand.tenantId a;
       Command.projectId := HttpRequestCommand.projectId a;
       Command.status := CmdPENDING;
       Command.latestRunId := None; Command.lastEventId := Some eventId;
       Command.updatedTs := now; Command.priority := priority;
       Command.commandSpec := HttpRequestCommand.commandSpec a |} ;;;
  insert_card
    {| Card.cardId := cardId; Card.tenantId := HttpRequestCommand.tenantId a;
       Card.projectId := HttpRequestCommand.projectId a; Card.state := READY;
       Card.priority := priority; Card.title := HttpRequestCommand.title a;
       Card.spec :=
         {| commandType := cs_commandType (HttpRequestCommand.commandSpec a);
            args := cs_args (HttpRequestCommand.commandSpec a);
            constraints :=
              match cs_constraints (HttpRequestCommand.commandSpec a) with
              | Some c => Some {| concurrencyKey := cc_concurrencyKey c;
                                  maxRetries := cc_maxRetries c |}
              | None => None
              end |};
       Card.createdTs := now; Card.updatedTs := now; Card.attempt := 0;
       Card.retryAtTs := None;
       Card.capabilities := HttpRequestCommand.capabilities a;
       Card.leasedTo := None; Card.leaseUntilTs := None;
       Card.lastHeartbeatTs := None |} ;;;
  eventId2 <- generateId "evt" clk ;;
  appendEvent
    {| Event.eventId := eventId2; Event.tenantId := HttpRequestCommand.tenantId a;
       Event.projectId := HttpRequestCommand.projectId a;
       Event.type := CardCreated;
       Event.version := 1; Event.ts := now;
       Event.correlationId := HttpRequestCommand.correlationId a;
       Event.causationId := None; Event.commandId := Some commandId;
       Event.runId := None; Event.cardId := Some cardId;
       Event.decisionId := None; Event.idempotencyKey := None;
       Event.producer := {| service := "clawops-commands"; pversion := "0.1.0" |};
       Event.tags := None;
       Event.payload :=
         JObj [("title", JStr (HttpRequestCommand.title a));
               ("priority", JNum priority)] |} ;;;
  ret (commandId, cardId).

Module HttpRequestDecision.
Record args : Type :=
  { tenantId : string; projectId : string; cardId : string;
    commandId : string; runId : string; correlationId : string;
    causationId : option string; urgency : UrgencyLevel; title : string;
    contextSummary : option string; options : list DecisionOption;
    artifactRefs : option (list string); sourceThread : option SourceThread;
    expiresAt : option Z; fallbackOption : option string }.
End HttpRequestDecision.

(** [_httpRequestDecision]: internal, no access guard; returns the
    decision id only. *)
Definition _httpRequestDecision (a : HttpRequestDecision.args) (clk : Z)
    : M string :=
  if bool_decide (HttpRequestDecision.options a = []) then throw InvalidOptions
  else
    match HttpRequestDecision.fallbackOption a with
    | Some f =>
        if negb (has_option f (HttpRequestDecision.options a))
        then throw (InvalidFallback f) else ret tt
    | None => ret tt
    end ;;;
    let now := clk in
    decisionId <- generateId "dec" clk ;;
    insert_decision
      {| Decision.decisionId := decisionId;
         Decision.tenantId := HttpRequestDecision.tenantId a;
         Decision.projectId := HttpRequestDecision.projectId a;
         Decision.cardId := HttpRequestDecision.cardId a;
         Decision.commandId := HttpRequestDecision.commandId a;
         Decision.runId := HttpRequestDecision.runId a;
         Decision.state := PENDING;
         Decision.urgency := HttpRequestDecision.urgency a;
         Decision.title := HttpRequestDecision.title a;
         Decision.contextSummary := HttpRequestDecision.contextSummary a;
         Decision.options := HttpRequestDecision.options a;
         Decision.artifactRefs := HttpRequestDecision.artifactRefs a;
         Decision.sourceThread := HttpRequestDecision.sourceThread a;
         Decision.requestedAt := now;
         Decision.expiresAt := HttpRequestDecision.expiresAt a;
         Decision.fallbackOption := HttpRequestDecision.fallbackOption a;
         Decision.claimedBy := None; Decision.claimedUntil := None;
         Decision.renderedOption := None; Decision.renderedAt := None;
         Decision.renderedBy := None |} ;;;
    eventId <- generateId "evt" clk ;;
    appendEvent
      {| Event.eventId := eventId;
         Event.tenantId := HttpRequestDecision.tenantId a;
         Event.projectId := HttpRequestDecision.projectId a;
         Event.type := DecisionRequested;
         Event.version := 1; Event.ts := now;
         Event.correlationId := HttpRequestDecision.correlationId a;
         Event.causationId := HttpRequestDecision.causationId a;
         Event.commandId := Some (HttpRequestDecision.commandId a);
         Event.runId := Some (HttpRequestDecision.runId a);
         Event.cardId := Some (HttpRequestDecision.cardId a);
         Event.decisionId := Some decisionId;
         Event.idempotencyKey := None;
         Event.producer := {| service := "clawops-decisions"; pversion := "0.1.0" |};
         Event.tags := None;
         Event.payload :=
           JObj [("title", JStr (HttpRequestDecision.title a));
                 ("urgency", JStr (urgency_name (HttpRequestDecision.urgency a)));
                 ("optionKeys", JArr (map (fun o => JStr (key o))
                                          (HttpRequestDecision.options a)));
                 ("expiresAt", jopt JNum (HttpRequestDecision.expiresAt a));
                 ("fallbackOption",
                   jopt JStr (HttpRequestDecision.fallbackOption a))] |} ;;;
    ret decisionId.

(** ** Requests

    Every mutation that writes to the log, the cards or the decisions. *)

Inductive Request : Type :=
| Mutation (op : Op)
| EmitEvent (who : option Identity) (a : EmitEvent.args)
| HttpCommand (a : HttpRequestCommand.args) (clk : Z)
| HttpDecision (a : HttpRequestDecision.args) (clk : Z).

Definition serve (r : Request) (db : Store) : Store :=
  match r with
  | Mutation op => run_op op db
  | EmitEvent who a => commit (emitEvent who a) db
  | HttpCommand a clk => commit (_httpRequestCommand a clk) db
  | HttpDecision a clk => commit (_httpRequestDecision a clk) db
  end.

Definition serve_all (rs : list Request) (db : Store) : Store :=
  fold_left (fun db r => serve r db) rs db.

(** An event that a caller stored through [emitEvent] in the run [rs]. *)
Definition emitted_in (rs : list Request) (e : Event.t) : Prop :=
  exists who a auth, In (EmitEvent who a) rs /\ e = emitted a auth.

(** ** Growth of the log *)

(** An event passes the secret denylist. *)
Definition clean (e : Event.t) : Prop :=
  containsSecret (Event.payload e) = false /\
  match Event.tags e with
  | Some t => containsSecret t = false
  | None => True
  end.

(** An event the log [l] accepts: it is clean, and its idempotency key,
    if it has one, is not held by an event of [l]. *)
Definition accepted (l : list Event.t) (e : Event.t) : Prop :=
  clean e /\
  forall k, Event.idempotencyKey e = Some k ->
            Forall (fun x => Event.idempotencyKey x <> Some k) l.

(** The log [l'] is [l] followed by events that were accepted one by
    one. *)
Inductive grows (l : list Event.t) : list Event.t -> Prop :=
| grows_refl : grows l l
| grows_snoc l' e : grows l l' -> accepted l' e -> grows l (l' ++ [e])%list.

(** A transaction that only writes to the log through accepted events. *)
Definition log_safe {A} (m : M A) : Prop :=
  forall db a db', m db = Ok (a, db') -> grows (events db) (events db').

(** No two events of the log hold the same idempotency key. *)
Definition keys_unique (l : list Event.t) : Prop :=
  forall i j e e' k,
    l !! i = Some e -> l !! j = Some e' ->
    Event.idempotencyKey e = Some k -> Event.idempotencyKey e' = Some k ->
    i = j.

(** ** Projects and members ([projectSetup.ts], [members.ts])

    The [projects] table is kept beside the store. A member row is
    deleted by position: member ids are read and used within one
    mutation only. *)

Module Project.
Record t : Type :=
  { tenantId : string; projectId : string; name : string;
    createdAt : Z; createdBy : string }.
End Project.

Record Registry : Type :=
  { projects : list Project.t; base : Store }.

Definition with_members (f : list Member.t -> list Member.t) (db : Store) : Store :=
  {| events := events db; commands := commands db; cards := cards db;
     decisions := decisions db; project_members := f (project_members db);
     rng := rng db; console := console db |}.

Definition with_base (f : Store -> Store) (reg : Registry) : Registry :=
  {| projects := projects reg; base := f (base reg) |}.

(** The errors of the administration mutations: those of the access
    guard and of [.unique()], and one per [throw new Error] of the
    handlers. *)
Inductive AdminErr : Type :=
| Denied (e : Err)
| ProjectExists (projectId : string)
| AlreadyMember (userId : string)
| NotMember (userId : string)
| LastOwner.

Inductive Outcome (A : Type) : Type :=
| Done (a : A)
| Failed (e : AdminErr).
Arguments Done {A} a.
Arguments Failed {A} e.

(** [withAuth({ roles }, handler)] around a handler that throws errors
    of its own. *)
Definition guarded {R} (roles : list RbacRole) (who : option Identity)
    (projectId : string) (handler : AuthContext -> Store -> Outcome R)
    (db : Store) : Outcome R :=
  match withAuth roles ret who projectId db with
  | Ok (auth, db1) => handler auth db1
  | Throw e => Failed (Denied e)
  end.

Module InitProject.
Record args : Type :=
  { tenantId : string; projectId : string; name : string }.
End InitProject.

(** [initProject]: the bootstrap entry point; the caller becomes owner. *)
Definition initProject (who : option Identity) (a : InitProject.args) (clk : Z)
    (reg : Registry) : Outcome (string * Registry) :=
  match who with
  | None => Failed (Denied Unauthenticated)
  | Some identity =>
      let userId := default (tokenIdentifier identity) (subject identity) in
      (* Reject if project already exists *)
      match unique (fun p => bool_decide (Project.projectId p = InitProject.projectId a))
                   (projects reg) with
      | Throw e => Failed (Denied e)
      | Ok (Some _) => Failed (ProjectExists (InitProject.projectId a))
      | Ok None =>
          let now := clk in
          Done (InitProject.projectId a,
                {| projects :=
                     (projects reg ++
                      [{| Project.tenantId := InitProject.tenantId a;
                          Project.projectId := InitProject.projectId a;
                          Project.name := InitProject.name a;
                          Project.createdAt := now;
                          Project.createdBy := userId |}])%list;
                   base :=
                     with_members
                       (fun l =>
                          (l ++ [{| Member.tenantId := InitProject.tenantId a;
                                    Member.projectId := InitProject.projectId a;
                                    Member.userId := userId;
                                    Member.role := owner |}])%list)
                       (base reg) |})
      end
  end.

Definition member_of (userId projectId : string) (m : Member.t) : bool :=
  bool_decide (Member.userId m = userId)
  && bool_decide (Member.projectId m = projectId).

Module AddMember.
Record args : Type := { projectId : string; userId : string; role : RbacRole }.
End AddMember.

(** [addMember]: owner only. *)
Definition addMember (who : option Identity) (a : AddMember.args)
    (db : Store) : Outcome ((string * RbacRole) * Store) :=
  guarded [owner] who (AddMember.projectId a)
    (fun auth db =>
       (* Check if already a member *)
       match unique (member_of (AddMember.userId a) (AddMember.projectId a))
                    (project_members db) with
       | Throw e => Failed (Denied e)
       | Ok (Some _) => Failed (AlreadyMember (AddMember.userId a))
       | Ok None =>
           Done ((AddMember.userId a, AddMember.role a),
                 with_members
                   (fun l =>
                      (l ++ [{| Member.tenantId := tenantId auth;
                                Member.projectId := projectId auth;
                                Member.userId := AddMember.userId a;
                                Member.role := AddMember.role a |}])%list)
                   db)
       end)
    db.

Definition is_owner_of (projectId : string) (m : Member.t) : bool :=
  bool_decide (Member.projectId m = projectId)
  && bool_decide (Member.role m = owner).

(** [removeMember]: owner only; the last owner cannot be removed. *)
Definition removeMember (who : option Identity) (project userId : string)
    (db : Store) : Outcome (string * Store) :=
  guarded [owner] who project
    (fun auth db =>
       match unique (member_of userId project) (project_members db) with
       | Throw e => Failed (Denied e)
       | Ok None => Failed (NotMember userId)
       | Ok (Some (id, member)) =>
           (* Cannot remove the last owner *)
           if bool_decide (Member.role member = owner)
              && (length (collect (is_owner_of project) (project_members db))
                  <=? 1)%nat
           then Failed LastOwner
           else Done (userId, with_members (delete id) db)
       end)
    db.

(** [withAuthQ]: the guard of the queries, the same as [withAuth]. *)
Definition withAuthQ {R} (roles : list RbacRole)
    (handler : AuthContext -> M R) (who : option Identity) (projectId : string) : M R :=
  authCtx <- resolveAuth who projectId ;;
  if negb (bool_decide (role authCtx = owner)) && negb (includes (role authCtx) roles)
  then throw (InsufficientPermissions roles)
  else handler authCtx.

(** [getMyRole]: any role. *)
Definition getMyRole (who : option Identity) (projectId : string)
    : M (RbacRole * string) :=
  withAuthQ ALL_ROLES (fun auth => ret (role auth, userId auth)) who projectId.

(** The administration requests. *)
Inductive Admin : Type :=
| AdminInit (who : option Identity) (a : InitProject.args) (clk : Z)
| AdminAdd (who : option Identity) (a : AddMember.args)
| AdminRemove (who : option Identity) (projectId userId : string).

(** One administration mutation, committed or rolled back. *)
Definition administer (r : Admin) (reg : Registry) : Registry :=
  match r with
  | AdminInit who a clk =>
      match initProject who a clk reg with
      | Done (_, reg') => reg'
      | Failed _ => reg
      end
  | AdminAdd who a =>
      match addMember who a (base reg) with
      | Done (_, db') => with_base (fun _ => db') reg
      | Failed _ => reg
      end
  | AdminRemove who p u =>
      match removeMember who p u (base reg) with
      | Done (_, db') => with_base (fun _ => db') reg
      | Failed _ => reg
      end
  end.

Definition administer_all (rs : list Admin) (reg : Registry) : Registry :=
  fold_left (fun reg r => administer r reg) rs reg.

(** The registry invariant: projects and memberships are unique, every
    membership belongs to a project, and every project has an owner. *)
Definition membership_key (m : Member.t) : string * string :=
  (Member.userId m, Member.projectId m).

Record RegistryInv (reg : Registry) : Prop :=
  { projects_unique : NoDup (map Project.projectId (projects reg));
    members_unique : NoDup (map membership_key (project_members (base reg)));
    members_scoped :
      forall m, m ∈ project_members (base reg) ->
                Member.projectId m ∈ map Project.projectId (projects reg);
    projects_owned :
      forall p, p ∈ projects reg ->
                exists m, m ∈ project_members (base reg) /\
                          is_owner_of (Project.projectId p) m = true }.

(** ** Waiting for a decision ([adapter.ts]) *)

(** [String.prototype.toLowerCase] on the letters A to Z. *)
Definition lower_ascii (c : ascii) : ascii :=
  let n := nat_of_ascii c in
  if ((65 <=? n) && (n <=? 90))%nat then ascii_of_nat (n + 32) else c.

Fixpoint toLowerCase (s : string) : string :=
  match s with
  | EmptyString => EmptyString
  | String c s' => String (lower_ascii c) (toLowerCase s')
  end.

Record Awaited : Type :=
  { status : string; selectedOption : option string; renderedBy : option string }.

(** [awaitDecision]: the bot polls this to check decision status. *)
Definition awaitDecision (who : option Identity) (project decisionId : string)
    : M (option Awaited) :=
  withAuthQ [bot; owner]
    (fun auth =>
       decision <- lookup_decision decisionId ;;
       match decision with
       | None => ret None
       | Some (_, d) =>
           if negb (bool_decide (Decision.projectId d = projectId auth))
           then ret None
           else ret (Some {| status := toLowerCase (decision_state_name (Decision.state d));
                             selectedOption := Decision.renderedOption d;
                             renderedBy := Decision.renderedBy d |})
       end)
    who project.

(** ** The decision queue ([decisions.ts]) *)

(** [Array.prototype.sort(cmp)]: a stable sort; an element goes before
    the elements it does not compare greater than, and keeps its place
    among those it compares equal to. *)
Fixpoint sort_insert {A} (cmp : A -> A -> Z) (x : A) (l : list A) : list A :=
  match l with
  | [] => [x]
  | y :: l' => if cmp x y <=? 0 then x :: y :: l' else y :: sort_insert cmp x l'
  end.

Definition sort {A} (cmp : A -> A -> Z) (l : list A) : list A :=
  foldr (sort_insert cmp) [] l.

Definition urgencyOrder (u : UrgencyLevel) : Z :=
  match u with u_now => 0 | u_today => 1 | u_whenever => 2 end.

(** The comparator of the queue: urgency first, then [requestedAt]. *)
Definition queue_cmp (a b : Decision.t) : Z :=
  let ua := urgencyOrder (Decision.urgency a) in
  let ub := urgencyOrder (Decision.urgency b) in
  if negb (ua =? ub) then ua - ub
  else Decision.requestedAt a - Decision.requestedAt b.

(** A range of the index [by_projectId_state_urgency]: the rows of one
    project and state, by urgency (the index orders the strings ["now"],
    ["today"], ["whenever"]) and then by creation. *)
Definition in_queue (projectId : string) (st : DecisionState) (u : UrgencyLevel)
    (d : Decision.t) : bool :=
  bool_decide (Decision.projectId d = projectId)
  && bool_decide (Decision.state d = st)
  && bool_decide (Decision.urgency d = u).

Definition by_project_state_urgency (projectId : string) (st : DecisionState)
    (urgency : option UrgencyLevel) (l : list Decision.t) : list Decision.t :=
  match urgency with
  | Some u => map snd (collect (in_queue projectId st u) l)
  | None =>
      (map snd (collect (in_queue projectId st u_now) l)
       ++ map snd (collect (in_queue projectId st u_today) l)
       ++ map snd (collect (in_queue projectId st u_whenever) l))%list
  end.

(** [pendingDecisions]: any role. *)
Definition pendingDecisions (who : option Identity) (projectId : string)
    (urgency : option UrgencyLevel) : M (list Decision.t) :=
  withAuthQ ALL_ROLES
    (fun _auth =>
       db <- get ;;
       (* Fetch PENDING decisions *)
       let pending := by_project_state_urgency projectId PENDING urgency (decisions db) in
       (* Fetch CLAIMED decisions *)
       let claimed := by_project_state_urgency projectId CLAIMED urgency (decisions db) in
       let all := (pending ++ claimed)%list in
       (* Sort by urgency priority, then requestedAt ascending *)
       ret (sort queue_cmp all))
    who projectId.

(** The order of the queue. *)
Definition queue_le (a b : Decision.t) : Prop :=
  urgencyOrder (Decision.urgency a) < urgencyOrder (Decision.urgency b) \/
  (urgencyOrder (Decision.urgency a) = urgencyOrder (Decision.urgency b) /\
   Decision.requestedAt a <= Decision.requestedAt b).

(** The rows the queue shows: the open decisions of the project, of the
    urgency asked for if one is. *)
Definition queued (projectId : string) (urgency : option UrgencyLevel)
    (d : Decision.t) : bool :=
  bool_decide (Decision.projectId d = projectId)
  && is_open (Decision.state d)
  && match urgency with
     | Some u => bool_decide (Decision.urgency d = u)
     | None => true
     end.

(** ** Reading the log by time ([events.ts]) *)

Module ListByTsRange.
(** [limit] is a count of rows. *)
Record args : Type :=
  { projectId : string; sinceTs : Z; untilTs : option Z;
    afterEventId : option string; limit : option nat }.
End ListByTsRange.

Definition in_ts_range (a : ListByTsRange.args) (e : Event.t) : bool :=
  bool_decide (Event.projectId e = ListByTsRange.projectId a)
  && (ListByTsRange.sinceTs a <=? Event.ts e)
  && match ListByTsRange.untilTs a with
     | Some untilTs => Event.ts e <=? untilTs
     | None => true
     end.

(** A range of the index [by_projectId_ts]: the events of the project in
    the time range, by timestamp and then by creation. *)
Definition by_project_ts (a : ListByTsRange.args) (l : list Event.t) : list Event.t :=
  sort (fun x y => Event.ts x - Event.ts y) (List.filter (in_ts_range a) l).

(** The composite cursor: events after the boundary timestamp, and at
    the boundary those whose id is greater than [afterEventId] (ids are
    compared as strings). *)
Definition past_cursor (a : ListByTsRange.args) (afterEventId : string)
    (e : Event.t) : bool :=
  if ListByTsRange.sinceTs a <? Event.ts e then true
  else String.ltb afterEventId (Event.eventId e).

Definition listByTsRange (a : ListByTsRange.args) : M (list Event.t) :=
  db <- get ;;
  let limit := default 100%nat (ListByTsRange.limit a) in
  let rows :=
    take (match ListByTsRange.afterEventId a with
          | Some _ => limit + 1000
          | None => limit
          end)%nat
         (by_project_ts a (events db)) in
  let filtered :=
    match ListByTsRange.afterEventId a with
    | Some afterEventId => List.filter (past_cursor a afterEventId) rows
    | None => rows
    end in
  ret (take limit filtered).

(** ** More scenarios *)

Module Fixture.

Definition emit (eventId : string) (ts : Z) (key : option string)
    (payload : JValue) : EmitEvent.args :=
  {| EmitEvent.projectId := "proj_test"; EmitEvent.eventId := eventId;
     EmitEvent.type := SloBreached; EmitEvent.version := 1;
     EmitEvent.ts := ts; EmitEvent.correlationId := "corr_test";
     EmitEvent.causationId := None; EmitEvent.commandId := None;
     EmitEvent.runId := None; EmitEvent.cardId := None;
     EmitEvent.decisionId := None; EmitEvent.idempotencyKey := key;
     EmitEvent.producer := {| service := "bot"; pversion := "1" |};
     EmitEvent.tags := None; EmitEvent.payload := payload |}.

(** Two commands under one key, two emissions under another, a sweep. *)
Definition traffic : list Request :=
  [Mutation (OpRequestCommand (Scenario.user "user:bot")
                              (Scenario.command (Some "k1")) 1);
   Mutation (OpRequestCommand (Scenario.user "user:bot")
                              (Scenario.command (Some "k1")) 2);
   EmitEvent (Scenario.user "user:bot") (emit "evt_a" 3 (Some "k2") JNull);
   EmitEvent (Scenario.user "user:bot") (emit "evt_b" 4 (Some "k2") JNull);
   Mutation (OpSweep (Some 5) 5)].

Definition request_decision (fallback : option string) : RequestDecision.args :=
  {| RequestDecision.projectId := "proj_test";
     RequestDecision.cardId := "card_1";
     RequestDecision.commandId := "cmd_test";
     RequestDecision.runId := "run_test";
     RequestDecision.correlationId := "corr_test";
     RequestDecision.causationId := None;
     RequestDecision.urgency := u_today;
     RequestDecision.title := "Deploy?";
     RequestDecision.contextSummary := None;
     RequestDecision.options := Scenario.options;
     RequestDecision.artifactRefs := None;
     RequestDecision.sourceThread := None;
     RequestDecision.expiresAt := Some 1000;
     RequestDecision.fallbackOption := fallback |}.

Definition http_decision (fallback : option string) : HttpRequestDecision.args :=
  {| HttpRequestDecision.tenantId := "tenant_test";
     HttpRequestDecision.projectId := "proj_test";
     HttpRequestDecision.cardId := "card_1";
     HttpRequestDecision.commandId := "cmd_test";
     HttpRequestDecision.runId := "run_test";
     HttpRequestDecision.correlationId := "corr_test";
     HttpRequestDecision.causationId := None;
     HttpRequestDecision.urgency := u_today;
     HttpRequestDecision.title := "Deploy?";
     HttpRequestDecision.contextSummary := None;
     HttpRequestDecision.options := Scenario.options;
     HttpRequestDecision.artifactRefs := None;
     HttpRequestDecision.sourceThread := None;
     HttpRequestDecision.expiresAt := Some 1000;
     HttpRequestDecision.fallbackOption := fallback |}.

(** Two retry cards, one due at 100 and one not, and a running card. *)
Definition retrying : Store :=
  Scenario.store
    [Scenario.card "card_1" RETRY_SCHEDULED (Some 50);
     Scenario.card "card_2" RETRY_SCHEDULED (Some 500);
     Scenario.card "card_3" RUNNING None] [].

(** Three claims: lapsed at 100, ending exactly at 100, still running. *)
Definition claims : Store :=
  Scenario.store []
    [Scenario.decision "dec_1" "proj_test" "card_1" CLAIMED u_today None None
                       (Some "user:olga") (Some 50);
     Scenario.decision "dec_2" "proj_test" "card_2" CLAIMED u_today None None
                       (Some "user:olga") (Some 100);
     Scenario.decision "dec_3" "proj_test" "card_3" CLAIMED u_today None None
                       (Some "user:oscar") (Some 500)].

(** An empty registry, and the registry after alice set up a project and
    added a viewer. *)
Definition nothing : Registry := {| projects := []; base := empty_store |}.

Definition init : InitProject.args :=
  {| InitProject.tenantId := "tenant_test"; InitProject.projectId := "proj_test";
     InitProject.name := "Test" |}.

Definition add (userId : string) (r : RbacRole) : AddMember.args :=
  {| AddMember.projectId := "proj_test"; AddMember.userId := userId;
     AddMember.role := r |}.

Definition setup : list Admin :=
  [AdminInit (Scenario.user "user:alice") init 1;
   AdminAdd (Scenario.user "user:alice") (add "user:vic" viewer);
   AdminAdd (Scenario.user "user:alice") (add "user:olga" owner);
   AdminRemove (Scenario.user "user:olga") "proj_test" "user:alice";
   AdminRemove (Scenario.user "user:olga") "proj_test" "user:olga"].

(** Open decisions of two projects, in no particular order. *)
Definition dated (id project : string) (st : DecisionState) (u : UrgencyLevel)
    (requestedAt : Z) : Decision.t :=
  {| Decision.decisionId := id; Decision.tenantId := "tenant_test";
     Decision.projectId := project; Decision.cardId := "card_1";
     Decision.commandId := "cmd_test"; Decision.runId := "run_test";
     Decision.state := st; Decision.urgency := u;
     Decision.title := "Test decision"; Decision.contextSummary := None;
     Decision.options := Scenario.options; Decision.artifactRefs := None;
     Decision.sourceThread := None; Decision.requestedAt := requestedAt;
     Decision.expiresAt := None; Decision.fallbackOption := None;
     Decision.claimedBy := None; Decision.claimedUntil := None;
     Decision.renderedOption := None; Decision.renderedAt := None;
     Decision.renderedBy := None |}.

Definition queue : Store :=
  Scenario.store []
    [dated "dec_1" "proj_test" PENDING u_whenever 10;
     dated "dec_2" "proj_test" CLAIMED u_now 40;
     dated "dec_3" "proj_test" PENDING u_today 20;
     dated "dec_4" "proj_test" RENDERED u_now 5;
     dated "dec_5" "proj_other" PENDING u_now 1;
     dated "dec_6" "proj_test" PENDING u_now 30;
     dated "dec_7" "proj_test" CLAIMED u_today 20].

Definition logged (eventId project : string) (ts : Z) : Event.t :=
  {| Event.eventId := eventId; Event.tenantId := "tenant_test";
     Event.projectId := project; Event.type := SloBreached;
     Event.version := 1; Event.ts := ts; Event.correlationId := "corr_test";
     Event.causationId := None; Event.commandId := None; Event.runId := None;
     Event.cardId := None; Event.decisionId := None;
     Event.idempotencyKey := None;
     Event.producer := {| service := "bot"; pversion := "1" |};
     Event.tags := None; Event.payload := JNull |}.

Definition history : Store :=
  with_events
    (fun _ => [logged "evt_c" "proj_test" 30; logged "evt_a" "proj_test" 10;
               logged "evt_x" "proj_other" 10; logged "evt_b" "proj_test" 10;
               logged "evt_d" "proj_test" 40])
    (Scenario.store [] []).

Definition page (afterEventId : option string) (limit : option nat)
    : ListByTsRange.args :=
  {| ListByTsRange.projectId := "proj_test"; ListByTsRange.sinceTs := 10;
     ListByTsRange.untilTs := Some 30;
     ListByTsRange.afterEventId := afterEventId;
     ListByTsRange.limit := limit |}.

(** The project of the scenarios, set up from nothing. *)
Definition team : list Admin :=
  [AdminInit (Scenario.user "user:alice") init 1;
   AdminAdd (Scenario.user "user:alice") (add "user:olga" operator);
   AdminAdd (Scenario.user "user:alice") (add "user:oscar" operator);
   AdminAdd (Scenario.user "user:alice") (add "user:vic" viewer);
   AdminAdd (Scenario.user "user:alice") (add "user:bot" bot)].

(** A card is created, run and done; the card life of the scenarios as
    requests. *)
Definition done_card : list Request :=
  [Mutation (OpCreateCard (Scenario.user "user:alice") Scenario.create_card 1);
   Mutation (OpTransitionCard (Scenario.transition "card_1-0" RUNNING None) 2);
   Mutation (OpTransitionCard (Scenario.transition "card_1-0" DONE None) 3)].

Definition card_life : list Request := map Mutation Scenario.card_life.

(** An event a bot makes up: the card that is done goes back to
    [READY]. *)
Definition forged : EmitEvent.args :=
  {| EmitEvent.projectId := "proj_test"; EmitEvent.eventId := "evt_forged";
     EmitEvent.type := CardTransitioned; EmitEvent.version := 1;
     EmitEvent.ts := 4; EmitEvent.correlationId := "corr_test";
     EmitEvent.causationId := None; EmitEvent.commandId := None;
     EmitEvent.runId := None; EmitEvent.cardId := Some "card_1-0";
     EmitEvent.decisionId := None; EmitEvent.idempotencyKey := None;
     EmitEvent.producer := {| service := "bot"; pversion := "1" |};
     EmitEvent.tags := None;
     EmitEvent.payload :=
       JObj [("from", JStr "DONE"); ("to", JStr "READY");
             ("reason", JStr "again")] |}.

(** Two requests, a claim, a render, a second render by another
    operator, and a sweep. *)
Definition life : list Request :=
  [Mutation (OpRequestDecision (Scenario.user "user:bot")
                               (request_decision (Some "reject")) 1);
   HttpDecision (http_decision None) 2;
   Mutation (OpClaimDecision (Scenario.user "user:olga") "proj_test" "dec_1" 10);
   Mutation (OpRenderDecision (Scenario.user "user:olga")
                              (Scenario.render "dec_1" "approve") 20);
   Mutation (OpRenderDecision (Scenario.user "user:oscar")
                              (Scenario.render "dec_1" "reject") 30);
   Mutation (OpSweep (Some 2000) 2000)].

(** A run that ends in a retry, the sweep that releases it, and the next
    run. *)
Definition retries : list Request :=
  [Mutation (OpTransitionCard
               (Scenario.transition "card_1" RETRY_SCHEDULED (Some 50)) 2);
   Mutation (OpSweep (Some 100) 100);
   Mutation (OpTransitionCard (Scenario.transition "card_1" RUNNING None) 101)].

End Fixture.

(** ** The life of a decision *)

(** The patches the mutations apply to a row of the decisions table, each
    with what its call site has checked about the row. *)
Inductive patched (d : Decision.t) : Decision.t -> Prop :=
| patched_claim caller until :
    secret_string caller = false ->
    patched d (take_claim caller until d)
| patched_renew until :
    Decision.state d = CLAIMED ->
    patched d (Decision.set_claimedUntil (Some until) d)
| patched_release :
    Decision.state d = CLAIMED ->
    patched d (release_claim d)
| patched_render optionKey caller now :
    has_option optionKey (Decision.options d) = true ->
    patched d (render_patch optionKey caller now d)
| patched_expire_fallback f now :
    Decision.fallbackOption d = Some f ->
    patched d (expire_with_fallback f now d)
| patched_expire :
    Decision.fallbackOption d = None ->
    patched d (expire_without_fallback d)
| patched_shed f now :
    Decision.state d = PENDING ->
    Decision.fallbackOption d = Some f ->
    patched d (shed_with_fallback f now d)
| patched_extend e :
    Decision.state d = PENDING ->
    Decision.fallbackOption d = None ->
    patched d (Decision.set_expiresAt (Some e) d).

(** A row as [requestDecision] and [_httpRequestDecision] insert it. *)
Definition requested (d : Decision.t) : Prop :=
  Decision.state d = PENDING /\
  Decision.claimedBy d = None /\ Decision.claimedUntil d = None /\
  Decision.renderedOption d = None /\ Decision.renderedAt d = None /\
  Decision.renderedBy d = None /\
  Decision.options d <> [] /\
  (forall f, Decision.fallbackOption d = Some f ->
             has_option f (Decision.options d) = true) /\
  (forall f, Decision.fallbackOption d = Some f -> secret_string f = false).

(** One write to the decisions table: a requested row is added at the
    end, or an open row is patched. What the mutation logs of the write
    has passed the denylist: the fallback of a requested row, the holder
    of a claim. *)
Inductive moved (l : list Decision.t) : list Decision.t -> Prop :=
| moved_insert d :
    requested d -> moved l (l ++ [d])%list
| moved_patch i d d' :
    l !! i = Some d ->
    is_open (Decision.state d) = true ->
    patched d d' ->
    moved l (<[i := d']> l).

Definition moves : list Decision.t -> list Decision.t -> Prop := rtc moved.

(** A transaction that leaves the decisions table as it is. *)
Definition keeps_decisions {A} (m : M A) : Prop :=
  forall db a db', m db = Ok (a, db') -> decisions db' = decisions db.

(** The fields of a row agree with its state: a claim is recorded
    exactly on a [CLAIMED] row, a choice exactly on a [RENDERED] one, and
    fallback and choice are keys of the row's options. *)
Record consistent (d : Decision.t) : Prop :=
  { claim_holder :
      Decision.state d = CLAIMED <-> is_Some (Decision.claimedBy d);
    claim_deadline :
      Decision.state d = CLAIMED <-> is_Some (Decision.claimedUntil d);
    render_choice :
      Decision.state d = RENDERED <-> is_Some (Decision.renderedOption d);
    render_author :
      Decision.state d = RENDERED <-> is_Some (Decision.renderedBy d);
    render_time :
      Decision.state d = RENDERED <-> is_Some (Decision.renderedAt d);
    fallback_offered :
      forall f, Decision.fallbackOption d = Some f ->
                has_option f (Decision.options d) = true;
    choice_offered :
      forall k, Decision.renderedOption d = Some k ->
                has_option k (Decision.options d) = true }.

(** What no mutation changes in a row. *)
Definition same_terms (d d' : Decision.t) : Prop :=
  Decision.decisionId d' = Decision.decisionId d /\
  Decision.tenantId d' = Decision.tenantId d /\
  Decision.projectId d' = Decision.projectId d /\
  Decision.cardId d' = Decision.cardId d /\
  Decision.commandId d' = Decision.commandId d /\
  Decision.runId d' = Decision.runId d /\
  Decision.urgency d' = Decision.urgency d /\
  Decision.title d' = Decision.title d /\
  Decision.contextSummary d' = Decision.contextSummary d /\
  Decision.options d' = Decision.options d /\
  Decision.artifactRefs d' = Decision.artifactRefs d /\
  Decision.sourceThread d' = Decision.sourceThread d /\
  Decision.requestedAt d' = Decision.requestedAt d /\
  Decision.fallbackOption d' = Decision.fallbackOption d.

(** The authenticated requests that the HTTP ones stand for. *)
Definition decision_request (a : HttpRequestDecision.args) : RequestDecision.args :=
  {| RequestDecision.projectId := HttpRequestDecision.projectId a;
     RequestDecision.cardId := HttpRequestDecision.cardId a;
     RequestDecision.commandId := HttpRequestDecision.commandId a;
     RequestDecision.runId := HttpRequestDecision.runId a;
     RequestDecision.correlationId := HttpRequestDecision.correlationId a;
     RequestDecision.causationId := HttpRequestDecision.causationId a;
     RequestDecision.urgency := HttpRequestDecision.urgency a;
     RequestDecision.title := HttpRequestDecision.title a;
     RequestDecision.contextSummary := HttpRequestDecision.contextSummary a;
     RequestDecision.options := HttpRequestDecision.options a;
     RequestDecision.artifactRefs := HttpRequestDecision.artifactRefs a;
     RequestDecision.sourceThread := HttpRequestDecision.sourceThread a;
     RequestDecision.expiresAt := HttpRequestDecision.expiresAt a;
     RequestDecision.fallbackOption := HttpRequestDecision.fallbackOption a |}.

Definition command_request (a : HttpRequestCommand.args) : RequestCommand.args :=
  {| RequestCommand.projectId := HttpRequestCommand.projectId a;
     RequestCommand.correlationId := HttpRequestCommand.correlationId a;
     RequestCommand.title := HttpRequestCommand.title a;
     RequestCommand.commandSpec := HttpRequestCommand.commandSpec a;
     RequestCommand.capabilities := HttpRequestCommand.capabilities a;
     RequestCommand.idempotencyKey := HttpRequestCommand.idempotencyKey a |}.

(** The answer of a transaction run on a store with another membership
    table. *)
Definition with_members_after {A} (f : list Member.t -> list Member.t)
    (r : Res (A * Store)) : Res (A * Store) :=
  match r with
  | Ok (a, db') => Ok (a, with_members f db')
  | Throw e => Throw e
  end.

(** ** The projects of a user ([projectSetup.ts]) *)

(** The order of an index on a string field. *)
Definition string_cmp (a b : string) : Z :=
  match String.compare a b with
  | Lt => -1
  | Eq => 0
  | Gt => 1
  end.

(** A range of the index [by_userId_projectId]: the memberships of one
    user, by project id and then by creation. *)
Definition by_userId (userId : string) (l : list Member.t) : list Member.t :=
  sort (fun x y => string_cmp (Member.projectId x) (Member.projectId y))
       (List.filter (fun m => bool_decide (Member.userId m = userId)) l).

(** [Promise.all(l.map(f))]: the answers in order, or an error. *)
Fixpoint all_of {A B} (f : A -> Res B) (l : list A) : Res (list B) :=
  match l with
  | [] => Ok []
  | x :: l' =>
      match f x with
      | Throw e => Throw e
      | Ok y =>
          match all_of f l' with
          | Throw e => Throw e
          | Ok ys => Ok (y :: ys)
          end
      end
  end.

(** The project of a membership with the role of the member, [null] when
    the project is missing. *)
Definition project_with_role (ps : list Project.t) (m : Member.t)
    : Res (option (Project.t * RbacRole)) :=
  match unique (fun p => bool_decide (Project.projectId p = Member.projectId m)) ps with
  | Throw e => Throw e
  | Ok (Some (_, project)) => Ok (Some (project, Member.role m))
  | Ok None => Ok None
  end.

(** [myProjects]: no guard; without an identity the answer is empty. *)
Definition myProjects (who : option Identity) (reg : Registry)
    : Res (list (Project.t * RbacRole)) :=
  match who with
  | None => Ok []
  | Some identity =>
      let userId := default (tokenIdentifier identity) (subject identity) in
      let memberships := by_userId userId (project_members (base reg)) in
      match all_of (project_with_role (projects reg)) memberships with
      | Throw e => Throw e
      | Ok found => Ok (omap id found)
      end
  end.

(** ** What the denylist reads *)

(** The strings a value holds as values, at any depth; the keys of its
    objects are not among them. *)
Inductive holds : JValue -> string -> Prop :=
| holds_string s : holds (JStr s) s
| holds_item items x s : x ∈ items -> holds x s -> holds (JArr items) s
| holds_field fields k x s : (k, x) ∈ fields -> holds x s -> holds (JObj fields) s.

(** ** The life of a card *)

(** A row as [createCard], [requestCommand] and [_httpRequestCommand]
    insert it. *)
Definition created (c : Card.t) : Prop :=
  Card.state c = READY /\ Card.attempt c = 0 /\ Card.retryAtTs c = None /\
  Card.leasedTo c = None /\ Card.leaseUntilTs c = None /\
  Card.lastHeartbeatTs c = None.

(** One write to the cards table: a created row is added at the end, or
    a row is patched by a transition along an edge of the table. *)
Inductive card_moved (l : list Card.t) : list Card.t -> Prop :=
| card_inserted c :
    created c -> card_moved l (l ++ [c])%list
| card_transitioned k c a now :
    l !! k = Some c ->
    valid_edge (Card.state c) (Transition.to a) = true ->
    card_moved l (<[k := transition_patch c a now c]> l).

Definition card_moves : list Card.t -> list Card.t -> Prop := rtc card_moved.

Definition card_safe {A} (m : M A) : Prop :=
  forall db a db', m db = Ok (a, db') -> card_moves (cards db) (cards db').

(** Only a card that waits for a retry carries a retry time. *)
Definition retry_timed (c : Card.t) : Prop :=
  is_Some (Card.retryAtTs c) -> Card.state c = RETRY_SCHEDULED.

(** What a transition leaves alone. *)
Definition same_card (c c' : Card.t) : Prop :=
  Card.cardId c' = Card.cardId c /\
  Card.tenantId c' = Card.tenantId c /\
  Card.projectId c' = Card.projectId c /\
  Card.priority c' = Card.priority c /\
  Card.title c' = Card.title c /\
  Card.spec c' = Card.spec c /\
  Card.createdTs c' = Card.createdTs c /\
  Card.capabilities c' = Card.capabilities c /\
  Card.leasedTo c' = Card.leasedTo c /\
  Card.leaseUntilTs c' = Card.leaseUntilTs c /\
  Card.lastHeartbeatTs c' = Card.lastHeartbeatTs c /\
  Card.attempt c <= Card.attempt c'.

(** ** Reading cards and event chains ([cards.ts], [events.ts]) *)

Definition in_state (projectId : string) (state : CardState) (c : Card.t) : bool :=
  bool_decide (Card.projectId c = projectId)
  && bool_decide (Card.state c = state).

(** [cardsByState]: no guard; a range of the index
    [by_projectId_state_priority], the cards of one project and state by
    priority and then by creation. *)
Definition cardsByState (projectId : string) (state : CardState)
    : M (list Card.t) :=
  db <- get ;;
  ret (sort (fun x y => Card.priority x - Card.priority y)
            (List.filter (in_state projectId state) (cards db))).

Definition in_chain (projectId correlationId : string) (e : Event.t) : bool :=
  bool_decide (Event.projectId e = projectId)
  && bool_decide (Event.correlationId e = correlationId).

(** A range of the index [by_projectId_correlationId_ts]: the events of
    one project and correlation id, by timestamp and then by creation. *)
Definition by_project_correlation (projectId correlationId : string)
    (l : list Event.t) : list Event.t :=
  sort (fun x y => Event.ts x - Event.ts y)
       (List.filter (in_chain projectId correlationId) l).

(** [eventChain]: no guard. *)
Definition eventChain (projectId correlationId : string) : M (list Event.t) :=
  db <- get ;;
  ret (by_project_correlation projectId correlationId (events db)).

(** [listByCorrelationId]: internal. *)
Definition listByCorrelationId (projectId correlationId : string)
    : M (list Event.t) :=
  db <- get ;;
  ret (by_project_correlation projectId correlationId (events db)).

(** ** The members of a project ([members.ts]) *)

Definition role_name (r : RbacRole) : string :=
  match r with
  | owner => "owner"
  | operator => "operator"
  | viewer => "viewer"
  | bot => "bot"
  end.

(** A range of the index [by_projectId_role]: the memberships of one
    project, by role (the index orders the strings) and then by
    creation. *)
Definition by_projectId_role (projectId : string) (l : list Member.t)
    : list Member.t :=
  sort (fun x y => string_cmp (role_name (Member.role x)) (role_name (Member.role y)))
       (List.filter (fun m => bool_decide (Member.projectId m = projectId)) l).

(** [listMembers]: any role. *)
Definition listMembers (who : option Identity) (projectId : string)
    : M (list Member.t) :=
  withAuthQ ALL_ROLES
    (fun _auth =>
       db <- get ;;
       ret (by_projectId_role projectId (project_members db)))
    who projectId.

(** The order of the role names. *)
Definition role_le (x y : Member.t) : Prop :=
  string_cmp (role_name (Member.role x)) (role_name (Member.role y)) <= 0.

(** ** The language of a pattern *)

(** The strings a pattern matches as a whole. *)
Inductive lang : Regex.re -> string -> Prop :=
| lang_eps : lang Regex.Eps ""
| lang_cls p c : p c = true -> lang (Regex.Cls p) (String c "")
| lang_cat r1 r2 s1 s2 :
    lang r1 s1 -> lang r2 s2 -> lang (Regex.Cat r1 r2) (s1 ++ s2)
| lang_alt_l r1 r2 s : lang r1 s -> lang (Regex.Alt r1 r2) s
| lang_alt_r r1 r2 s : lang r2 s -> lang (Regex.Alt r1 r2) s
| lang_star_nil r : lang (Regex.Star r) ""
| lang_star_app r s1 s2 :
    lang r s1 -> lang (Regex.Star r) s2 -> lang (Regex.Star r) (s1 ++ s2).

(** Every character of the string is in the class. *)
Fixpoint every (p : ascii -> bool) (s : string) : bool :=
  match s with
  | EmptyString => true
  | String c s' => p c && every p s'
  end.

(** The token families of the denylist: a literal prefix followed by a
    least number of characters of a class. *)
Definition TOKEN_FAMILIES : list (string * nat * (ascii -> bool)) :=
  [ ("ghp_", 36%nat, word); ("gho_", 36%nat, word); ("ghu_", 36%nat, word);
    ("ghs_", 36%nat, word); ("github_pat_", 22%nat, word);
    ("sk-", 20%nat, Regex.alnum); ("sk_live_", 20%nat, Regex.alnum);
    ("sk_test_", 20%nat, Regex.alnum);
    ("xoxb-", 6%nat, slack); ("xoxp-", 6%nat, slack);
    ("AKIA", 16%nat, upper_digit) ].

(** ** Stores on which a sweep cannot fail *)

(** What the sweeper logs of a row passes the denylist: the fallback
    option and the holder of the claim. *)
Definition loggable (d : Decision.t) : Prop :=
  (forall f, Decision.fallbackOption d = Some f -> secret_string f = false) /\
  (forall u, Decision.claimedBy d = Some u -> secret_string u = false).

(** Card ids are unique, and every decision is loggable. *)
Definition sweepable (db : Store) : Prop :=
  NoDup (map Card.cardId (cards db)) /\ Forall loggable (decisions db).

(** * Reasoning about transactions *)

Section Transactions.
Context {A B : Type}.

Lemma bind_Ok (m : M A) (f : A -> M B) db r :
  bind m f db = Ok r ->
  exists a db1, m db = Ok (a, db1) /\ f a db1 = Ok r.
Proof.
  unfold bind. destruct (m db) as [[a db1]|e]; [|discriminate].
  intros H. exists a, db1. split; [reflexivity|exact H].
Qed.

Lemma bind_step (m : M A) (f : A -> M B) db a db1 :
  m db = Ok (a, db1) -> bind m f db = f a db1.
Proof. unfold bind. intros ->. reflexivity. Qed.

Lemma bind_Throw (m : M A) (f : A -> M B) db e :
  m db = Throw e -> bind m f db = Throw e.
Proof. unfold bind. intros ->. reflexivity. Qed.

Lemma lift_Ok (r : Res A) db a db' :
  lift r db = Ok (a, db') -> r = Ok a /\ db' = db.
Proof. destruct r; simpl; [|discriminate]. intros [= -> ->]. done. Qed.

End Transactions.

Lemma get_Ok db a db' : get db = Ok (a, db') -> a = db /\ db' = db.
Proof. intros [= -> ->]. done. Qed.

Lemma ret_Ok {A} (x : A) db a db' : ret x db = Ok (a, db') -> a = x /\ db' = db.
Proof. intros [= -> ->]. done. Qed.

(** Take apart a successful run, one [bind] at a time. *)
Ltac tx_inv H :=
  repeat match type of H with
    | bind _ _ _ = Ok _ =>
        let a := fresh "a" in
        let db := fresh "db" in
        let H1 := fresh "Hrun" in
        apply bind_Ok in H as (a & db & H1 & H)
    end.

(** ** Loops *)

Lemma for_each_cons {X} (x : X) xs body db :
  for_each (x :: xs) body db = bind (body x) (fun _ => for_each xs body) db.
Proof. reflexivity. Qed.

(** A loop invariant indexed by the items still to be visited. *)
Lemma for_each_inv {X} (J : list X -> Store -> Prop) (body : X -> M unit) :
  (forall x xs db db', J (x :: xs) db -> body x db = Ok (tt, db') -> J xs db') ->
  forall xs db db',
    J xs db -> for_each xs body db = Ok (tt, db') -> J [] db'.
Proof.
  intros Hstep xs. induction xs as [|x xs IH]; intros db db' HJ Hrun.
  - apply ret_Ok in Hrun as [_ ->]. exact HJ.
  - rewrite for_each_cons in Hrun. apply bind_Ok in Hrun as ([] & db1 & Hx & Hrest).
    eapply IH; [|exact Hrest]. eapply Hstep; eauto.
Qed.

(** A failing item aborts the loop: the items after it are not visited. *)
Lemma for_each_abort {X} (body : X -> M unit) xs x ys db db1 e :
  for_each xs body db = Ok (tt, db1) ->
  body x db1 = Throw e ->
  for_each (xs ++ x :: ys) body db = Throw e.
Proof.
  revert db. induction xs as [|x0 xs IH]; intros db Hxs Hx.
  - apply ret_Ok in Hxs as [_ ->]. simpl. unfold bind. rewrite Hx. reflexivity.
  - rewrite for_each_cons in Hxs. apply bind_Ok in Hxs as ([] & db0 & H0 & Hrest).
    simpl. unfold bind at 1. rewrite H0. apply IH; assumption.
Qed.

Lemma for_each_app {X} (body : X -> M unit) xs ys db :
  for_each (xs ++ ys) body db = bind (for_each xs body) (fun _ => for_each ys body) db.
Proof.
  revert db. induction xs as [|x xs IH]; intros db; simpl.
  - reflexivity.
  - unfold bind. destruct (body x db) as [[[] db1]|e]; [|reflexivity].
    rewrite IH. reflexivity.
Qed.

(** ** Table queries *)

Lemma elem_of_rows_from {A} (p : A -> bool) (l : list A) n i x :
  (i, x) ∈ rows_from p n l <->
  (exists j, i = (n + j)%nat /\ l !! j = Some x) /\ p x = true.
Proof.
  revert n. induction l as [|y l IH]; intros n; simpl.
  - split; [intros H; inversion H|intros [(j & _ & Hj) _]; discriminate].
  - assert (Hrec : (i, x) ∈ rows_from p (S n) l <->
                   (exists j, i = (n + S j)%nat /\ l !! j = Some x) /\ p x = true).
    { rewrite IH. split; intros [(j & -> & Hj) Hp]; (split; [exists j; split; [lia|done]|done]). }
    destruct (p y) eqn:Hy.
    + rewrite elem_of_cons, Hrec. split.
      * intros [[= -> ->]|[(j & -> & Hj) Hp]].
        -- split; [exists 0%nat; split; [lia|done]|done].
        -- split; [exists (S j); done|done].
      * intros [(j & -> & Hj) Hp]. destruct j as [|j]; simpl in Hj.
        -- left. injection Hj as ->. f_equal. lia.
        -- right. split; [exists j; done|done].
    + rewrite Hrec. split.
      * intros [(j & -> & Hj) Hp]. split; [exists (S j); done|done].
      * intros [(j & -> & Hj) Hp]. destruct j as [|j]; simpl in Hj.
        -- injection Hj as ->. congruence.
        -- split; [exists j; done|done].
Qed.

Lemma elem_of_collect {A} (p : A -> bool) (l : list A) i x :
  (i, x) ∈ collect p l <-> l !! i = Some x /\ p x = true.
Proof.
  unfold collect. rewrite elem_of_rows_from. split.
  - intros [(j & -> & Hj) Hp]. done.
  - intros [Hi Hp]. split; [exists i; done|done].
Qed.

Lemma rows_from_lower {A} (p : A -> bool) (l : list A) n i x :
  (i, x) ∈ rows_from p n l -> (n <= i)%nat.
Proof. rewrite elem_of_rows_from. intros [(j & -> & _) _]. lia. Qed.

Lemma NoDup_rows_from {A} (p : A -> bool) (l : list A) n :
  NoDup (rows_from p n l).*1.
Proof.
  revert n. induction l as [|y l IH]; intros n; simpl; [constructor|].
  destruct (p y); [|apply IH].
  simpl. constructor; [|apply IH].
  intros Hin. apply list_elem_of_fmap in Hin as ([i x] & Hi & Hin).
  simpl in Hi. subst i. apply rows_from_lower in Hin. lia.
Qed.

Lemma NoDup_collect {A} (p : A -> bool) (l : list A) : NoDup (collect p l).*1.
Proof. apply NoDup_rows_from. Qed.

Lemma elem_of_List_filter {A} (f : A -> bool) (l : list A) x :
  x ∈ List.filter f l <-> x ∈ l /\ f x = true.
Proof. rewrite !list_elem_of_In. apply filter_In. Qed.

Lemma NoDup_fst_List_filter {A B} (f : A * B -> bool) (l : list (A * B)) :
  NoDup l.*1 -> NoDup (List.filter f l).*1.
Proof.
  induction l as [|y l IH]; simpl; [done|].
  intros Hnd. apply NoDup_cons in Hnd as [Hy Hnd].
  destruct (f y); simpl; [|auto].
  apply NoDup_cons. split; [|auto].
  intros Hin. apply Hy. apply list_elem_of_fmap in Hin as (z & -> & Hz).
  apply elem_of_List_filter in Hz as [Hz _]. apply list_elem_of_fmap. eauto.
Qed.

Lemma unique_Some {A} (p : A -> bool) (l : list A) k c :
  unique p l = Ok (Some (k, c)) ->
  l !! k = Some c /\ p c = true /\
  forall k' c', l !! k' = Some c' -> p c' = true -> k' = k /\ c' = c.
Proof.
  unfold unique. intros H.
  destruct (collect p l) as [|r [|r' rs]] eqn:Hc; try discriminate.
  injection H as ->.
  assert (Hin : forall i x, (i, x) ∈ [(k, c)] <-> l !! i = Some x /\ p x = true)
    by (intros; rewrite <- Hc; apply elem_of_collect).
  destruct (proj1 (Hin k c)) as [Hk Hp]; [apply list_elem_of_singleton; done|].
  split; [done|]. split; [done|].
  intros k' c' Hk' Hp'.
  assert (H1 : (k', c') ∈ [(k, c)]) by (apply Hin; done).
  apply list_elem_of_singleton in H1. injection H1 as -> ->. done.
Qed.

Lemma unique_None {A} (p : A -> bool) (l : list A) :
  unique p l = Ok None -> forall k c, l !! k = Some c -> p c = false.
Proof.
  unfold unique. intros H k c Hk.
  destruct (collect p l) as [|r [|r' rs]] eqn:Hc; try discriminate.
  destruct (p c) eqn:Hp; [|done].
  assert (H1 : (k, c) ∈ collect p l) by (apply elem_of_collect; done).
  rewrite Hc in H1. inversion H1.
Qed.

(** Conversely, a row that is the only one to satisfy [p] is found. *)
Lemma unique_intro {A} (p : A -> bool) (l : list A) k c :
  l !! k = Some c -> p c = true ->
  (forall k' c', l !! k' = Some c' -> p c' = true -> k' = k) ->
  unique p l = Ok (Some (k, c)).
Proof.
  intros Hk Hp Huniq. unfold unique.
  assert (Hin : forall i x, (i, x) ∈ collect p l -> (i, x) = (k, c)).
  { intros i x [Hi Hx]%elem_of_collect. pose proof (Huniq _ _ Hi Hx) as ->.
    congruence. }
  assert (Hkc : (k, c) ∈ collect p l) by (apply elem_of_collect; done).
  pose proof (NoDup_collect p l) as Hnd.
  destruct (collect p l) as [|r [|r' rs]] eqn:Hc.
  - inversion Hkc.
  - destruct r as [i x]. rewrite (Hin i x); [done|]. apply list_elem_of_here.
  - exfalso. destruct r as [i x], r' as [i' x'].
    assert (H1 : (i, x) = (k, c)) by (apply Hin; apply list_elem_of_here).
    assert (H2 : (i', x') = (k, c))
      by (apply Hin; apply list_elem_of_further, list_elem_of_here).
    injection H1 as -> ->. injection H2 as -> ->.
    simpl in Hnd. apply NoDup_cons in Hnd as [Hnd _]. apply Hnd. apply list_elem_of_here.
Qed.

(** ** The primitives *)

Lemma generateId_Ok prefix clk db s db' :
  generateId prefix clk db = Ok (s, db') -> db' = with_rng S db.
Proof. unfold generateId. intros [= _ <-]. reflexivity. Qed.

Lemma appendEvent_Ok e db id db' :
  appendEvent e db = Ok (id, db') ->
  containsSecret (Event.payload e) = false /\
  (db' = push_event e db \/ (db' = db /\ Event.idempotencyKey e <> None)).
Proof.
  unfold appendEvent.
  destruct (containsSecret (Event.payload e)); [discriminate|].
  destruct (match Event.tags e with Some t => containsSecret t | None => false end);
    [discriminate|].
  intros H. split; [reflexivity|].
  destruct (Event.idempotencyKey e) as [k|].
  - apply bind_Ok in H as (db0 & db1 & [-> ->]%get_Ok & H).
    destruct (first _ _) as [[i x]|].
    + apply ret_Ok in H as [_ ->]. right. done.
    + injection H as _ <-. left. reflexivity.
  - injection H as _ <-. left. reflexivity.
Qed.

Lemma appendEvent_fresh e db id db' :
  Event.idempotencyKey e = None ->
  appendEvent e db = Ok (id, db') ->
  containsSecret (Event.payload e) = false /\ db' = push_event e db.
Proof.
  intros Hk H. apply appendEvent_Ok in H as [Hs [->|[_ Hne]]]; [done|congruence].
Qed.

Lemma appendEvent_run e db :
  containsSecret (Event.payload e) = false ->
  Event.tags e = None ->
  Event.idempotencyKey e = None ->
  appendEvent e db = Ok (length (events db), push_event e db).
Proof. unfold appendEvent. intros -> -> ->. reflexivity. Qed.

Lemma appendEvent_secret e db :
  containsSecret (Event.payload e) = true ->
  appendEvent e db = Throw SecretInPayload.
Proof. unfold appendEvent. intros ->. reflexivity. Qed.

(** ** The card state machine *)

Lemma lookup_card_Ok cardId db found db' :
  lookup_card cardId db = Ok (found, db') ->
  db' = db /\
  unique (fun c => bool_decide (Card.cardId c = cardId)) (cards db) = Ok found.
Proof.
  unfold lookup_card. intros H. tx_inv H.
  apply get_Ok in Hrun as [-> ->]. apply lift_Ok in H as [-> ->]. done.
Qed.

Lemma transitionCard_Ok a clk db r db' :
  transitionCard a clk db = Ok (r, db') ->
  exists k card eventId,
    unique (fun c => bool_decide (Card.cardId c = Transition.cardId a)) (cards db)
      = Ok (Some (k, card)) /\
    includes (Transition.to a) (VALID_TRANSITIONS (Card.state card)) = true /\
    containsSecret (JStr (Transition.reason a)) = false /\
    r = (Card.state card, Transition.to a) /\
    db' = transitioned eventId k card a clk db.
Proof.
  unfold transitionCard. intros H. tx_inv H.
  apply lookup_card_Ok in Hrun as [-> Hu].
  destruct a0 as [[k card]|]; [|discriminate].
  destruct (includes _ _) eqn:Hinc; simpl in H; [|discriminate].
  tx_inv H. injection Hrun as _ <-.
  pose proof (generateId_Ok _ _ _ _ _ Hrun0) as ->. clear Hrun0.
  apply appendEvent_fresh in Hrun1 as [Hsec ->]; [|reflexivity].
  apply ret_Ok in H as [-> ->].
  exists k, card, a1. repeat split; try done.
  simpl in Hsec.
  apply orb_false_elim in Hsec as [_ [_ [Hr _]%orb_false_elim]%orb_false_elim].
  exact Hr.
Qed.

Lemma card_state_name_clean s : secret_string (card_state_name s) = false.
Proof. destruct s; vm_compute; reflexivity. Qed.

Lemma decision_state_name_clean s : secret_string (decision_state_name s) = false.
Proof. destruct s; vm_compute; reflexivity. Qed.

Lemma transitionCard_run a clk db k card :
  unique (fun c => bool_decide (Card.cardId c = Transition.cardId a)) (cards db)
    = Ok (Some (k, card)) ->
  valid_edge (Card.state card) (Transition.to a) = true ->
  secret_string (Transition.reason a) = false ->
  transitionCard a clk db =
    Ok ((Card.state card, Transition.to a),
        transitioned (fresh_id "evt" clk
                        (with_cards (alter (transition_patch card a clk) k) db))
                     k card a clk db).
Proof.
  intros Hu Hv Hs. unfold transitionCard, lookup_card.
  rewrite (bind_step _ _ db (Some (k, card)) db).
  2:{ unfold bind, get, lift. rewrite Hu. reflexivity. }
  unfold valid_edge in Hv. rewrite Hv.
  unfold patch_card, modify, generateId, bind.
  change (negb true) with false. cbv beta iota.
  rewrite appendEvent_run; [reflexivity| |reflexivity|reflexivity].
  simpl. rewrite !card_state_name_clean, Hs. reflexivity.
Qed.

Lemma transitionCard_invalid a clk db k card :
  unique (fun c => bool_decide (Card.cardId c = Transition.cardId a)) (cards db)
    = Ok (Some (k, card)) ->
  valid_edge (Card.state card) (Transition.to a) = false ->
  transitionCard a clk db
    = Throw (InvalidTransition (Card.state card) (Transition.to a)).
Proof.
  intros Hu Hv. unfold transitionCard, lookup_card.
  rewrite (bind_step _ _ db (Some (k, card)) db).
  2:{ unfold bind, get, lift. rewrite Hu. reflexivity. }
  unfold valid_edge in Hv. rewrite Hv. reflexivity.
Qed.

(** ** The sweeper, item by item *)

Lemma resume_card_Ok d to reason clk db db' :
  resume_card d to reason clk db = Ok (tt, db') ->
  exists found,
    unique (fun c => bool_decide (Card.cardId c = Decision.cardId d)) (cards db)
      = Ok found /\
    match found with
    | Some (k, c) =>
        if bool_decide (Card.state c = NEEDS_DECISION)
        then valid_edge NEEDS_DECISION to = true /\
             exists eventId,
               db' = transitioned eventId k c (resume_args d to reason) clk db
        else db' = db
    | None => db' = db
    end.
Proof.
  unfold resume_card. intros H. tx_inv H.
  apply lookup_card_Ok in Hrun as [-> Hu]. exists a. split; [exact Hu|].
  destruct a as [[k c]|]; [|apply ret_Ok in H as [_ ->]; reflexivity].
  case_bool_decide as Hst; [|apply ret_Ok in H as [_ ->]; reflexivity].
  tx_inv H. apply ret_Ok in H as [_ ->].
  apply transitionCard_Ok in Hrun as (k' & c' & eid & Hu' & Hv & _ & _ & ->).
  simpl in Hu'. rewrite Hu in Hu'. injection Hu' as <- <-.
  rewrite Hst in Hv. split; [exact Hv|]. exists eid. reflexivity.
Qed.

Lemma expire_one_Ok now clk id d db db' :
  expire_one now clk (id, d) db = Ok (tt, db') ->
  exists eid1 eid2,
    resume_card d (expiry_target d) (expiry_reason d) clk
                (expired_store eid1 eid2 now id d db) = Ok (tt, db').
Proof.
  unfold expire_one, expired_store, expiry_target, expiry_reason. intros H.
  tx_inv H. apply generateId_Ok in Hrun as ->.
  apply appendEvent_fresh in Hrun0 as [_ ->]; [|reflexivity].
  destruct (Decision.fallbackOption d) as [f|].
  - tx_inv H. injection Hrun as _ <-. apply generateId_Ok in Hrun0 as ->.
    apply appendEvent_fresh in Hrun1 as [_ ->]; [|reflexivity].
    exists a, a2. exact H.
  - tx_inv H. injection Hrun as _ <-. exists a, "". exact H.
Qed.

Lemma reclaim_one_Ok now clk id d db db' :
  reclaim_one now clk (id, d) db = Ok (tt, db') ->
  exists eid,
    db' = push_event
            (sweeper_event eid DecisionClaimExpired now d
               (JObj [("previousClaimedBy", jopt JStr (Decision.claimedBy d));
                      ("claimedUntil", jopt JNum (Decision.claimedUntil d))]))
            (with_rng S (with_decisions (alter release_claim id) db)).
Proof.
  unfold reclaim_one. intros H. tx_inv H. injection Hrun as _ <-.
  apply generateId_Ok in Hrun0 as ->.
  apply appendEvent_fresh in Hrun1 as [_ ->]; [|reflexivity].
  apply ret_Ok in H as [_ ->]. exists a0. reflexivity.
Qed.

Lemma shed_one_Ok now clk count id d db db' :
  shed_one now clk count (id, d) db = Ok (tt, db') ->
  exists eid1 eid2,
    match Decision.fallbackOption d with
    | Some _ =>
        resume_card d RUNNING "decision deferred, fallback applied" clk
                    (shed_store eid1 eid2 now count id d db) = Ok (tt, db')
    | None => db' = shed_store eid1 eid2 now count id d db
    end.
Proof.
  unfold shed_one, shed_store. intros H.
  destruct (Decision.fallbackOption d) as [f|].
  - tx_inv H. injection Hrun as _ <-. apply generateId_Ok in Hrun0 as ->.
    apply appendEvent_fresh in Hrun1 as [_ ->]; [|reflexivity].
    apply generateId_Ok in Hrun2 as ->.
    apply appendEvent_fresh in Hrun3 as [_ ->]; [|reflexivity].
    exists a0, a2. exact H.
  - tx_inv H. injection Hrun as _ <-. apply generateId_Ok in Hrun0 as ->.
    apply appendEvent_fresh in Hrun1 as [_ ->]; [|reflexivity].
    apply ret_Ok in H as [_ ->]. exists a0, "". reflexivity.
Qed.

Lemma release_one_Ok now clk k card db db' :
  release_one now clk (k, card) db = Ok (tt, db') ->
  db' = db \/
  exists k' c' eventId,
    unique (fun c => bool_decide (Card.cardId c = Card.cardId card)) (cards db)
      = Ok (Some (k', c')) /\
    valid_edge (Card.state c') READY = true /\
    db' = transitioned eventId k' c' (release_args card) clk db.
Proof.
  unfold release_one. simpl. intros H.
  destruct (Card.retryAtTs card) as [r|]; [|apply ret_Ok in H as [_ ->]; by left].
  destruct (r <=? now); [|apply ret_Ok in H as [_ ->]; by left].
  tx_inv H. apply ret_Ok in H as [_ ->].
  apply transitionCard_Ok in Hrun as (k' & c' & eid & Hu & Hv & _ & _ & ->).
  right. exists k', c', eid. done.
Qed.

(** ** Every mutation is a sequence of atomic effects *)

Lemma steps_refl b db : steps b db db.
Proof. apply rtc_refl. Qed.

Lemma steps_trans b db1 db2 db3 :
  steps b db1 db2 -> steps b db2 db3 -> steps b db1 db3.
Proof. apply rtc_trans. Qed.

Lemma steps_one b db db' : step b db db' -> steps b db db'.
Proof. apply rtc_once. Qed.

Lemma steps_creates db db' : steps false db db' -> steps true db db'.
Proof.
  induction 1 as [|x y z Hxy _ IH]; [apply rtc_refl|].
  eapply rtc_l; [|exact IH].
  destruct Hxy.
  - apply step_quiet; assumption.
  - eapply step_insert_card; eassumption.
  - discriminate.
  - eapply step_patch_decision; eassumption.
  - eapply step_render; eassumption.
  - eapply step_transition; eassumption.
Qed.

(** An effect that touches neither cards nor decisions and appends at most
    one quiet event. *)
Ltac quiet_step :=
  apply steps_one, step_quiet;
  [reflexivity | reflexivity
  | first [ left; reflexivity
          | right; eexists; (split; [|reflexivity]);
            split; intros Hq; lazy in Hq; discriminate ] ].

Lemma unique_card_facts cardId l k card :
  unique (fun c => bool_decide (Card.cardId c = cardId)) l = Ok (Some (k, card)) ->
  l !! k = Some card /\ Card.cardId card = cardId /\
  forall k' c', l !! k' = Some c' -> Card.cardId c' = Card.cardId card -> k' = k.
Proof.
  intros (Hk & Hp & Hu)%unique_Some. apply bool_decide_eq_true in Hp.
  split; [done|]. split; [done|].
  intros k' c' Hk' Hid. eapply Hu; [exact Hk'|].
  apply bool_decide_eq_true. congruence.
Qed.

Lemma unique_decision_facts decisionId l i d :
  unique (fun d => bool_decide (Decision.decisionId d = decisionId)) l
    = Ok (Some (i, d)) ->
  l !! i = Some d /\ Decision.decisionId d = decisionId.
Proof.
  intros (Hk & Hp & _)%unique_Some. apply bool_decide_eq_true in Hp. done.
Qed.

Lemma transitioned_step b eventId k card a clk db :
  unique (fun c => bool_decide (Card.cardId c = Transition.cardId a)) (cards db)
    = Ok (Some (k, card)) ->
  valid_edge (Card.state card) (Transition.to a) = true ->
  step b db (transitioned eventId k card a clk db).
Proof.
  intros (Hk & _ & Hu)%unique_card_facts Hv.
  eapply step_transition; [exact Hk|exact Hu|exact Hv|reflexivity..].
Qed.

Lemma transitionCard_steps b a clk db r db' :
  transitionCard a clk db = Ok (r, db') -> steps b db db'.
Proof.
  intros (k & card & eid & Hu & Hv & _ & _ & ->)%transitionCard_Ok.
  apply steps_one. by apply transitioned_step.
Qed.

Lemma resume_card_steps b d to reason clk db db' :
  resume_card d to reason clk db = Ok (tt, db') ->
  steps b db db' /\ decisions db' = decisions db.
Proof.
  intros (found & Hu & H)%resume_card_Ok.
  destruct found as [[k c]|]; [|subst; split; [apply steps_refl|done]].
  case_bool_decide as Hst; [|subst; split; [apply steps_refl|done]].
  destruct H as [Hv [eid ->]]. split; [|reflexivity].
  apply steps_one, transitioned_step; [exact Hu|]. rewrite Hst. exact Hv.
Qed.

Lemma release_one_steps b now clk r db db' :
  release_one now clk r db = Ok (tt, db') ->
  steps b db db' /\ decisions db' = decisions db.
Proof.
  destruct r as [k card].
  intros [->|(k' & c' & eid & Hu & Hv & ->)]%release_one_Ok.
  - split; [apply steps_refl|done].
  - split; [|reflexivity]. apply steps_one, transitioned_step; assumption.
Qed.

(** A loop over a snapshot of decision rows, each item patching only its
    own row, meets every row as the snapshot recorded it. *)
Lemma snapshot_loop b (P : Decision.t -> Prop) (body : nat * Decision.t -> M unit) :
  (forall i d db db',
      decisions db !! i = Some d -> P d -> body (i, d) db = Ok (tt, db') ->
      steps b db db' /\ exists F, decisions db' = alter F i (decisions db)) ->
  forall xs db db',
    NoDup xs.*1 ->
    (forall i d, (i, d) ∈ xs -> decisions db !! i = Some d /\ P d) ->
    for_each xs body db = Ok (tt, db') ->
    steps b db db'.
Proof.
  intros Hbody xs. induction xs as [|[i d] xs IH]; intros db db' Hnd Hfresh Hrun.
  - apply ret_Ok in Hrun as [_ ->]. apply steps_refl.
  - rewrite for_each_cons in Hrun. apply bind_Ok in Hrun as ([] & db1 & Hx & Hrest).
    simpl in Hnd. apply NoDup_cons in Hnd as [Hi Hnd].
    destruct (Hfresh i d) as [Hrow HP]; [apply list_elem_of_here|].
    destruct (Hbody _ _ _ _ Hrow HP Hx) as [Hsteps [F HF]].
    eapply steps_trans; [exact Hsteps|].
    apply IH; [exact Hnd| |exact Hrest].
    intros j dj Hj. destruct (Hfresh j dj) as [Hrowj HPj]; [by apply list_elem_of_further|].
    split; [|exact HPj]. rewrite HF, list_lookup_alter_ne; [exact Hrowj|].
    intros ->. apply Hi. apply list_elem_of_fmap. exists (j, dj). done.
Qed.

Lemma expire_one_steps now clk i d db db' :
  decisions db !! i = Some d ->
  is_open (Decision.state d) = true ->
  expire_one now clk (i, d) db = Ok (tt, db') ->
  steps false db db' /\ exists F, decisions db' = alter F i (decisions db).
Proof.
  intros Hrow Hopen (eid1 & eid2 & H)%expire_one_Ok.
  apply (resume_card_steps false) in H as [Hsteps Hdec].
  set (e1 := sweeper_event eid1 DecisionExpired now d (expired_payload d)) in *.
  assert (H1 : steps false db (push_event e1 (with_rng S db))) by quiet_step.
  split.
  - eapply steps_trans; [exact H1|]. eapply steps_trans; [|exact Hsteps].
    apply steps_one. unfold expired_store. fold e1.
    destruct (Decision.fallbackOption d) as [f|].
    + eapply (step_render _ _ _ i d (expire_with_fallback f now));
        [exact Hrow|exact Hopen|reflexivity|reflexivity| | |reflexivity..];
        reflexivity.
    + eapply (step_patch_decision _ _ _ i d expire_without_fallback);
        [exact Hrow|reflexivity| |reflexivity..].
      discriminate.
  - rewrite Hdec. unfold expired_store.
    destruct (Decision.fallbackOption d) as [f|]; eexists; reflexivity.
Qed.

Lemma reclaim_one_steps now clk i d db db' :
  decisions db !! i = Some d ->
  is_open (Decision.state d) = true ->
  reclaim_one now clk (i, d) db = Ok (tt, db') ->
  steps false db db' /\ exists F, decisions db' = alter F i (decisions db).
Proof.
  intros Hrow Hopen [eid ->]%reclaim_one_Ok. split; [|eexists; reflexivity].
  eapply steps_trans with (with_decisions (alter release_claim i) db).
  - apply steps_one.
    eapply (step_patch_decision _ _ _ i d release_claim);
      [exact Hrow|reflexivity| |reflexivity..].
    intros _. exact Hopen.
  - quiet_step.
Qed.

Lemma shed_one_steps now clk count i d db db' :
  decisions db !! i = Some d ->
  is_open (Decision.state d) = true ->
  shed_one now clk count (i, d) db = Ok (tt, db') ->
  steps false db db' /\ exists F, decisions db' = alter F i (decisions db).
Proof.
  intros Hrow Hopen (eid1 & eid2 & H)%shed_one_Ok.
  unfold shed_store in H. destruct (Decision.fallbackOption d) as [f|].
  - apply (resume_card_steps false) in H as [Hsteps Hdec]. split.
    + eapply steps_trans; [|exact Hsteps].
      set (e1 := sweeper_event eid1 DecisionDeferred now d
                               (deferred_resolved_payload count)).
      eapply steps_trans with (push_event e1 db); [quiet_step|].
      apply steps_one.
      eapply (step_render _ _ _ i d (shed_with_fallback f now));
        [exact Hrow|exact Hopen|reflexivity|reflexivity| | |reflexivity..];
        reflexivity.
    + rewrite Hdec. eexists; reflexivity.
  - subst db'. split; [|eexists; reflexivity].
    eapply steps_trans
      with (with_decisions
              (alter (Decision.set_expiresAt
                        (Some (number_add (default now (Decision.expiresAt d))
                                          DEFER_EXTENSION_MS))) i) db).
    + apply steps_one.
      eapply (step_patch_decision _ _ _ i d (Decision.set_expiresAt _));
        [exact Hrow|reflexivity| |reflexivity..].
      simpl. done.
    + quiet_step.
Qed.

Lemma for_each_steps {X} b (body : X -> M unit) :
  (forall x db db', body x db = Ok (tt, db') -> steps b db db') ->
  forall xs db db', for_each xs body db = Ok (tt, db') -> steps b db db'.
Proof.
  intros Hbody xs db db' Hrun.
  apply (for_each_inv (fun _ db1 => steps b db db1) body) with xs db;
    [|apply steps_refl|exact Hrun].
  intros x xs' db1 db2 H1 Hx. eapply steps_trans; [exact H1|]. by eapply Hbody.
Qed.

Lemma releaseRetries_steps b now clk db db' :
  releaseRetries now clk db = Ok (tt, db') -> steps b db db'.
Proof.
  unfold releaseRetries. intros H. tx_inv H. apply get_Ok in Hrun as [-> ->].
  eapply for_each_steps; [|exact H].
  intros x db1 db2 Hx. by apply (release_one_steps b) in Hx as [? _].
Qed.

Lemma expireDecisions_steps now clk db db' :
  expireDecisions now clk db = Ok (tt, db') -> steps false db db'.
Proof.
  unfold expireDecisions. intros H. tx_inv H. apply get_Ok in Hrun as [-> ->].
  eapply (snapshot_loop false (fun d => is_open (Decision.state d) = true));
    [| | |exact H].
  - intros i d db1 db2. apply expire_one_steps.
  - apply NoDup_fst_List_filter, NoDup_collect.
  - intros i d [Hin _]%elem_of_List_filter.
    apply elem_of_collect in Hin. exact Hin.
Qed.

Lemma reclaimExpiredClaims_steps now clk db db' :
  reclaimExpiredClaims now clk db = Ok (tt, db') -> steps false db db'.
Proof.
  unfold reclaimExpiredClaims. intros H. tx_inv H. apply get_Ok in Hrun as [-> ->].
  eapply (snapshot_loop false (fun d => is_open (Decision.state d) = true));
    [| | |exact H].
  - intros i d db1 db2. apply reclaim_one_steps.
  - apply NoDup_fst_List_filter, NoDup_collect.
  - intros i d [Hin _]%elem_of_List_filter.
    apply elem_of_collect in Hin as [Hrow Hst]. split; [exact Hrow|].
    apply bool_decide_eq_true in Hst. rewrite Hst. reflexivity.
Qed.

Lemma shed_project_steps now clk entry db db' :
  shed_project now clk entry db = Ok (tt, db') -> steps false db db'.
Proof.
  destruct entry as [projectId count]. unfold shed_project. intros H. tx_inv H.
  assert (H0 : steps false db db0).
  { destruct (NOW_BACKLOG_ALERT_THRESHOLD <? count).
    - injection Hrun as _ <-. quiet_step.
    - apply ret_Ok in Hrun as [_ ->]. apply steps_refl. }
  eapply steps_trans; [exact H0|]. clear H0 Hrun.
  destruct (NOW_BACKLOG_DEFER_THRESHOLD <? count);
    [|apply ret_Ok in H as [_ ->]; apply steps_refl].
  tx_inv H. apply get_Ok in Hrun as [-> ->].
  eapply (snapshot_loop false (fun d => is_open (Decision.state d) = true));
    [| | |exact H].
  - intros i d db1 db2. apply shed_one_steps.
  - apply NoDup_collect.
  - intros i d [Hrow Hp]%elem_of_collect. split; [exact Hrow|].
    unfold is_whenever_pending in Hp.
    apply andb_true_iff in Hp as [[_ Hst]%andb_true_iff _].
    apply bool_decide_eq_true in Hst. rewrite Hst. reflexivity.
Qed.

Lemma loadShed_steps now clk db db' :
  loadShed now clk db = Ok (tt, db') -> steps false db db'.
Proof.
  unfold loadShed. intros H. tx_inv H. apply get_Ok in Hrun as [-> ->].
  eapply for_each_steps; [|exact H].
  intros x db1 db2. apply shed_project_steps.
Qed.

Lemma sweep_steps now clk db db' :
  sweep now clk db = Ok (tt, db') -> steps false db db'.
Proof.
  unfold sweep. intros H. tx_inv H. destruct a, a0, a1.
  eapply steps_trans; [by eapply releaseRetries_steps|].
  eapply steps_trans; [by eapply expireDecisions_steps|].
  eapply steps_trans; [by eapply reclaimExpiredClaims_steps|].
  by eapply loadShed_steps.
Qed.

(** ** The access guard *)

Lemma resolveAuth_Ok who project db auth db' :
  resolveAuth who project db = Ok (auth, db') ->
  db' = db /\
  exists identity,
    who = Some identity /\
    userId auth = default (tokenIdentifier identity) (subject identity) /\
    exists m, m ∈ project_members db /\
      Member.userId m = userId auth /\
      Member.projectId m = project /\
      tenantId auth = Member.tenantId m /\
      projectId auth = project /\
      role auth = Member.role m.
Proof.
  unfold resolveAuth. destruct who as [identity|]; [|discriminate].
  intros H. tx_inv H. apply get_Ok in Hrun as [-> ->].
  apply lift_Ok in Hrun0 as [Hu ->].
  destruct a0 as [[i m]|]; [|discriminate].
  apply ret_Ok in H as [-> ->]. split; [reflexivity|].
  apply unique_Some in Hu as (Hi & Hp & _).
  apply andb_true_iff in Hp as [Hp1%bool_decide_eq_true Hp2%bool_decide_eq_true].
  exists identity. split; [reflexivity|]. split; [reflexivity|].
  exists m. simpl. repeat split; try done.
  eapply list_elem_of_lookup_2. exact Hi.
Qed.

Lemma withAuth_Ok {R} roles (handler : AuthContext -> M R) who projectId db r db' :
  withAuth roles handler who projectId db = Ok (r, db') ->
  exists auth,
    resolveAuth who projectId db = Ok (auth, db) /\
    (role auth = owner \/ includes (role auth) roles = true) /\
    handler auth db = Ok (r, db').
Proof.
  unfold withAuth. intros H. tx_inv H.
  pose proof (resolveAuth_Ok _ _ _ _ _ Hrun) as [-> _].
  exists a. split; [exact Hrun|].
  case_bool_decide as Hown; simpl in H.
  - split; [by left|exact H].
  - destruct (includes (role a) roles); simpl in H; [|discriminate].
    split; [by right|exact H].
Qed.

Lemma withAuth_steps {R} b roles (handler : AuthContext -> M R) who projectId db r db' :
  (forall auth, handler auth db = Ok (r, db') -> steps b db db') ->
  withAuth roles handler who projectId db = Ok (r, db') -> steps b db db'.
Proof. intros Hh (auth & _ & _ & H)%withAuth_Ok. by eapply Hh. Qed.

(** ** The interactive mutations as atomic effects *)

Lemma steps_push_quiet b db e db1 :
  quiet e -> steps b db db1 -> steps b db (push_event e db1).
Proof.
  intros Hq H. eapply steps_trans; [exact H|].
  apply steps_one, step_quiet; [reflexivity|reflexivity|].
  right. exists e. done.
Qed.

Lemma steps_with_rng b db f db1 :
  steps b db db1 -> steps b db (with_rng f db1).
Proof. intros H. eapply steps_trans; [exact H|]. quiet_step. Qed.

Lemma steps_insert_card b db c db1 :
  steps b db db1 -> steps b db (with_cards (fun l => (l ++ [c])%list) db1).
Proof.
  intros H. eapply steps_trans; [exact H|].
  apply steps_one. eapply step_insert_card; reflexivity.
Qed.

Lemma steps_insert_command b db c db1 :
  steps b db db1 -> steps b db (with_commands (fun l => (l ++ [c])%list) db1).
Proof. intros H. eapply steps_trans; [exact H|]. quiet_step. Qed.

Lemma steps_insert_decision db d db1 :
  steps true db db1 ->
  steps true db (with_decisions (fun l => (l ++ [d])%list) db1).
Proof.
  intros H. eapply steps_trans; [exact H|].
  apply steps_one. eapply step_insert_decision; reflexivity.
Qed.

(** Peel the quiet effects off the final store of a run. *)
Ltac peel :=
  repeat first
    [ apply steps_refl
    | apply steps_with_rng
    | apply steps_insert_card
    | apply steps_insert_command
    | apply steps_insert_decision
    | apply steps_push_quiet; [split; intros Hq; lazy in Hq; discriminate|] ].

Lemma lookup_decision_Ok decisionId db found db' :
  lookup_decision decisionId db = Ok (found, db') ->
  db' = db /\
  unique (fun d => bool_decide (Decision.decisionId d = decisionId)) (decisions db)
    = Ok found.
Proof.
  unfold lookup_decision. intros H. tx_inv H.
  apply get_Ok in Hrun as [-> ->]. apply lift_Ok in H as [-> ->]. done.
Qed.

Lemma createCard_steps b who a clk db r db' :
  createCard who a clk db = Ok (r, db') -> steps b db db'.
Proof.
  unfold createCard. intros H. tx_inv H.
  apply generateId_Ok in Hrun as ->. injection Hrun0 as _ <-.
  apply generateId_Ok in Hrun1 as ->.
  apply appendEvent_fresh in Hrun2 as [_ ->]; [|reflexivity].
  apply ret_Ok in H as [_ ->]. peel.
Qed.

Lemma requestCommand_steps b who a clk db r db' :
  requestCommand who a clk db = Ok (r, db') -> steps b db db'.
Proof.
  apply withAuth_steps. intros auth. unfold requestCommand_handler. intros H.
  tx_inv H.
  apply generateId_Ok in Hrun as ->. apply generateId_Ok in Hrun0 as ->.
  apply generateId_Ok in Hrun1 as ->.
  injection Hrun3 as _ <-. injection Hrun4 as _ <-.
  apply generateId_Ok in Hrun5 as ->.
  apply appendEvent_fresh in Hrun6 as [_ ->]; [|reflexivity].
  apply ret_Ok in H as [_ ->].
  apply appendEvent_Ok in Hrun2 as [_ [->|[-> _]]]; peel.
Qed.

Lemma requestDecision_steps who a clk db r db' :
  requestDecision who a clk db = Ok (r, db') -> steps true db db'.
Proof.
  apply withAuth_steps. intros auth. unfold requestDecision_handler. intros H.
  case_bool_decide; [discriminate|].
  tx_inv H.
  assert (db0 = db) as ->.
  { destruct (RequestDecision.fallbackOption a) as [f|].
    - destruct (negb _); [discriminate|]. by apply ret_Ok in Hrun as [_ ->].
    - by apply ret_Ok in Hrun as [_ ->]. }
  apply generateId_Ok in Hrun0 as ->. injection Hrun1 as _ <-.
  apply generateId_Ok in Hrun2 as ->.
  apply appendEvent_fresh in Hrun3 as [_ ->]; [|reflexivity].
  apply ret_Ok in H as [_ ->]. peel.
Qed.

Lemma claimDecision_steps who projectId decisionId clk db r db' :
  claimDecision who projectId decisionId clk db = Ok (r, db') -> steps false db db'.
Proof.
  apply withAuth_steps. intros auth. unfold claimDecision_handler. intros H.
  tx_inv H. apply lookup_decision_Ok in Hrun as [-> Hu].
  destruct a as [[i d]|]; [|discriminate].
  apply unique_decision_facts in Hu as [Hrow _].
  destruct (negb (bool_decide _)); [discriminate|].
  destruct (is_open (Decision.state d)) eqn:Hopen; simpl in H; [|discriminate].
  destruct (held_by_other d (userId auth) clk) as [[by_ until]|].
  - apply ret_Ok in H as [_ ->]. apply steps_refl.
  - tx_inv H. injection Hrun as _ <-. apply generateId_Ok in Hrun0 as ->.
    apply appendEvent_fresh in Hrun1 as [_ ->]; [|reflexivity].
    apply ret_Ok in H as [_ ->]. peel.
    apply steps_one.
    eapply (step_patch_decision _ _ _ i d (take_claim _ _));
      [exact Hrow|reflexivity| |reflexivity..].
    intros _. exact Hopen.
Qed.

Lemma renewDecisionClaim_steps who projectId decisionId clk db r db' :
  renewDecisionClaim who projectId decisionId clk db = Ok (r, db') ->
  steps false db db'.
Proof.
  apply withAuth_steps. intros auth. unfold renewDecisionClaim_handler. intros H.
  tx_inv H. apply lookup_decision_Ok in Hrun as [-> Hu].
  destruct a as [[i d]|]; [|discriminate].
  apply unique_decision_facts in Hu as [Hrow _].
  destruct (negb (bool_decide _)); [discriminate|].
  destruct (_ || _); [discriminate|].
  tx_inv H. injection Hrun as _ <-. apply ret_Ok in H as [_ ->].
  apply steps_one.
  eapply (step_patch_decision _ _ _ i d (Decision.set_claimedUntil _));
    [exact Hrow|reflexivity| |reflexivity..].
  simpl. done.
Qed.

Lemma renderDecision_steps who a clk db r db' :
  renderDecision who a clk db = Ok (r, db') -> steps false db db'.
Proof.
  apply withAuth_steps. intros auth. unfold renderDecision_handler. intros H.
  tx_inv H. apply lookup_decision_Ok in Hrun as [-> Hu].
  destruct a0 as [[i d]|]; [|discriminate].
  apply unique_decision_facts in Hu as [Hrow _].
  destruct (negb (bool_decide _)); [discriminate|].
  destruct (is_open (Decision.state d)) eqn:Hopen; simpl in H.
  - destruct (claimed_by_another d (userId auth)).
    + tx_inv H. apply generateId_Ok in Hrun as ->.
      apply appendEvent_fresh in Hrun0 as [_ ->]; [|reflexivity].
      apply ret_Ok in H as [_ ->]. quiet_step.
    + destruct (negb (has_option _ _)); [discriminate|].
      tx_inv H. injection Hrun as _ <-. apply generateId_Ok in Hrun0 as ->.
      apply appendEvent_fresh in Hrun1 as [_ ->]; [|reflexivity].
      apply ret_Ok in H as [_ ->]. apply steps_one.
      eapply (step_render _ _ _ i d (render_patch _ _ _));
        [exact Hrow|exact Hopen|reflexivity|reflexivity| | |reflexivity..];
        reflexivity.
  - tx_inv H. apply generateId_Ok in Hrun as ->.
    apply appendEvent_fresh in Hrun0 as [_ ->]; [|reflexivity].
    apply ret_Ok in H as [_ ->]. quiet_step.
Qed.

Lemma commit_steps {A} b (m : M A) db :
  (forall r db', m db = Ok (r, db') -> steps b db db') ->
  steps b db (commit m db).
Proof.
  intros H. unfold commit. destruct (m db) as [[r db']|e] eqn:Hm.
  - by eapply H.
  - apply steps_refl.
Qed.

Lemma run_op_steps op db : steps true db (run_op op db).
Proof.
  destruct op; simpl; apply commit_steps; intros r db' H.
  - by eapply createCard_steps.
  - by eapply transitionCard_steps.
  - by eapply requestCommand_steps.
  - by eapply requestDecision_steps.
  - by eapply steps_creates, claimDecision_steps.
  - by eapply steps_creates, renewDecisionClaim_steps.
  - by eapply steps_creates, renderDecision_steps.
  - destruct r. by eapply steps_creates, sweep_steps.
Qed.

Lemma run_decision_op_steps o db : steps false db (run_op (op_of o) db).
Proof.
  destruct o; simpl; apply commit_steps; intros r db' H.
  - by eapply claimDecision_steps.
  - by eapply renewDecisionClaim_steps.
  - by eapply renderDecision_steps.
  - destruct r. by eapply sweep_steps.
Qed.

Lemma run_ops_steps ops db : steps true db (run_ops ops db).
Proof.
  revert db. induction ops as [|op ops IH]; intros db; simpl.
  - apply steps_refl.
  - eapply steps_trans; [apply run_op_steps|apply IH].
Qed.

Lemma run_decision_ops_steps os db :
  steps false db (run_ops (map op_of os) db).
Proof.
  revert db. induction os as [|o os IH]; intros db; simpl.
  - apply steps_refl.
  - eapply steps_trans; [apply run_decision_op_steps|apply IH].
Qed.

(** * Exactly-one render *)

Lemma rendered_ids_snoc log e :
  rendered_ids (log ++ [e]) = (rendered_ids log ++ rendered_id e)%list.
Proof.
  unfold rendered_ids. rewrite flat_map_app. simpl. by rewrite app_nil_r.
Qed.

Lemma rendered_id_other e :
  Event.type e <> DecisionRendered -> rendered_id e = [].
Proof. unfold rendered_id. intros H. by rewrite bool_decide_eq_false_2. Qed.

Lemma rendered_id_rendered e id :
  Event.type e = DecisionRendered -> Event.decisionId e = Some id ->
  rendered_id e = [id].
Proof. unfold rendered_id. intros -> ->. reflexivity. Qed.

Lemma decision_ids_alter f i d (l : list Decision.t) :
  l !! i = Some d ->
  Decision.decisionId (f d) = Decision.decisionId d ->
  map Decision.decisionId (alter f i l) = map Decision.decisionId l.
Proof.
  intros Hi Hid. apply list_eq. intros j.
  change (map Decision.decisionId) with (fmap (M:=list) Decision.decisionId).
  rewrite !list_lookup_fmap. destruct (decide (i = j)) as [<-|Hne].
  - rewrite list_lookup_alter_eq, Hi. simpl. by rewrite Hid.
  - by rewrite list_lookup_alter_ne.
Qed.

Lemma RenderInv_same db db' :
  decisions db' = decisions db ->
  rendered_ids (events db') = rendered_ids (events db) ->
  RenderInv db -> RenderInv db'.
Proof. unfold RenderInv. intros -> ->. done. Qed.

Lemma RenderInv_patch db db' i d f :
  decisions db !! i = Some d ->
  Decision.decisionId (f d) = Decision.decisionId d ->
  (is_open (Decision.state (f d)) = true -> is_open (Decision.state d) = true) ->
  decisions db' = alter f i (decisions db) ->
  rendered_ids (events db') = rendered_ids (events db) ->
  RenderInv db -> RenderInv db'.
Proof.
  unfold RenderInv. intros Hrow Hid Hopen -> -> (Hids & Hlog & Hfresh).
  split; [|split; [exact Hlog|]].
  - by rewrite (decision_ids_alter f i d).
  - rewrite Forall_lookup in Hfresh. apply Forall_lookup. intros j x Hj.
    destruct (decide (i = j)) as [<-|Hne].
    + rewrite list_lookup_alter_eq, Hrow in Hj. injection Hj as <-.
      intros Ho. rewrite Hid. eapply Hfresh; [exact Hrow|]. by apply Hopen.
    + rewrite list_lookup_alter_ne in Hj by done. by eapply Hfresh.
Qed.

Lemma RenderInv_render db db' i d f e :
  decisions db !! i = Some d ->
  is_open (Decision.state d) = true ->
  Decision.decisionId (f d) = Decision.decisionId d ->
  is_open (Decision.state (f d)) = false ->
  Event.type e = DecisionRendered ->
  Event.decisionId e = Some (Decision.decisionId d) ->
  decisions db' = alter f i (decisions db) ->
  events db' = (events db ++ [e])%list ->
  RenderInv db -> RenderInv db'.
Proof.
  unfold RenderInv.
  intros Hrow Hopen Hid Hclosed Hty He -> -> (Hids & Hlog & Hfresh).
  rewrite Forall_lookup in Hfresh.
  rewrite rendered_ids_snoc, (rendered_id_rendered _ _ Hty He).
  split; [|split].
  - by rewrite (decision_ids_alter f i d).
  - apply NoDup_app. split; [exact Hlog|]. split; [|apply NoDup_singleton].
    intros x Hx ->%list_elem_of_singleton. by eapply Hfresh.
  - apply Forall_lookup. intros j x Hj.
    destruct (decide (i = j)) as [<-|Hne].
    + rewrite list_lookup_alter_eq, Hrow in Hj. injection Hj as <-. congruence.
    + rewrite list_lookup_alter_ne in Hj by done. intros Ho.
      apply not_elem_of_app. split; [by eapply Hfresh|].
      intros Heq%list_elem_of_singleton. apply Hne.
      pose proof (proj1 (NoDup_alt _) Hids) as Hinj.
      eapply (Hinj i j (Decision.decisionId d)).
      * change (map Decision.decisionId) with (fmap (M:=list) Decision.decisionId).
        by rewrite list_lookup_fmap, Hrow.
      * change (map Decision.decisionId) with (fmap (M:=list) Decision.decisionId).
        rewrite list_lookup_fmap, Hj. simpl. congruence.
Qed.

Lemma step_RenderInv db db' : step false db db' -> RenderInv db -> RenderInv db'.
Proof.
  intros [Hc Hd [He|(e & [_ Hq] & He)]|c Hc Hd He|d Hcr|i d f Hr Hid Ho Hd Hc He
         |i d f e Hr Ho Hid Hcl Hty Hde Hd He Hc|k card a clk eid Hk Hu Hv Hc He Hd].
  - apply RenderInv_same; [exact Hd|by rewrite He].
  - apply RenderInv_same; [exact Hd|].
    by rewrite He, rendered_ids_snoc, rendered_id_other, app_nil_r.
  - apply RenderInv_same; [exact Hd|by rewrite He].
  - discriminate.
  - eapply RenderInv_patch; [exact Hr|exact Hid|exact Ho|exact Hd|by rewrite He].
  - eapply RenderInv_render; eassumption.
  - apply RenderInv_same; [exact Hd|].
    by rewrite He, rendered_ids_snoc, rendered_id_other, app_nil_r.
Qed.

Lemma steps_RenderInv db db' : steps false db db' -> RenderInv db -> RenderInv db'.
Proof. induction 1; eauto using step_RenderInv. Qed.

Lemma count_events_rendered id log :
  count_events DecisionRendered id log
  = length (List.filter (fun x => bool_decide (x = id)) (rendered_ids log)).
Proof.
  unfold count_events, rendered_ids. induction log as [|e log IH]; [reflexivity|].
  simpl. rewrite List.filter_app, length_app, <- IH.
  unfold event_about, rendered_id at 1.
  destruct (bool_decide (Event.type e = DecisionRendered)); simpl; [|reflexivity].
  destruct (Event.decisionId e) as [x|]; simpl.
  - destruct (decide (x = id)) as [->|Hne].
    + rewrite !bool_decide_eq_true_2 by done. reflexivity.
    + rewrite !bool_decide_eq_false_2 by congruence. reflexivity.
  - reflexivity.
Qed.

Lemma NoDup_filter_eq_length (l : list string) x :
  NoDup l -> (length (List.filter (fun y => bool_decide (y = x)) l) <= 1)%nat.
Proof.
  induction 1 as [|y l Hy Hnd IH]; simpl; [lia|].
  case_bool_decide as Hxy; simpl; [|exact IH].
  subst y. assert (List.filter (fun y => bool_decide (y = x)) l = []) as ->; [|simpl; lia].
  clear IH Hnd. induction l as [|z l IH]; [reflexivity|]. simpl.
  apply not_elem_of_cons in Hy as [Hne Hy].
  rewrite bool_decide_eq_false_2 by congruence. by apply IH.
Qed.

Lemma RenderInv_at_most_once db id :
  RenderInv db -> (count_events DecisionRendered id (events db) <= 1)%nat.
Proof.
  intros (_ & Hlog & _). rewrite count_events_rendered.
  by apply NoDup_filter_eq_length.
Qed.

(** * Claiming and rendering, run forward *)

Lemma withAuth_run {R} roles (handler : AuthContext -> M R) who projectId db auth :
  resolveAuth who projectId db = Ok (auth, db) ->
  role auth = owner \/ includes (role auth) roles = true ->
  withAuth roles handler who projectId db = handler auth db.
Proof.
  intros Hauth Hrole. unfold withAuth. rewrite (bind_step _ _ _ _ _ Hauth).
  destruct Hrole as [->| ->]; [reflexivity|].
  by rewrite andb_false_r.
Qed.

Lemma lookup_decision_run decisionId db found :
  unique (fun d => bool_decide (Decision.decisionId d = decisionId)) (decisions db)
    = Ok found ->
  lookup_decision decisionId db = Ok (found, db).
Proof. unfold lookup_decision, bind, get, lift. intros ->. reflexivity. Qed.

Lemma rejected_payload_clean optionKey caller st reason :
  secret_string optionKey = false ->
  secret_string caller = false ->
  match reason with Some r => secret_string r = false | None => True end ->
  containsSecret (rejected_payload optionKey caller st reason) = false.
Proof.
  intros Ho Hc Hr. unfold rejected_payload. destruct reason as [r|]; simpl.
  - rewrite Ho, Hc, Hr, decision_state_name_clean. reflexivity.
  - rewrite Ho, Hc, decision_state_name_clean. reflexivity.
Qed.

Section Render.
Variables (who : option Identity) (a : RenderDecision.args) (clk : Z).
Variables (db : Store) (auth : AuthContext) (i : nat) (d : Decision.t).
Hypothesis Hauth :
  resolveAuth who (RenderDecision.projectId a) db = Ok (auth, db).
Hypothesis Hrole : role auth = owner \/ role auth = operator.
Hypothesis Hfound :
  unique (fun x => bool_decide (Decision.decisionId x = RenderDecision.decisionId a))
         (decisions db) = Ok (Some (i, d)).
Hypothesis Hproject : Decision.projectId d = projectId auth.

Let rejection (reason : option string) : Event.t :=
  decision_event "clawops-decisions" (fresh_id "evt" clk db) (tenantId auth)
    (projectId auth) DecisionRenderRejected clk d
    (rejected_payload (RenderDecision.optionKey a) (userId auth)
                      (Decision.state d) reason).

Lemma renderDecision_enter :
  renderDecision who a clk db =
    (let now := clk in
     if negb (is_open (Decision.state d)) then
       eventId <- generateId "evt" clk ;;
       appendEvent
         (decision_event "clawops-decisions" eventId (tenantId auth)
            (projectId auth) DecisionRenderRejected now d
            (rejected_payload (RenderDecision.optionKey a) (userId auth)
                              (Decision.state d) None)) ;;;
       ret (rejected ("Decision already resolved (state: "
                      ++ decision_state_name (Decision.state d) ++ ")"))
     else if claimed_by_another d (userId auth) then
       eventId <- generateId "evt" clk ;;
       appendEvent
         (decision_event "clawops-decisions" eventId (tenantId auth)
            (projectId auth) DecisionRenderRejected now d
            (rejected_payload (RenderDecision.optionKey a) (userId auth)
                              (Decision.state d) (Some "claimed_by_another"))) ;;;
       ret (rejected "Decision is claimed by another operator")
     else if negb (has_option (RenderDecision.optionKey a) (Decision.options d))
     then throw (InvalidOption (RenderDecision.optionKey a))
     else
       patch_decision i
         (render_patch (RenderDecision.optionKey a) (userId auth) now) ;;;
       eventId <- generateId "evt" clk ;;
       appendEvent
         (decision_event "clawops-decisions" eventId (tenantId auth)
            (projectId auth) DecisionRendered now d
            (rendered_payload (RenderDecision.optionKey a) (userId auth)
                              (RenderDecision.note a))) ;;;
       ret (rendered (RenderDecision.optionKey a))) db.
Proof.
  unfold renderDecision. rewrite (withAuth_run _ _ _ _ _ _ Hauth).
  2:{ destruct Hrole as [->| ->]; [by left|by right]. }
  unfold renderDecision_handler.
  rewrite (bind_step _ _ _ _ _ (lookup_decision_run _ _ _ Hfound)).
  rewrite bool_decide_eq_true_2 by exact Hproject. reflexivity.
Qed.

Lemma renderDecision_resolved :
  is_open (Decision.state d) = false ->
  secret_string (RenderDecision.optionKey a) = false ->
  secret_string (userId auth) = false ->
  renderDecision who a clk db =
    Ok (rejected ("Decision already resolved (state: "
                  ++ decision_state_name (Decision.state d) ++ ")"),
        push_event (rejection None) (with_rng S db)).
Proof.
  intros Hclosed Ho Hc. rewrite renderDecision_enter. cbv zeta.
  rewrite Hclosed. unfold bind, generateId.
  change (negb false) with true. cbv beta iota.
  rewrite appendEvent_run; [reflexivity| |reflexivity..].
  by apply rejected_payload_clean.
Qed.

Lemma renderDecision_claimed_by_another other :
  Decision.state d = CLAIMED ->
  Decision.claimedBy d = Some other ->
  other <> userId auth ->
  secret_string (RenderDecision.optionKey a) = false ->
  secret_string (userId auth) = false ->
  renderDecision who a clk db =
    Ok (rejected "Decision is claimed by another operator",
        push_event (rejection (Some "claimed_by_another")) (with_rng S db)).
Proof.
  intros Hst Hby Hne Ho Hc. rewrite renderDecision_enter. cbv zeta.
  unfold claimed_by_another. rewrite Hst, Hby. simpl.
  rewrite bool_decide_eq_false_2 by done.
  unfold bind, generateId. simpl negb. change (negb false) with true.
  cbv beta iota. simpl andb. cbv beta iota.
  rewrite appendEvent_run; [|apply rejected_payload_clean|reflexivity..];
    [unfold rejection; rewrite Hst; reflexivity|done|done|].
  vm_compute. reflexivity.
Qed.

Lemma renderDecision_secret_option :
  is_open (Decision.state d) = false ->
  secret_string (RenderDecision.optionKey a) = true ->
  renderDecision who a clk db = Throw SecretInPayload.
Proof.
  intros Hclosed Ho. rewrite renderDecision_enter. cbv zeta.
  rewrite Hclosed. unfold bind, generateId.
  change (negb false) with true. cbv beta iota.
  rewrite appendEvent_secret; [reflexivity|].
  simpl. rewrite Ho. reflexivity.
Qed.

End Render.

(** * Render rejections (C6) *)

(** C6, as the code has it. A [render_decision] by an admitted caller on a
    decision of their project, with an attempted option key and a caller id
    that pass the secret denylist of the event log, does not throw when the
    decision is no longer open: it appends one [DecisionRenderRejected]
    event recording [attemptedOption], [attemptedBy] and [currentState],
    leaves the decision rows unchanged and returns [{status: "rejected"}].
    Likewise, on a [CLAIMED] decision whose claimant is set and is not the
    caller, the appended event carries [reason: "claimed_by_another"]. *)
Theorem render_rejection_recorded who a clk db auth i d :
  resolveAuth who (RenderDecision.projectId a) db = Ok (auth, db) ->
  role auth = owner \/ role auth = operator ->
  unique (fun x => bool_decide (Decision.decisionId x = RenderDecision.decisionId a))
         (decisions db) = Ok (Some (i, d)) ->
  Decision.projectId d = projectId auth ->
  secret_string (RenderDecision.optionKey a) = false ->
  secret_string (userId auth) = false ->
  (is_open (Decision.state d) = false ->
   rejection_recorded (renderDecision who a clk db) db d
     (RenderDecision.optionKey a) (userId auth) None) /\
  (forall other,
      Decision.state d = CLAIMED ->
      Decision.claimedBy d = Some other -> other <> userId auth ->
      rejection_recorded (renderDecision who a clk db) db d
        (RenderDecision.optionKey a) (userId auth) (Some "claimed_by_another")).
Proof.
  intros Hauth Hrole Hfound Hproj Ho Hc. split.
  - intros Hclosed.
    rewrite (renderDecision_resolved _ _ _ _ _ _ _ Hauth Hrole Hfound Hproj Hclosed Ho Hc).
    do 3 eexists. split; [reflexivity|]. repeat split; reflexivity.
  - intros other Hst Hby Hne.
    rewrite (renderDecision_claimed_by_another _ _ _ _ _ _ _ Hauth Hrole Hfound
               Hproj other Hst Hby Hne Ho Hc).
    do 3 eexists. split; [reflexivity|]. repeat split; reflexivity.
Qed.

Lemma render_rejection_recorded_witness :
  rejection_recorded
    (renderDecision (Scenario.user "user:olga") (Scenario.render "dec_1" "approve")
                    100 Scenario.resolved)
    Scenario.resolved
    (Scenario.decision "dec_1" "proj_test" "card_1" RENDERED u_today None None None None)
    "approve" "user:olga" None
  /\
  rejection_recorded
    (renderDecision (Scenario.user "user:oscar") (Scenario.render "dec_1" "approve")
                    100 Scenario.held)
    Scenario.held
    (Scenario.decision "dec_1" "proj_test" "card_1" CLAIMED u_today None None
                       (Some "user:olga") (Some 500))
    "approve" "user:oscar" (Some "claimed_by_another").
Proof.
  split.
  - refine (proj1 (render_rejection_recorded (Scenario.user "user:olga")
                     (Scenario.render "dec_1" "approve") 100 Scenario.resolved
                     (Scenario.auth "user:olga" operator) 0%nat _ _ _ _ _ _ _) _);
      [vm_compute; reflexivity | right; reflexivity | vm_compute; reflexivity
      | reflexivity | vm_compute; reflexivity | vm_compute; reflexivity
      | reflexivity].
  - refine (proj2 (render_rejection_recorded (Scenario.user "user:oscar")
                     (Scenario.render "dec_1" "approve") 100 Scenario.held
                     (Scenario.auth "user:oscar" operator) 0%nat _ _ _ _ _ _ _)
                  "user:olga" _ _ _);
      [vm_compute; reflexivity | right; reflexivity | vm_compute; reflexivity
      | reflexivity | vm_compute; reflexivity | vm_compute; reflexivity
      | reflexivity | reflexivity | discriminate].
Defined.

(** C6 as stated fails: an attempted option key that trips the secret
    denylist makes the append, and so [render_decision], throw; nothing is
    recorded. *)
Lemma render_rejection_can_throw :
  let db := Scenario.resolved in
  let a := Scenario.render "dec_1" "sk-aaaaaaaaaaaaaaaaaaaa" in
  let d := Scenario.decision "dec_1" "proj_test" "card_1" RENDERED u_today
                             None None None None in
  decisions db !! 0%nat = Some d /\
  is_open (Decision.state d) = false /\
  renderDecision (Scenario.user "user:olga") a 100 db = Throw SecretInPayload /\
  ~ rejection_recorded (renderDecision (Scenario.user "user:olga") a 100 db) db d
      "sk-aaaaaaaaaaaaaaaaaaaa" "user:olga" None /\
  events (commit (renderDecision (Scenario.user "user:olga") a 100) db) = events db.
Proof.
  cbv zeta.
  assert (H : renderDecision (Scenario.user "user:olga")
                (Scenario.render "dec_1" "sk-aaaaaaaaaaaaaaaaaaaa") 100
                Scenario.resolved = Throw SecretInPayload)
    by (vm_compute; reflexivity).
  split; [reflexivity|]. split; [reflexivity|]. split; [exact H|]. split.
  - intros (msg & db' & e & Hr & _). rewrite H in Hr. discriminate.
  - unfold commit. rewrite H. reflexivity.
Qed.

(** * Claim leases (C5) *)

Lemma held_by_other_Some d caller now other until :
  Decision.claimedBy d = Some other -> other <> caller ->
  Decision.claimedUntil d = Some until -> now < until ->
  held_by_other d caller now = Some (other, until).
Proof.
  intros Hby Hne Hun Hlt. unfold held_by_other. rewrite Hby, Hun.
  rewrite bool_decide_eq_false_2 by done.
  by rewrite (proj2 (Z.ltb_lt _ _) Hlt).
Qed.

Lemma held_by_other_None d caller now :
  ~ claimed_elsewhere d caller now -> held_by_other d caller now = None.
Proof.
  intros Hno. unfold held_by_other.
  destruct (Decision.claimedBy d) as [other|] eqn:Hby; [|reflexivity].
  destruct (Decision.claimedUntil d) as [until|] eqn:Hun; [|reflexivity].
  case_bool_decide as Hsame; simpl; [reflexivity|].
  destruct (now <? until) eqn:Hlt; [|reflexivity].
  exfalso. apply Hno. exists other, until. apply Z.ltb_lt in Hlt. done.
Qed.

Lemma alter_insert {A} (f : A -> A) i x (l : list A) :
  l !! i = Some x -> alter f i l = <[i := f x]> l.
Proof.
  intros Hi. apply list_eq. intros j. destruct (decide (i = j)) as [<-|Hne].
  - rewrite list_lookup_alter_eq, Hi, list_lookup_insert_eq; [done|].
    by eapply lookup_lt_Some.
  - by rewrite list_lookup_alter_ne, list_lookup_insert_ne.
Qed.

Section Claim.
Variables (who : option Identity) (project decisionId : string) (clk : Z).
Variables (db : Store) (auth : AuthContext) (i : nat) (d : Decision.t).
Hypothesis Hauth : resolveAuth who project db = Ok (auth, db).
Hypothesis Hrole : role auth = owner \/ role auth = operator.
Hypothesis Hfound :
  unique (fun x => bool_decide (Decision.decisionId x = decisionId))
         (decisions db) = Ok (Some (i, d)).
Hypothesis Hproject : Decision.projectId d = projectId auth.
Hypothesis Hopen : is_open (Decision.state d) = true.

Lemma claimDecision_enter :
  claimDecision who project decisionId clk db =
    match held_by_other d (userId auth) clk with
    | Some (by_, until) => ret (already_claimed by_ until) db
    | None =>
        let claimedUntil := clk + DECISION_CLAIM_MS in
        (patch_decision i (take_claim (userId auth) claimedUntil) ;;;
         eventId <- generateId "evt" clk ;;
         appendEvent
           (decision_event "clawops-decisions" eventId (tenantId auth)
              (projectId auth) DecisionClaimed clk d
              (claimed_payload (userId auth) claimedUntil)) ;;;
         ret (claimed claimedUntil)) db
    end.
Proof.
  unfold claimDecision. rewrite (withAuth_run _ _ _ _ _ _ Hauth).
  2:{ destruct Hrole as [->| ->]; [by left|by right]. }
  unfold claimDecision_handler.
  rewrite (bind_step _ _ _ _ _ (lookup_decision_run _ _ _ Hfound)).
  rewrite bool_decide_eq_true_2 by exact Hproject. rewrite Hopen.
  simpl negb. cbv iota.
  destruct (held_by_other d (userId auth) clk) as [[by_ until]|]; reflexivity.
Qed.

Lemma claimDecision_already other until :
  Decision.claimedBy d = Some other -> other <> userId auth ->
  Decision.claimedUntil d = Some until -> clk < until ->
  claimDecision who project decisionId clk db
    = Ok (already_claimed other until, db).
Proof.
  intros Hby Hne Hun Hlt. rewrite claimDecision_enter.
  by rewrite (held_by_other_Some _ _ _ _ _ Hby Hne Hun Hlt).
Qed.

Lemma claimDecision_takes :
  secret_string (userId auth) = false ->
  ~ claimed_elsewhere d (userId auth) clk ->
  lease_taken (claimDecision who project decisionId clk db) db i d
              (userId auth) clk.
Proof.
  intros Hc Hfree. rewrite claimDecision_enter, (held_by_other_None _ _ _ Hfree).
  cbv zeta. unfold bind, patch_decision, modify, generateId.
  rewrite appendEvent_run; [| |reflexivity..].
  2:{ simpl. rewrite Hc. reflexivity. }
  apply unique_decision_facts in Hfound as [Hrow _].
  eexists _, _, _. split; [reflexivity|]. split; [|repeat split; reflexivity].
  simpl. by apply alter_insert.
Qed.

End Claim.

(** C5. For a caller admitted as operator or owner (whose id passes the
    secret denylist of the log) and a [PENDING] or [CLAIMED] decision of
    their project: when another user holds a claim that has not expired,
    [claim_decision] returns [already_claimed] with that holder and expiry
    and modifies nothing; otherwise it sets [state := CLAIMED],
    [claimed_by := caller], [claimed_until := now + 5 min], appends
    [DecisionClaimed] and returns [claimed] with the new expiry. The current
    holder re-claiming falls in the second case: the lease is extended. *)
Theorem claim_decision_lease who project decisionId clk db auth i d :
  resolveAuth who project db = Ok (auth, db) ->
  role auth = owner \/ role auth = operator ->
  unique (fun x => bool_decide (Decision.decisionId x = decisionId))
         (decisions db) = Ok (Some (i, d)) ->
  Decision.projectId d = projectId auth ->
  is_open (Decision.state d) = true ->
  secret_string (userId auth) = false ->
  (forall other until,
      Decision.claimedBy d = Some other -> other <> userId auth ->
      Decision.claimedUntil d = Some until -> clk < until ->
      claimDecision who project decisionId clk db
        = Ok (already_claimed other until, db)) /\
  (~ claimed_elsewhere d (userId auth) clk ->
   lease_taken (claimDecision who project decisionId clk db) db i d
               (userId auth) clk) /\
  (Decision.claimedBy d = Some (userId auth) ->
   lease_taken (claimDecision who project decisionId clk db) db i d
               (userId auth) clk).
Proof.
  intros Hauth Hrole Hfound Hproj Hopen Hc. split; [|split].
  - intros other until. by eapply claimDecision_already.
  - by eapply claimDecision_takes.
  - intros Hmine. eapply claimDecision_takes; try eassumption.
    intros (other & until & Hby & Hne & _). congruence.
Qed.

Lemma claim_decision_lease_witness :
  claimDecision (Scenario.user "user:oscar") "proj_test" "dec_1" 100 Scenario.held
    = Ok (already_claimed "user:olga" 500, Scenario.held) /\
  lease_taken
    (claimDecision (Scenario.user "user:oscar") "proj_test" "dec_1" 600 Scenario.held)
    Scenario.held 0%nat
    (Scenario.decision "dec_1" "proj_test" "card_1" CLAIMED u_today None None
                       (Some "user:olga") (Some 500))
    "user:oscar" 600 /\
  lease_taken
    (claimDecision (Scenario.user "user:olga") "proj_test" "dec_1" 100 Scenario.held)
    Scenario.held 0%nat
    (Scenario.decision "dec_1" "proj_test" "card_1" CLAIMED u_today None None
                       (Some "user:olga") (Some 500))
    "user:olga" 100.
Proof.
  split; [|split].
  - refine (proj1 (claim_decision_lease (Scenario.user "user:oscar") "proj_test"
                     "dec_1" 100 Scenario.held (Scenario.auth "user:oscar" operator)
                     0%nat _ _ _ _ _ _ _) "user:olga" 500 _ _ _ _);
      [vm_compute; reflexivity | right; reflexivity | vm_compute; reflexivity
      | reflexivity | reflexivity | vm_compute; reflexivity
      | reflexivity | discriminate | reflexivity | reflexivity].
  - refine (proj1 (proj2 (claim_decision_lease (Scenario.user "user:oscar")
                     "proj_test" "dec_1" 600 Scenario.held
                     (Scenario.auth "user:oscar" operator) 0%nat _ _ _ _ _ _ _)) _);
      [vm_compute; reflexivity | right; reflexivity | vm_compute; reflexivity
      | reflexivity | reflexivity | vm_compute; reflexivity |].
    intros (other & until & Hby & _ & Hun & Hlt).
    simpl in Hun. injection Hun as <-. lia.
  - refine (proj2 (proj2 (claim_decision_lease (Scenario.user "user:olga")
                     "proj_test" "dec_1" 100 Scenario.held
                     (Scenario.auth "user:olga" operator) 0%nat _ _ _ _ _ _ _)) _);
      [vm_compute; reflexivity | right; reflexivity | vm_compute; reflexivity
      | reflexivity | reflexivity | vm_compute; reflexivity | reflexivity].
Defined.

(** * Exactly-one render (C1) *)

Lemma resolveAuth_members who project db db' auth :
  project_members db' = project_members db ->
  resolveAuth who project db = Ok (auth, db) ->
  resolveAuth who project db' = Ok (auth, db').
Proof.
  intros Hmem. unfold resolveAuth. destruct who as [identity|]; [|done].
  unfold bind, get, lift. rewrite Hmem.
  destruct (unique _ (project_members db)) as [[[j m]|]|]; try done.
  unfold ret. intros [= <-]. reflexivity.
Qed.

Lemma count_events_snoc ty id log e :
  count_events ty id (log ++ [e])
  = (count_events ty id log + (if event_about ty id e then 1 else 0))%nat.
Proof.
  unfold count_events. rewrite List.filter_app, length_app. simpl.
  by destruct (event_about ty id e).
Qed.

Lemma rejected_renders_accumulate who a clk auth i d n :
  forall db,
    resolveAuth who (RenderDecision.projectId a) db = Ok (auth, db) ->
    role auth = owner \/ role auth = operator ->
    unique (fun x => bool_decide (Decision.decisionId x = RenderDecision.decisionId a))
           (decisions db) = Ok (Some (i, d)) ->
    Decision.projectId d = projectId auth ->
    is_open (Decision.state d) = false ->
    secret_string (RenderDecision.optionKey a) = false ->
    secret_string (userId auth) = false ->
    count_events DecisionRenderRejected (Decision.decisionId d)
      (events (run_ops (map op_of (replicate n (DoRender who a clk))) db))
    = (count_events DecisionRenderRejected (Decision.decisionId d) (events db) + n)%nat.
Proof.
  induction n as [|n IH]; intros db Hauth Hrole Hfound Hproj Hclosed Ho Hc.
  - simpl. lia.
  - simpl. unfold commit.
    rewrite (renderDecision_resolved _ _ _ _ _ _ _ Hauth Hrole Hfound Hproj Hclosed Ho Hc).
    rewrite IH; try assumption.
    + simpl events. rewrite count_events_snoc.
      unfold event_about. simpl. rewrite !bool_decide_eq_true_2 by done. simpl. lia.
    + by apply (resolveAuth_members _ _ db).
Qed.

(** C1. Starting from a store in which decision ids are distinct, no id
    was rendered twice and no open decision was rendered, any sequence of
    claims, renewals, renders by any callers and sweeps (retry release,
    expiration, claim reclamation, load shedding) leaves at most one
    [DecisionRendered] event per decision id in the log. The number of
    [DecisionRenderRejected] events has no bound: [n] further render
    attempts on a resolved decision add exactly [n] of them. *)
Theorem exactly_one_render :
  (forall (os : list DecisionOp) db id,
      RenderInv db ->
      (count_events DecisionRendered id
         (events (run_ops (map op_of os) db)) <= 1)%nat) /\
  (forall who a clk auth i d n db,
      resolveAuth who (RenderDecision.projectId a) db = Ok (auth, db) ->
      role auth = owner \/ role auth = operator ->
      unique (fun x => bool_decide (Decision.decisionId x = RenderDecision.decisionId a))
             (decisions db) = Ok (Some (i, d)) ->
      Decision.projectId d = projectId auth ->
      is_open (Decision.state d) = false ->
      secret_string (RenderDecision.optionKey a) = false ->
      secret_string (userId auth) = false ->
      count_events DecisionRenderRejected (Decision.decisionId d)
        (events (run_ops (map op_of (replicate n (DoRender who a clk))) db))
      = (count_events DecisionRenderRejected (Decision.decisionId d) (events db) + n)%nat).
Proof.
  split.
  - intros os db id Hinv. apply RenderInv_at_most_once.
    eapply steps_RenderInv; [apply run_decision_ops_steps|exact Hinv].
  - intros. eapply rejected_renders_accumulate; eassumption.
Qed.

Lemma exactly_one_render_witness :
  (count_events DecisionRendered "dec_1"
     (events (run_ops (map op_of Scenario.session) Scenario.pending)) <= 1)%nat /\
  count_events DecisionRenderRejected "dec_1"
    (events (run_ops
               (map op_of
                  (replicate 3 (DoRender (Scenario.user "user:olga")
                                         (Scenario.render "dec_1" "approve") 20)))
               Scenario.resolved))
  = 3%nat.
Proof.
  split.
  - apply (proj1 exactly_one_render).
    split; [apply NoDup_singleton|]. split; [apply NoDup_nil_2|].
    repeat constructor. intros _ Hin. inversion Hin.
  - refine (proj2 exactly_one_render (Scenario.user "user:olga")
              (Scenario.render "dec_1" "approve") 20
              (Scenario.auth "user:olga" operator) 0%nat
              (Scenario.decision "dec_1" "proj_test" "card_1" RENDERED u_today
                                 None None None None)
              3%nat Scenario.resolved _ _ _ _ _ _ _);
      [vm_compute; reflexivity | right; reflexivity | vm_compute; reflexivity
      | reflexivity | reflexivity | vm_compute; reflexivity
      | vm_compute; reflexivity].
Defined.

Example render_race :
  let db := run_ops
              (map op_of
                 [DoRender (Scenario.user "user:olga")
                           (Scenario.render "dec_1" "approve") 20;
                  DoRender (Scenario.user "user:oscar")
                           (Scenario.render "dec_1" "reject") 20])
              Scenario.pending in
  count_events DecisionRendered "dec_1" (events db) = 1%nat /\
  count_events DecisionRenderRejected "dec_1" (events db) = 1%nat.
Proof. vm_compute. split; reflexivity. Qed.


(** * The card state machine (C8) *)

Lemma valid_edge_table from to :
  valid_edge from to = true <-> In (from, to) TRANSITION_TABLE.
Proof.
  split.
  - destruct from, to; intros H; try discriminate H; simpl; tauto.
  - intros H. simpl in H.
    repeat (destruct H as [[= <- <-]|H]; [reflexivity|]). destruct H.
Qed.

Lemma terminal_no_edge from to : terminal from -> valid_edge from to = false.
Proof. intros [->| ->]; reflexivity. Qed.

Lemma card_state_of_name_name s : card_state_of_name (card_state_name s) = Some s.
Proof. destruct s; reflexivity. Qed.

Lemma transition_event_edge eventId card a clk :
  payload_edge (Event.payload (transition_event eventId card a clk))
  = Some (Card.state card, Transition.to a).
Proof. simpl. by rewrite !card_state_of_name_name. Qed.

Lemma edge_ok_other e : Event.type e <> CardTransitioned -> edge_ok e = true.
Proof. intros H. unfold edge_ok. by rewrite bool_decide_eq_false_2. Qed.

Lemma step_edges b db db' :
  step b db db' ->
  Forall (fun e => edge_ok e = true) (events db) ->
  Forall (fun e => edge_ok e = true) (events db').
Proof.
  intros [Hc Hd [He|(e & [Hq _] & He)]|c Hc Hd He|d Hcr Hd Hc He|i d f Hr Hid Ho Hd Hc He
         |i d f e Hr Ho Hid Hcl Hty Hde Hd He Hc|k card a clk eid Hk Hu Hv Hc He Hd] Hlog;
    rewrite He; try exact Hlog; apply Forall_app; (split; [exact Hlog|]);
    apply Forall_singleton.
  - by apply edge_ok_other.
  - apply edge_ok_other. rewrite Hty. discriminate.
  - unfold edge_ok. rewrite bool_decide_eq_true_2 by reflexivity.
    rewrite transition_event_edge. exact Hv.
Qed.

Lemma steps_edges b db db' :
  steps b db db' ->
  Forall (fun e => edge_ok e = true) (events db) ->
  Forall (fun e => edge_ok e = true) (events db').
Proof. induction 1; eauto using step_edges. Qed.

Lemma transitions_of_snoc cardId log e :
  transitions_of cardId (log ++ [e])
  = (transitions_of cardId log
     ++ if bool_decide (Event.type e = CardTransitioned)
           && bool_decide (Event.cardId e = Some cardId)
        then [e] else [])%list.
Proof.
  unfold transitions_of. rewrite List.filter_app. simpl.
  by destruct (_ && _).
Qed.

Lemma transitions_of_other cardId log e :
  Event.type e <> CardTransitioned ->
  transitions_of cardId (log ++ [e]) = transitions_of cardId log.
Proof.
  intros H. rewrite transitions_of_snoc, bool_decide_eq_false_2 by done.
  simpl. by rewrite app_nil_r.
Qed.

(** A card in a terminal state is frozen, and so is its transition history. *)
Lemma step_terminal b db db' k c :
  step b db db' ->
  cards db !! k = Some c -> terminal (Card.state c) ->
  cards db' !! k = Some c /\
  transitions_of (Card.cardId c) (events db')
  = transitions_of (Card.cardId c) (events db).
Proof.
  intros [Hc Hd [He|(e & [Hq _] & He)]|c0 Hc Hd He|d Hcr Hd Hc He|i d f Hr Hid Ho Hd Hc He
         |i d f e Hr Ho Hid Hcl Hty Hde Hd He Hc|k' card a clk eid Hk Hu Hv Hc He Hd]
         Hrow Hterm; rewrite Hc, He.
  - done.
  - split; [done|]. by apply transitions_of_other.
  - split; [|done]. rewrite lookup_app_l; [done|]. by eapply lookup_lt_Some.
  - done.
  - done.
  - split; [done|]. apply transitions_of_other. rewrite Hty. discriminate.
  - assert (Hne : Card.cardId card <> Card.cardId c).
    { intros Heq. assert (k = k') as <- by (eapply Hu; [exact Hrow|done]).
      rewrite Hrow in Hk. injection Hk as <-.
      rewrite (terminal_no_edge _ _ Hterm) in Hv. discriminate. }
    split.
    + rewrite list_lookup_alter_ne; [done|]. intros <-.
      rewrite Hrow in Hk. injection Hk as <-. done.
    + rewrite transitions_of_snoc. simpl.
      rewrite (bool_decide_eq_false_2 (Some _ = Some _)) by congruence.
      simpl. by rewrite app_nil_r.
Qed.

Lemma steps_terminal b db db' k c :
  steps b db db' ->
  cards db !! k = Some c -> terminal (Card.state c) ->
  cards db' !! k = Some c /\
  transitions_of (Card.cardId c) (events db')
  = transitions_of (Card.cardId c) (events db).
Proof.
  induction 1 as [|x y z Hxy _ IH]; intros Hrow Hterm; [done|].
  destruct (step_terminal _ _ _ _ _ Hxy Hrow Hterm) as [Hrow' Hlog].
  destruct (IH Hrow' Hterm) as [Hrow'' Hlog']. split; [done|congruence].
Qed.

(** The HTTP entry points and [emitEvent] as effects. *)
Lemma httpRequestCommand_steps b a clk db r db' :
  _httpRequestCommand a clk db = Ok (r, db') -> steps b db db'.
Proof.
  unfold _httpRequestCommand. intros H. tx_inv H.
  apply generateId_Ok in Hrun as ->. apply generateId_Ok in Hrun0 as ->.
  apply generateId_Ok in Hrun1 as ->.
  injection Hrun3 as _ <-. injection Hrun4 as _ <-.
  apply generateId_Ok in Hrun5 as ->.
  apply appendEvent_fresh in Hrun6 as [_ ->]; [|reflexivity].
  apply ret_Ok in H as [_ ->].
  apply appendEvent_Ok in Hrun2 as [_ [->|[-> _]]]; peel.
Qed.

Lemma httpRequestDecision_steps a clk db r db' :
  _httpRequestDecision a clk db = Ok (r, db') -> steps true db db'.
Proof.
  unfold _httpRequestDecision. intros H.
  case_bool_decide; [discriminate|].
  tx_inv H.
  assert (db0 = db) as ->.
  { destruct (HttpRequestDecision.fallbackOption a) as [f|].
    - destruct (negb _); [discriminate|]. by apply ret_Ok in Hrun as [_ ->].
    - by apply ret_Ok in Hrun as [_ ->]. }
  apply generateId_Ok in Hrun0 as ->. injection Hrun1 as _ <-.
  apply generateId_Ok in Hrun2 as ->.
  apply appendEvent_fresh in Hrun3 as [_ ->]; [|reflexivity].
  apply ret_Ok in H as [_ ->]. peel.
Qed.

Lemma emitEvent_Ok who a db id db' :
  emitEvent who a db = Ok (id, db') ->
  exists auth, db' = db \/ db' = push_event (emitted a auth) db.
Proof.
  unfold emitEvent. intros (auth & _ & _ & H)%withAuth_Ok. exists auth.
  apply appendEvent_Ok in H as [_ [->|[-> _]]]; [by right|by left].
Qed.

(** What a run adds to the log: edges of the table, and the events
    callers stored through [emitEvent]. *)
Lemma step_new_edges b db db' :
  step b db db' ->
  exists l, events db' = (events db ++ l)%list /\
            Forall (fun e => edge_ok e = true) l.
Proof.
  intros [Hc Hd [He|(e & [Hq _] & He)]|c Hc Hd He|d Hcr Hd Hc He|i d f Hr Hid Ho Hd Hc He
         |i d f e Hr Ho Hid Hcl Hty Hde Hd He Hc|k card a clk eid Hk Hu Hv Hc He Hd].
  - exists []. by rewrite He, app_nil_r.
  - exists [e]. split; [exact He|]. apply Forall_singleton. by apply edge_ok_other.
  - exists []. by rewrite He, app_nil_r.
  - exists []. by rewrite He, app_nil_r.
  - exists []. by rewrite He, app_nil_r.
  - exists [e]. split; [exact He|]. apply Forall_singleton.
    apply edge_ok_other. rewrite Hty. discriminate.
  - eexists. split; [exact He|]. apply Forall_singleton.
    unfold edge_ok. rewrite bool_decide_eq_true_2 by reflexivity.
    rewrite transition_event_edge. exact Hv.
Qed.

Lemma steps_new_edges b db db' :
  steps b db db' ->
  exists l, events db' = (events db ++ l)%list /\
            Forall (fun e => edge_ok e = true) l.
Proof.
  induction 1 as [db|x y z Hxy _ (l2 & H2 & Hl2)].
  - exists []. by rewrite app_nil_r.
  - apply step_new_edges in Hxy as (l1 & H1 & Hl1).
    exists (l1 ++ l2)%list. split; [by rewrite H2, H1, app_assoc|].
    by apply Forall_app.
Qed.

Lemma serve_steps r db :
  steps true db (serve r db) \/
  exists who a,
    r = EmitEvent who a /\
    cards (serve r db) = cards db /\
    (events (serve r db) = events db \/
     exists auth, events (serve r db) = (events db ++ [emitted a auth])%list).
Proof.
  destruct r as [op|who a|a clk|a clk]; simpl.
  - left. apply run_op_steps.
  - right. exists who, a. split; [reflexivity|]. unfold commit.
    destruct (emitEvent who a db) as [[id db']|e] eqn:Hrun; [|by split; [|left]].
    apply emitEvent_Ok in Hrun as (auth & [->| ->]); [by split; [|left]|].
    split; [reflexivity|]. right. by exists auth.
  - left. apply commit_steps. intros r db'. apply httpRequestCommand_steps.
  - left. apply commit_steps. intros r db'. apply httpRequestDecision_steps.
Qed.

Lemma emitted_in_mono rs rs' e :
  (forall r, In r rs -> In r rs') -> emitted_in rs e -> emitted_in rs' e.
Proof. intros Hsub (who & a & auth & Hin & ->). exists who, a, auth. auto. Qed.

Lemma serve_new_edges r db :
  exists l, events (serve r db) = (events db ++ l)%list /\
            Forall (fun e => edge_ok e = true \/ emitted_in [r] e) l.
Proof.
  destruct (serve_steps r db) as [Hsteps|(who & a & -> & _ & [He|[auth He]])].
  - apply steps_new_edges in Hsteps as (l & Hl & Hok). exists l.
    split; [exact Hl|]. eapply Forall_impl; [exact Hok|]. intros e He. by left.
  - exists []. by rewrite He, app_nil_r.
  - exists [emitted a auth]. split; [exact He|]. apply Forall_singleton. right.
    exists who, a, auth. split; [by left|reflexivity].
Qed.

Lemma serve_all_new_edges rs db :
  exists l, events (serve_all rs db) = (events db ++ l)%list /\
            Forall (fun e => edge_ok e = true \/ emitted_in rs e) l.
Proof.
  revert db. induction rs as [|r rs IH]; intros db; simpl.
  - exists []. by rewrite app_nil_r.
  - destruct (serve_new_edges r db) as (l1 & H1 & Hl1).
    destruct (IH (serve r db)) as (l2 & H2 & Hl2).
    exists (l1 ++ l2)%list. split; [by rewrite H2, H1, app_assoc|].
    apply Forall_app. split.
    + eapply Forall_impl; [exact Hl1|]. intros e [He|He]; [by left|right].
      eapply emitted_in_mono; [|exact He]. intros x [<-|[]]. by left.
    + eapply Forall_impl; [exact Hl2|]. intros e [He|He]; [by left|right].
      eapply emitted_in_mono; [|exact He]. intros x Hx. by right.
Qed.

Lemma serve_terminal r db k c :
  cards db !! k = Some c -> terminal (Card.state c) ->
  cards (serve r db) !! k = Some c /\
  exists l,
    transitions_of (Card.cardId c) (events (serve r db))
    = (transitions_of (Card.cardId c) (events db) ++ l)%list /\
    Forall (emitted_in [r]) l.
Proof.
  intros Hrow Hterm.
  destruct (serve_steps r db) as [Hsteps|(who & a & -> & Hc & [He|[auth He]])].
  - destruct (steps_terminal _ _ _ _ _ Hsteps Hrow Hterm) as [Hrow' Hlog].
    split; [exact Hrow'|]. exists []. by rewrite app_nil_r.
  - rewrite Hc, He. split; [exact Hrow|]. exists []. by rewrite app_nil_r.
  - rewrite Hc, He. split; [exact Hrow|]. rewrite transitions_of_snoc.
    eexists. split; [reflexivity|]. destruct (_ && _); [|constructor].
    apply Forall_singleton. exists who, a, auth. split; [by left|reflexivity].
Qed.

Lemma serve_all_terminal rs db k c :
  cards db !! k = Some c -> terminal (Card.state c) ->
  cards (serve_all rs db) !! k = Some c /\
  exists l,
    transitions_of (Card.cardId c) (events (serve_all rs db))
    = (transitions_of (Card.cardId c) (events db) ++ l)%list /\
    Forall (emitted_in rs) l.
Proof.
  revert db. induction rs as [|r rs IH]; intros db Hrow Hterm; simpl.
  - split; [exact Hrow|]. exists []. by rewrite app_nil_r.
  - destruct (serve_terminal r db k c Hrow Hterm) as (Hrow' & l1 & H1 & Hl1).
    destruct (IH _ Hrow' Hterm) as (Hrow'' & l2 & H2 & Hl2).
    split; [exact Hrow''|]. exists (l1 ++ l2)%list.
    split; [by rewrite H2, H1, app_assoc|]. apply Forall_app. split.
    + eapply Forall_impl; [exact Hl1|]. intros e He.
      eapply emitted_in_mono; [|exact He]. intros x [<-|[]]. by left.
    + eapply Forall_impl; [exact Hl2|]. intros e He.
      eapply emitted_in_mono; [|exact He]. intros x Hx. by right.
Qed.

(** C8, as the code has it. The transition table of the code is the
    closed table of the specification. Whatever requests are served (the
    mutations, the sweeper, the HTTP entry points, [emitEvent]), every
    [CardTransitioned] event of the log, other than the events callers
    stored through [emitEvent], records an edge of the table (when the
    initial log does); a successful [transitionCard] appends exactly one
    [CardTransitioned] event, recording the state the card was in and the
    target, which form an edge; a transition along any other pair throws
    [InvalidTransition] and the mutation leaves the store unchanged; and a
    card in [DONE] or [FAILED] keeps its row and gains no further
    [CardTransitioned] event, other than the events callers stored
    through [emitEvent]. *)
Theorem card_transitions_closed :
  (forall from to, valid_edge from to = true <-> In (from, to) TRANSITION_TABLE) /\
  (forall rs db,
      Forall (fun e => edge_ok e = true) (events db) ->
      Forall (fun e => edge_ok e = true \/ emitted_in rs e)
             (events (serve_all rs db))) /\
  (forall a clk db from to db',
      transitionCard a clk db = Ok ((from, to), db') ->
      In (from, to) TRANSITION_TABLE /\
      exists k card e,
        cards db !! k = Some card /\ Card.state card = from /\
        Transition.to a = to /\
        events db' = (events db ++ [e])%list /\
        Event.type e = CardTransitioned /\
        Event.cardId e = Some (Card.cardId card) /\
        payload_edge (Event.payload e) = Some (from, to)) /\
  (forall a clk db k card,
      unique (fun c => bool_decide (Card.cardId c = Transition.cardId a)) (cards db)
        = Ok (Some (k, card)) ->
      ~ In (Card.state card, Transition.to a) TRANSITION_TABLE ->
      transitionCard a clk db
        = Throw (InvalidTransition (Card.state card) (Transition.to a)) /\
      commit (transitionCard a clk) db = db) /\
  (forall rs db k c,
      cards db !! k = Some c -> terminal (Card.state c) ->
      cards (serve_all rs db) !! k = Some c /\
      exists l,
        transitions_of (Card.cardId c) (events (serve_all rs db))
        = (transitions_of (Card.cardId c) (events db) ++ l)%list /\
        Forall (emitted_in rs) l).
Proof.
  split; [exact valid_edge_table|]. split; [|split; [|split]].
  - intros rs db Hlog.
    destruct (serve_all_new_edges rs db) as (l & -> & Hl).
    apply Forall_app. split; [|exact Hl].
    eapply Forall_impl; [exact Hlog|]. intros e He. by left.
  - intros a clk db from to db' H.
    apply transitionCard_Ok in H as (k & card & eid & Hu & Hv & _ & [= -> ->] & ->).
    split; [by apply valid_edge_table|].
    apply unique_card_facts in Hu as (Hk & _ & _).
    exists k, card, (transition_event eid card a clk).
    repeat split; try done. apply transition_event_edge.
  - intros a clk db k card Hu Hno.
    assert (Hv : valid_edge (Card.state card) (Transition.to a) = false).
    { destruct (valid_edge _ _) eqn:Hv; [|done]. by apply valid_edge_table in Hv. }
    pose proof (transitionCard_invalid _ clk _ _ _ Hu Hv) as Hthrow.
    split; [exact Hthrow|]. unfold commit. by rewrite Hthrow.
  - exact serve_all_terminal.
Qed.

Lemma card_transitions_closed_witness :
  Forall (fun e => edge_ok e = true \/ emitted_in Fixture.card_life e)
         (events (serve_all Fixture.card_life empty_store)) /\
  In (RUNNING, DONE) TRANSITION_TABLE /\
  (transitionCard (Scenario.transition "card_1" READY None) 7 Scenario.running
     = Throw (InvalidTransition RUNNING READY) /\
   commit (transitionCard (Scenario.transition "card_1" READY None) 7)
          Scenario.running = Scenario.running) /\
  cards (serve_all Fixture.card_life Scenario.finished) !! 0%nat
    = Some (Scenario.card "card_1" DONE None).
Proof.
  destruct card_transitions_closed as (_ & Hlog & Hrun & Hbad & Hterm).
  split; [|split; [|split]].
  - apply Hlog. constructor.
  - refine (proj1 (Hrun (Scenario.transition "card_1" DONE None) 7 Scenario.running
                     RUNNING DONE _ _)).
    vm_compute. reflexivity.
  - apply (Hbad (Scenario.transition "card_1" READY None) 7 Scenario.running
                0%nat (Scenario.card "card_1" RUNNING None)).
    + vm_compute. reflexivity.
    + simpl. intros H.
      repeat (destruct H as [H|H]; [discriminate H|]). destruct H.
  - apply (Hterm Fixture.card_life Scenario.finished 0%nat
                 (Scenario.card "card_1" DONE None)).
    + reflexivity.
    + left. reflexivity.
Defined.

(** C8 as stated fails: [emitEvent] stores what its caller sends. On the
    store a project set-up, a [createCard] and two transitions build, a bot
    emits a [CardTransitioned] event from [DONE] to [READY] for the card
    that is done: the event is appended as sent, it records no edge of the
    table, and the card, which stays [DONE], has one more
    [CardTransitioned] event. *)
Lemma emitted_transition_off_table :
  let db := serve_all Fixture.done_card
                      (base (administer_all Fixture.team Fixture.nothing)) in
  let db' := serve (EmitEvent (Scenario.user "user:bot") Fixture.forged) db in
  Forall (fun e => edge_ok e = true) (events db) /\
  map (fun c => (Card.cardId c, Card.state c)) (cards db) = [("card_1-0", DONE)] /\
  cards db' = cards db /\
  length (transitions_of "card_1-0" (events db)) = 2%nat /\
  length (transitions_of "card_1-0" (events db')) = 3%nat /\
  exists e,
    events db' = (events db ++ [e])%list /\
    Event.type e = CardTransitioned /\
    Event.cardId e = Some "card_1-0" /\
    payload_edge (Event.payload e) = Some (DONE, READY) /\
    ~ In (DONE, READY) TRANSITION_TABLE /\
    edge_ok e = false.
Proof.
  vm_compute. split; [repeat constructor|]. repeat (split; [reflexivity|]).
  eexists. split; [reflexivity|]. repeat (split; [reflexivity|]).
  split; [|reflexivity]. intros H.
  repeat (destruct H as [H|H]; [discriminate H|]). destruct H.
Qed.

Example scenario_team :
  base (administer_all Fixture.team Fixture.nothing) = Scenario.store [] [].
Proof. vm_compute. reflexivity. Qed.

Example card_life_log :
  map (fun e => (Event.type e, payload_edge (Event.payload e)))
      (events (run_ops Scenario.card_life empty_store))
  = [(CardCreated, None);
     (CardTransitioned, Some (READY, RUNNING));
     (CardTransitioned, Some (RUNNING, FAILED))].
Proof. vm_compute. reflexivity. Qed.

(** * Retry timestamps (C9) *)

Lemma transition_patch_exit_clears card a now row :
  Card.state card = RETRY_SCHEDULED ->
  Card.retryAtTs (transition_patch card a now row) = None.
Proof. intros H. unfold transition_patch. rewrite H. reflexivity. Qed.

Lemma transition_patch_entry_sets card a now row r :
  Card.state card = RUNNING ->
  Transition.to a = RETRY_SCHEDULED ->
  Transition.retryAtTs a = Some r ->
  Card.state (transition_patch card a now row) = RETRY_SCHEDULED /\
  Card.retryAtTs (transition_patch card a now row) = Some r.
Proof.
  intros Hfrom Hto Hr. unfold transition_patch. rewrite Hfrom, Hto, Hr.
  split; reflexivity.
Qed.

(** C9, the defect. A transition into [RETRY_SCHEDULED] whose arguments
    carry no [retryAtTs] succeeds and leaves the card in [RETRY_SCHEDULED]
    with [retry_at_ts] unset: the entry does not set it. Such a card is
    skipped by every later retry release of the sweeper. *)
Theorem retry_scheduled_without_timestamp a clk db k card :
  unique (fun c => bool_decide (Card.cardId c = Transition.cardId a)) (cards db)
    = Ok (Some (k, card)) ->
  Card.state card = RUNNING ->
  Card.retryAtTs card = None ->
  Transition.to a = RETRY_SCHEDULED ->
  Transition.retryAtTs a = None ->
  secret_string (Transition.reason a) = false ->
  exists db' card',
    transitionCard a clk db = Ok ((RUNNING, RETRY_SCHEDULED), db') /\
    cards db' !! k = Some card' /\
    Card.state card' = RETRY_SCHEDULED /\
    Card.retryAtTs card' = None /\
    (forall now clk' db'', release_one now clk' (k, card') db'' = Ok (tt, db'')).
Proof.
  intros Hu Hfrom Hunset Hto Hnone Hs.
  pose proof (unique_card_facts _ _ _ _ Hu) as (Hk & _ & _).
  eexists _, (transition_patch card a clk card).
  split; [|split; [|split; [|split]]].
  - rewrite (transitionCard_run _ _ _ _ _ Hu); [by rewrite Hfrom, Hto| |exact Hs].
    by rewrite Hfrom, Hto.
  - simpl. by rewrite list_lookup_alter_eq, Hk.
  - unfold transition_patch. by rewrite Hfrom, Hto, Hnone.
  - unfold transition_patch. by rewrite Hfrom, Hto, Hnone.
  - intros now clk' db''. unfold release_one. simpl.
    unfold transition_patch. rewrite Hfrom, Hto, Hnone. simpl.
    by rewrite Hunset.
Qed.

Lemma retry_scheduled_without_timestamp_witness :
  exists db' card',
    transitionCard (Scenario.transition "card_1" RETRY_SCHEDULED None) 7
                   Scenario.running
      = Ok ((RUNNING, RETRY_SCHEDULED), db') /\
    cards db' !! 0%nat = Some card' /\
    Card.state card' = RETRY_SCHEDULED /\
    Card.retryAtTs card' = None /\
    (forall now clk' db'', release_one now clk' (0%nat, card') db'' = Ok (tt, db'')).
Proof.
  apply (retry_scheduled_without_timestamp
           (Scenario.transition "card_1" RETRY_SCHEDULED None) 7 Scenario.running
           0%nat (Scenario.card "card_1" RUNNING None));
    [vm_compute; reflexivity | reflexivity | reflexivity | reflexivity
    | reflexivity | vm_compute; reflexivity].
Defined.

Example stuck_in_retry :
  let db := run_ops
              [OpTransitionCard (Scenario.transition "card_1" RETRY_SCHEDULED None) 7;
               OpSweep (Some 1000000) 8; OpSweep (Some 2000000) 9]
              Scenario.running in
  map (fun c => (Card.state c, Card.retryAtTs c)) (cards db)
  = [(RETRY_SCHEDULED, None)].
Proof. vm_compute. reflexivity. Qed.

(** * Card creation (C3) *)

(** C3, the defect. [createCard] consults no identity: for any caller,
    also an unauthenticated one, and with no membership whatsoever, it
    inserts a card in [READY] and appends [CardCreated] (as long as the
    payload passes the secret denylist). *)
Theorem create_card_unguarded who a clk db :
  secret_string (CreateCard.title a) = false ->
  containsSecret (json_of_cardSpec (CreateCard.spec a)) = false ->
  exists cardId db' c e,
    createCard who a clk db = Ok ((cardId, length (cards db)), db') /\
    cards db' = (cards db ++ [c])%list /\
    Card.cardId c = cardId /\ Card.state c = READY /\
    Card.projectId c = CreateCard.projectId a /\
    events db' = (events db ++ [e])%list /\
    Event.type e = CardCreated /\ Event.cardId e = Some cardId.
Proof.
  intros Ht Hs. unfold createCard, bind, generateId, insert_card.
  rewrite appendEvent_run; [| |reflexivity..].
  2:{ cbn [Event.payload containsSecret]. rewrite Ht, Hs. reflexivity. }
  eexists _, _, _, _. split; [reflexivity|]. repeat split; reflexivity.
Qed.

Lemma create_card_unguarded_witness :
  exists cardId db' c e,
    createCard None Scenario.create_card 1 empty_store
      = Ok ((cardId, 0%nat), db') /\
    cards db' = [c] /\
    Card.cardId c = cardId /\ Card.state c = READY /\
    Card.projectId c = "proj_test" /\
    events db' = [e] /\
    Event.type e = CardCreated /\ Event.cardId e = Some cardId.
Proof.
  apply (create_card_unguarded None Scenario.create_card 1 empty_store);
    vm_compute; reflexivity.
Defined.

Example create_card_by_viewer :
  let db := Scenario.store [] [] in
  length (cards (commit (createCard (Scenario.user "user:vic")
                                    Scenario.create_card 1) db)) = 1%nat /\
  length (cards (commit (createCard (Scenario.user "user:nobody")
                                    Scenario.create_card 1) db)) = 1%nat.
Proof. vm_compute. split; reflexivity. Qed.

(** * Command admission and idempotency keys (C2) *)

Lemma appendEvent_duplicate e db k id e0 :
  containsSecret (Event.payload e) = false ->
  Event.tags e = None ->
  Event.idempotencyKey e = Some k ->
  first (fun x => bool_decide (Event.idempotencyKey x = Some k)) (events db)
    = Some (id, e0) ->
  appendEvent e db = Ok (id, db).
Proof.
  intros Hs Ht Hk Hfirst. unfold appendEvent. rewrite Hs, Ht, Hk.
  unfold bind, get. rewrite Hfirst. reflexivity.
Qed.

(** C2, the defect. A [request_command] whose idempotency key is already
    held by an event of the log gets the original event back from the
    log ([appendEvent] returns its id and stores nothing), but the handler
    drops that answer and goes on: it inserts a second command row and a
    second card row, appends a second [CardCreated] event and returns
    freshly generated ids. *)
Theorem duplicate_request_inserts_again who a clk db auth k id e0 :
  resolveAuth who (RequestCommand.projectId a) db = Ok (auth, db) ->
  role auth = owner \/ role auth = operator \/ role auth = bot ->
  RequestCommand.idempotencyKey a = Some k ->
  first (fun x => bool_decide (Event.idempotencyKey x = Some k)) (events db)
    = Some (id, e0) ->
  secret_string (RequestCommand.title a) = false ->
  containsSecret (json_of_commandSpec (RequestCommand.commandSpec a)) = false ->
  exists commandId cardId db' cmd card e,
    requestCommand who a clk db = Ok ((commandId, cardId), db') /\
    commands db' = (commands db ++ [cmd])%list /\
    Command.commandId cmd = commandId /\
    cards db' = (cards db ++ [card])%list /\
    Card.cardId card = cardId /\
    events db' = (events db ++ [e])%list /\
    Event.type e = CardCreated /\
    Event.commandId e = Some commandId /\
    Event.cardId e = Some cardId.
Proof.
  intros Hauth Hrole Hk Hfirst Ht Hs. unfold requestCommand.
  rewrite (withAuth_run _ _ _ _ _ _ Hauth).
  2:{ destruct Hrole as [->|[->| ->]]; [by left|by right|by right]. }
  unfold requestCommand_handler, bind, generateId.
  erewrite appendEvent_duplicate; [| |reflexivity|exact Hk|exact Hfirst].
  2:{ cbn [Event.payload containsSecret]. rewrite Ht, Hs. reflexivity. }
  unfold insert_command, insert_card.
  rewrite appendEvent_run; [| |reflexivity..].
  2:{ cbn [Event.payload containsSecret]. rewrite Ht. reflexivity. }
  eexists _, _, _, _, _, _. split; [reflexivity|]. repeat split; reflexivity.
Qed.

Lemma duplicate_request_inserts_again_witness :
  exists commandId cardId db' cmd card e,
    requestCommand (Scenario.user "user:bot") (Scenario.command (Some "k1")) 2
                   Scenario.requested_once
      = Ok ((commandId, cardId), db') /\
    commands db' = (commands Scenario.requested_once ++ [cmd])%list /\
    Command.commandId cmd = commandId /\
    cards db' = (cards Scenario.requested_once ++ [card])%list /\
    Card.cardId card = cardId /\
    events db' = (events Scenario.requested_once ++ [e])%list /\
    Event.type e = CardCreated /\
    Event.commandId e = Some commandId /\
    Event.cardId e = Some cardId.
Proof.
  refine (duplicate_request_inserts_again (Scenario.user "user:bot")
            (Scenario.command (Some "k1")) 2 Scenario.requested_once
            (Scenario.auth "user:bot" bot) "k1" 0%nat _ _ _ _ _ _ _);
    [vm_compute; reflexivity | right; right; reflexivity | reflexivity
    | vm_compute; reflexivity | vm_compute; reflexivity | vm_compute; reflexivity].
Defined.

Example request_twice :
  let db1 := Scenario.requested_once in
  let db2 := commit (requestCommand (Scenario.user "user:bot")
                                    (Scenario.command (Some "k1")) 2) db1 in
  (length (commands db1), length (cards db1), map Event.type (events db1))
    = (1%nat, 1%nat, [CommandRequested; CardCreated]) /\
  (length (commands db2), length (cards db2), map Event.type (events db2))
    = (2%nat, 2%nat, [CommandRequested; CardCreated; CardCreated]).
Proof. vm_compute. split; reflexivity. Qed.

(** * Failures inside a sweep *)

(** The sweep has no error handling of its own: a phase that throws makes
    the whole mutation throw, and nothing of the pass is kept. *)
Lemma sweep_phase_aborts now clk db e :
  releaseRetries now clk db = Throw e \/
  (exists db0,
      releaseRetries now clk db = Ok (tt, db0) /\
      (expireDecisions now clk db0 = Throw e \/
       exists db1,
         expireDecisions now clk db0 = Ok (tt, db1) /\
         (reclaimExpiredClaims now clk db1 = Throw e \/
          exists db2,
            reclaimExpiredClaims now clk db1 = Ok (tt, db2) /\
            loadShed now clk db2 = Throw e))) ->
  sweep (Some now) clk db = Throw e /\ commit (sweep (Some now) clk) db = db.
Proof.
  intros H.
  assert (Hthrow : sweep (Some now) clk db = Throw e).
  { unfold sweep. simpl default.
    destruct H as [H|(db0 & H0 & [H|(db1 & H1 & [H|(db2 & H2 & H)])])].
    - by apply bind_Throw.
    - rewrite (bind_step _ _ _ _ _ H0). by apply bind_Throw.
    - rewrite (bind_step _ _ _ _ _ H0), (bind_step _ _ _ _ _ H1).
      by apply bind_Throw.
    - rewrite (bind_step _ _ _ _ _ H0), (bind_step _ _ _ _ _ H1),
        (bind_step _ _ _ _ _ H2). exact H. }
  split; [exact Hthrow|]. unfold commit. by rewrite Hthrow.
Qed.

Lemma sweep_aborts_in_expiry now clk db db0 e :
  releaseRetries now clk db = Ok (tt, db0) ->
  expireDecisions now clk db0 = Throw e ->
  sweep (Some now) clk db = Throw e.
Proof.
  intros H1 H2. unfold sweep. simpl default.
  rewrite (bind_step _ _ _ _ _ H1). by apply bind_Throw.
Qed.

(** Inside the expiry loop: when the processing of one expired decision
    throws, the loop stops there, the decisions after it and the later
    phases are not processed, and the sweep mutation fails as a whole, so
    that the store stays as it was before the pass. *)
Theorem sweep_failure_aborts now clk db db0 db1 xs x ys e :
  releaseRetries now clk db = Ok (tt, db0) ->
  expired_snapshot now db0 = (xs ++ x :: ys)%list ->
  for_each xs (expire_one now clk) db0 = Ok (tt, db1) ->
  expire_one now clk x db1 = Throw e ->
  sweep (Some now) clk db = Throw e /\
  commit (sweep (Some now) clk) db = db.
Proof.
  intros Hrel Hsnap Hxs Hx.
  assert (Hthrow : sweep (Some now) clk db = Throw e).
  { eapply sweep_aborts_in_expiry; [exact Hrel|].
    unfold expireDecisions. rewrite (bind_step _ _ db0 db0 db0) by reflexivity.
    fold (expired_snapshot now db0). rewrite Hsnap.
    by eapply for_each_abort. }
  split; [exact Hthrow|]. unfold commit. by rewrite Hthrow.
Qed.

Lemma sweep_failure_aborts_witness :
  sweep (Some 100) 100 Scenario.poisoned = Throw SecretInPayload /\
  commit (sweep (Some 100) 100) Scenario.poisoned = Scenario.poisoned.
Proof.
  refine (sweep_failure_aborts 100 100 Scenario.poisoned Scenario.poisoned
            Scenario.poisoned []
            (0%nat, Scenario.decision "dec_1" "proj_test" "card_1" PENDING u_today
                      (Some 50) (Some "sk-aaaaaaaaaaaaaaaaaaaa") None None)
            [(1%nat, Scenario.decision "dec_2" "proj_test" "card_2" PENDING u_today
                       (Some 50) None None None)]
            SecretInPayload _ _ _ _);
    vm_compute; reflexivity.
Defined.

(** On the seeded store the failure on the first decision keeps the second
    one, which is past its deadline too, from being expired (alone it is
    expired and its card fails), and the later phases from running. *)
Lemma sweep_failure_not_isolated :
  let sweep_it := commit (sweep (Some 100) 100) in
  sweep (Some 100) 100 Scenario.poisoned = Throw SecretInPayload /\
  map Decision.state (decisions (sweep_it Scenario.poisoned)) = [PENDING; PENDING] /\
  map Card.state (cards (sweep_it Scenario.poisoned)) = [NEEDS_DECISION] /\
  map Decision.state (decisions (sweep_it Scenario.unpoisoned)) = [EXPIRED] /\
  map Card.state (cards (sweep_it Scenario.unpoisoned)) = [FAILED].
Proof. vm_compute. repeat split; reflexivity. Qed.

(** * Frames of the sweeper *)

Lemma log_extends_refl db : log_extends db db.
Proof. exists []. by rewrite app_nil_r. Qed.

Lemma log_extends_trans db1 db2 db3 :
  log_extends db1 db2 -> log_extends db2 db3 -> log_extends db1 db3.
Proof. intros [l1 H1] [l2 H2]. exists (l1 ++ l2)%list. by rewrite H2, H1, app_assoc. Qed.

Lemma log_extends_same db db' : events db' = events db -> log_extends db db'.
Proof. intros H. exists []. by rewrite app_nil_r. Qed.

(** A loop keeps what each of its items keeps. *)
Lemma for_each_keeps {X} (R : Store -> Store -> Prop) (Q : X -> Prop)
    (body : X -> M unit) :
  (forall db, R db db) ->
  (forall db1 db2 db3, R db1 db2 -> R db2 db3 -> R db1 db3) ->
  (forall x db db', Q x -> body x db = Ok (tt, db') -> R db db') ->
  forall xs db db',
    Forall Q xs -> for_each xs body db = Ok (tt, db') -> R db db'.
Proof.
  intros Hrefl Htrans Hbody xs. induction xs as [|x xs IH]; intros db db' HQ Hrun.
  - apply ret_Ok in Hrun as [_ ->]. apply Hrefl.
  - rewrite for_each_cons in Hrun. apply bind_Ok in Hrun as ([] & db1 & Hx & Hrest).
    apply Forall_cons in HQ as [Hq HQ].
    eapply Htrans; [by eapply Hbody|by eapply IH].
Qed.

Lemma transition_patch_state card a now row :
  Card.state (transition_patch card a now row) = Transition.to a.
Proof.
  unfold transition_patch.
  destruct (Transition.retryAtTs a); repeat case_bool_decide; reflexivity.
Qed.

Lemma transition_patch_cardId card a now row :
  Card.cardId (transition_patch card a now row) = Card.cardId row.
Proof.
  unfold transition_patch.
  destruct (Transition.retryAtTs a); repeat case_bool_decide; reflexivity.
Qed.

Lemma transitioned_log eid k card a clk db : log_extends db (transitioned eid k card a clk db).
Proof. eexists. reflexivity. Qed.

(** What [resume_card] leaves alone. *)
Lemma resume_card_frame d to reason clk db db' :
  resume_card d to reason clk db = Ok (tt, db') ->
  decisions db' = decisions db /\
  log_extends db db' /\
  forall k c,
    Card.state c <> NEEDS_DECISION \/ Card.cardId c <> Decision.cardId d ->
    keeps_card k c db db'.
Proof.
  intros (found & Hu & H)%resume_card_Ok.
  assert (Hsame : db' = db ->
          decisions db' = decisions db /\ log_extends db db' /\
          forall k c, Card.state c <> NEEDS_DECISION \/ Card.cardId c <> Decision.cardId d ->
                      keeps_card k c db db').
  { intros ->. split; [done|]. split; [apply log_extends_refl|]. by intros k c _ Hk. }
  destruct found as [[k0 c0]|]; [|by apply Hsame].
  case_bool_decide as Hst; [|by apply Hsame].
  destruct H as [_ [eid ->]]. split; [reflexivity|]. split; [apply transitioned_log|].
  apply unique_card_facts in Hu as (Hk0 & Hid & _).
  intros k c Hc Hk. simpl. destruct (decide (k0 = k)) as [->|Hne].
  - rewrite Hk in Hk0. injection Hk0 as ->. destruct Hc; congruence.
  - by rewrite list_lookup_alter_ne.
Qed.

(** [resume_card] moves the card of the decision out of [NEEDS_DECISION]. *)
Lemma resume_card_hit d to reason clk db db' k c :
  resume_card d to reason clk db = Ok (tt, db') ->
  cards db !! k = Some c ->
  Card.cardId c = Decision.cardId d ->
  Card.state c = NEEDS_DECISION ->
  exists c', cards db' !! k = Some c' /\ Card.state c' = to /\
             Card.cardId c' = Card.cardId c.
Proof.
  intros (found & Hu & H)%resume_card_Ok Hk Hid Hst.
  assert (Hp : bool_decide (Card.cardId c = Decision.cardId d) = true)
    by by apply bool_decide_eq_true.
  destruct found as [[k0 c0]|].
  - apply unique_Some in Hu as (_ & _ & Huniq).
    destruct (Huniq _ _ Hk Hp) as [Hk0 Hc0]. subst k0 c0. clear Huniq.
    rewrite bool_decide_eq_true_2 in H by exact Hst.
    destruct H as [_ [eid ->]].
    exists (transition_patch c (resume_args d to reason) clk c).
    split; [simpl; by rewrite list_lookup_alter_eq, Hk|].
    by rewrite transition_patch_state, transition_patch_cardId.
  - pose proof (unique_None _ _ Hu _ _ Hk). congruence.
Qed.

Lemma expire_one_frame now clk j dj db db' :
  expire_one now clk (j, dj) db = Ok (tt, db') ->
  (exists F, decisions db' = alter F j (decisions db)) /\
  log_extends db db' /\
  forall k c,
    Card.state c <> NEEDS_DECISION \/ Card.cardId c <> Decision.cardId dj ->
    keeps_card k c db db'.
Proof.
  intros (eid1 & eid2 & H)%expire_one_Ok.
  apply resume_card_frame in H as (Hdec & Hlog & Hcards).
  split; [|split].
  - rewrite Hdec. unfold expired_store.
    destruct (Decision.fallbackOption dj); eexists; reflexivity.
  - eapply log_extends_trans; [|exact Hlog]. unfold expired_store.
    destruct (Decision.fallbackOption dj); eexists; simpl; by rewrite <- ?app_assoc.
  - intros k c Hc Hk. apply (Hcards k c Hc). unfold expired_store.
    by destruct (Decision.fallbackOption dj).
Qed.

(** The expiry of [d] itself. *)
Lemma expire_one_hit now clk i d db db' :
  decisions db !! i = Some d ->
  expire_one now clk (i, d) db = Ok (tt, db') ->
  decisions db' !! i = Some (expired_row now d) /\
  (exists e l,
      events db' = (events db ++ e :: l)%list /\
      Event.type e = DecisionExpired /\
      Event.decisionId e = Some (Decision.decisionId d) /\
      Event.payload e = expired_payload d) /\
  forall k c,
    cards db !! k = Some c ->
    Card.cardId c = Decision.cardId d ->
    Card.state c = NEEDS_DECISION ->
    exists c', cards db' !! k = Some c' /\ Card.state c' = expiry_target d /\
               Card.cardId c' = Card.cardId c.
Proof.
  intros Hrow (eid1 & eid2 & H)%expire_one_Ok.
  pose proof (resume_card_frame _ _ _ _ _ _ H) as (Hdec & [l Hlog] & _).
  split; [|split].
  - rewrite Hdec. unfold expired_store, expired_row.
    destruct (Decision.fallbackOption d); simpl;
      by rewrite list_lookup_alter_eq, Hrow.
  - exists (sweeper_event eid1 DecisionExpired now d (expired_payload d)).
    unfold expired_store in Hlog.
    destruct (Decision.fallbackOption d); simpl in Hlog;
      eexists; (split; [rewrite Hlog, <- ?app_assoc; reflexivity|done]).
  - intros k c Hk Hid Hst. eapply resume_card_hit; [exact H| |exact Hid|exact Hst].
    unfold expired_store. by destruct (Decision.fallbackOption d).
Qed.

Lemma rows_from_sorted {A} (p : A -> bool) (l : list A) n :
  StronglySorted by_id (rows_from p n l).
Proof.
  revert n. induction l as [|y l IH]; intros n; simpl; [constructor|].
  destruct (p y); [|apply IH].
  apply StronglySorted_cons. split; [|apply IH].
  apply Forall_forall. intros [i x] Hin%rows_from_lower. unfold by_id. simpl. lia.
Qed.

Lemma List_filter_sorted {A} (R : relation A) (f : A -> bool) (l : list A) :
  StronglySorted R l -> StronglySorted R (List.filter f l).
Proof.
  induction l as [|y l IH]; simpl; [done|].
  intros [Hy Hl]%StronglySorted_cons. destruct (f y); [|auto].
  apply StronglySorted_cons. split; [|auto].
  apply Forall_forall. intros z [Hz _]%elem_of_List_filter.
  rewrite Forall_forall in Hy. by apply Hy.
Qed.

Lemma expired_snapshot_sorted now db : StronglySorted by_id (expired_snapshot now db).
Proof. apply List_filter_sorted, rows_from_sorted. Qed.

Lemma elem_of_expired_snapshot now db i d :
  (i, d) ∈ expired_snapshot now db <->
  decisions db !! i = Some d /\ is_open (Decision.state d) = true /\
  is_expired now d = true.
Proof.
  unfold expired_snapshot. rewrite elem_of_List_filter, elem_of_collect. simpl.
  tauto.
Qed.

(** ** Phase 1 *)

Lemma release_one_frame now clk r db db' :
  release_one now clk r db = Ok (tt, db') ->
  decisions db' = decisions db /\
  log_extends db db' /\
  forall k c, Card.state c <> RETRY_SCHEDULED -> keeps_card k c db db'.
Proof.
  destruct r as [k0 card].
  intros [->|(k' & c' & eid & Hu & Hv & ->)]%release_one_Ok.
  - split; [done|]. split; [apply log_extends_refl|]. by intros k c _ Hk.
  - split; [reflexivity|]. split; [apply transitioned_log|].
    apply unique_card_facts in Hu as (Hk' & _ & _).
    intros k c Hc Hk. simpl. destruct (decide (k' = k)) as [->|Hne].
    + rewrite Hk in Hk'. injection Hk' as ->.
      destruct (Card.state c'); try discriminate Hv. done.
    + by rewrite list_lookup_alter_ne.
Qed.

Lemma releaseRetries_frame now clk db db' :
  releaseRetries now clk db = Ok (tt, db') ->
  decisions db' = decisions db /\
  log_extends db db' /\
  forall k c, Card.state c <> RETRY_SCHEDULED -> keeps_card k c db db'.
Proof.
  unfold releaseRetries. intros H. tx_inv H. apply get_Ok in Hrun as [-> ->].
  eapply (for_each_keeps
            (fun db1 db2 =>
               decisions db2 = decisions db1 /\ log_extends db1 db2 /\
               forall k c, Card.state c <> RETRY_SCHEDULED -> keeps_card k c db1 db2)
            (fun _ => True)); [| | |apply Forall_true; done|exact H].
  - intros db1. split; [done|]. split; [apply log_extends_refl|]. by intros k c _ Hk.
  - intros db1 db2 db3 (Hd1 & Hl1 & Hc1) (Hd2 & Hl2 & Hc2).
    split; [congruence|]. split; [by eapply log_extends_trans|].
    intros k c Hc Hk. apply (Hc2 k c Hc), (Hc1 k c Hc), Hk.
  - intros x db1 db2 _. apply release_one_frame.
Qed.

(** ** Phase 2 *)

Lemma expire_loop_frame now clk i d k c xs db db' :
  for_each xs (expire_one now clk) db = Ok (tt, db') ->
  log_extends db db' /\
  (Forall (fun x => x.1 <> i) xs -> keeps_decision i d db db') /\
  (Forall (fun x => Card.state c <> NEEDS_DECISION
                    \/ Card.cardId c <> Decision.cardId x.2) xs ->
   keeps_card k c db db').
Proof.
  intros H. split; [|split].
  - eapply (for_each_keeps log_extends (fun _ => True));
      [apply log_extends_refl|apply log_extends_trans| |apply Forall_true; done|exact H].
    intros [j dj] db1 db2 _ Hx. by apply expire_one_frame in Hx as (_ & Hl & _).
  - intros HQ.
    eapply (for_each_keeps (keeps_decision i d) (fun x => x.1 <> i));
      [| | |exact HQ|exact H].
    + by intros db1 Hk.
    + intros db1 db2 db3 H1 H2 Hk. by apply H2, H1.
    + intros [j dj] db1 db2 Hne Hx Hk. simpl in Hne.
      apply expire_one_frame in Hx as ([F HF] & _ & _).
      by rewrite HF, list_lookup_alter_ne.
  - intros HQ.
    eapply (for_each_keeps (keeps_card k c)
              (fun x => Card.state c <> NEEDS_DECISION
                        \/ Card.cardId c <> Decision.cardId x.2));
      [| | |exact HQ|exact H].
    + by intros db1 Hk.
    + intros db1 db2 db3 H1 H2 Hk. by apply H2, H1.
    + intros [j dj] db1 db2 Hq Hx. simpl in Hq.
      apply expire_one_frame in Hx as (_ & _ & Hc). by apply Hc.
Qed.

Lemma expireDecisions_target now clk db db' i d :
  expireDecisions now clk db = Ok (tt, db') ->
  decisions db !! i = Some d ->
  is_open (Decision.state d) = true ->
  is_expired now d = true ->
  decisions db' !! i = Some (expired_row now d) /\
  (exists e pre post,
      events db' = (events db ++ pre ++ e :: post)%list /\
      Event.type e = DecisionExpired /\
      Event.decisionId e = Some (Decision.decisionId d) /\
      Event.payload e = expired_payload d) /\
  forall k c,
    cards db !! k = Some c ->
    Card.cardId c = Decision.cardId d ->
    Card.state c = NEEDS_DECISION ->
    first_expiring now db i d ->
    exists c', cards db' !! k = Some c' /\ Card.state c' = expiry_target d /\
               Card.cardId c' = Card.cardId c.
Proof.
  unfold expireDecisions. intros H Hrow Hopen Hexp. tx_inv H.
  apply get_Ok in Hrun as [-> ->]. fold (expired_snapshot now db) in H.
  assert (Hin : (i, d) ∈ expired_snapshot now db)
    by by apply elem_of_expired_snapshot.
  pose proof (expired_snapshot_sorted now db) as Hsorted.
  assert (Hmem : forall j dj, (j, dj) ∈ expired_snapshot now db ->
                              decisions db !! j = Some dj /\
                              is_open (Decision.state dj) = true /\
                              is_expired now dj = true)
    by (intros j dj; apply elem_of_expired_snapshot).
  apply list_elem_of_split in Hin as (l1 & l2 & Hsplit).
  rewrite Hsplit in *. clear Hsplit.
  apply StronglySorted_app in Hsorted as (Hlt & _ & Hs2).
  apply StronglySorted_cons in Hs2 as [Hgt _]. rewrite Forall_forall in Hgt.
  rewrite for_each_app in H. apply bind_Ok in H as ([] & dbm & H1 & H).
  rewrite for_each_cons in H. apply bind_Ok in H as ([] & dbn & Hi & H2).
  assert (Hne1 : Forall (fun x : nat * Decision.t => x.1 <> i) l1).
  { apply Forall_forall. intros x Hx.
    specialize (Hlt x (i, d) Hx (list_elem_of_here _ _)). unfold by_id in Hlt.
    simpl in Hlt. lia. }
  assert (Hne2 : Forall (fun x : nat * Decision.t => x.1 <> i) l2).
  { apply Forall_forall. intros x Hx. specialize (Hgt x Hx). unfold by_id in Hgt.
    simpl in Hgt. lia. }
  destruct (expire_loop_frame now clk i d 0%nat
              (Scenario.card "" READY None) _ _ _ H1) as (Hl1 & Hd1 & _).
  specialize (Hd1 Hne1 Hrow).
  destruct (expire_one_hit _ _ _ _ _ _ Hd1 Hi) as (Hdi & (e & l & He & Hev) & Hcard).
  destruct (expire_loop_frame now clk i (expired_row now d) 0%nat
              (Scenario.card "" READY None) _ _ _ H2) as (Hl2 & Hd2 & _).
  split; [by apply Hd2|]. split.
  - destruct Hl1 as [pre Hpre], Hl2 as [post Hpost].
    exists e, pre, (l ++ post)%list. split; [|exact Hev].
    rewrite Hpost, He, Hpre, <- !app_assoc. reflexivity.
  - intros k c Hk Hid Hst Hfirst.
    destruct (expire_loop_frame now clk i d k c _ _ _ H1) as (_ & _ & Hc1).
    assert (Hkm : cards dbm !! k = Some c).
    { apply Hc1; [|exact Hk]. apply Forall_forall. intros [j dj] Hx. right. simpl.
      destruct (Hmem j dj) as (Hj & Hoj & Hej);
        [apply elem_of_app; by left|].
      specialize (Hlt (j, dj) (i, d) Hx (list_elem_of_here _ _)).
      rewrite Hid. intros Heq. by eapply (Hfirst j dj). }
    destruct (Hcard k c Hkm Hid Hst) as (c' & Hkn & Hst' & Hid').
    exists c'. split; [|done].
    destruct (expire_loop_frame now clk i d k c' _ _ _ H2) as (_ & _ & Hc2).
    apply Hc2; [|exact Hkn]. apply Forall_forall. intros x _. left.
    rewrite Hst'. unfold expiry_target. by destruct (Decision.fallbackOption d).
Qed.

(** ** Phase 3 *)

Lemma reclaimExpiredClaims_frame now clk db db' :
  reclaimExpiredClaims now clk db = Ok (tt, db') ->
  cards db' = cards db /\
  log_extends db db' /\
  forall i d, Decision.state d <> CLAIMED -> keeps_decision i d db db'.
Proof.
  unfold reclaimExpiredClaims. intros H. tx_inv H. apply get_Ok in Hrun as [-> ->].
  split; [|split].
  - eapply (for_each_keeps (fun db1 db2 => cards db2 = cards db1) (fun _ => True));
      [done|congruence| |apply Forall_true; done|exact H].
    intros [j dj] db1 db2 _ [eid ->]%reclaim_one_Ok. reflexivity.
  - eapply (for_each_keeps log_extends (fun _ => True));
      [apply log_extends_refl|apply log_extends_trans| |apply Forall_true; done|exact H].
    intros [j dj] db1 db2 _ [eid ->]%reclaim_one_Ok. eexists. reflexivity.
  - intros i d Hst Hrow.
    eapply (for_each_keeps (keeps_decision i d) (fun x => x.1 <> i));
      [| | | |exact H|exact Hrow].
    + by intros db1 Hk.
    + intros db1 db2 db3 H1 H2 Hk. by apply H2, H1.
    + intros [j dj] db1 db2 Hne [eid ->]%reclaim_one_Ok Hk. simpl in *.
      by rewrite list_lookup_alter_ne.
    + apply Forall_forall. intros [j dj] [Hin _]%elem_of_List_filter.
      apply elem_of_collect in Hin as [Hj Hs%bool_decide_eq_true].
      simpl. intros ->. congruence.
Qed.

(** ** Phase 4 *)

Lemma shed_one_frame now clk count j dj db db' :
  shed_one now clk count (j, dj) db = Ok (tt, db') ->
  (exists F, decisions db' = alter F j (decisions db)) /\
  log_extends db db' /\
  forall k c,
    Card.state c <> NEEDS_DECISION \/ Card.cardId c <> Decision.cardId dj ->
    keeps_card k c db db'.
Proof.
  intros (eid1 & eid2 & H)%shed_one_Ok. unfold shed_store in H.
  destruct (Decision.fallbackOption dj) as [f|].
  - apply resume_card_frame in H as (Hdec & Hlog & Hcards). split; [|split].
    + rewrite Hdec. eexists. reflexivity.
    + eapply log_extends_trans; [|exact Hlog]. eexists. simpl.
      by rewrite <- app_assoc.
    + intros k c Hc Hk. by apply (Hcards k c Hc).
  - subst db'. split; [eexists; reflexivity|]. split; [eexists; reflexivity|].
    by intros k c _ Hk.
Qed.

Lemma shed_project_frame now clk entry db db' :
  shed_project now clk entry db = Ok (tt, db') ->
  log_extends db db' /\
  (forall k c, Card.state c <> NEEDS_DECISION -> keeps_card k c db db') /\
  (forall i d,
      ~ (NOW_BACKLOG_DEFER_THRESHOLD < entry.2
         /\ is_whenever_pending entry.1 d = true) ->
      keeps_decision i d db db').
Proof.
  destruct entry as [project count]. unfold shed_project. intros H. tx_inv H.
  assert (Hpre : events db0 = events db /\ cards db0 = cards db
                 /\ decisions db0 = decisions db).
  { destruct (NOW_BACKLOG_ALERT_THRESHOLD <? count).
    - by injection Hrun as _ <-.
    - by apply ret_Ok in Hrun as [_ ->]. }
  destruct Hpre as (He0 & Hc0 & Hd0). clear Hrun.
  unfold log_extends, keeps_card, keeps_decision. rewrite <- He0, <- Hc0, <- Hd0.
  fold (log_extends db0 db').
  change (log_extends db0 db' /\
          (forall k c, Card.state c <> NEEDS_DECISION -> keeps_card k c db0 db') /\
          (forall i d,
              ~ (NOW_BACKLOG_DEFER_THRESHOLD < (project, count).2
                 /\ is_whenever_pending (project, count).1 d = true) ->
              keeps_decision i d db0 db')).
  clear He0 Hc0 Hd0 db.
  destruct (NOW_BACKLOG_DEFER_THRESHOLD <? count) eqn:Hcount.
  2:{ apply ret_Ok in H as [_ ->]. split; [apply log_extends_refl|].
      split; [by intros k c _ Hk|by intros i d _ Hk]. }
  tx_inv H. apply get_Ok in Hrun as [-> ->]. apply Z.ltb_lt in Hcount.
  split; [|split].
  - eapply (for_each_keeps log_extends (fun _ => True));
      [apply log_extends_refl|apply log_extends_trans| |apply Forall_true; done|exact H].
    intros [j dj] db1 db2 _ Hx. by apply shed_one_frame in Hx as (_ & Hl & _).
  - intros k c Hst Hk.
    eapply (for_each_keeps (keeps_card k c) (fun _ => True));
      [| | |apply Forall_true; done|exact H|exact Hk].
    + by intros db1 Hk1.
    + intros db1 db2 db3 H1 H2 Hk1. by apply H2, H1.
    + intros [j dj] db1 db2 _ Hx. apply shed_one_frame in Hx as (_ & _ & Hc).
      apply Hc. by left.
  - intros i d Hno Hrow. simpl in Hno.
    eapply (for_each_keeps (keeps_decision i d) (fun x => x.1 <> i));
      [| | | |exact H|exact Hrow].
    + by intros db1 Hk.
    + intros db1 db2 db3 H1 H2 Hk. by apply H2, H1.
    + intros [j dj] db1 db2 Hne Hx Hk. simpl in Hne.
      apply shed_one_frame in Hx as ([F HF] & _ & _).
      by rewrite HF, list_lookup_alter_ne.
    + apply Forall_forall. intros [j dj] [Hj Hp]%elem_of_collect. simpl.
      intros ->. apply Hno. split; [exact Hcount|]. congruence.
Qed.

Lemma loadShed_frame now clk db db' :
  loadShed now clk db = Ok (tt, db') ->
  log_extends db db' /\
  (forall k c, Card.state c <> NEEDS_DECISION -> keeps_card k c db db') /\
  (forall i d,
      Decision.state d <> PENDING \/ Decision.urgency d <> u_whenever ->
      keeps_decision i d db db').
Proof.
  unfold loadShed. intros H. tx_inv H. apply get_Ok in Hrun as [-> ->].
  split; [|split].
  - eapply (for_each_keeps log_extends (fun _ => True));
      [apply log_extends_refl|apply log_extends_trans| |apply Forall_true; done|exact H].
    intros x db1 db2 _ Hx. by apply shed_project_frame in Hx as (Hl & _).
  - intros k c Hst.
    eapply (for_each_keeps (keeps_card k c) (fun _ => True));
      [| | |apply Forall_true; done|exact H].
    + by intros db1 Hk1.
    + intros db1 db2 db3 H1 H2 Hk1. by apply H2, H1.
    + intros x db1 db2 _ Hx. apply shed_project_frame in Hx as (_ & Hc & _).
      by apply Hc.
  - intros i d Hno.
    eapply (for_each_keeps (keeps_decision i d) (fun _ => True));
      [| | |apply Forall_true; done|exact H].
    + by intros db1 Hk1.
    + intros db1 db2 db3 H1 H2 Hk1. by apply H2, H1.
    + intros x db1 db2 _ Hx. apply shed_project_frame in Hx as (_ & _ & Hd).
      apply Hd. intros [_ Hp]. unfold is_whenever_pending in Hp.
      apply andb_true_iff in Hp as [[_ Hs%bool_decide_eq_true]%andb_true_iff
                                     Hu%bool_decide_eq_true].
      destruct Hno; congruence.
Qed.

(** * Sweeper safety (C4) *)

Lemma expired_row_facts now d :
  match Decision.fallbackOption d with
  | Some f =>
      Decision.state (expired_row now d) = RENDERED /\
      Decision.renderedOption (expired_row now d) = Some f /\
      Decision.renderedBy (expired_row now d) = Some "system:sweeper"
  | None => Decision.state (expired_row now d) = EXPIRED
  end /\
  (Decision.state (expired_row now d) = RENDERED
   <-> Decision.fallbackOption d <> None) /\
  Decision.claimedBy (expired_row now d) = None /\
  Decision.claimedUntil (expired_row now d) = None /\
  Decision.state (expired_row now d) <> CLAIMED /\
  Decision.state (expired_row now d) <> PENDING.
Proof.
  unfold expired_row. destruct (Decision.fallbackOption d) as [f|]; simpl;
    repeat split; try done.
Qed.

(** C4, as the code has it. After a sweep that completes, every decision
    that was [PENDING] or [CLAIMED] with [expires_at <= now] is [RENDERED]
    with [rendered_option] its fallback and [rendered_by = "system:sweeper"]
    if it had a fallback option, and [EXPIRED] otherwise (so it is
    [RENDERED] iff it had one); its claim fields are cleared; a
    [DecisionExpired] event with [hadFallback] telling whether there was a
    fallback was appended; and its card, if it was in [NEEDS_DECISION] and
    no earlier decision expiring in the same sweep is linked to that card,
    is in [RUNNING] (fallback) or [FAILED] (no fallback). *)
Theorem sweep_expires_decisions now_arg clk db db' i d t :
  let now := default clk now_arg in
  sweep now_arg clk db = Ok (tt, db') ->
  decisions db !! i = Some d ->
  Decision.state d = PENDING \/ Decision.state d = CLAIMED ->
  Decision.expiresAt d = Some t -> t <= now ->
  exists d',
    decisions db' !! i = Some d' /\
    match Decision.fallbackOption d with
    | Some f =>
        Decision.state d' = RENDERED /\
        Decision.renderedOption d' = Some f /\
        Decision.renderedBy d' = Some "system:sweeper"
    | None => Decision.state d' = EXPIRED
    end /\
    (Decision.state d' = RENDERED <-> Decision.fallbackOption d <> None) /\
    Decision.claimedBy d' = None /\
    Decision.claimedUntil d' = None /\
    (exists e pre post,
        events db' = (events db ++ pre ++ e :: post)%list /\
        Event.type e = DecisionExpired /\
        Event.decisionId e = Some (Decision.decisionId d) /\
        Event.payload e =
          JObj [("expiresAt", JNum t);
                ("hadFallback",
                  JBool (bool_decide (Decision.fallbackOption d <> None)))]) /\
    (forall k c,
        cards db !! k = Some c ->
        Card.cardId c = Decision.cardId d ->
        Card.state c = NEEDS_DECISION ->
        first_expiring now db i d ->
        exists c',
          cards db' !! k = Some c' /\
          Card.state c' = match Decision.fallbackOption d with
                          | Some _ => RUNNING
                          | None => FAILED
                          end).
Proof.
  intros now Hsweep Hrow Hstate Ht Hle.
  assert (Hopen : is_open (Decision.state d) = true)
    by (destruct Hstate as [->| ->]; reflexivity).
  assert (Hexp : is_expired now d = true)
    by (unfold is_expired; rewrite Ht; by apply Z.leb_le).
  unfold sweep in Hsweep. fold now in Hsweep. tx_inv Hsweep.
  destruct a, a0, a1.
  apply releaseRetries_frame in Hrun as (HdA & HlA & HcA).
  rewrite <- HdA in Hrow.
  destruct (expireDecisions_target _ _ _ _ _ _ Hrun0 Hrow Hopen Hexp)
    as (HrowB & (e & pre & post & Hev & Hty & Hid & Hpay) & HcardB).
  apply reclaimExpiredClaims_frame in Hrun1 as (HcC & HlC & HdC).
  apply loadShed_frame in Hsweep as (HlD & HcD & HdD).
  destruct (expired_row_facts now d) as (Hout & Hiff & Hby & Huntil & HnC & HnP).
  exists (expired_row now d). split; [|split; [|split; [|split; [|split; [|split]]]]];
    try done.
  - apply HdD; [by left|]. by apply HdC.
  - destruct HlA as [lA HlA], HlC as [lC HlC], HlD as [lD HlD].
    exists e, (lA ++ pre)%list, (post ++ lC ++ lD)%list.
    split; [|split; [done|split; [done|]]].
    + rewrite HlD, HlC, Hev, HlA. by simplify_list_eq.
    + rewrite Hpay. unfold expired_payload. by rewrite Ht.
  - intros k c Hk Hcid Hst Hfirst.
    assert (HkA : cards db0 !! k = Some c)
      by (apply HcA; [rewrite Hst; discriminate|exact Hk]).
    destruct (HcardB k c HkA Hcid Hst) as (c' & HkB & Hst' & _).
    { unfold first_expiring. rewrite HdA. exact Hfirst. }
    exists c'. split; [|exact Hst'].
    apply HcD.
    + rewrite Hst'. unfold expiry_target. by destruct (Decision.fallbackOption d).
    + by rewrite HcC.
Qed.

Lemma sweep_expires_decisions_witness :
  let db' := commit (sweep (Some 100) 100) Scenario.overdue in
  (exists d',
      decisions db' !! 0%nat = Some d' /\
      Decision.state d' = RENDERED /\
      Decision.renderedOption d' = Some "reject" /\
      Decision.renderedBy d' = Some "system:sweeper" /\
      Decision.claimedBy d' = None /\ Decision.claimedUntil d' = None) /\
  (exists c', cards db' !! 0%nat = Some c' /\ Card.state c' = RUNNING).
Proof.
  cbv zeta.
  destruct (sweep_expires_decisions (Some 100) 100 Scenario.overdue
              (commit (sweep (Some 100) 100) Scenario.overdue) 0%nat
              (Scenario.decision "dec_1" "proj_test" "card_1" PENDING u_today
                                 (Some 50) (Some "reject") None None) 50)
    as (d' & Hrow & (Hst & Hopt & Hby) & _ & Hcl & Hun & _ & Hcard).
  - vm_compute. reflexivity.
  - reflexivity.
  - left. reflexivity.
  - reflexivity.
  - simpl. lia.
  - split.
    + exists d'. repeat split; assumption.
    + apply (Hcard 0%nat (Scenario.card "card_1" NEEDS_DECISION None));
        [reflexivity..|].
      intros j dj Hj. lia.
Defined.

(** C4 as stated fails when two decisions expiring in one sweep share a
    card: the card follows the decision met first. Here [dec_3] (no
    fallback) fails [card_3], and [dec_4], rendered with its fallback by the
    same sweep, finds the card already out of [NEEDS_DECISION]. *)
Lemma sweep_shared_card :
  let db := Scenario.overdue in
  let db' := commit (sweep (Some 100) 100) db in
  sweep (Some 100) 100 db = Ok (tt, db') /\
  decisions db !! 3%nat
    = Some (Scenario.decision "dec_4" "proj_test" "card_3" PENDING u_today
                              (Some 70) (Some "approve") None None) /\
  cards db !! 2%nat = Some (Scenario.card "card_3" NEEDS_DECISION None) /\
  (Decision.state <$> decisions db' !! 3%nat) = Some RENDERED /\
  (Decision.renderedOption <$> decisions db' !! 3%nat) = Some (Some "approve") /\
  (Card.state <$> cards db' !! 2%nat) = Some FAILED /\
  (Card.state <$> cards db' !! 2%nat) <> Some RUNNING.
Proof. vm_compute. repeat split; try reflexivity. discriminate. Qed.

Example sweep_overdue :
  let db' := commit (sweep (Some 100) 100) Scenario.overdue in
  map Decision.state (decisions db') = [RENDERED; EXPIRED; EXPIRED; RENDERED] /\
  map Card.state (cards db') = [RUNNING; FAILED; FAILED] /\
  map Event.type (events db')
  = [DecisionExpired; DecisionRendered; CardTransitioned;
     DecisionExpired; CardTransitioned;
     DecisionExpired; CardTransitioned;
     DecisionExpired; DecisionRendered].
Proof. vm_compute. repeat split; reflexivity. Qed.

(** * Load shedding (C7) *)

(** ** The backlog map *)

Lemma map_get_set q k v m :
  map_get q (map_set k v m) = if bool_decide (k = q) then Some v else map_get q m.
Proof.
  induction m as [|[k' v'] m IH]; simpl.
  - reflexivity.
  - destruct (decide (k' = k)) as [->|Hne].
    + rewrite bool_decide_eq_true_2 by done. simpl. by case_bool_decide.
    + rewrite (bool_decide_eq_false_2 (k' = k)) by done. simpl. rewrite IH.
      repeat case_bool_decide; congruence.
Qed.

Lemma map_get_None k m : map_get k m = None <-> k ∉ m.*1.
Proof.
  induction m as [|[k' v'] m IH]; simpl.
  - split; [intros _ H; inversion H|done].
  - rewrite not_elem_of_cons. case_bool_decide as Hk; split.
    + discriminate.
    + intros [Hne _]. congruence.
    + intros H. split; [congruence|by apply IH].
    + intros [_ H]. by apply IH.
Qed.

Lemma map_set_keys k v m :
  (map_set k v m).*1
  = match map_get k m with Some _ => m.*1 | None => (m.*1 ++ [k])%list end.
Proof.
  induction m as [|[k' v'] m IH]; simpl; [reflexivity|].
  case_bool_decide as Hk; [reflexivity|].
  change (k' :: (map_set k v m).*1
          = match map_get k m with
            | Some _ => k' :: m.*1
            | None => k' :: (m.*1 ++ [k])%list
            end).
  rewrite IH. by destruct (map_get k m).
Qed.

Lemma map_set_NoDup k v m : NoDup m.*1 -> NoDup (map_set k v m).*1.
Proof.
  intros Hnd. rewrite map_set_keys. destruct (map_get k m) eqn:Hget; [done|].
  apply NoDup_app. split; [done|]. split; [|apply NoDup_singleton].
  intros x Hx ->%list_elem_of_singleton. by apply map_get_None in Hget.
Qed.

Lemma map_get_elem k v m : map_get k m = Some v -> (k, v) ∈ m.
Proof.
  induction m as [|[k' v'] m IH]; simpl; [discriminate|].
  case_bool_decide as Hk.
  - intros [= ->]. subst. apply list_elem_of_here.
  - intros H. apply list_elem_of_further. by apply IH.
Qed.

Lemma elem_map_get k v m : NoDup m.*1 -> (k, v) ∈ m -> map_get k m = Some v.
Proof.
  induction m as [|[k' v'] m IH]; simpl; intros Hnd Hin; [inversion Hin|].
  apply NoDup_cons in Hnd as [Hk' Hnd].
  apply elem_of_cons in Hin as [[= -> ->]|Hin].
  - by rewrite bool_decide_eq_true_2.
  - rewrite bool_decide_eq_false_2; [by apply IH|].
    intros ->. apply Hk'. apply list_elem_of_fmap. by exists (k, v).
Qed.

Lemma backlog_fold_NoDup l acc :
  NoDup acc.*1 -> NoDup (fold_left backlog_step l acc).*1.
Proof.
  revert acc. induction l as [|r l IH]; intros acc Hnd; simpl; [done|].
  apply IH. by apply map_set_NoDup.
Qed.

Lemma rows_of_project_cons q r l :
  rows_of_project q (r :: l)
  = (if bool_decide (Decision.projectId r.2 = q) then 1 else 0) + rows_of_project q l.
Proof.
  unfold rows_of_project. simpl. case_bool_decide; simpl length; lia.
Qed.

Lemma rows_of_project_nonneg q l : 0 <= rows_of_project q l.
Proof. unfold rows_of_project. lia. Qed.

Lemma backlog_fold_get q l acc :
  map_get q (fold_left backlog_step l acc)
  = match map_get q acc with
    | Some v => Some (v + rows_of_project q l)
    | None => if rows_of_project q l =? 0 then None else Some (rows_of_project q l)
    end.
Proof.
  revert acc. induction l as [|r l IH]; intros acc.
  - simpl. unfold rows_of_project. simpl.
    destruct (map_get q acc); [f_equal; lia|reflexivity].
  - simpl fold_left. rewrite IH. unfold backlog_step.
    rewrite map_get_set, rows_of_project_cons.
    pose proof (rows_of_project_nonneg q l) as Hpos.
    case_bool_decide as Hq.
    + rewrite Hq. destruct (map_get q acc) as [v|]; simpl.
      * f_equal. lia.
      * destruct (1 + rows_of_project q l =? 0) eqn:E; [lia|f_equal; lia].
    + destruct (map_get q acc) as [v|]; [f_equal; lia|].
      by replace (0 + rows_of_project q l) with (rows_of_project q l) by lia.
Qed.

Lemma count_backlog_get q l :
  map_get q (count_backlog l)
  = if rows_of_project q l =? 0 then None else Some (rows_of_project q l).
Proof. unfold count_backlog. apply (backlog_fold_get q l []). Qed.

Lemma count_backlog_NoDup l : NoDup (count_backlog l).*1.
Proof. unfold count_backlog. apply (backlog_fold_NoDup l []). constructor. Qed.

Lemma length_filter_rows_from {A} (p q : A -> bool) (l : list A) n :
  length (List.filter (fun r => q r.2) (rows_from p n l))
  = length (List.filter (fun x => p x && q x) l).
Proof.
  revert n. induction l as [|x l IH]; intros n; simpl; [reflexivity|].
  destruct (p x); simpl; [|apply IH].
  destruct (q x); simpl; by rewrite IH.
Qed.

Lemma backlog_rows q db :
  rows_of_project q (collect is_now_backlog (decisions db)) = backlog q db.
Proof.
  unfold rows_of_project, backlog, collect. f_equal.
  exact (length_filter_rows_from is_now_backlog
           (fun d : Decision.t => bool_decide (Decision.projectId d = q))
           (decisions db) 0%nat).
Qed.

(** Every entry of the backlog map is a project with its backlog, and
    every project with a backlog has its entry. *)
Lemma backlog_entries db q c :
  (q, c) ∈ count_backlog (collect is_now_backlog (decisions db)) <->
  c = backlog q db /\ 0 < c.
Proof.
  pose proof (count_backlog_get q (collect is_now_backlog (decisions db))) as Hget.
  rewrite backlog_rows in Hget.
  assert (0 <= backlog q db) by (unfold backlog; lia).
  split.
  - intros Hin. apply elem_map_get in Hin; [|apply count_backlog_NoDup].
    rewrite Hin in Hget. destruct (backlog q db =? 0) eqn:E; [discriminate|].
    injection Hget as ->. split; [done|lia].
  - intros [-> Hpos]. apply map_get_elem. rewrite Hget.
    destruct (backlog q db =? 0) eqn:E; [lia|done].
Qed.

(** ** One deferred decision *)

Lemma for_each_split {X} (body : X -> M unit) xs x ys db db' :
  for_each (xs ++ x :: ys) body db = Ok (tt, db') ->
  exists db1 db2,
    for_each xs body db = Ok (tt, db1) /\
    body x db1 = Ok (tt, db2) /\
    for_each ys body db2 = Ok (tt, db').
Proof.
  rewrite for_each_app. intros ([] & db1 & Hxs & Hrest)%bind_Ok.
  rewrite for_each_cons in Hrest. apply bind_Ok in Hrest as ([] & db2 & Hx & Hys).
  by exists db1, db2.
Qed.

Lemma Forall_fst_ne {A B} (a : A) (l : list (A * B)) :
  a ∉ l.*1 -> Forall (fun x => x.1 <> a) l.
Proof.
  intros Hno. apply Forall_forall. intros [a' b] Hin Heq. simpl in Heq. subst a'.
  apply Hno. apply list_elem_of_fmap. by exists (a, b).
Qed.

Lemma NoDup_fst_split {A B} (l1 l2 : list (A * B)) a b :
  NoDup ((l1 ++ (a, b) :: l2)%list).*1 -> (a ∉ l1.*1) /\ (a ∉ l2.*1).
Proof.
  rewrite fmap_app, fmap_cons. simpl.
  intros (_ & Hdisj & [Ha _]%NoDup_cons)%NoDup_app. split; [|exact Ha].
  intros Hin. apply (Hdisj _ Hin). apply list_elem_of_here.
Qed.

Lemma deferral_logged_extends now count d db0 db1 db2 db3 :
  log_extends db0 db1 -> deferral_logged now count d db1 db2 ->
  log_extends db2 db3 -> deferral_logged now count d db0 db3.
Proof.
  intros [l1 H1] (pre & post & H) [l3 H3].
  exists (l1 ++ pre)%list, (post ++ l3)%list.
  destruct (Decision.fallbackOption d) as [f|].
  - destruct H as (e1 & e2 & He & Hrest). exists e1, e2. split; [|exact Hrest].
    rewrite H3, He, H1. by simplify_list_eq.
  - destruct H as (e1 & He & Hrest). exists e1. split; [|exact Hrest].
    rewrite H3, He, H1. by simplify_list_eq.
Qed.

(** Resuming a card keeps it settled. *)
Lemma resume_card_settles d reason clk db db' k c :
  resume_card d RUNNING reason clk db = Ok (tt, db') ->
  card_settled k c db -> card_settled k c db'.
Proof.
  intros (found & Hu & H)%resume_card_Ok (c' & Hk & Hid & Hc).
  assert (Hsame : db' = db -> card_settled k c db') by (intros ->; by exists c').
  destruct found as [[k0 c0]|]; [|by apply Hsame].
  case_bool_decide as Hst; [|by apply Hsame].
  destruct H as [_ [eid ->]].
  destruct (decide (k0 = k)) as [->|Hne].
  - exists (transition_patch c0 (resume_args d RUNNING reason) clk c').
    split; [simpl; by rewrite list_lookup_alter_eq, Hk|].
    rewrite transition_patch_state, transition_patch_cardId. split; [done|by right].
  - exists c'. split; [simpl; by rewrite list_lookup_alter_ne|done].
Qed.

Lemma shed_one_settles now clk count j dj db db' k c :
  shed_one now clk count (j, dj) db = Ok (tt, db') ->
  card_settled k c db -> card_settled k c db'.
Proof.
  intros (eid1 & eid2 & H)%shed_one_Ok Hs. unfold shed_store in H.
  destruct (Decision.fallbackOption dj) as [f|].
  - eapply resume_card_settles; [exact H|]. exact Hs.
  - subst db'. exact Hs.
Qed.

(** The deferral of [d] itself. *)
Lemma shed_one_hit now clk count i d db db' :
  decisions db !! i = Some d ->
  shed_one now clk count (i, d) db = Ok (tt, db') ->
  decisions db' !! i = Some (shed_row now d) /\
  deferral_logged now count d db db' /\
  forall k c,
    Decision.fallbackOption d <> None ->
    card_settled k c db ->
    Card.cardId c = Decision.cardId d ->
    Card.state c = NEEDS_DECISION ->
    exists c', cards db' !! k = Some c' /\ Card.state c' = RUNNING.
Proof.
  intros Hrow (eid1 & eid2 & H)%shed_one_Ok.
  unfold shed_store, shed_row, deferral_logged in *.
  destruct (Decision.fallbackOption d) as [f|].
  - pose proof (resume_card_frame _ _ _ _ _ _ H) as (Hdec & [l Hlog] & Hkeep).
    split; [|split].
    + rewrite Hdec. simpl. by rewrite list_lookup_alter_eq, Hrow.
    + exists [], l. eexists _, _. split; [rewrite Hlog; simpl; by simplify_list_eq|].
      done.
    + intros k c _ (c' & Hk & Hid & [->|Hrun]) Hcard Hst.
      * destruct (resume_card_hit _ _ _ _ _ _ _ _ H Hk Hcard Hst) as (c2 & Hk2 & Hs2 & _).
        by exists c2.
      * exists c'. split; [|exact Hrun]. apply (Hkeep k c'); [|exact Hk].
        left. congruence.
  - subst db'. split; [|split].
    + simpl. by rewrite list_lookup_alter_eq, Hrow.
    + exists [], []. eexists. split; [simpl; reflexivity|]. done.
    + intros k c Hf. done.
Qed.

(** ** One project *)

Lemma shed_project_settles now clk entry db db' k c :
  shed_project now clk entry db = Ok (tt, db') ->
  card_settled k c db -> card_settled k c db'.
Proof.
  destruct entry as [project count]. unfold shed_project. intros H. tx_inv H.
  assert (Hpre : cards db0 = cards db).
  { destruct (NOW_BACKLOG_ALERT_THRESHOLD <? count).
    - by injection Hrun as _ <-.
    - by apply ret_Ok in Hrun as [_ ->]. }
  unfold card_settled at 1. rewrite <- Hpre. fold (card_settled k c db0).
  clear Hrun Hpre db.
  destruct (NOW_BACKLOG_DEFER_THRESHOLD <? count).
  2:{ by apply ret_Ok in H as [_ ->]. }
  tx_inv H. apply get_Ok in Hrun as [-> ->].
  eapply (for_each_keeps (fun db1 db2 => card_settled k c db1 -> card_settled k c db2)
                         (fun _ => True));
    [by intros db1 H1| |  |apply Forall_true; done|exact H].
  - intros db1 db2 db3 H1 H2 Hs. by apply H2, H1.
  - intros [j dj] db1 db2 _ Hx. by eapply shed_one_settles.
Qed.

Lemma shed_project_hit now clk project count i d db db' :
  shed_project now clk (project, count) db = Ok (tt, db') ->
  NOW_BACKLOG_DEFER_THRESHOLD < count ->
  decisions db !! i = Some d ->
  is_whenever_pending project d = true ->
  decisions db' !! i = Some (shed_row now d) /\
  deferral_logged now count d db db' /\
  forall k c,
    Decision.fallbackOption d <> None ->
    card_settled k c db ->
    Card.cardId c = Decision.cardId d ->
    Card.state c = NEEDS_DECISION ->
    exists c', cards db' !! k = Some c' /\ Card.state c' = RUNNING.
Proof.
  unfold shed_project. intros H Hcount Hrow Hp. tx_inv H.
  assert (Hpre : events db0 = events db /\ cards db0 = cards db
                 /\ decisions db0 = decisions db).
  { destruct (NOW_BACKLOG_ALERT_THRESHOLD <? count).
    - by injection Hrun as _ <-.
    - by apply ret_Ok in Hrun as [_ ->]. }
  destruct Hpre as (He0 & Hc0 & Hd0). clear Hrun.
  unfold deferral_logged, card_settled. rewrite <- He0, <- Hc0.
  rewrite <- Hd0 in Hrow.
  change (decisions db' !! i = Some (shed_row now d) /\
          deferral_logged now count d db0 db' /\
          forall k c,
            Decision.fallbackOption d <> None ->
            card_settled k c db0 ->
            Card.cardId c = Decision.cardId d ->
            Card.state c = NEEDS_DECISION ->
            exists c', cards db' !! k = Some c' /\ Card.state c' = RUNNING).
  clear He0 Hc0 Hd0 db.
  rewrite (proj2 (Z.ltb_lt _ _) Hcount) in H.
  tx_inv H. apply get_Ok in Hrun as [-> ->].
  assert (Hin : (i, d) ∈ collect (is_whenever_pending project) (decisions db0))
    by by apply elem_of_collect.
  pose proof (NoDup_collect (is_whenever_pending project) (decisions db0)) as Hnd.
  apply list_elem_of_split in Hin as (w1 & w2 & Hw). rewrite Hw in H, Hnd.
  apply NoDup_fst_split in Hnd as [Hw1 Hw2].
  apply for_each_split in H as (db1 & db2 & H1 & Hx & H2).
  assert (Hother : forall w dbA dbB dX,
             i ∉ w.*1 -> for_each w (shed_one now clk count) dbA = Ok (tt, dbB) ->
             keeps_decision i dX dbA dbB).
  { intros w dbA dbB dX Hno Hw0.
    eapply (for_each_keeps (keeps_decision i dX) (fun x => x.1 <> i));
      [| | |by apply Forall_fst_ne|exact Hw0].
    - by intros db3 Hk.
    - intros db3 db4 db5 Ha Hb Hk. by apply Hb, Ha.
    - intros [j dj] db3 db4 Hne Hj Hk. simpl in Hne.
      apply shed_one_frame in Hj as ([F HF] & _ & _).
      by rewrite HF, list_lookup_alter_ne. }
  assert (Hlog : forall w dbA dbB,
             for_each w (shed_one now clk count) dbA = Ok (tt, dbB) ->
             log_extends dbA dbB).
  { intros w dbA dbB Hw0.
    eapply (for_each_keeps log_extends (fun _ => True));
      [apply log_extends_refl|apply log_extends_trans| |apply Forall_true; done|exact Hw0].
    intros [j dj] db3 db4 _ Hj. by apply shed_one_frame in Hj as (_ & Hl & _). }
  pose proof (Hother _ _ _ d Hw1 H1 Hrow) as Hrow1.
  destruct (shed_one_hit _ _ _ _ _ _ _ Hrow1 Hx) as (Hrow2 & Hev & Hcard).
  split; [|split].
  - by apply (Hother _ _ _ _ Hw2 H2).
  - eapply deferral_logged_extends; [by eapply Hlog|exact Hev|by eapply Hlog].
  - intros k c Hf Hs Hid Hst.
    assert (Hs1 : card_settled k c db1).
    { eapply (for_each_keeps
                (fun dbA dbB => card_settled k c dbA -> card_settled k c dbB)
                (fun _ => True));
        [by intros db3 H3| | |apply Forall_true; done|exact H1|exact Hs].
      - intros db3 db4 db5 Ha Hb Hk. by apply Hb, Ha.
      - intros [j dj] db3 db4 _ Hj. by eapply shed_one_settles. }
    destruct (Hcard k c Hf Hs1 Hid Hst) as (c' & Hk' & Hrun).
    exists c'. split; [|exact Hrun].
    eapply (for_each_keeps (keeps_card k c') (fun _ => True));
      [| | |apply Forall_true; done|exact H2|exact Hk'].
    + by intros db3 Hk.
    + intros db3 db4 db5 Ha Hb Hk. by apply Hb, Ha.
    + intros [j dj] db3 db4 _ Hj. apply shed_one_frame in Hj as (_ & _ & Hc).
      apply Hc. left. congruence.
Qed.

(** ** The phase *)

Lemma shed_row_facts now d :
  Decision.projectId (shed_row now d) = Decision.projectId d /\
  match Decision.fallbackOption d with
  | Some f =>
      Decision.state (shed_row now d) = RENDERED /\
      Decision.renderedOption (shed_row now d) = Some f /\
      Decision.renderedBy (shed_row now d) = Some "system:sweeper" /\
      Decision.renderedAt (shed_row now d) = Some now
  | None =>
      Decision.state (shed_row now d) = Decision.state d /\
      Decision.expiresAt (shed_row now d)
      = Some (number_add (default now (Decision.expiresAt d)) (24 * 60 * 60 * 1000))
  end.
Proof.
  unfold shed_row. destruct (Decision.fallbackOption d) as [f|]; simpl; done.
Qed.

Lemma whenever_pending_elsewhere project d :
  Decision.projectId d <> project -> is_whenever_pending project d = false.
Proof.
  intros Hne. unfold is_whenever_pending.
  by rewrite (bool_decide_eq_false_2 _ Hne).
Qed.

(** Projects other than that of row [i] leave the row alone. *)
Lemma shed_others_keep now clk (nb : list (string * Z)) i d db db' :
  Decision.projectId d ∉ nb.*1 ->
  for_each nb (shed_project now clk) db = Ok (tt, db') ->
  keeps_decision i d db db'.
Proof.
  intros Hno H.
  eapply (for_each_keeps (keeps_decision i d) (fun x => x.1 <> Decision.projectId d));
    [| | |by apply Forall_fst_ne|exact H].
  - by intros db1 Hk.
  - intros db1 db2 db3 Ha Hb Hk. by apply Hb, Ha.
  - intros x db1 db2 Hne Hx. apply shed_project_frame in Hx as (_ & _ & Hd).
    apply Hd. intros [_ Hp]. rewrite whenever_pending_elsewhere in Hp; [done|].
    congruence.
Qed.

Lemma shed_projects_log now clk (nb : list (string * Z)) db db' :
  for_each nb (shed_project now clk) db = Ok (tt, db') -> log_extends db db'.
Proof.
  intros H.
  eapply (for_each_keeps log_extends (fun _ => True));
    [apply log_extends_refl|apply log_extends_trans| |apply Forall_true; done|exact H].
  intros x db1 db2 _ Hx. by apply shed_project_frame in Hx as (Hl & _).
Qed.

Lemma shed_projects_settle now clk (nb : list (string * Z)) db db' k c :
  for_each nb (shed_project now clk) db = Ok (tt, db') ->
  card_settled k c db -> card_settled k c db'.
Proof.
  intros H.
  eapply (for_each_keeps (fun db1 db2 => card_settled k c db1 -> card_settled k c db2)
                         (fun _ => True));
    [by intros db1 H1| | |apply Forall_true; done|exact H].
  - intros db1 db2 db3 H1 H2 Hs. by apply H2, H1.
  - intros x db1 db2 _ Hx. by eapply shed_project_settles.
Qed.

Lemma shed_projects_keep_running now clk (nb : list (string * Z)) db db' k c :
  Card.state c <> NEEDS_DECISION ->
  for_each nb (shed_project now clk) db = Ok (tt, db') ->
  keeps_card k c db db'.
Proof.
  intros Hst H.
  eapply (for_each_keeps (keeps_card k c) (fun _ => True));
    [| | |apply Forall_true; done|exact H].
  - by intros db1 Hk.
  - intros db1 db2 db3 Ha Hb Hk. by apply Hb, Ha.
  - intros x db1 db2 _ Hx. apply shed_project_frame in Hx as (_ & Hc & _).
    by apply Hc.
Qed.

Lemma shed_project_length now clk entry db db' :
  shed_project now clk entry db = Ok (tt, db') ->
  length (decisions db') = length (decisions db).
Proof.
  destruct entry as [project count]. unfold shed_project. intros H. tx_inv H.
  assert (Hpre : decisions db0 = decisions db).
  { destruct (NOW_BACKLOG_ALERT_THRESHOLD <? count).
    - by injection Hrun as _ <-.
    - by apply ret_Ok in Hrun as [_ ->]. }
  rewrite <- Hpre. clear Hrun Hpre db.
  destruct (NOW_BACKLOG_DEFER_THRESHOLD <? count).
  2:{ by apply ret_Ok in H as [_ ->]. }
  tx_inv H. apply get_Ok in Hrun as [-> ->].
  eapply (for_each_keeps
            (fun db1 db2 => length (decisions db2) = length (decisions db1))
            (fun _ => True));
    [done| | |apply Forall_true; done|exact H].
  - intros db1 db2 db3 H1 H2. congruence.
  - intros [j dj] db1 db2 _ Hx. apply shed_one_frame in Hx as ([F HF] & _ & _).
    by rewrite HF, length_alter.
Qed.

Lemma loadShed_length now clk db db' :
  loadShed now clk db = Ok (tt, db') ->
  length (decisions db') = length (decisions db).
Proof.
  unfold loadShed. intros H. tx_inv H. apply get_Ok in Hrun as [-> ->].
  eapply (for_each_keeps
            (fun db1 db2 => length (decisions db2) = length (decisions db1))
            (fun _ => True));
    [done| | |apply Forall_true; done|exact H].
  - intros db1 db2 db3 H1 H2. congruence.
  - intros x db1 db2 _ Hx. by eapply shed_project_length.
Qed.

(** C7. Load shedding, the fourth phase of a sweep, completing on a store
    [db]: let [count] be the backlog of the project of a decision [d], that
    is, the number of its ["now"]-urgency decisions in [PENDING] or
    [CLAIMED].

    - If [count] strictly exceeds 2 and [d] is [PENDING] with urgency
      ["whenever"], then: with a fallback option, [d] ends [RENDERED] with
      that option, rendered by ["system:sweeper"], the log gains
      [DecisionDeferred {action: "auto_resolved_with_fallback"}] followed
      at once by [DecisionRendered], and the card of [d], if it was in
      [NEEDS_DECISION], ends in [RUNNING]; without a fallback option, [d]
      stays [PENDING], its [expiresAt] becomes [(expiresAt ?? now) + 24h]
      (the sum of the source's numbers, which is the exact sum wherever
      that is below 2^53 in size, as it is for every timestamp), and the
      log gains [DecisionDeferred {action: "extended_expiry"}] carrying
      the new expiry.
    - If [count] does not exceed 2, the row of [d] is left as it was,
      whatever its state and urgency; and no row is added or removed by
      the phase. *)
Theorem load_shedding_defers now clk db db' :
  loadShed now clk db = Ok (tt, db') ->
  (forall i d,
      decisions db !! i = Some d ->
      Decision.state d = PENDING ->
      Decision.urgency d = u_whenever ->
      2 < backlog (Decision.projectId d) db ->
      let count := backlog (Decision.projectId d) db in
      exists d',
        decisions db' !! i = Some d' /\
        match Decision.fallbackOption d with
        | Some f =>
            Decision.state d' = RENDERED /\
            Decision.renderedOption d' = Some f /\
            Decision.renderedBy d' = Some "system:sweeper" /\
            Decision.renderedAt d' = Some now /\
            (exists e1 e2 pre post,
                events db' = (events db ++ pre ++ e1 :: e2 :: post)%list /\
                Event.type e1 = DecisionDeferred /\
                Event.decisionId e1 = Some (Decision.decisionId d) /\
                Event.payload e1 =
                  JObj [("reason", JStr "load_shedding");
                        ("originalUrgency", JStr "whenever");
                        ("action", JStr "auto_resolved_with_fallback");
                        ("nowBacklog", JNum count)] /\
                Event.type e2 = DecisionRendered /\
                Event.decisionId e2 = Some (Decision.decisionId d) /\
                Event.payload e2 =
                  JObj [("selectedOption", JStr f);
                        ("renderedBy", JStr "system:sweeper");
                        ("note", JStr "auto-resolved via load shedding")]) /\
            (forall k c,
                cards db !! k = Some c ->
                Card.cardId c = Decision.cardId d ->
                Card.state c = NEEDS_DECISION ->
                exists c', cards db' !! k = Some c' /\ Card.state c' = RUNNING)
        | None =>
            let old := default now (Decision.expiresAt d) in
            let newExpiresAt := number_add old (24 * 60 * 60 * 1000) in
            d' = Decision.set_expiresAt (Some newExpiresAt) d /\
            Decision.state d' = PENDING /\
            Decision.expiresAt d' = Some newExpiresAt /\
            (Z.abs (old + 24 * 60 * 60 * 1000) < 2 ^ 53 ->
             newExpiresAt = old + 24 * 60 * 60 * 1000) /\
            (exists e1 pre post,
                events db' = (events db ++ pre ++ e1 :: post)%list /\
                Event.type e1 = DecisionDeferred /\
                Event.decisionId e1 = Some (Decision.decisionId d) /\
                Event.payload e1 =
                  JObj [("reason", JStr "load_shedding");
                        ("originalUrgency", JStr "whenever");
                        ("action", JStr "extended_expiry");
                        ("newExpiresAt", JNum newExpiresAt);
                        ("nowBacklog", JNum count)])
        end) /\
  (forall i d,
      decisions db !! i = Some d ->
      backlog (Decision.projectId d) db <= 2 ->
      decisions db' !! i = Some d) /\
  length (decisions db') = length (decisions db).
Proof.
  intros Hrun. split; [|split].
  - intros i d Hrow Hst Hurg Hcount count.
    unfold loadShed in Hrun. tx_inv Hrun. apply get_Ok in Hrun0 as [-> ->].
    assert (Hin : (Decision.projectId d, count)
                  ∈ count_backlog (collect is_now_backlog (decisions db)))
      by (apply backlog_entries; split; [reflexivity|subst count; lia]).
    pose proof (count_backlog_NoDup (collect is_now_backlog (decisions db))) as Hnd.
    apply list_elem_of_split in Hin as (nb1 & nb2 & Hnb). rewrite Hnb in Hrun, Hnd.
    apply NoDup_fst_split in Hnd as [Hnb1 Hnb2].
    apply for_each_split in Hrun as (db1 & db2 & H1 & Hx & H2).
    pose proof (shed_others_keep _ _ _ i d _ _ Hnb1 H1 Hrow) as Hrow1.
    assert (Hp : is_whenever_pending (Decision.projectId d) d = true).
    { unfold is_whenever_pending. by rewrite !bool_decide_eq_true_2. }
    destruct (shed_project_hit _ _ _ _ _ _ _ _ Hx Hcount Hrow1 Hp)
      as (Hrow2 & Hev & Hcard).
    destruct (shed_row_facts now d) as [Hproj Hfacts].
    assert (Hrow' : decisions db' !! i = Some (shed_row now d)).
    { apply (shed_others_keep now clk nb2 i (shed_row now d) db2 db');
        [by rewrite Hproj|exact H2|exact Hrow2]. }
    assert (Hlog : deferral_logged now count d db db').
    { eapply deferral_logged_extends; [|exact Hev|]; by eapply shed_projects_log. }
    exists (shed_row now d). split; [exact Hrow'|].
    destruct Hlog as (pre & post & Hlog).
    destruct (Decision.fallbackOption d) as [f|] eqn:Hf.
    + destruct Hfacts as (F1 & F2 & F3 & F4). repeat (split; [assumption|]).
      split.
      * destruct Hlog as (e1 & e2 & Hlog). exists e1, e2, pre, post. exact Hlog.
      * intros k c Hk Hid Hnd.
        assert (Hs : card_settled k c db) by (exists c; auto).
        apply (shed_projects_settle _ _ _ _ _ _ _ H1) in Hs.
        destruct (Hcard k c ltac:(done) Hs Hid Hnd) as (c' & Hk' & Hrun').
        exists c'. split; [|exact Hrun'].
        eapply shed_projects_keep_running; [|exact H2|exact Hk']. congruence.
    + destruct Hfacts as (F1 & F2).
      split; [|split; [congruence|split; [exact F2|split]]].
      * unfold shed_row. by rewrite Hf.
      * intros Hsafe. apply Z.ltb_lt in Hsafe.
        unfold number_add, to_float64. cbv zeta. by rewrite Hsafe.
      * destruct Hlog as (e1 & Hlog). exists e1, pre, post. exact Hlog.
  - intros i d Hrow Hcount.
    unfold loadShed in Hrun. tx_inv Hrun. apply get_Ok in Hrun0 as [-> ->].
    eapply (for_each_keeps (keeps_decision i d)
              (fun x => x ∈ count_backlog (collect is_now_backlog (decisions db))));
      [| | | |exact Hrun|exact Hrow].
    + by intros db1 Hk.
    + intros db1 db2 db3 Ha Hb Hk. by apply Hb, Ha.
    + intros [q c] db1 db2 [-> Hpos]%backlog_entries Hx.
      apply shed_project_frame in Hx as (_ & _ & Hd). apply Hd. simpl.
      intros [Hbig Hp]. unfold is_whenever_pending in Hp.
      apply andb_true_iff in Hp as [[Hq%bool_decide_eq_true _]%andb_true_iff _].
      subst q. unfold NOW_BACKLOG_DEFER_THRESHOLD in Hbig. lia.
    + by apply Forall_forall.
  - exact (loadShed_length now clk db db' Hrun).
Qed.

Lemma load_shedding_defers_witness :
  let db := Scenario.overloaded in
  let db' := commit (loadShed 100 100) db in
  loadShed 100 100 db = Ok (tt, db') /\
  (exists d',
      decisions db' !! 3%nat = Some d' /\
      Decision.state d' = RENDERED /\
      Decision.renderedOption d' = Some "approve" /\
      Decision.renderedBy d' = Some "system:sweeper") /\
  (exists c', cards db' !! 0%nat = Some c' /\ Card.state c' = RUNNING) /\
  (exists d',
      decisions db' !! 4%nat = Some d' /\
      Decision.state d' = PENDING /\
      Decision.expiresAt d' = Some (160 + 24 * 60 * 60 * 1000)) /\
  decisions db' !! 7%nat = decisions db !! 7%nat.
Proof.
  cbv zeta.
  assert (Hrun : loadShed 100 100 Scenario.overloaded
                 = Ok (tt, commit (loadShed 100 100) Scenario.overloaded))
    by (vm_compute; reflexivity).
  destruct (load_shedding_defers 100 100 _ _ Hrun) as (Hshed & Hcalm & _).
  split; [exact Hrun|].
  destruct (Hshed 3%nat
              (Scenario.decision "dec_4" "proj_test" "card_4" PENDING u_whenever
                                 None (Some "approve") None None))
    as (d4 & Hrow4 & Hst4 & Hopt4 & Hby4 & _ & _ & Hcard);
    [reflexivity|reflexivity|reflexivity|vm_compute; reflexivity|].
  destruct (Hshed 4%nat
              (Scenario.decision "dec_5" "proj_test" "card_5" PENDING u_whenever
                                 (Some 160) None None None))
    as (d5 & Hrow5 & _ & Hst5 & Hexp5 & _);
    [reflexivity|reflexivity|reflexivity|vm_compute; reflexivity|].
  split; [by exists d4|].
  split; [apply (Hcard 0%nat (Scenario.card "card_4" NEEDS_DECISION None));
          reflexivity|].
  split.
  { exists d5. split; [exact Hrow5|]. split; [exact Hst5|].
    rewrite Hexp5. reflexivity. }
  apply (Hcalm 7%nat
           (Scenario.decision "dec_8" "proj_calm" "card_8" PENDING u_whenever
                              (Some 160) (Some "approve") None None));
    [reflexivity|vm_compute; discriminate].
Defined.

Example shed_overloaded :
  let db' := commit (loadShed 100 100) Scenario.overloaded in
  Event.type <$> events db'
  = [DecisionDeferred; DecisionRendered; CardTransitioned; DecisionDeferred] /\
  Decision.state <$> decisions db'
  = [PENDING; PENDING; CLAIMED; RENDERED; PENDING; PENDING; PENDING; PENDING] /\
  Decision.expiresAt <$> decisions db'
  = [None; None; None; None; Some 86400160; None; None; Some 160] /\
  Card.state <$> cards db' = [RUNNING].
Proof. vm_compute. repeat split; reflexivity. Qed.

(** At the edge of the exact integers the new expiry is rounded as the
    code rounds it. *)
Example extension_rounds :
  number_add 150 DEFER_EXTENSION_MS = 86400150 /\
  (2 ^ 53 - 1) + DEFER_EXTENSION_MS = 9007199341140991 /\
  number_add (2 ^ 53 - 1) DEFER_EXTENSION_MS = 9007199341140992.
Proof. vm_compute. repeat split. Qed.
(** * The log only grows by accepted events *)

Lemma grows_trans l1 l2 l3 : grows l1 l2 -> grows l2 l3 -> grows l1 l3.
Proof. intros H1 H2. induction H2; [exact H1|by constructor]. Qed.

Lemma grows_one l e : accepted l e -> grows l (l ++ [e])%list.
Proof. intros H. apply grows_snoc; [constructor|exact H]. Qed.

Lemma grows_suffix l l' :
  grows l l' -> exists t, l' = (l ++ t)%list /\ Forall clean t.
Proof.
  induction 1 as [|l' e _ (t & -> & Ht) [Hclean _]].
  - exists []. by rewrite app_nil_r.
  - exists (t ++ [e])%list. split; [by rewrite app_assoc|].
    apply Forall_app. split; [exact Ht|by constructor].
Qed.

Lemma keys_unique_snoc l e :
  keys_unique l -> accepted l e -> keys_unique (l ++ [e])%list.
Proof.
  intros Hu [_ Hkey] i j x y k Hi Hj Hx Hy.
  apply lookup_snoc_Some in Hi as [[Hi_lt Hi]|[Hi_eq <-]];
    apply lookup_snoc_Some in Hj as [[Hj_lt Hj]|[Hj_eq <-]].
  - by eapply Hu.
  - pose proof (Hkey k Hy) as Hall. rewrite Forall_forall in Hall.
    exfalso. eapply Hall; [|exact Hx]. by eapply list_elem_of_lookup_2.
  - pose proof (Hkey k Hx) as Hall. rewrite Forall_forall in Hall.
    exfalso. eapply Hall; [|exact Hy]. by eapply list_elem_of_lookup_2.
  - congruence.
Qed.

Lemma grows_keys l l' : grows l l' -> keys_unique l -> keys_unique l'.
Proof.
  induction 1 as [|l' e _ IH Hacc]; [done|].
  intros Hu. apply keys_unique_snoc; [by apply IH|exact Hacc].
Qed.

Lemma first_None {A} (p : A -> bool) (l : list A) :
  first p l = None -> Forall (fun x => p x = false) l.
Proof.
  unfold first. intros Hhead. apply Forall_forall. intros x Hx.
  apply list_elem_of_lookup in Hx as [i Hi].
  destruct (p x) eqn:Hp; [|reflexivity].
  assert (Hin : (i, x) ∈ collect p l) by by apply elem_of_collect.
  destruct (collect p l); [inversion Hin|discriminate].
Qed.

Lemma log_safe_ret {A} (x : A) : log_safe (ret x).
Proof. intros db a db' [_ ->]%ret_Ok. constructor. Qed.

Lemma log_safe_throw {A} e : log_safe (@throw A e).
Proof. intros db a db' H. discriminate. Qed.

Lemma log_safe_get : log_safe get.
Proof. intros db a db' [_ ->]%get_Ok. constructor. Qed.

Lemma log_safe_lift {A} (r : Res A) : log_safe (lift r).
Proof. intros db a db' [_ ->]%lift_Ok. constructor. Qed.

Lemma log_safe_bind {A B} (m : M A) (f : A -> M B) :
  log_safe m -> (forall a, log_safe (f a)) -> log_safe (bind m f).
Proof.
  intros Hm Hf db b db' (a & db1 & H1 & H2)%bind_Ok.
  eapply grows_trans; [by eapply Hm|by eapply Hf].
Qed.

Lemma log_safe_modify (f : Store -> Store) :
  (forall db, events (f db) = events db) -> log_safe (modify f).
Proof. intros Hf db a db' [= _ <-]. rewrite Hf. constructor. Qed.

Lemma log_safe_generateId prefix clk : log_safe (generateId prefix clk).
Proof. intros db a db' ->%generateId_Ok. constructor. Qed.

Lemma log_safe_insert_card c : log_safe (insert_card c).
Proof. intros db a db' [= _ <-]. constructor. Qed.

Lemma log_safe_insert_command c : log_safe (insert_command c).
Proof. intros db a db' [= _ <-]. constructor. Qed.

Lemma log_safe_insert_decision d : log_safe (insert_decision d).
Proof. intros db a db' [= _ <-]. constructor. Qed.

Lemma log_safe_appendEvent e : log_safe (appendEvent e).
Proof.
  intros db id db'. unfold appendEvent.
  destruct (containsSecret (Event.payload e)) eqn:Hp; [discriminate|].
  destruct (match Event.tags e with Some t => containsSecret t | None => false end)
    eqn:Ht; [discriminate|].
  assert (Hclean : clean e).
  { split; [exact Hp|]. by destruct (Event.tags e). }
  destruct (Event.idempotencyKey e) as [k|] eqn:Hk.
  - intros (db0 & db1 & [-> ->]%get_Ok & H)%bind_Ok.
    destruct (first _ _) as [[i x]|] eqn:Hfirst.
    + apply ret_Ok in H as [_ ->]. constructor.
    + injection H as _ <-. apply grows_one. split; [exact Hclean|].
      intros k' Hk'. rewrite Hk in Hk'. injection Hk' as <-.
      apply first_None in Hfirst.
      eapply Forall_impl; [exact Hfirst|]. intros x Hx. simpl in Hx.
      by apply bool_decide_eq_false in Hx.
  - intros [= _ <-]. apply grows_one. split; [exact Hclean|]. intros k' Hk'.
    congruence.
Qed.

Lemma log_safe_for_each {X} (xs : list X) (body : X -> M unit) :
  (forall x, log_safe (body x)) -> log_safe (for_each xs body).
Proof.
  intros Hbody. induction xs as [|x xs IH]; simpl.
  - apply log_safe_ret.
  - apply log_safe_bind; [apply Hbody|intros _; exact IH].
Qed.

Lemma log_safe_withAuth {R} roles (handler : AuthContext -> M R) who project :
  (forall auth, log_safe (handler auth)) -> log_safe (withAuth roles handler who project).
Proof.
  intros Hh db r db' (auth & _ & _ & H)%withAuth_Ok. by eapply Hh.
Qed.

(** Walk through a handler, one statement at a time. *)
Ltac log_safe_walk :=
  repeat first
    [ progress cbv zeta
    | apply log_safe_ret | apply log_safe_throw | apply log_safe_get
    | apply log_safe_lift | apply log_safe_generateId
    | apply log_safe_appendEvent | apply log_safe_insert_card
    | apply log_safe_insert_command | apply log_safe_insert_decision
    | apply log_safe_modify; intros ?; reflexivity
    | apply log_safe_for_each; intros ?
    | apply log_safe_withAuth; intros ?
    | apply log_safe_bind; [|intros ?]
    | match goal with
      | |- log_safe (if ?c then _ else _) => destruct c
      | |- log_safe (match ?x with _ => _ end) => destruct x
      end ].

Lemma transitionCard_log_safe a clk : log_safe (transitionCard a clk).
Proof. unfold transitionCard, lookup_card, patch_card. log_safe_walk. Qed.

Lemma resume_card_log_safe d to reason clk : log_safe (resume_card d to reason clk).
Proof.
  unfold resume_card, lookup_card. log_safe_walk.
Qed.

Lemma sweep_log_safe now clk : log_safe (sweep now clk).
Proof.
  unfold sweep, releaseRetries, expireDecisions, reclaimExpiredClaims, loadShed,
    release_one, expire_one, reclaim_one, shed_project, shed_one, console_error,
    patch_decision.
  log_safe_walk.
Qed.

Lemma run_op_log_safe op db : grows (events db) (events (run_op op db)).
Proof.
  assert (Hcommit : forall A (m : M A), log_safe m ->
                      grows (events db) (events (commit m db))).
  { intros A m Hm. unfold commit. destruct (m db) as [[a db']|e] eqn:Hrun.
    - by eapply Hm.
    - constructor. }
  destruct op; simpl; apply Hcommit.
  - unfold createCard. log_safe_walk.
  - apply transitionCard_log_safe.
  - unfold requestCommand, requestCommand_handler. log_safe_walk.
  - unfold requestDecision, requestDecision_handler. log_safe_walk.
  - unfold claimDecision, claimDecision_handler, lookup_decision, patch_decision.
    log_safe_walk.
  - unfold renewDecisionClaim, renewDecisionClaim_handler, lookup_decision,
      patch_decision. log_safe_walk.
  - unfold renderDecision, renderDecision_handler, lookup_decision, patch_decision.
    log_safe_walk.
  - apply sweep_log_safe.
Qed.

Lemma serve_grows r db : grows (events db) (events (serve r db)).
Proof.
  assert (Hcommit : forall A (m : M A), log_safe m ->
                      grows (events db) (events (commit m db))).
  { intros A m Hm. unfold commit. destruct (m db) as [[a db']|e] eqn:Hrun.
    - by eapply Hm.
    - constructor. }
  destruct r as [op|who a|a clk|a clk]; simpl.
  - apply run_op_log_safe.
  - apply Hcommit. unfold emitEvent. log_safe_walk.
  - apply Hcommit. unfold _httpRequestCommand. log_safe_walk.
  - apply Hcommit. unfold _httpRequestDecision. log_safe_walk.
Qed.

Lemma serve_all_grows rs db : grows (events db) (events (serve_all rs db)).
Proof.
  revert db. induction rs as [|r rs IH]; intros db; simpl.
  - constructor.
  - eapply grows_trans; [apply serve_grows|apply IH].
Qed.

(** X1. The log is append-only and holds no secret: whatever requests are
    served (any of the mutations, committed or rolled back, the public
    [emitEvent] and the HTTP entry points), the log afterwards is the log
    before followed by new events, and every new event passed the secret
    denylist, payload and tags. *)
Theorem log_append_only rs db :
  exists l,
    events (serve_all rs db) = (events db ++ l)%list /\
    Forall (fun e => containsSecret (Event.payload e) = false /\
                     forall t, Event.tags e = Some t -> containsSecret t = false) l.
Proof.
  destruct (grows_suffix _ _ (serve_all_grows rs db)) as (l & Hl & Hclean).
  exists l. split; [exact Hl|].
  eapply Forall_impl; [exact Hclean|]. intros e [Hp Ht]. split; [exact Hp|].
  intros t Htags. by rewrite Htags in Ht.
Qed.

(** X2. Idempotency keys stay unique: if no two events of the log hold
    the same idempotency key, then no sequence of requests makes two
    events hold the same key. *)
Theorem idempotency_keys_stay_unique rs db :
  keys_unique (events db) -> keys_unique (events (serve_all rs db)).
Proof. apply grows_keys, serve_all_grows. Qed.

Lemma idempotency_keys_stay_unique_witness :
  keys_unique (events (serve_all Fixture.traffic (Scenario.store [] []))).
Proof.
  apply (idempotency_keys_stay_unique Fixture.traffic (Scenario.store [] [])).
  intros i j e e' k Hi. simpl in Hi. discriminate.
Defined.

Example traffic_log :
  map (fun e => (Event.type e, Event.idempotencyKey e))
      (events (serve_all Fixture.traffic (Scenario.store [] [])))
  = [(CommandRequested, Some "k1"); (CardCreated, None); (CardCreated, None);
     (SloBreached, Some "k2")].
Proof. vm_compute. reflexivity. Qed.

(** * The write path of the log *)

Lemma rows_from_app {A} (p : A -> bool) n (l1 l2 : list A) :
  rows_from p n (l1 ++ l2)
  = (rows_from p n l1 ++ rows_from p (n + length l1) l2)%list.
Proof.
  revert n. induction l1 as [|x l1 IH]; intros n; simpl.
  - by rewrite Nat.add_0_r.
  - rewrite IH. replace (S n + length l1)%nat with (n + S (length l1))%nat by lia.
    by destruct (p x).
Qed.

Lemma first_Some {A} (p : A -> bool) (l : list A) i x :
  first p l = Some (i, x) -> l !! i = Some x /\ p x = true.
Proof.
  unfold first. intros H. apply elem_of_collect.
  destruct (collect p l) as [|r rs]; [discriminate|].
  injection H as ->. apply list_elem_of_here.
Qed.

Lemma first_app_Some {A} (p : A -> bool) (l l' : list A) r :
  first p l = Some r -> first p (l ++ l') = Some r.
Proof.
  unfold first, collect. rewrite rows_from_app.
  destruct (rows_from p 0 l); [discriminate|]. by intros [= ->].
Qed.

Lemma first_snoc_None {A} (p : A -> bool) (l : list A) x :
  first p l = None -> p x = true -> first p (l ++ [x]) = Some (length l, x).
Proof.
  unfold first, collect. rewrite rows_from_app. simpl.
  destruct (rows_from p 0 l); [|discriminate]. intros _ ->. reflexivity.
Qed.

Lemma appendEvent_held e db k id x :
  containsSecret (Event.payload e) = false ->
  (forall t, Event.tags e = Some t -> containsSecret t = false) ->
  Event.idempotencyKey e = Some k ->
  first (fun y => bool_decide (Event.idempotencyKey y = Some k)) (events db)
    = Some (id, x) ->
  appendEvent e db = Ok (id, db).
Proof.
  intros Hp Ht Hk Hfirst. unfold appendEvent. rewrite Hp, Hk.
  destruct (Event.tags e) as [t|]; [rewrite (Ht t eq_refl)|];
    unfold bind, get; rewrite Hfirst; reflexivity.
Qed.

(** X3. The write path of the log is idempotent per key: [appendEvent]
    answers with the id of a stored event that holds the idempotency key
    of its argument (the argument itself, stored last, when it has no
    key); and once a key is held, every further append under that key
    that passes the denylist answers with the same id and stores
    nothing. *)
Theorem append_event_idempotent e db id db' :
  appendEvent e db = Ok (id, db') ->
  (exists e0,
      events db' !! id = Some e0 /\
      Event.idempotencyKey e0 = Event.idempotencyKey e /\
      (Event.idempotencyKey e = None ->
       e0 = e /\ id = length (events db) /\ db' = push_event e db)) /\
  (forall e2 k,
      Event.idempotencyKey e = Some k ->
      Event.idempotencyKey e2 = Some k ->
      containsSecret (Event.payload e2) = false ->
      (forall t, Event.tags e2 = Some t -> containsSecret t = false) ->
      appendEvent e2 db' = Ok (id, db')).
Proof.
  unfold appendEvent.
  destruct (containsSecret (Event.payload e)); [discriminate|].
  destruct (match Event.tags e with Some t => containsSecret t | None => false end);
    [discriminate|].
  destruct (Event.idempotencyKey e) as [k|] eqn:Hk.
  - intros (db0 & db1 & [-> ->]%get_Ok & H)%bind_Ok.
    destruct (first _ _) as [[i x]|] eqn:Hfirst.
    + apply ret_Ok in H as [-> ->].
      pose proof (first_Some _ _ _ _ Hfirst) as [Hi Hx].
      apply bool_decide_eq_true in Hx. split.
      * exists x. split; [exact Hi|]. split; [exact Hx|]. intros Hnone. discriminate.
      * intros e2 k2 [= <-] Hk2 Hp2 Ht2. by eapply appendEvent_held.
    + injection H as <- <-. split.
      * exists e. split; [simpl; by rewrite lookup_app_r, Nat.sub_diag|].
        split; [exact Hk|]. intros Hnone. discriminate.
      * intros e2 k2 [= <-] Hk2 Hp2 Ht2.
        eapply appendEvent_held; [exact Hp2|exact Ht2|exact Hk2|].
        simpl. apply first_snoc_None; [exact Hfirst|].
        by apply bool_decide_eq_true.
  - intros [= <- <-]. split.
    + exists e. split; [simpl; by rewrite lookup_app_r, Nat.sub_diag|].
      split; [exact Hk|]. intros _. done.
    + intros e2 k2 Hnone. discriminate.
Qed.

Lemma append_event_idempotent_witness :
  let db := Scenario.store [] [] in
  let e := emitted (Fixture.emit "evt_a" 3 (Some "k2") JNull)
                   (Scenario.auth "user:bot" bot) in
  let e2 := emitted (Fixture.emit "evt_b" 4 (Some "k2") (JStr "again"))
                    (Scenario.auth "user:bot" bot) in
  appendEvent e2 (push_event e db) = Ok (0%nat, push_event e db).
Proof.
  cbv zeta.
  refine (proj2 (append_event_idempotent
                   (emitted (Fixture.emit "evt_a" 3 (Some "k2") JNull)
                            (Scenario.auth "user:bot" bot))
                   (Scenario.store [] []) 0%nat _ _)
                _ "k2" _ _ _ _);
    [reflexivity | reflexivity | reflexivity | vm_compute; reflexivity
    | intros t Ht; discriminate].
Defined.

(** * Emission by bots *)

Lemma idempotent_insert_Ok e db id db' :
  match Event.idempotencyKey e with
  | Some k =>
      db <- get ;;
      match first (fun e => bool_decide (Event.idempotencyKey e = Some k))
                  (events db) with
      | Some (id, _) => ret id
      | None => insert_event e
      end
  | None => insert_event e
  end db = Ok (id, db') ->
  db' = push_event e db \/
  (db' = db /\
   exists k x, Event.idempotencyKey e = Some k /\
               x ∈ events db /\ Event.idempotencyKey x = Some k).
Proof.
  destruct (Event.idempotencyKey e) as [k|]; intros H.
  - apply bind_Ok in H as (db0 & db1 & [-> ->]%get_Ok & H).
    destruct (first _ _) as [[i x]|] eqn:Hf.
    + apply ret_Ok in H as [_ ->]. right. split; [reflexivity|].
      apply first_Some in Hf as [Hx Hp]. exists k, x.
      split; [reflexivity|]. split; [by eapply list_elem_of_lookup_2|].
      by apply bool_decide_eq_true in Hp.
    + injection H as _ <-. left. reflexivity.
  - injection H as _ <-. left. reflexivity.
Qed.

(** A successful append in full: both scans passed, and the event is
    stored unless an event with its idempotency key is there already. *)
Lemma appendEvent_stored e db id db' :
  appendEvent e db = Ok (id, db') ->
  containsSecret (Event.payload e) = false /\
  (forall t, Event.tags e = Some t -> containsSecret t = false) /\
  (db' = push_event e db \/
   (db' = db /\
    exists k x, Event.idempotencyKey e = Some k /\
                x ∈ events db /\ Event.idempotencyKey x = Some k)).
Proof.
  unfold appendEvent.
  destruct (containsSecret (Event.payload e)); [discriminate|].
  destruct (Event.tags e) as [t|] eqn:Ht.
  - destruct (containsSecret t) eqn:Hs; [discriminate|]. intros H.
    split; [reflexivity|]. split; [by intros ? [= <-]|].
    by apply idempotent_insert_Ok in H.
  - intros H. split; [reflexivity|]. split; [discriminate|].
    by apply idempotent_insert_Ok in H.
Qed.

(** X4. [emitEvent] writes to the log only, and what it stores is scoped
    by the membership of the caller: the call succeeds only for a member
    of the project named in the arguments whose role is bot or owner, the
    payload and the tags pass the denylist, and the log either stays as it
    is (an event with the idempotency key is already stored) or gains one
    event, which carries the tenant of that membership, whatever the
    caller supplied, and every other field ([projectId], [eventId],
    [type], [version], [ts], [correlationId], [causationId], [commandId],
    [runId], [cardId], [decisionId], [idempotencyKey], [producer], [tags],
    [payload]) as given. *)
Theorem emit_event_scoped who a db id db' :
  emitEvent who a db = Ok (id, db') ->
  cards db' = cards db /\ decisions db' = decisions db /\
  commands db' = commands db /\ project_members db' = project_members db /\
  exists identity m,
    who = Some identity /\
    m ∈ project_members db /\
    Member.userId m = default (tokenIdentifier identity) (subject identity) /\
    Member.projectId m = EmitEvent.projectId a /\
    (Member.role m = bot \/ Member.role m = owner) /\
    containsSecret (EmitEvent.payload a) = false /\
    (forall t, EmitEvent.tags a = Some t -> containsSecret t = false) /\
    ((events db' = events db /\
      exists k x, EmitEvent.idempotencyKey a = Some k /\
                  x ∈ events db /\ Event.idempotencyKey x = Some k) \/
     events db'
     = (events db ++
        [{| Event.eventId := EmitEvent.eventId a;
            Event.tenantId := Member.tenantId m;
            Event.projectId := EmitEvent.projectId a;
            Event.type := EmitEvent.type a;
            Event.version := EmitEvent.version a;
            Event.ts := EmitEvent.ts a;
            Event.correlationId := EmitEvent.correlationId a;
            Event.causationId := EmitEvent.causationId a;
            Event.commandId := EmitEvent.commandId a;
            Event.runId := EmitEvent.runId a;
            Event.cardId := EmitEvent.cardId a;
            Event.decisionId := EmitEvent.decisionId a;
            Event.idempotencyKey := EmitEvent.idempotencyKey a;
            Event.producer := EmitEvent.producer a;
            Event.tags := EmitEvent.tags a;
            Event.payload := EmitEvent.payload a |}])%list).
Proof.
  unfold emitEvent. intros (auth & Hauth & Hrole & H)%withAuth_Ok.
  apply resolveAuth_Ok in Hauth
    as (_ & identity & -> & Huser & m & Hm & Hmu & Hmp & Hten & Hproj & Hr).
  apply appendEvent_stored in H as (Hclean & Htags & Hdb).
  assert (Hrole' : Member.role m = bot \/ Member.role m = owner).
  { rewrite <- Hr. destruct Hrole as [->|Hinc]; [by right|].
    destruct (role auth); try discriminate; [by right|by left]. }
  assert (Hfields : cards db' = cards db /\ decisions db' = decisions db /\
                    commands db' = commands db /\
                    project_members db' = project_members db).
  { destruct Hdb as [->|[-> _]]; done. }
  destruct Hfields as (? & ? & ? & ?). repeat (split; [assumption|]).
  exists identity, m. split; [reflexivity|]. split; [exact Hm|].
  split; [congruence|]. split; [exact Hmp|]. split; [exact Hrole'|].
  split; [exact Hclean|]. split; [exact Htags|].
  destruct Hdb as [->|[-> Hkey]]; [right|left; by split].
  simpl. unfold emitted. by rewrite Hten.
Qed.

Lemma emit_event_scoped_witness :
  exists m,
    m ∈ project_members (Scenario.store [] []) /\
    Member.userId m = "user:bot" /\ Member.role m = bot.
Proof.
  destruct (emit_event_scoped (Scenario.user "user:bot")
              (Fixture.emit "evt_a" 3 None JNull) (Scenario.store [] []) 0%nat
              (commit (emitEvent (Scenario.user "user:bot")
                                 (Fixture.emit "evt_a" 3 None JNull))
                      (Scenario.store [] [])))
    as (_ & _ & _ & _ & identity & m & Hwho & Hm & Hu & _ & Hrole & _).
  - vm_compute. reflexivity.
  - exists m. injection Hwho as <-. simpl in Hu. split; [exact Hm|].
    split; [exact Hu|].
    apply list_elem_of_In in Hm. simpl in Hm.
    destruct Hm as [<-|[<-|[<-|[<-|[<-|[]]]]]]; try discriminate. reflexivity.
Defined.

(** * The role matrix *)

Lemma withAuth_refuses {R} roles (handler : AuthContext -> M R) who project db auth :
  resolveAuth who project db = Ok (auth, db) ->
  role auth <> owner ->
  includes (role auth) roles = false ->
  withAuth roles handler who project db = Throw (InsufficientPermissions roles).
Proof.
  intros Hauth Hno Hinc. unfold withAuth.
  rewrite (bind_step _ _ _ _ _ Hauth), (bool_decide_eq_false_2 _ Hno), Hinc.
  reflexivity.
Qed.

Lemma guarded_refuses {R} roles (handler : AuthContext -> Store -> Outcome R)
    who project db auth :
  resolveAuth who project db = Ok (auth, db) ->
  role auth <> owner ->
  includes (role auth) roles = false ->
  guarded roles who project handler db
  = Failed (Denied (InsufficientPermissions roles)).
Proof.
  intros Hauth Hno Hinc. unfold guarded.
  by rewrite (withAuth_refuses _ _ _ _ _ _ Hauth Hno Hinc).
Qed.

(** X5. The role matrix. A member of the project who is not an owner is
    refused, with [InsufficientPermissions] and before anything is read or
    written, by every mutation whose role list leaves their role out:
    [addMember] and [removeMember] for everyone; [requestDecision] and
    [emitEvent] for operators and viewers; [claimDecision],
    [renewDecisionClaim] and [renderDecision] for bots and viewers;
    [requestCommand] for viewers. *)
Theorem guards_refuse who project db auth :
  resolveAuth who project db = Ok (auth, db) ->
  role auth <> owner ->
  ((forall a, AddMember.projectId a = project ->
              addMember who a db = Failed (Denied (InsufficientPermissions [owner]))) /\
   (forall u, removeMember who project u db
              = Failed (Denied (InsufficientPermissions [owner])))) /\
  (role auth <> bot ->
   (forall a clk, RequestDecision.projectId a = project ->
                  requestDecision who a clk db
                  = Throw (InsufficientPermissions [bot; owner])) /\
   (forall a, EmitEvent.projectId a = project ->
              emitEvent who a db = Throw (InsufficientPermissions [bot; owner]))) /\
  (role auth <> operator ->
   (forall d clk, claimDecision who project d clk db
                  = Throw (InsufficientPermissions [operator; owner])) /\
   (forall d clk, renewDecisionClaim who project d clk db
                  = Throw (InsufficientPermissions [operator; owner])) /\
   (forall a clk, RenderDecision.projectId a = project ->
                  renderDecision who a clk db
                  = Throw (InsufficientPermissions [operator; owner]))) /\
  (role auth = viewer ->
   forall a clk, RequestCommand.projectId a = project ->
                 requestCommand who a clk db
                 = Throw (InsufficientPermissions [operator; bot; owner])).
Proof.
  intros Hauth Hno. split; [split|split; [|split]].
  - intros a <-. apply (guarded_refuses _ _ _ _ _ _ Hauth Hno).
    by destruct (role auth).
  - intros u. apply (guarded_refuses _ _ _ _ _ _ Hauth Hno).
    by destruct (role auth).
  - intros Hbot. split.
    + intros a clk <-. apply (withAuth_refuses _ _ _ _ _ _ Hauth Hno).
      by destruct (role auth).
    + intros a <-. apply (withAuth_refuses _ _ _ _ _ _ Hauth Hno).
      by destruct (role auth).
  - intros Hop. split; [|split].
    + intros d clk. apply (withAuth_refuses _ _ _ _ _ _ Hauth Hno).
      by destruct (role auth).
    + intros d clk. apply (withAuth_refuses _ _ _ _ _ _ Hauth Hno).
      by destruct (role auth).
    + intros a clk <-. apply (withAuth_refuses _ _ _ _ _ _ Hauth Hno).
      by destruct (role auth).
  - intros Hv a clk <-. apply (withAuth_refuses _ _ _ _ _ _ Hauth Hno).
    by rewrite Hv.
Qed.

Lemma guards_refuse_witness :
  removeMember (Scenario.user "user:olga") "proj_test" "user:alice" Scenario.pending
    = Failed (Denied (InsufficientPermissions [owner])) /\
  emitEvent (Scenario.user "user:olga") (Fixture.emit "evt_a" 3 None JNull)
            Scenario.pending
    = Throw (InsufficientPermissions [bot; owner]) /\
  renderDecision (Scenario.user "user:bot") (Scenario.render "dec_1" "approve") 5
                 Scenario.pending
    = Throw (InsufficientPermissions [operator; owner]) /\
  requestCommand (Scenario.user "user:vic") (Scenario.command None) 5
                 Scenario.pending
    = Throw (InsufficientPermissions [operator; bot; owner]).
Proof.
  assert (Holga : resolveAuth (Scenario.user "user:olga") "proj_test" Scenario.pending
                  = Ok (Scenario.auth "user:olga" operator, Scenario.pending))
    by (vm_compute; reflexivity).
  assert (Hbot : resolveAuth (Scenario.user "user:bot") "proj_test" Scenario.pending
                 = Ok (Scenario.auth "user:bot" bot, Scenario.pending))
    by (vm_compute; reflexivity).
  assert (Hvic : resolveAuth (Scenario.user "user:vic") "proj_test" Scenario.pending
                 = Ok (Scenario.auth "user:vic" viewer, Scenario.pending))
    by (vm_compute; reflexivity).
  split; [|split; [|split]].
  - apply (proj1 (guards_refuse _ _ _ _ Holga ltac:(discriminate))).
  - apply (proj1 (proj2 (guards_refuse _ _ _ _ Holga ltac:(discriminate))));
      [discriminate|reflexivity].
  - apply (proj1 (proj2 (proj2 (guards_refuse _ _ _ _ Hbot ltac:(discriminate)))));
      [discriminate|reflexivity].
  - apply (proj2 (proj2 (proj2 (guards_refuse _ _ _ _ Hvic ltac:(discriminate)))));
      reflexivity.
Defined.

(** * Renewing a claim *)

(** X6. [renewDecisionClaim] by an admitted operator or owner on a
    decision of their project: the holder of the claim on a [CLAIMED]
    decision gets a lease of five minutes from now, whether or not the
    old lease had run out; only [claimedUntil] of that row changes and no
    event is appended. Anyone else, and the holder once the decision is no
    longer [CLAIMED], is refused and nothing changes. *)
Theorem renew_decision_claim who project decisionId clk db auth i d :
  resolveAuth who project db = Ok (auth, db) ->
  role auth = owner \/ role auth = operator ->
  unique (fun x => bool_decide (Decision.decisionId x = decisionId))
         (decisions db) = Ok (Some (i, d)) ->
  Decision.projectId d = projectId auth ->
  (Decision.state d = CLAIMED -> Decision.claimedBy d = Some (userId auth) ->
   let until := clk + 5 * 60 * 1000 in
   exists db',
     renewDecisionClaim who project decisionId clk db = Ok (until, db') /\
     decisions db'
     = <[i := Decision.set_claimedUntil (Some until) d]> (decisions db) /\
     Decision.state (Decision.set_claimedUntil (Some until) d) = CLAIMED /\
     Decision.claimedBy (Decision.set_claimedUntil (Some until) d)
     = Some (userId auth) /\
     Decision.claimedUntil (Decision.set_claimedUntil (Some until) d)
     = Some until /\
     events db' = events db /\ cards db' = cards db) /\
  (~ (Decision.state d = CLAIMED /\ Decision.claimedBy d = Some (userId auth)) ->
   renewDecisionClaim who project decisionId clk db = Throw NotYourClaim).
Proof.
  intros Hauth Hrole Hfound Hproj.
  assert (Henter :
    renewDecisionClaim who project decisionId clk db
    = (if negb (bool_decide (Decision.state d = CLAIMED))
          || negb (bool_decide (Decision.claimedBy d = Some (userId auth)))
       then throw NotYourClaim
       else
         patch_decision i
           (Decision.set_claimedUntil (Some (clk + DECISION_CLAIM_MS))) ;;;
         ret (clk + DECISION_CLAIM_MS)) db).
  { unfold renewDecisionClaim. rewrite (withAuth_run _ _ _ _ _ _ Hauth).
    2:{ destruct Hrole as [->| ->]; [by left|by right]. }
    unfold renewDecisionClaim_handler.
    rewrite (bind_step _ _ _ _ _ (lookup_decision_run _ _ _ Hfound)).
    by rewrite (bool_decide_eq_true_2 _ Hproj). }
  split.
  - intros Hst Hby until. rewrite Henter.
    rewrite (bool_decide_eq_true_2 _ Hst), (bool_decide_eq_true_2 _ Hby).
    eexists. split; [reflexivity|]. simpl.
    apply unique_decision_facts in Hfound as [Hrow _].
    split; [by apply alter_insert|]. rewrite Hst, Hby. done.
  - intros Hno. rewrite Henter.
    destruct (decide (Decision.state d = CLAIMED)) as [Hst|Hst].
    + rewrite (bool_decide_eq_true_2 _ Hst).
      rewrite bool_decide_eq_false_2; [reflexivity|]. intros Hby. by apply Hno.
    + by rewrite (bool_decide_eq_false_2 _ Hst).
Qed.

Lemma renew_decision_claim_witness :
  exists db',
    renewDecisionClaim (Scenario.user "user:olga") "proj_test" "dec_1" 900
                       Scenario.held = Ok (900 + 5 * 60 * 1000, db') /\
    (Decision.claimedUntil <$> decisions db' !! 0%nat) = Some (Some 300900) /\
    renewDecisionClaim (Scenario.user "user:oscar") "proj_test" "dec_1" 900
                       Scenario.held = Throw NotYourClaim.
Proof.
  pose proof (renew_decision_claim (Scenario.user "user:olga") "proj_test" "dec_1"
                900 Scenario.held (Scenario.auth "user:olga" operator) 0%nat
                (Scenario.decision "dec_1" "proj_test" "card_1" CLAIMED u_today
                                   None None (Some "user:olga") (Some 500)))
    as [Hmine _];
    [vm_compute; reflexivity | right; reflexivity | vm_compute; reflexivity
    | reflexivity |].
  destruct (Hmine eq_refl eq_refl) as (db' & Hrun & Hdec & _).
  pose proof (renew_decision_claim (Scenario.user "user:oscar") "proj_test" "dec_1"
                900 Scenario.held (Scenario.auth "user:oscar" operator) 0%nat
                (Scenario.decision "dec_1" "proj_test" "card_1" CLAIMED u_today
                                   None None (Some "user:olga") (Some 500)))
    as [_ Hother];
    [vm_compute; reflexivity | right; reflexivity | vm_compute; reflexivity
    | reflexivity |].
  exists db'. split; [exact Hrun|]. split; [by rewrite Hdec|].
  apply Hother. intros [_ Hby]. discriminate.
Defined.

(** * Requesting a decision *)






(** * Rendering a decision *)

Lemma rendered_payload_clean optionKey caller note :
  secret_string optionKey = false ->
  secret_string caller = false ->
  (forall n, note = Some n -> secret_string n = false) ->
  containsSecret (rendered_payload optionKey caller note) = false.
Proof.
  intros Ho Hc Hn. unfold rendered_payload. simpl. rewrite Ho, Hc.
  destruct note as [n|]; simpl; [by rewrite (Hn n eq_refl)|reflexivity].
Qed.

Lemma rendered_payload_secret optionKey caller note :
  secret_string optionKey = true \/ secret_string caller = true \/
  (exists n, note = Some n /\ secret_string n = true) ->
  containsSecret (rendered_payload optionKey caller note) = true.
Proof.
  unfold rendered_payload. simpl. intros [->|[->|(n & -> & Hn)]].
  - reflexivity.
  - apply orb_true_r.
  - simpl. rewrite Hn. by rewrite !orb_true_r.
Qed.

(** X8. [renderDecision] by an admitted operator or owner on an open
    decision of their project that no one else holds a claim on (it is
    [PENDING], or [CLAIMED] by the caller): an option key that is not one
    of the decision's options is refused with [InvalidOption] and nothing
    is written; a valid one, when the key, the caller id and the note (if
    any) pass the denylist, resolves the decision: the row becomes
    [RENDERED] with that option, the caller and the time, the claim fields
    are cleared, one [DecisionRendered] event is appended, and the cards
    are left as they are; a valid one, when the key, the caller id or the
    note matches the denylist, is refused with [SecretInPayload] and
    nothing is written. A [PENDING] decision needs no claim to be
    rendered. *)
Theorem render_decision_resolves who a clk db auth i d :
  resolveAuth who (RenderDecision.projectId a) db = Ok (auth, db) ->
  role auth = owner \/ role auth = operator ->
  unique (fun x => bool_decide (Decision.decisionId x = RenderDecision.decisionId a))
         (decisions db) = Ok (Some (i, d)) ->
  Decision.projectId d = projectId auth ->
  Decision.state d = PENDING \/
  (Decision.state d = CLAIMED /\ Decision.claimedBy d = Some (userId auth)) ->
  (has_option (RenderDecision.optionKey a) (Decision.options d) = false ->
   renderDecision who a clk db = Throw (InvalidOption (RenderDecision.optionKey a))) /\
  (has_option (RenderDecision.optionKey a) (Decision.options d) = true ->
   secret_string (RenderDecision.optionKey a) = false ->
   secret_string (userId auth) = false ->
   (forall n, RenderDecision.note a = Some n -> secret_string n = false) ->
   exists db' d' e,
     renderDecision who a clk db = Ok (rendered (RenderDecision.optionKey a), db') /\
     decisions db' = <[i := d']> (decisions db) /\
     Decision.decisionId d' = Decision.decisionId d /\
     Decision.state d' = RENDERED /\
     Decision.renderedOption d' = Some (RenderDecision.optionKey a) /\
     Decision.renderedBy d' = Some (userId auth) /\
     Decision.renderedAt d' = Some clk /\
     Decision.claimedBy d' = None /\ Decision.claimedUntil d' = None /\
     events db' = (events db ++ [e])%list /\
     Event.type e = DecisionRendered /\
     Event.decisionId e = Some (Decision.decisionId d) /\
     Event.payload e
     = JObj [("selectedOption", JStr (RenderDecision.optionKey a));
             ("renderedBy", JStr (userId auth));
             ("note", jopt JStr (RenderDecision.note a))] /\
     cards db' = cards db) /\
  (has_option (RenderDecision.optionKey a) (Decision.options d) = true ->
   secret_string (RenderDecision.optionKey a) = true \/
   secret_string (userId auth) = true \/
   (exists n, RenderDecision.note a = Some n /\ secret_string n = true) ->
   renderDecision who a clk db = Throw SecretInPayload /\
   commit (renderDecision who a clk) db = db).
Proof.
  intros Hauth Hrole Hfound Hproj Hmine.
  assert (Hopen : is_open (Decision.state d) = true).
  { destruct Hmine as [->|[-> _]]; reflexivity. }
  assert (Hfree : claimed_by_another d (userId auth) = false).
  { unfold claimed_by_another. destruct Hmine as [->|[-> ->]]; [reflexivity|].
    simpl. by rewrite bool_decide_eq_true_2. }
  pose proof (renderDecision_enter who a clk db auth i d Hauth Hrole Hfound Hproj)
    as Henter.
  cbv zeta in Henter. rewrite Hopen, Hfree in Henter.
  change (negb true) with false in Henter. cbv beta iota in Henter.
  split; [|split].
  - intros Hopt. rewrite Henter, Hopt. reflexivity.
  - intros Hopt Ho Hc Hn. rewrite Henter, Hopt.
    change (negb true) with false. cbv beta iota.
    unfold bind, patch_decision, modify, generateId.
    rewrite appendEvent_run; [| |reflexivity..].
    2:{ by apply rendered_payload_clean. }
    apply unique_decision_facts in Hfound as [Hrow _].
    eexists _, _, _. split; [reflexivity|].
    split; [simpl; by apply alter_insert|]. repeat split; reflexivity.
  - intros Hopt Hsecret.
    assert (Hthrow : renderDecision who a clk db = Throw SecretInPayload).
    { rewrite Henter, Hopt. change (negb true) with false. cbv beta iota.
      unfold bind, patch_decision, modify, generateId.
      rewrite appendEvent_secret; [reflexivity|].
      by apply rendered_payload_secret. }
    split; [exact Hthrow|]. unfold commit. by rewrite Hthrow.
Qed.

Lemma render_decision_resolves_witness :
  renderDecision (Scenario.user "user:oscar") (Scenario.render "dec_1" "later") 20
                 Scenario.pending
    = Throw (InvalidOption "later") /\
  (exists db',
    renderDecision (Scenario.user "user:oscar") (Scenario.render "dec_1" "approve") 20
                   Scenario.pending
      = Ok (rendered "approve", db') /\
    map Decision.state (decisions db') = [RENDERED]) /\
  renderDecision (Scenario.user "user:oscar")
                 {| RenderDecision.projectId := "proj_test";
                    RenderDecision.decisionId := "dec_1";
                    RenderDecision.optionKey := "approve";
                    RenderDecision.note := Some "sk-aaaaaaaaaaaaaaaaaaaa" |} 20
                 Scenario.pending
    = Throw SecretInPayload.
Proof.
  pose proof (render_decision_resolves (Scenario.user "user:oscar")
                {| RenderDecision.projectId := "proj_test";
                   RenderDecision.decisionId := "dec_1";
                   RenderDecision.optionKey := "approve";
                   RenderDecision.note := Some "sk-aaaaaaaaaaaaaaaaaaaa" |}
                20 Scenario.pending
                (Scenario.auth "user:oscar" operator) 0%nat
                (Scenario.decision "dec_1" "proj_test" "card_1" PENDING u_today
                                   None None None None)
                ltac:(vm_compute; reflexivity) ltac:(right; reflexivity)
                ltac:(vm_compute; reflexivity) eq_refl ltac:(left; reflexivity))
    as (_ & _ & Hsecret).
  pose proof (render_decision_resolves (Scenario.user "user:oscar")
                (Scenario.render "dec_1" "later") 20 Scenario.pending
                (Scenario.auth "user:oscar" operator) 0%nat
                (Scenario.decision "dec_1" "proj_test" "card_1" PENDING u_today
                                   None None None None)
                ltac:(vm_compute; reflexivity) ltac:(right; reflexivity)
                ltac:(vm_compute; reflexivity) eq_refl ltac:(left; reflexivity))
    as [Hbad _].
  pose proof (render_decision_resolves (Scenario.user "user:oscar")
                (Scenario.render "dec_1" "approve") 20 Scenario.pending
                (Scenario.auth "user:oscar" operator) 0%nat
                (Scenario.decision "dec_1" "proj_test" "card_1" PENDING u_today
                                   None None None None)
                ltac:(vm_compute; reflexivity) ltac:(right; reflexivity)
                ltac:(vm_compute; reflexivity) eq_refl ltac:(left; reflexivity))
    as (_ & Hgood & _).
  split; [apply Hbad; reflexivity|]. split.
  - destruct Hgood as (db' & d' & e & Hrun & Hdec & _ & Hst & _);
      [reflexivity | vm_compute; reflexivity | vm_compute; reflexivity
      | intros n Hn; discriminate |].
    exists db'. split; [exact Hrun|]. rewrite Hdec. simpl. by rewrite Hst.
  - apply Hsecret; [reflexivity|]. right. right.
    exists "sk-aaaaaaaaaaaaaaaaaaaa". split; [reflexivity|].
    vm_compute. reflexivity.
Defined.

(** * Reclaiming lapsed claims *)

(** What one row of a snapshot loop goes through: the items before it
    leave it alone, its own item finds it as the snapshot shows it, and
    the items after it leave alone what that item made of it. *)
Lemma snapshot_hit (body : nat * Decision.t -> M unit) xs i d db db' :
  (forall x db1 db2,
      body x db1 = Ok (tt, db2) ->
      log_extends db1 db2 /\
      exists F, decisions db2 = alter F x.1 (decisions db1)) ->
  NoDup xs.*1 -> (i, d) ∈ xs -> decisions db !! i = Some d ->
  for_each xs body db = Ok (tt, db') ->
  exists db1 db2,
    log_extends db db1 /\ decisions db1 !! i = Some d /\
    body (i, d) db1 = Ok (tt, db2) /\
    log_extends db2 db' /\
    forall d2, decisions db2 !! i = Some d2 -> decisions db' !! i = Some d2.
Proof.
  intros Hbody Hnd Hin Hrow H.
  apply list_elem_of_split in Hin as (xs1 & xs2 & ->).
  apply NoDup_fst_split in Hnd as [Hxs1 Hxs2].
  apply for_each_split in H as (db1 & db2 & H1 & Hx & H2).
  assert (Hlog : forall w dbA dbB,
             for_each w body dbA = Ok (tt, dbB) -> log_extends dbA dbB).
  { intros w dbA dbB Hw.
    eapply (for_each_keeps log_extends (fun _ => True));
      [apply log_extends_refl|apply log_extends_trans| |apply Forall_true; done|exact Hw].
    intros x db3 db4 _ Hx0. by apply Hbody in Hx0 as [Hl _]. }
  assert (Hother : forall w dbA dbB dX,
             i ∉ w.*1 -> for_each w body dbA = Ok (tt, dbB) ->
             keeps_decision i dX dbA dbB).
  { intros w dbA dbB dX Hno Hw.
    eapply (for_each_keeps (keeps_decision i dX) (fun x => x.1 <> i));
      [| | |by apply Forall_fst_ne|exact Hw].
    - by intros db3 Hk.
    - intros db3 db4 db5 Ha Hb Hk. by apply Hb, Ha.
    - intros x db3 db4 Hne Hx0 Hk. apply Hbody in Hx0 as [_ [F HF]].
      by rewrite HF, list_lookup_alter_ne. }
  exists db1, db2. split; [exact (Hlog _ _ _ H1)|].
  split; [exact (Hother xs1 db db1 d Hxs1 H1 Hrow)|].
  split; [exact Hx|]. split; [exact (Hlog _ _ _ H2)|].
  intros d2. exact (Hother xs2 db2 db' d2 Hxs2 H2).
Qed.

Lemma snapshot_miss (body : nat * Decision.t -> M unit) xs i db db' :
  (forall x db1 db2,
      body x db1 = Ok (tt, db2) ->
      exists F, decisions db2 = alter F x.1 (decisions db1)) ->
  i ∉ xs.*1 ->
  for_each xs body db = Ok (tt, db') ->
  decisions db' !! i = decisions db !! i.
Proof.
  intros Hbody Hno H.
  eapply (for_each_keeps
            (fun db1 db2 => decisions db2 !! i = decisions db1 !! i)
            (fun x => x.1 <> i));
    [done| | |by apply Forall_fst_ne|exact H].
  - intros db1 db2 db3 Ha Hb. congruence.
  - intros x db1 db2 Hne [F HF]%Hbody. by rewrite HF, list_lookup_alter_ne.
Qed.

Lemma reclaim_one_effect now clk x db db' :
  reclaim_one now clk x db = Ok (tt, db') ->
  log_extends db db' /\ exists F, decisions db' = alter F x.1 (decisions db).
Proof.
  destruct x as [j dj]. intros [eid ->]%reclaim_one_Ok.
  split; eexists; reflexivity.
Qed.

(** X9. Reclaiming claims, the third phase of a sweep, when it
    completes: every [CLAIMED] decision whose [claimedUntil] is strictly
    before [now] goes back to [PENDING] with its claim fields cleared, and
    a [DecisionClaimExpired] event names the former holder and the lapsed
    deadline; every other decision (not [CLAIMED], or without a deadline,
    or with a deadline at [now] or later) keeps its row, and the cards are
    not touched. *)
Theorem reclaim_lapsed_claims now clk db db' :
  reclaimExpiredClaims now clk db = Ok (tt, db') ->
  (forall i d until,
      decisions db !! i = Some d ->
      Decision.state d = CLAIMED ->
      Decision.claimedUntil d = Some until -> until < now ->
      exists d',
        decisions db' !! i = Some d' /\
        d' = Decision.set_claim None None (Decision.set_state PENDING d) /\
        Decision.state d' = PENDING /\
        Decision.claimedBy d' = None /\ Decision.claimedUntil d' = None /\
        exists e pre post,
          events db' = (events db ++ pre ++ e :: post)%list /\
          Event.type e = DecisionClaimExpired /\
          Event.decisionId e = Some (Decision.decisionId d) /\
          Event.payload e
          = JObj [("previousClaimedBy", jopt JStr (Decision.claimedBy d));
                  ("claimedUntil", JNum until)]) /\
  (forall i d,
      decisions db !! i = Some d ->
      (Decision.state d <> CLAIMED \/
       forall until, Decision.claimedUntil d = Some until -> now <= until) ->
      decisions db' !! i = Some d) /\
  cards db' = cards db /\
  length (decisions db') = length (decisions db).
Proof.
  intros Hrun.
  pose proof (reclaimExpiredClaims_frame _ _ _ _ Hrun) as (Hcards & _ & _).
  unfold reclaimExpiredClaims in Hrun. tx_inv Hrun.
  apply get_Ok in Hrun0 as [-> ->].
  set (xs := List.filter (fun r => claim_lapsed now r.2)
               (collect (fun d => bool_decide (Decision.state d = CLAIMED))
                        (decisions db))) in *.
  assert (Hnd : NoDup xs.*1) by apply NoDup_fst_List_filter, NoDup_collect.
  assert (Hxs : forall i d, (i, d) ∈ xs <->
                  decisions db !! i = Some d /\ Decision.state d = CLAIMED /\
                  claim_lapsed now d = true).
  { intros i d. unfold xs. rewrite elem_of_List_filter, elem_of_collect.
    rewrite bool_decide_eq_true. simpl. tauto. }
  split; [|split; [|split]].
  - intros i d u Hrow Hst Hun Hlt.
    assert (Hin : (i, d) ∈ xs).
    { apply Hxs. split; [done|]. split; [done|]. unfold claim_lapsed.
      rewrite Hun. by apply Z.ltb_lt. }
    destruct (snapshot_hit _ _ _ _ _ _ (reclaim_one_effect now clk) Hnd Hin Hrow Hrun)
      as (db1 & db2 & [l1 Hl1] & Hrow1 & Hx & [l2 Hl2] & Hkeep).
    apply reclaim_one_Ok in Hx as [eid ->].
    eexists. split; [apply Hkeep; simpl; by rewrite list_lookup_alter_eq, Hrow1|].
    split; [reflexivity|]. repeat (split; [reflexivity|]).
    exists (sweeper_event eid DecisionClaimExpired now d
              (JObj [("previousClaimedBy", jopt JStr (Decision.claimedBy d));
                     ("claimedUntil", jopt JNum (Decision.claimedUntil d))])),
      l1, l2.
    split; [|split; [reflexivity|split; [reflexivity|]]].
    + rewrite Hl2. simpl. rewrite Hl1. by simplify_list_eq.
    + simpl. by rewrite Hun.
  - intros i d Hrow Hno.
    rewrite <- Hrow. eapply snapshot_miss; [| |exact Hrun].
    + intros x db1 db2 Hx. by apply reclaim_one_effect in Hx as [_ HF].
    + intros Hin. apply list_elem_of_fmap in Hin as ([j dj] & -> & Hin).
      apply Hxs in Hin as (Hj & Hst & Hl). simpl in Hrow.
      rewrite Hj in Hrow. injection Hrow as ->.
      destruct Hno as [Hno|Hno]; [done|].
      unfold claim_lapsed in Hl. destruct (Decision.claimedUntil d) as [u|]; [|done].
      apply Z.ltb_lt in Hl. specialize (Hno u eq_refl). lia.
  - exact Hcards.
  - eapply (for_each_keeps
              (fun db1 db2 => length (decisions db2) = length (decisions db1))
              (fun _ => True)); [done| | |apply Forall_true; done|exact Hrun].
    + intros db1 db2 db3 Ha Hb. congruence.
    + intros x db1 db2 _ Hx. apply reclaim_one_effect in Hx as [_ [F HF]].
      by rewrite HF, length_alter.
Qed.

Lemma reclaim_lapsed_claims_witness :
  let db' := commit (reclaimExpiredClaims 100 100) Fixture.claims in
  (Decision.state <$> decisions db' !! 0%nat) = Some PENDING /\
  decisions db' !! 1%nat = decisions Fixture.claims !! 1%nat /\
  decisions db' !! 2%nat = decisions Fixture.claims !! 2%nat.
Proof.
  cbv zeta.
  assert (Hrun : reclaimExpiredClaims 100 100 Fixture.claims
                 = Ok (tt, commit (reclaimExpiredClaims 100 100) Fixture.claims))
    by (vm_compute; reflexivity).
  destruct (reclaim_lapsed_claims 100 100 _ _ Hrun) as (Hlapsed & Hkept & _).
  split; [|split].
  - destruct (Hlapsed 0%nat
                (Scenario.decision "dec_1" "proj_test" "card_1" CLAIMED u_today
                                   None None (Some "user:olga") (Some 50)) 50)
      as (d' & Hrow & _ & Hst & _); [reflexivity|reflexivity|reflexivity|lia|].
    by rewrite Hrow, <- Hst.
  - apply (Hkept 1%nat
             (Scenario.decision "dec_2" "proj_test" "card_2" CLAIMED u_today
                                None None (Some "user:olga") (Some 100)));
      [reflexivity|]. right. intros u [= <-]. lia.
  - apply (Hkept 2%nat
             (Scenario.decision "dec_3" "proj_test" "card_3" CLAIMED u_today
                                None None (Some "user:oscar") (Some 500)));
      [reflexivity|]. right. intros u [= <-]. lia.
Defined.

(** * Releasing retries *)

Lemma card_ids_lookup (l l' : list Card.t) k c :
  map Card.cardId l' = map Card.cardId l ->
  l !! k = Some c ->
  exists c', l' !! k = Some c' /\ Card.cardId c' = Card.cardId c.
Proof.
  intros Hids Hk.
  assert (Hl : map Card.cardId l' !! k = Some (Card.cardId c)).
  { rewrite Hids. change (map Card.cardId l) with (Card.cardId <$> l).
    by rewrite list_lookup_fmap, Hk. }
  change (map Card.cardId l') with (Card.cardId <$> l') in Hl.
  rewrite list_lookup_fmap in Hl.
  destruct (l' !! k) as [c'|]; [|discriminate]. injection Hl as Hl. by exists c'.
Qed.

Lemma card_ids_alter (f : Card.t -> Card.t) k (l : list Card.t) :
  (forall c, Card.cardId (f c) = Card.cardId c) ->
  map Card.cardId (alter f k l) = map Card.cardId l.
Proof.
  intros Hf. change (Card.cardId <$> alter f k l = Card.cardId <$> l).
  apply list_eq. intros i. rewrite !list_lookup_fmap.
  destruct (decide (k = i)) as [->|Hne].
  - rewrite list_lookup_alter_eq. destruct (l !! i); simpl; [by rewrite Hf|done].
  - by rewrite list_lookup_alter_ne.
Qed.

(** One item of the loop, on a row that still carries the card id of the
    snapshot. *)
Lemma release_one_at now clk j cj c1 db db' :
  cards db !! j = Some c1 -> Card.cardId c1 = Card.cardId cj ->
  release_one now clk (j, cj) db = Ok (tt, db') ->
  match Card.retryAtTs cj with
  | Some r =>
      if r <=? now
      then valid_edge (Card.state c1) READY = true /\
           exists eid, db' = transitioned eid j c1 (release_args cj) clk db
      else db' = db
  | None => db' = db
  end.
Proof.
  intros Hj Hid. unfold release_one. simpl.
  destruct (Card.retryAtTs cj) as [r|]; [|by intros [_ ->]%ret_Ok].
  destruct (r <=? now); [|by intros [_ ->]%ret_Ok].
  intros H. tx_inv H. apply ret_Ok in H as [_ ->].
  apply transitionCard_Ok in Hrun as (k' & c' & eid & Hu & Hv & _ & _ & ->).
  apply unique_card_facts in Hu as (Hk' & Hc' & Huniq). simpl in Hc'.
  assert (j = k') as <- by (eapply Huniq; [exact Hj|congruence]).
  rewrite Hj in Hk'. injection Hk' as <-.
  split; [exact Hv|]. by exists eid.
Qed.

Lemma release_loop now clk xs :
  forall db db',
    NoDup xs.*1 ->
    (forall j cj, (j, cj) ∈ xs ->
                  exists c1, cards db !! j = Some c1 /\
                             Card.cardId c1 = Card.cardId cj) ->
    for_each xs (release_one now clk) db = Ok (tt, db') ->
    map Card.cardId (cards db') = map Card.cardId (cards db) /\
    log_extends db db' /\
    (forall k, k ∉ xs.*1 -> cards db' !! k = cards db !! k) /\
    (forall k ck c,
        (k, ck) ∈ xs -> cards db !! k = Some c ->
        match Card.retryAtTs ck with
        | Some r =>
            if r <=? now
            then cards db' !! k
                 = Some (transition_patch c (release_args ck) clk c) /\
                 exists eid pre post,
                   events db'
                   = (events db ++ pre
                        ++ transition_event eid c (release_args ck) clk :: post)%list
            else cards db' !! k = Some c
        | None => cards db' !! k = Some c
        end).
Proof.
  induction xs as [|[j cj] xs IH]; intros db db' Hnd Hpre Hrun.
  - apply ret_Ok in Hrun as [_ ->]. split; [done|].
    split; [apply log_extends_refl|]. split; [done|].
    intros k ck c Hin. inversion Hin.
  - rewrite for_each_cons in Hrun.
    apply bind_Ok in Hrun as ([] & db1 & Hx & Hrest).
    simpl in Hnd. apply NoDup_cons in Hnd as [Hj Hnd].
    destruct (Hpre j cj) as (c1 & Hrow & Hid); [apply list_elem_of_here|].
    pose proof (release_one_at _ _ _ _ _ _ _ Hrow Hid Hx) as Hone.
    assert (Hstep : map Card.cardId (cards db1) = map Card.cardId (cards db) /\
                    log_extends db db1 /\
                    forall k, k <> j -> cards db1 !! k = cards db !! k).
    { destruct (Card.retryAtTs cj) as [r|]; [destruct (r <=? now)|].
      - destruct Hone as [_ [eid ->]]. split; [|split].
        + simpl. apply card_ids_alter. intros c. apply transition_patch_cardId.
        + apply transitioned_log.
        + intros k Hne. simpl. by rewrite list_lookup_alter_ne.
      - subst db1. split; [done|]. split; [apply log_extends_refl|done].
      - subst db1. split; [done|]. split; [apply log_extends_refl|done]. }
    destruct Hstep as (Hids1 & Hlog1 & Hframe1).
    destruct (IH db1 db' Hnd) as (Hids & Hlog & Hmiss & Hhit); [|exact Hrest|].
    { intros k ck Hin. destruct (Hpre k ck) as (c2 & Hk & Hidk);
        [by apply list_elem_of_further|].
      destruct (card_ids_lookup _ _ _ _ Hids1 Hk) as (c3 & Hk3 & Hid3).
      exists c3. split; [exact Hk3|congruence]. }
    split; [congruence|]. split; [by eapply log_extends_trans|]. split.
    + intros k Hk. simpl in Hk. apply not_elem_of_cons in Hk as [Hne Hk].
      rewrite (Hmiss k Hk). by apply Hframe1.
    + intros k ck c Hin Hk. apply elem_of_cons in Hin as [[= -> ->]|Hin].
      * rewrite Hrow in Hk. injection Hk as <-. rewrite (Hmiss j Hj).
        destruct (Card.retryAtTs cj) as [r|]; [destruct (r <=? now)|].
        -- destruct Hone as [_ [eid ->]]. split.
           ++ simpl. by rewrite list_lookup_alter_eq, Hrow.
           ++ destruct Hlog as [l Hl]. exists eid, [], l. rewrite Hl. simpl.
              by simplify_list_eq.
        -- by subst db1.
        -- by subst db1.
      * assert (Hne : k <> j).
        { intros ->. apply Hj. apply list_elem_of_fmap. by exists (j, ck). }
        specialize (Hhit k ck c Hin). rewrite (Hframe1 k Hne) in Hhit.
        specialize (Hhit Hk).
        destruct (Card.retryAtTs ck) as [r|]; [destruct (r <=? now)|]; try done.
        destruct Hhit as [Hk' (eid & pre & post & He)]. split; [exact Hk'|].
        destruct Hlog1 as [l1 Hl1]. exists eid, (l1 ++ pre)%list, post.
        rewrite He, Hl1. by simplify_list_eq.
Qed.

(** X10. Releasing retries, the first phase of a sweep, when it
    completes: every [RETRY_SCHEDULED] card whose [retryAtTs] is at or
    before [now] becomes [READY] with [retryAtTs] cleared, its attempt
    count as it was, and a [CardTransitioned] event from
    [RETRY_SCHEDULED] to [READY] with reason "retry timer fired"; every
    other card (in another state, without a retry time, or with one after
    [now]) keeps its row, and the decisions are not touched. *)
Theorem release_due_retries now clk db db' :
  releaseRetries now clk db = Ok (tt, db') ->
  (forall k c r,
      cards db !! k = Some c ->
      Card.state c = RETRY_SCHEDULED ->
      Card.retryAtTs c = Some r -> r <= now ->
      exists c',
        cards db' !! k = Some c' /\
        Card.cardId c' = Card.cardId c /\
        Card.state c' = READY /\ Card.retryAtTs c' = None /\
        Card.attempt c' = Card.attempt c /\ Card.updatedTs c' = clk /\
        exists e pre post,
          events db' = (events db ++ pre ++ e :: post)%list /\
          Event.type e = CardTransitioned /\
          Event.cardId e = Some (Card.cardId c) /\
          Event.payload e
          = JObj [("from", JStr "RETRY_SCHEDULED"); ("to", JStr "READY");
                  ("reason", JStr "retry timer fired")]) /\
  (forall k c,
      cards db !! k = Some c ->
      (Card.state c <> RETRY_SCHEDULED \/
       Card.retryAtTs c = None \/
       exists r, Card.retryAtTs c = Some r /\ now < r) ->
      cards db' !! k = Some c) /\
  decisions db' = decisions db /\
  length (cards db') = length (cards db).
Proof.
  intros Hrun.
  pose proof (releaseRetries_frame _ _ _ _ Hrun) as (Hdec & _ & _).
  unfold releaseRetries in Hrun. tx_inv Hrun. apply get_Ok in Hrun0 as [-> ->].
  set (xs := collect (fun c => bool_decide (Card.state c = RETRY_SCHEDULED))
                     (cards db)) in *.
  assert (Hxs : forall k c, (k, c) ∈ xs <->
                  cards db !! k = Some c /\ Card.state c = RETRY_SCHEDULED).
  { intros k c. unfold xs. by rewrite elem_of_collect, bool_decide_eq_true. }
  destruct (release_loop now clk xs db db') as (Hids & _ & Hmiss & Hhit);
    [apply NoDup_collect| |exact Hrun|].
  { intros j cj [Hj _]%Hxs. by exists cj. }
  split; [|split; [|split]].
  - intros k c r Hk Hst Hr Hle.
    specialize (Hhit k c c (proj2 (Hxs k c) (conj Hk Hst)) Hk).
    rewrite Hr in Hhit. rewrite (proj2 (Z.leb_le r now) Hle) in Hhit.
    destruct Hhit as [Hk' (eid & pre & post & He)].
    eexists. split; [exact Hk'|].
    unfold transition_patch. rewrite Hst. simpl.
    repeat (split; [reflexivity|]).
    exists (transition_event eid c (release_args c) clk), pre, post.
    split; [exact He|]. simpl. by rewrite Hst.
  - intros k c Hk Hno.
    destruct (decide (Card.state c = RETRY_SCHEDULED)) as [Hst|Hst].
    + specialize (Hhit k c c (proj2 (Hxs k c) (conj Hk Hst)) Hk).
      destruct Hno as [Hno|[Hno|(r & Hr & Hlt)]]; [done| |].
      * by rewrite Hno in Hhit.
      * rewrite Hr in Hhit.
        by rewrite (proj2 (Z.leb_gt r now) Hlt) in Hhit.
    + rewrite Hmiss; [exact Hk|].
      intros Hin. apply list_elem_of_fmap in Hin as ([j cj] & -> & Hin).
      apply Hxs in Hin as [Hj Hs]. simpl in Hk. congruence.
  - exact Hdec.
  - rewrite <- (length_map Card.cardId (cards db')), Hids. apply length_map.
Qed.

Lemma release_due_retries_witness :
  let db' := commit (releaseRetries 100 100) Fixture.retrying in
  (exists c', cards db' !! 0%nat = Some c' /\ Card.state c' = READY /\
              Card.retryAtTs c' = None) /\
  cards db' !! 1%nat = cards Fixture.retrying !! 1%nat /\
  cards db' !! 2%nat = cards Fixture.retrying !! 2%nat.
Proof.
  cbv zeta.
  assert (Hrun : releaseRetries 100 100 Fixture.retrying
                 = Ok (tt, commit (releaseRetries 100 100) Fixture.retrying))
    by (vm_compute; reflexivity).
  destruct (release_due_retries 100 100 _ _ Hrun) as (Hdue & Hkept & _).
  split; [|split].
  - destruct (Hdue 0%nat (Scenario.card "card_1" RETRY_SCHEDULED (Some 50)) 50)
      as (c' & Hrow & _ & Hst & Hr & _); [reflexivity|reflexivity|reflexivity|lia|].
    by exists c'.
  - apply (Hkept 1%nat (Scenario.card "card_2" RETRY_SCHEDULED (Some 500)));
      [reflexivity|]. right. right. exists 500. split; [reflexivity|lia].
  - apply (Hkept 2%nat (Scenario.card "card_3" RUNNING None)); [reflexivity|].
    left. discriminate.
Defined.

(** * Projects and members *)

Lemma unique_None_intro {A} (p : A -> bool) (l : list A) :
  (forall k c, l !! k = Some c -> p c = false) -> unique p l = Ok None.
Proof.
  intros Hall. unfold unique. destruct (collect p l) as [|[i x] r] eqn:E; [done|].
  assert (Hin : (i, x) ∈ collect p l) by (rewrite E; apply list_elem_of_here).
  apply elem_of_collect in Hin as [Hi Hp]. rewrite (Hall _ _ Hi) in Hp. done.
Qed.

Lemma unique_Throw {A} (p : A -> bool) (l : list A) e :
  unique p l = Throw e ->
  exists i j x y,
    i <> j /\ l !! i = Some x /\ l !! j = Some y /\ p x = true /\ p y = true.
Proof.
  unfold unique. pose proof (NoDup_collect p l) as Hnd.
  destruct (collect p l) as [|[i x] [|[j y] r]] eqn:E; try done.
  intros _. exists i, j, x, y.
  assert (Hi : (i, x) ∈ collect p l) by (rewrite E; apply list_elem_of_here).
  assert (Hj : (j, y) ∈ collect p l)
    by (rewrite E; apply list_elem_of_further, list_elem_of_here).
  apply elem_of_collect in Hi as [Hi Hpx]. apply elem_of_collect in Hj as [Hj Hpy].
  split; [|done]. simpl in Hnd. apply NoDup_cons in Hnd as [Hnd _].
  intros ->. apply Hnd. apply list_elem_of_here.
Qed.

Lemma elem_of_delete_other {A} (l : list A) id j x :
  l !! j = Some x -> j <> id -> x ∈ delete id l.
Proof.
  intros Hj Hne. destruct (decide (j < id)%nat) as [Hlt|Hge].
  - apply (list_elem_of_lookup_2 _ j). by rewrite list_lookup_delete_lt.
  - apply (list_elem_of_lookup_2 _ (j - 1)%nat).
    rewrite list_lookup_delete_ge by lia.
    by replace (S (j - 1)) with j by lia.
Qed.

Lemma guarded_Done {R} roles who project
    (handler : AuthContext -> Store -> Outcome R) db r :
  guarded roles who project handler db = Done r ->
  exists auth,
    resolveAuth who project db = Ok (auth, db) /\
    (role auth = owner \/ includes (role auth) roles = true) /\
    handler auth db = Done r.
Proof.
  unfold guarded.
  destruct (withAuth roles ret who project db) as [[auth db1]|e] eqn:E; [|done].
  intros H. apply withAuth_Ok in E as (auth' & Ha & Hr & [-> ->]%ret_Ok). eauto.
Qed.

Lemma guarded_run {R} roles who project
    (handler : AuthContext -> Store -> Outcome R) db auth :
  resolveAuth who project db = Ok (auth, db) ->
  role auth = owner \/ includes (role auth) roles = true ->
  guarded roles who project handler db = handler auth db.
Proof.
  intros Ha Hr. unfold guarded. by rewrite (withAuth_run _ _ _ _ _ _ Ha Hr).
Qed.

Lemma only_owner r : r = owner \/ includes r [owner] = true -> r = owner.
Proof. intros [->|H]; [done|]. by destruct r. Qed.

Lemma addMember_Done who a db r db' :
  addMember who a db = Done (r, db') ->
  exists auth,
    resolveAuth who (AddMember.projectId a) db = Ok (auth, db) /\
    role auth = owner /\
    unique (member_of (AddMember.userId a) (AddMember.projectId a))
           (project_members db) = Ok None /\
    r = (AddMember.userId a, AddMember.role a) /\
    db' = with_members
            (fun l => (l ++ [{| Member.tenantId := tenantId auth;
                                Member.projectId := projectId auth;
                                Member.userId := AddMember.userId a;
                                Member.role := AddMember.role a |}])%list) db.
Proof.
  unfold addMember. intros (auth & Ha & Hr%only_owner & H)%guarded_Done.
  exists auth. split; [exact Ha|]. split; [exact Hr|].
  destruct (unique _ _) as [[[j m]|]|e]; try done.
  injection H as <- <-. done.
Qed.

Lemma removeMember_Done who project userId db r db' :
  removeMember who project userId db = Done (r, db') ->
  exists auth id member,
    resolveAuth who project db = Ok (auth, db) /\
    role auth = owner /\
    unique (member_of userId project) (project_members db) = Ok (Some (id, member)) /\
    (Member.role member = owner ->
     (1 < length (collect (is_owner_of project) (project_members db)))%nat) /\
    r = userId /\
    db' = with_members (delete id) db.
Proof.
  unfold removeMember. intros (auth & Ha & Hr%only_owner & H)%guarded_Done.
  destruct (unique _ _) as [[[id m]|]|e]; try done.
  exists auth, id, m. split; [exact Ha|]. split; [exact Hr|]. split; [done|].
  destruct (bool_decide (Member.role m = owner)) eqn:Hown; simpl in H.
  - destruct (_ <=? 1)%nat eqn:Hle; [done|]. injection H as <- <-.
    apply Nat.leb_gt in Hle. done.
  - injection H as <- <-. apply bool_decide_eq_false in Hown. done.
Qed.

Lemma initProject_Done who a clk reg r reg' :
  initProject who a clk reg = Done (r, reg') ->
  exists identity,
    who = Some identity /\
    unique (fun p => bool_decide (Project.projectId p = InitProject.projectId a))
           (projects reg) = Ok None /\
    r = InitProject.projectId a /\
    reg' = {| projects :=
                (projects reg ++
                 [{| Project.tenantId := InitProject.tenantId a;
                     Project.projectId := InitProject.projectId a;
                     Project.name := InitProject.name a;
                     Project.createdAt := clk;
                     Project.createdBy :=
                       default (tokenIdentifier identity) (subject identity) |}])%list;
              base :=
                with_members
                  (fun l =>
                     (l ++ [{| Member.tenantId := InitProject.tenantId a;
                               Member.projectId := InitProject.projectId a;
                               Member.userId :=
                                 default (tokenIdentifier identity) (subject identity);
                               Member.role := owner |}])%list)
                  (base reg) |}.
Proof.
  unfold initProject. destruct who as [identity|]; [|done].
  destruct (unique _ _) as [[[j p]|]|e]; try done.
  intros [= <- <-]. by exists identity.
Qed.

Lemma member_of_key u p m :
  member_of u p m = true <-> membership_key m = (u, p).
Proof.
  unfold member_of, membership_key.
  rewrite andb_true_iff, !bool_decide_eq_true. split; [intros [-> ->]|intros [= -> ->]]; done.
Qed.

Lemma init_keeps_inv who a clk reg r reg' :
  RegistryInv reg -> initProject who a clk reg = Done (r, reg') -> RegistryInv reg'.
Proof.
  intros [Hpu Hmu Hms Hpo] (identity & _ & Hnone & _ & ->)%initProject_Done.
  pose proof (unique_None _ _ Hnone) as Hfresh.
  assert (Hnew : InitProject.projectId a ∉ map Project.projectId (projects reg)).
  { intros Hin. apply list_elem_of_fmap in Hin as (p & Hp & Hin).
    apply list_elem_of_lookup in Hin as [k Hk].
    specialize (Hfresh k p Hk). apply bool_decide_eq_false in Hfresh. congruence. }
  split; simpl.
  - rewrite map_app. simpl. apply NoDup_app. split; [exact Hpu|].
    split; [|apply NoDup_singleton].
    intros x Hx ->%list_elem_of_singleton. by apply Hnew.
  - rewrite map_app. simpl. apply NoDup_app. split; [exact Hmu|].
    split; [|apply NoDup_singleton].
    intros x Hx ->%list_elem_of_singleton.
    apply list_elem_of_fmap in Hx as (m & Hkey & Hm).
    apply Hnew. injection Hkey as _ ->. by apply Hms.
  - intros m [Hm| ->%list_elem_of_singleton]%elem_of_app; rewrite map_app.
    + apply elem_of_app. left. by apply Hms.
    + apply elem_of_app. right. simpl. apply list_elem_of_here.
  - intros p [Hp| ->%list_elem_of_singleton]%elem_of_app.
    + destruct (Hpo p Hp) as (m & Hm & Ho). exists m. split; [|exact Ho].
      apply elem_of_app. by left.
    + eexists. split; [apply elem_of_app; right; apply list_elem_of_here|].
      unfold is_owner_of. simpl. by rewrite !bool_decide_eq_true_2.
Qed.

Lemma add_keeps_inv who a reg r db' :
  RegistryInv reg -> addMember who a (base reg) = Done (r, db') ->
  RegistryInv (with_base (fun _ => db') reg).
Proof.
  intros [Hpu Hmu Hms Hpo] (auth & Ha & _ & Hnone & _ & ->)%addMember_Done.
  apply resolveAuth_Ok in Ha as (_ & identity & _ & _ & m0 & Hm0 & _ & Hp0 & _ & Hproj & _).
  pose proof (unique_None _ _ Hnone) as Hfresh.
  split; simpl.
  - exact Hpu.
  - rewrite map_app. simpl. apply NoDup_app. split; [exact Hmu|].
    split; [|apply NoDup_singleton].
    intros x Hx ->%list_elem_of_singleton.
    apply list_elem_of_fmap in Hx as (m & Hkey & Hm).
    apply list_elem_of_lookup in Hm as [k Hk].
    specialize (Hfresh k m Hk).
    assert (member_of (AddMember.userId a) (AddMember.projectId a) m = true).
    { apply member_of_key. unfold membership_key in *. simpl in Hkey. congruence. }
    congruence.
  - intros m [Hm| ->%list_elem_of_singleton]%elem_of_app.
    + by apply Hms.
    + simpl. rewrite Hproj, <- Hp0. by apply Hms.
  - intros p Hp. destruct (Hpo p Hp) as (m & Hm & Ho). exists m. split; [|exact Ho].
    apply elem_of_app. by left.
Qed.

Lemma two_owners project (l : list Member.t) id :
  (1 < length (collect (is_owner_of project) l))%nat ->
  exists j m, j <> id /\ l !! j = Some m /\ is_owner_of project m = true.
Proof.
  intros Hlen. pose proof (NoDup_collect (is_owner_of project) l) as Hnd.
  destruct (collect (is_owner_of project) l) as [|[i x] [|[j y] r]] eqn:E;
    simpl in Hlen; try lia.
  assert (Hi : (i, x) ∈ collect (is_owner_of project) l)
    by (rewrite E; apply list_elem_of_here).
  assert (Hj : (j, y) ∈ collect (is_owner_of project) l)
    by (rewrite E; apply list_elem_of_further, list_elem_of_here).
  apply elem_of_collect in Hi as [Hi Hpx]. apply elem_of_collect in Hj as [Hj Hpy].
  simpl in Hnd. apply NoDup_cons in Hnd as [Hnd _].
  assert (i <> j) by (intros ->; apply Hnd, list_elem_of_here).
  destruct (decide (i = id)) as [->|Hne]; [by exists j, y|by exists i, x].
Qed.

Lemma remove_keeps_inv who project userId reg r db' :
  RegistryInv reg -> removeMember who project userId (base reg) = Done (r, db') ->
  RegistryInv (with_base (fun _ => db') reg).
Proof.
  intros [Hpu Hmu Hms Hpo]
         (auth & id & member & Ha & Hrole & Hu & Hlast & _ & ->)%removeMember_Done.
  apply unique_Some in Hu as (Hid & Hmem & _).
  apply member_of_key in Hmem.
  apply resolveAuth_Ok in Ha
    as (_ & identity & _ & _ & m0 & Hm0 & _ & Hp0 & _ & _ & Hr0).
  split; simpl.
  - exact Hpu.
  - change (NoDup (membership_key <$> delete id (project_members (base reg)))).
    rewrite list_fmap_delete. eapply sublist_NoDup; [exact Hmu|apply sublist_delete].
  - intros m Hm%list_elem_of_delete_inv. by apply Hms.
  - intros p Hp. destruct (Hpo p Hp) as (m & Hm & Ho).
    apply list_elem_of_lookup in Hm as [k Hk].
    destruct (decide (k = id)) as [->|Hne].
    2:{ exists m. split; [by eapply elem_of_delete_other|exact Ho]. }
    rewrite Hid in Hk. injection Hk as <-.
    unfold is_owner_of in Ho.
    apply andb_true_iff in Ho as [Hproj%bool_decide_eq_true Hown%bool_decide_eq_true].
    injection Hmem as _ Hmp. rewrite Hmp in Hproj.
    destruct (two_owners project _ id (Hlast Hown)) as (j & m' & Hne & Hj & Ho').
    exists m'. split; [by eapply elem_of_delete_other|]. by rewrite <- Hproj.
Qed.

Lemma administer_keeps_inv r reg : RegistryInv reg -> RegistryInv (administer r reg).
Proof.
  intros Hinv. destruct r as [who a clk|who a|who p u]; simpl.
  - destruct (initProject who a clk reg) as [[r reg']|e] eqn:E; [|exact Hinv].
    by eapply init_keeps_inv.
  - destruct (addMember who a (base reg)) as [[r db']|e] eqn:E; [|exact Hinv].
    by eapply add_keeps_inv.
  - destruct (removeMember who p u (base reg)) as [[r db']|e] eqn:E; [|exact Hinv].
    by eapply remove_keeps_inv.
Qed.

Lemma administer_all_keeps_inv rs reg :
  RegistryInv reg -> RegistryInv (administer_all rs reg).
Proof.
  revert reg. induction rs as [|r rs IH]; intros reg Hinv; simpl; [exact Hinv|].
  by apply IH, administer_keeps_inv.
Qed.

Lemma resolveAuth_unique who project db :
  NoDup (map membership_key (project_members db)) ->
  resolveAuth who project db <> Throw NotUnique.
Proof.
  intros Hnd. unfold resolveAuth. destruct who as [identity|]; [|done].
  unfold bind, get, lift.
  destruct (unique _ (project_members db)) as [[[j m]|]|e] eqn:E; try done.
  exfalso. apply unique_Throw in E as (i & j & x & y & Hne & Hi & Hj & Hx & Hy).
  apply (member_of_key _ _ x) in Hx. apply (member_of_key _ _ y) in Hy.
  apply Hne. eapply NoDup_lookup; [exact Hnd| |].
  - change (map membership_key (project_members db))
      with (membership_key <$> project_members db).
    rewrite list_lookup_fmap, Hi. simpl. by rewrite Hx.
  - change (map membership_key (project_members db))
      with (membership_key <$> project_members db).
    rewrite list_lookup_fmap, Hj. simpl. by rewrite Hy.
Qed.

(** X11. The registry invariant. Starting from a registry in which
    project ids are unique, no user is a member of a project twice, every
    membership belongs to an existing project and every project has an
    owner, no sequence of [initProject], [addMember] and [removeMember]
    calls by any callers breaks any of the four; in particular a project
    never loses its last owner, and the access guard never meets two
    memberships for one user and project. *)
Theorem registry_invariant rs reg :
  RegistryInv reg ->
  RegistryInv (administer_all rs reg) /\
  (forall p, p ∈ projects (administer_all rs reg) ->
             exists m, m ∈ project_members (base (administer_all rs reg)) /\
                       Member.projectId m = Project.projectId p /\
                       Member.role m = owner) /\
  (forall who project,
      resolveAuth who project (base (administer_all rs reg)) <> Throw NotUnique).
Proof.
  intros Hinv. pose proof (administer_all_keeps_inv rs reg Hinv) as Hfinal.
  split; [exact Hfinal|]. split.
  - intros p Hp. destruct (projects_owned _ Hfinal p Hp) as (m & Hm & Ho).
    exists m. split; [exact Hm|]. unfold is_owner_of in Ho.
    apply andb_true_iff in Ho as [?%bool_decide_eq_true ?%bool_decide_eq_true]. done.
  - intros who project. apply resolveAuth_unique, (members_unique _ Hfinal).
Qed.

Lemma registry_invariant_witness :
  RegistryInv (administer_all Fixture.setup Fixture.nothing).
Proof.
  apply (registry_invariant Fixture.setup Fixture.nothing).
  split; simpl.
  - constructor.
  - constructor.
  - intros m Hm. inversion Hm.
  - intros p Hp. inversion Hp.
Defined.

Example setup_members :
  map (fun m => (Member.userId m, Member.role m))
      (project_members (base (administer_all Fixture.setup Fixture.nothing)))
  = [("user:vic", viewer); ("user:olga", owner)].
Proof. vm_compute. reflexivity. Qed.

(** X12. Membership round trip. After a successful [addMember] the new
    member is admitted to the project by the access guard, with the role
    given and the tenant of the owner who added them, and [getMyRole]
    answers with that role; after a successful [removeMember] the removed
    user is no longer a member: the guard answers [NotAMember]. *)
Theorem membership_round_trip identity :
  let user := default (tokenIdentifier identity) (subject identity) in
  (forall who a db r db',
      addMember who a db = Done (r, db') ->
      AddMember.userId a = user ->
      exists auth,
        resolveAuth who (AddMember.projectId a) db = Ok (auth, db) /\
        resolveAuth (Some identity) (AddMember.projectId a) db'
        = Ok ({| userId := user; tenantId := tenantId auth;
                 projectId := AddMember.projectId a;
                 role := AddMember.role a |}, db') /\
        getMyRole (Some identity) (AddMember.projectId a) db'
        = Ok ((AddMember.role a, user), db')) /\
  (forall who project db r db',
      removeMember who project user db = Done (r, db') ->
      resolveAuth (Some identity) project db' = Throw NotAMember).
Proof.
  intros user. split.
  - intros who a db r db' (auth & Ha & _ & Hnone & _ & ->)%addMember_Done Huser.
    exists auth. split; [exact Ha|].
    pose proof (unique_None _ _ Hnone) as Hfresh.
    apply resolveAuth_Ok in Ha as (_ & _ & _ & _ & _ & _ & _ & _ & _ & Hproj & _).
    assert (Hres :
      resolveAuth (Some identity) (AddMember.projectId a)
        (with_members
           (fun l => (l ++ [{| Member.tenantId := tenantId auth;
                               Member.projectId := projectId auth;
                               Member.userId := AddMember.userId a;
                               Member.role := AddMember.role a |}])%list) db)
      = Ok ({| userId := user; tenantId := tenantId auth;
               projectId := AddMember.projectId a; role := AddMember.role a |},
            with_members
              (fun l => (l ++ [{| Member.tenantId := tenantId auth;
                                  Member.projectId := projectId auth;
                                  Member.userId := AddMember.userId a;
                                  Member.role := AddMember.role a |}])%list) db)).
    { unfold resolveAuth, bind, get, lift. fold user. simpl.
      rewrite (unique_intro _ _ (length (project_members db))
                 {| Member.tenantId := tenantId auth;
                    Member.projectId := projectId auth;
                    Member.userId := AddMember.userId a;
                    Member.role := AddMember.role a |}).
      - unfold ret. simpl. by rewrite Hproj.
      - by rewrite lookup_app_r, Nat.sub_diag.
      - simpl. rewrite Huser, Hproj. by rewrite !bool_decide_eq_true_2.
      - intros k' c' Hk' Hp.
        apply lookup_snoc_Some in Hk' as [[_ Hk']|[-> _]]; [|done].
        rewrite <- Huser in Hp. change (member_of (AddMember.userId a)
                                          (AddMember.projectId a) c' = true) in Hp.
        by rewrite (Hfresh _ _ Hk') in Hp. }
    split; [exact Hres|].
    unfold getMyRole, withAuthQ. rewrite (bind_step _ _ _ _ _ Hres). simpl.
    by destruct (AddMember.role a).
  - intros who project db r db'
           (auth & id & member & _ & _ & Hu & _ & _ & ->)%removeMember_Done.
    apply unique_Some in Hu as (Hid & _ & Huniq).
    unfold resolveAuth, bind, get, lift. fold user. simpl.
    rewrite unique_None_intro; [reflexivity|].
    intros k c Hk. destruct (member_of user project c) eqn:Hp; [|done].
    change (bool_decide (Member.userId c = user)
            && bool_decide (Member.projectId c = project))
      with (member_of user project c). rewrite Hp. exfalso.
    destruct (decide (k < id)%nat) as [Hlt|Hge].
    + rewrite list_lookup_delete_lt in Hk by exact Hlt.
      destruct (Huniq _ _ Hk Hp) as [-> _]. lia.
    + rewrite list_lookup_delete_ge in Hk by lia.
      destruct (Huniq _ _ Hk Hp) as [Heq _]. lia.
Qed.

Example member_added_then_removed :
  let db0 := Scenario.store [] [] in
  let nina := {| subject := Some "user:nina"; tokenIdentifier := "token:nina" |} in
  exists db1 db2,
    addMember (Scenario.user "user:alice") (Fixture.add "user:nina" operator) db0
      = Done (("user:nina", operator), db1) /\
    getMyRole (Some nina) "proj_test" db1 = Ok ((operator, "user:nina"), db1) /\
    removeMember (Scenario.user "user:alice") "proj_test" "user:nina" db1
      = Done ("user:nina", db2) /\
    getMyRole (Some nina) "proj_test" db2 = Throw NotAMember.
Proof. eexists _, _. vm_compute. repeat split; reflexivity. Qed.

Lemma membership_round_trip_witness :
  let nina := {| subject := Some "user:nina"; tokenIdentifier := "token:nina" |} in
  let db1 :=
    match addMember (Scenario.user "user:alice") (Fixture.add "user:nina" operator)
                    (Scenario.store [] []) with
    | Done (_, db') => db'
    | Failed _ => Scenario.store [] []
    end in
  getMyRole (Some nina) "proj_test" db1 = Ok ((operator, "user:nina"), db1).
Proof.
  cbv zeta.
  destruct (proj1 (membership_round_trip
                     {| subject := Some "user:nina"; tokenIdentifier := "token:nina" |})
              (Scenario.user "user:alice") (Fixture.add "user:nina" operator)
              (Scenario.store [] []) ("user:nina", operator)
              (match addMember (Scenario.user "user:alice")
                               (Fixture.add "user:nina" operator)
                               (Scenario.store [] []) with
               | Done (_, db') => db'
               | Failed _ => Scenario.store [] []
               end))
    as (auth & _ & _ & Hget).
  - vm_compute. reflexivity.
  - reflexivity.
  - exact Hget.
Defined.

(** * Waiting for a decision *)

Lemma withAuthQ_run {R} roles (handler : AuthContext -> M R) who project db auth :
  resolveAuth who project db = Ok (auth, db) ->
  role auth = owner \/ includes (role auth) roles = true ->
  withAuthQ roles handler who project db = handler auth db.
Proof.
  intros Ha Hr. unfold withAuthQ. rewrite (bind_step _ _ _ _ _ Ha).
  destruct Hr as [->|Hinc]; [reflexivity|].
  rewrite Hinc. simpl. by rewrite andb_false_r.
Qed.

Lemma withAuthQ_Ok {R} roles (handler : AuthContext -> M R) who project db r db' :
  withAuthQ roles handler who project db = Ok (r, db') ->
  exists auth,
    resolveAuth who project db = Ok (auth, db) /\
    handler auth db = Ok (r, db').
Proof.
  unfold withAuthQ. intros (auth & db1 & Ha & H)%bind_Ok.
  pose proof (resolveAuth_Ok _ _ _ _ _ Ha) as [-> _].
  exists auth. split; [exact Ha|].
  destruct (negb _ && negb _); [discriminate|exact H].
Qed.

Lemma unique_alter {A} (p : A -> bool) (f : A -> A) (l : list A) i x :
  (forall y, p (f y) = p y) ->
  unique p l = Ok (Some (i, x)) ->
  unique p (alter f i l) = Ok (Some (i, f x)).
Proof.
  intros Hf (Hi & Hp & Huniq)%unique_Some. apply unique_intro.
  - by rewrite list_lookup_alter_eq, Hi.
  - by rewrite Hf.
  - intros k c Hk Hpc. destruct (decide (i = k)) as [->|Hne]; [done|].
    rewrite list_lookup_alter_ne in Hk by done. by destruct (Huniq _ _ Hk Hpc).
Qed.

(** What a successful render leaves behind. *)
Lemma renderDecision_rendered who a clk db k db' :
  renderDecision who a clk db = Ok (rendered k, db') ->
  exists auth i d eid,
    resolveAuth who (RenderDecision.projectId a) db = Ok (auth, db) /\
    unique (fun x => bool_decide (Decision.decisionId x = RenderDecision.decisionId a))
           (decisions db) = Ok (Some (i, d)) /\
    Decision.projectId d = projectId auth /\
    has_option (RenderDecision.optionKey a) (Decision.options d) = true /\
    k = RenderDecision.optionKey a /\
    db' = push_event
            (decision_event "clawops-decisions" eid (tenantId auth) (projectId auth)
               DecisionRendered clk d
               (rendered_payload (RenderDecision.optionKey a) (userId auth)
                                 (RenderDecision.note a)))
            (with_rng S
               (with_decisions
                  (alter (render_patch (RenderDecision.optionKey a) (userId auth) clk) i)
                  db)).
Proof.
  unfold renderDecision. intros (auth & Ha & _ & H)%withAuth_Ok.
  unfold renderDecision_handler in H. tx_inv H.
  apply lookup_decision_Ok in Hrun as [-> Hu].
  destruct a0 as [[i d]|]; [|discriminate].
  destruct (bool_decide (Decision.projectId d = projectId auth)) eqn:Hproj;
    simpl in H; [|discriminate].
  apply bool_decide_eq_true in Hproj.
  destruct (is_open (Decision.state d)); simpl in H.
  - destruct (claimed_by_another d (userId auth)).
    + tx_inv H. apply ret_Ok in H as [[=] _].
    + destruct (has_option _ _) eqn:Hopt; simpl in H; [|discriminate].
      tx_inv H. injection Hrun as _ <-. apply generateId_Ok in Hrun0 as ->.
      apply appendEvent_fresh in Hrun1 as [_ ->]; [|reflexivity].
      apply ret_Ok in H as [[= Hk] ->]. subst k.
      exists auth, i, d, a1. done.
  - tx_inv H. apply ret_Ok in H as [[=] _].
Qed.

(** X13. What the bot sees. After a render that succeeded, [awaitDecision]
    by a bot or owner of the project answers with status ["rendered"], the
    option that was chosen and the user who chose it; for the id of a
    decision of another project it answers [null], as it does for an id
    that does not exist; and it never changes the store. *)
Theorem await_sees_render whoB project decisionId db authB :
  resolveAuth whoB project db = Ok (authB, db) ->
  role authB = bot \/ role authB = owner ->
  (forall who a clk db0,
      RenderDecision.projectId a = project ->
      RenderDecision.decisionId a = decisionId ->
      renderDecision who a clk db0 = Ok (rendered (RenderDecision.optionKey a), db) ->
      exists auth,
        resolveAuth who project db0 = Ok (auth, db0) /\
        awaitDecision whoB project decisionId db
        = Ok (Some {| status := "rendered";
                      selectedOption := Some (RenderDecision.optionKey a);
                      renderedBy := Some (userId auth) |}, db)) /\
  (forall i d,
      unique (fun x => bool_decide (Decision.decisionId x = decisionId))
             (decisions db) = Ok (Some (i, d)) ->
      Decision.projectId d <> project ->
      awaitDecision whoB project decisionId db = Ok (None, db)) /\
  (unique (fun x => bool_decide (Decision.decisionId x = decisionId))
          (decisions db) = Ok None ->
   awaitDecision whoB project decisionId db = Ok (None, db)) /\
  (forall r db', awaitDecision whoB project decisionId db = Ok (r, db') -> db' = db).
Proof.
  intros HaB HrB.
  assert (HpB : projectId authB = project).
  { apply resolveAuth_Ok in HaB as (_ & _ & _ & _ & _ & _ & _ & _ & _ & Hp & _).
    exact Hp. }
  assert (Henter : forall found,
    unique (fun x => bool_decide (Decision.decisionId x = decisionId))
           (decisions db) = Ok found ->
    awaitDecision whoB project decisionId db
    = match found with
      | None => Ok (None, db)
      | Some (_, d) =>
          if negb (bool_decide (Decision.projectId d = projectId authB))
          then Ok (None, db)
          else Ok (Some {| status := toLowerCase (decision_state_name (Decision.state d));
                           selectedOption := Decision.renderedOption d;
                           renderedBy := Decision.renderedBy d |}, db)
      end).
  { intros found Hu. unfold awaitDecision.
    rewrite (withAuthQ_run _ _ _ _ _ _ HaB).
    2:{ destruct HrB as [->| ->]; [by right|by left]. }
    rewrite (bind_step _ _ _ _ _ (lookup_decision_run _ _ _ Hu)).
    destruct found as [[i d]|]; [|reflexivity].
    by destruct (negb _). }
  split; [|split; [|split]].
  - intros who a clk db0 Hproj Hid Hrun.
    apply renderDecision_rendered in Hrun
      as (auth & i & d & eid & Ha & Hu & Hpd & _ & _ & Hdb).
    rewrite Hproj in Ha. exists auth. split; [exact Ha|].
    pose proof (resolveAuth_Ok _ _ _ _ _ Ha)
      as (_ & _ & _ & _ & _ & _ & _ & _ & _ & Hp & _).
    rewrite Hid in Hu.
    assert (Hu' : unique (fun x => bool_decide (Decision.decisionId x = decisionId))
                         (decisions db)
                  = Ok (Some (i, render_patch (RenderDecision.optionKey a)
                                              (userId auth) clk d))).
    { rewrite Hdb. simpl. by apply unique_alter. }
    rewrite (Henter _ Hu'). simpl.
    rewrite bool_decide_eq_true_2 by congruence. reflexivity.
  - intros i d Hu Hne. rewrite (Henter _ Hu).
    rewrite bool_decide_eq_false_2 by congruence. reflexivity.
  - intros Hu. by rewrite (Henter _ Hu).
  - intros r db'. unfold awaitDecision.
    intros (auth & _ & H)%withAuthQ_Ok. tx_inv H.
    apply lookup_decision_Ok in Hrun as [-> _].
    destruct a as [[i d]|]; [destruct (negb _)|]; by apply ret_Ok in H as [_ ->].
Qed.

Lemma await_sees_render_witness :
  let db := commit (renderDecision (Scenario.user "user:oscar")
                                   (Scenario.render "dec_1" "approve") 20)
                   Scenario.pending in
  awaitDecision (Scenario.user "user:bot") "proj_test" "dec_1" db
  = Ok (Some {| status := "rendered"; selectedOption := Some "approve";
                renderedBy := Some "user:oscar" |}, db).
Proof.
  cbv zeta.
  destruct (proj1 (await_sees_render (Scenario.user "user:bot") "proj_test" "dec_1"
                     (commit (renderDecision (Scenario.user "user:oscar")
                                (Scenario.render "dec_1" "approve") 20)
                             Scenario.pending)
                     (Scenario.auth "user:bot" bot)
                     ltac:(vm_compute; reflexivity) ltac:(left; reflexivity))
              (Scenario.user "user:oscar") (Scenario.render "dec_1" "approve") 20
              Scenario.pending eq_refl eq_refl ltac:(vm_compute; reflexivity))
    as (auth & Ha & Hawait).
  assert (auth = Scenario.auth "user:oscar" operator) as ->.
  { vm_compute in Ha. by injection Ha as <-. }
  exact Hawait.
Defined.

(** * Sorted answers *)

Lemma sort_insert_perm {A} (cmp : A -> A -> Z) x l :
  sort_insert cmp x l ≡ₚ x :: l.
Proof.
  induction l as [|y l IH]; simpl; [done|].
  destruct (cmp x y <=? 0); [done|]. rewrite IH. apply Permutation_swap.
Qed.

Lemma sort_perm {A} (cmp : A -> A -> Z) l : sort cmp l ≡ₚ l.
Proof.
  induction l as [|x l IH]; simpl; [done|].
  unfold sort in *. simpl. by rewrite sort_insert_perm, IH.
Qed.

Section Sorted.
Context {A : Type} (cmp : A -> A -> Z) (le : relation A).
Hypothesis cmp_le : forall x y, cmp x y <= 0 <-> le x y.
Hypothesis le_total : forall x y, le x y \/ le y x.
Hypothesis le_trans : forall x y z, le x y -> le y z -> le x z.

Lemma sort_insert_sorted x l :
  StronglySorted le l -> StronglySorted le (sort_insert cmp x l).
Proof.
  induction l as [|y l IH]; simpl; intros Hs.
  - repeat constructor.
  - apply StronglySorted_cons in Hs as [Hy Hs].
    destruct (cmp x y <=? 0) eqn:Hc.
    + apply Z.leb_le, cmp_le in Hc. apply StronglySorted_cons. split.
      * constructor; [exact Hc|]. eapply Forall_impl; [exact Hy|].
        intros z Hz. by eapply le_trans.
      * by apply StronglySorted_cons.
    + apply Z.leb_gt in Hc. apply StronglySorted_cons. split; [|by apply IH].
      rewrite sort_insert_perm. constructor; [|exact Hy].
      destruct (le_total x y) as [Hxy|Hyx]; [|exact Hyx].
      apply cmp_le in Hxy. lia.
Qed.

Lemma sort_sorted l : StronglySorted le (sort cmp l).
Proof.
  induction l as [|x l IH]; [constructor|].
  unfold sort in *. simpl. by apply sort_insert_sorted.
Qed.

End Sorted.

Lemma StronglySorted_take {A} (R : relation A) n l :
  StronglySorted R l -> StronglySorted R (take n l).
Proof.
  revert n. induction l as [|x l IH]; intros [|n] Hs; simpl; try constructor.
  - apply StronglySorted_cons in Hs as [_ Hs]. by apply IH.
  - apply StronglySorted_cons in Hs as [Hx _]. by apply Forall_take.
Qed.

Lemma Forall_List_filter {A} (P : A -> Prop) (f : A -> bool) l :
  Forall P l -> Forall (fun x => P x /\ f x = true) (List.filter f l).
Proof.
  intros Hall. apply Forall_forall. intros x [Hx Hf]%elem_of_List_filter.
  split; [|exact Hf]. rewrite Forall_forall in Hall. by apply Hall.
Qed.

Lemma collect_rows {A} (p : A -> bool) (l : list A) :
  map snd (collect p l) = List.filter p l.
Proof.
  unfold collect. generalize 0%nat. induction l as [|x l IH]; intros n; simpl; [done|].
  destruct (p x); simpl; by rewrite IH.
Qed.

Lemma filter_split {A} (p q r : A -> bool) (l : list A) :
  (forall x, p x = true -> q x = false) ->
  (forall x, r x = p x || q x) ->
  List.filter p l ++ List.filter q l ≡ₚ List.filter r l.
Proof.
  intros Hdisj Hr. induction l as [|x l IH]; simpl; [done|].
  rewrite Hr. destruct (p x) eqn:Hp; simpl.
  - rewrite (Hdisj x Hp). by rewrite IH.
  - destruct (q x); simpl; [|exact IH].
    rewrite <- IH. symmetry. apply Permutation_middle.
Qed.

(** ** The decision queue *)

Lemma queue_cmp_le a b : queue_cmp a b <= 0 <-> queue_le a b.
Proof.
  unfold queue_cmp, queue_le.
  destruct (urgencyOrder (Decision.urgency a) =? urgencyOrder (Decision.urgency b))
    eqn:E; simpl.
  - apply Z.eqb_eq in E. lia.
  - apply Z.eqb_neq in E. lia.
Qed.

Lemma queue_le_total a b : queue_le a b \/ queue_le b a.
Proof. unfold queue_le. lia. Qed.

Lemma queue_le_trans a b c : queue_le a b -> queue_le b c -> queue_le a c.
Proof. unfold queue_le. lia. Qed.

Lemma any_role_passes r : includes r ALL_ROLES = true.
Proof. by destruct r. Qed.

Lemma index_range project st urgency (l : list Decision.t) :
  by_project_state_urgency project st urgency l
  ≡ₚ List.filter
       (fun d => bool_decide (Decision.projectId d = project)
                 && bool_decide (Decision.state d = st)
                 && match urgency with
                    | Some u => bool_decide (Decision.urgency d = u)
                    | None => true
                    end) l.
Proof.
  unfold by_project_state_urgency. destruct urgency as [u|].
  - by rewrite collect_rows.
  - rewrite !collect_rows.
    rewrite (filter_split (in_queue project st u_today) (in_queue project st u_whenever)
               (fun d => in_queue project st u_today d
                         || in_queue project st u_whenever d)); [| |done].
    2:{ intros x. unfold in_queue. repeat case_bool_decide; simpl; congruence. }
    apply filter_split.
    + intros x. unfold in_queue. repeat case_bool_decide; simpl; congruence.
    + intros x. unfold in_queue. destruct (Decision.urgency x);
        repeat case_bool_decide; simpl; congruence.
Qed.

(** X14. The decision queue. For any member of the project,
    [pendingDecisions] answers with exactly the [PENDING] and [CLAIMED]
    decisions of the project (of the urgency asked for, when one is), each
    once, ordered by urgency ("now" before "today" before "whenever") and,
    within one urgency, by [requestedAt] ascending; resolved decisions and
    those of other projects never appear, and the store is not changed. *)
Theorem pending_decisions_sorted who project urgency db auth :
  resolveAuth who project db = Ok (auth, db) ->
  exists all,
    pendingDecisions who project urgency db = Ok (all, db) /\
    all ≡ₚ List.filter (queued project urgency) (decisions db) /\
    StronglySorted queue_le all.
Proof.
  intros Ha. eexists. split; [|split].
  - unfold pendingDecisions. rewrite (withAuthQ_run _ _ _ _ _ _ Ha).
    2:{ right. apply any_role_passes. }
    reflexivity.
  - rewrite sort_perm, !index_range. apply filter_split.
    + intros x. repeat case_bool_decide; simpl; congruence.
    + intros x. unfold queued, is_open. destruct urgency;
        repeat case_bool_decide; simpl; congruence.
  - apply sort_sorted; [apply queue_cmp_le|apply queue_le_total|apply queue_le_trans].
Qed.

Lemma pending_decisions_sorted_witness :
  exists all,
    pendingDecisions (Scenario.user "user:vic") "proj_test" None Fixture.queue
      = Ok (all, Fixture.queue) /\
    map Decision.decisionId all = ["dec_6"; "dec_2"; "dec_3"; "dec_7"; "dec_1"].
Proof.
  destruct (pending_decisions_sorted (Scenario.user "user:vic") "proj_test" None
              Fixture.queue (Scenario.auth "user:vic" viewer)
              ltac:(vm_compute; reflexivity))
    as (all & Hrun & _ & _).
  exists all. split; [exact Hrun|].
  vm_compute in Hrun. injection Hrun as <-. reflexivity.
Defined.

(** ** Reading the log by time *)

(** X15. A page of the log. [listByTsRange] answers with at most [limit]
    events (100 when no limit is given), all of the project asked for and
    with a timestamp from [sinceTs] on (and up to [untilTs], when given),
    ordered by timestamp; with a cursor, an event at the boundary
    timestamp is only included if its id is greater than the cursor. Without
    a cursor, a range that holds no more than [limit] events is answered
    in full. The store is not changed. *)
Theorem list_by_ts_range_page a db :
  let limit := default 100%nat (ListByTsRange.limit a) in
  exists rows,
    listByTsRange a db = Ok (rows, db) /\
    (length rows <= limit)%nat /\
    Forall (fun e =>
              e ∈ events db /\
              Event.projectId e = ListByTsRange.projectId a /\
              ListByTsRange.sinceTs a <= Event.ts e /\
              (forall untilTs, ListByTsRange.untilTs a = Some untilTs ->
                               Event.ts e <= untilTs) /\
              (forall cursor, ListByTsRange.afterEventId a = Some cursor ->
                              ListByTsRange.sinceTs a < Event.ts e \/
                              String.ltb cursor (Event.eventId e) = true)) rows /\
    StronglySorted (fun x y => Event.ts x <= Event.ts y) rows /\
    (ListByTsRange.afterEventId a = None ->
     (length (List.filter (in_ts_range a) (events db)) <= limit)%nat ->
     rows ≡ₚ List.filter (in_ts_range a) (events db)).
Proof.
  intros limit.
  set (n := match ListByTsRange.afterEventId a with
            | Some _ => (limit + 1000)%nat
            | None => limit
            end).
  exists (take limit
            match ListByTsRange.afterEventId a with
            | Some afterEventId =>
                List.filter (past_cursor a afterEventId)
                            (take n (by_project_ts a (events db)))
            | None => take n (by_project_ts a (events db))
            end).
  split; [reflexivity|].
  assert (Hsorted : StronglySorted (fun x y => Event.ts x <= Event.ts y)
                      (by_project_ts a (events db))).
  { apply (sort_sorted (fun x y => Event.ts x - Event.ts y)); intros; lia. }
  assert (Hrange : Forall (fun e =>
              e ∈ events db /\
              Event.projectId e = ListByTsRange.projectId a /\
              ListByTsRange.sinceTs a <= Event.ts e /\
              (forall untilTs, ListByTsRange.untilTs a = Some untilTs ->
                               Event.ts e <= untilTs))
            (by_project_ts a (events db))).
  { unfold by_project_ts. rewrite sort_perm.
    apply Forall_forall. intros e [He Hin]%elem_of_List_filter.
    unfold in_ts_range in Hin.
    apply andb_true_iff in Hin as [[Hp%bool_decide_eq_true Hs%Z.leb_le]%andb_true_iff Hu].
    split; [exact He|]. split; [exact Hp|]. split; [exact Hs|].
    intros u Hun. rewrite Hun in Hu. by apply Z.leb_le. }
  split; [apply firstn_le_length|]. split; [|split].
  - apply Forall_take. destruct (ListByTsRange.afterEventId a) as [cursor|] eqn:Hc.
    + apply (Forall_take _ n) in Hrange.
      apply (Forall_List_filter _ (past_cursor a cursor)) in Hrange.
      eapply Forall_impl; [exact Hrange|].
      intros e [(He & Hp & Hs & Hu) Hpast]. repeat (split; [assumption|]).
      intros c [= <-]. unfold past_cursor in Hpast.
      destruct (ListByTsRange.sinceTs a <? Event.ts e) eqn:Hlt.
      * left. by apply Z.ltb_lt.
      * by right.
    + apply (Forall_take _ n) in Hrange.
      eapply Forall_impl; [exact Hrange|].
      intros e (He & Hp & Hs & Hu). repeat (split; [assumption|]). intros c Hc'.
      discriminate.
  - apply StronglySorted_take.
    destruct (ListByTsRange.afterEventId a);
      [apply List_filter_sorted|]; by apply StronglySorted_take.
  - intros Hnone Hlen.
    assert (Hall : (length (by_project_ts a (events db)) <= limit)%nat).
    { unfold by_project_ts. by rewrite sort_perm. }
    subst n. rewrite Hnone.
    rewrite (take_ge (by_project_ts a (events db)) limit Hall).
    rewrite (take_ge (by_project_ts a (events db)) limit Hall).
    apply sort_perm.
Qed.

Example history_pages :
  (map Event.eventId <$> (fst <$> match listByTsRange (Fixture.page None None)
                                                      Fixture.history with
                                  | Ok r => Some r | Throw _ => None end))
  = Some ["evt_a"; "evt_b"; "evt_c"] /\
  (map Event.eventId <$> (fst <$> match listByTsRange (Fixture.page (Some "evt_a") (Some 1%nat))
                                                      Fixture.history with
                                  | Ok r => Some r | Throw _ => None end))
  = Some ["evt_b"].
Proof. vm_compute. split; reflexivity. Qed.

(** * The life of a decision *)

Lemma keeps_ret {A} (x : A) : keeps_decisions (ret x).
Proof. by intros db a db' [_ ->]%ret_Ok. Qed.

Lemma keeps_throw {A} e : keeps_decisions (@throw A e).
Proof. intros db a db' H. discriminate. Qed.

Lemma keeps_get : keeps_decisions get.
Proof. by intros db a db' [_ ->]%get_Ok. Qed.

Lemma keeps_lift {A} (r : Res A) : keeps_decisions (lift r).
Proof. by intros db a db' [_ ->]%lift_Ok. Qed.

Lemma keeps_bind {A B} (m : M A) (f : A -> M B) :
  keeps_decisions m -> (forall a, keeps_decisions (f a)) -> keeps_decisions (bind m f).
Proof.
  intros Hm Hf db b db' (a & db1 & H1 & H2)%bind_Ok.
  rewrite (Hf _ _ _ _ H2). by eapply Hm.
Qed.

Lemma keeps_modify (f : Store -> Store) :
  (forall db, decisions (f db) = decisions db) -> keeps_decisions (modify f).
Proof. intros Hf db a db' [= _ <-]. apply Hf. Qed.

Lemma keeps_generateId prefix clk : keeps_decisions (generateId prefix clk).
Proof. by intros db a db' ->%generateId_Ok. Qed.

Lemma keeps_insert_card c : keeps_decisions (insert_card c).
Proof. by intros db a db' [= _ <-]. Qed.

Lemma keeps_insert_command c : keeps_decisions (insert_command c).
Proof. by intros db a db' [= _ <-]. Qed.

Lemma keeps_appendEvent e : keeps_decisions (appendEvent e).
Proof. by intros db id db' [_ [->|[-> _]]]%appendEvent_Ok. Qed.

Lemma keeps_for_each {X} (xs : list X) (body : X -> M unit) :
  (forall x, keeps_decisions (body x)) -> keeps_decisions (for_each xs body).
Proof.
  intros Hbody. induction xs as [|x xs IH]; simpl.
  - apply keeps_ret.
  - apply keeps_bind; [apply Hbody|intros _; exact IH].
Qed.

Lemma keeps_withAuth {R} roles (handler : AuthContext -> M R) who project :
  (forall auth, keeps_decisions (handler auth)) ->
  keeps_decisions (withAuth roles handler who project).
Proof.
  intros Hh db r db' (auth & _ & _ & H)%withAuth_Ok. by eapply Hh.
Qed.

(** Walk through a handler that does not write to the decisions. *)
Ltac keeps_walk :=
  repeat first
    [ progress cbv zeta
    | apply keeps_ret | apply keeps_throw | apply keeps_get
    | apply keeps_lift | apply keeps_generateId
    | apply keeps_appendEvent | apply keeps_insert_card
    | apply keeps_insert_command
    | apply keeps_modify; intros ?; reflexivity
    | apply keeps_for_each; intros ?
    | apply keeps_withAuth; intros ?
    | apply keeps_bind; [|intros ?]
    | match goal with
      | |- keeps_decisions (if ?c then _ else _) => destruct c
      | |- keeps_decisions (match ?x with _ => _ end) => destruct x
      end ].

Lemma transitionCard_keeps a clk : keeps_decisions (transitionCard a clk).
Proof. unfold transitionCard, lookup_card, patch_card. keeps_walk. Qed.

Lemma resume_card_keeps d to reason clk : keeps_decisions (resume_card d to reason clk).
Proof. unfold resume_card, lookup_card. keeps_walk. Qed.

Lemma releaseRetries_keeps now clk : keeps_decisions (releaseRetries now clk).
Proof. unfold releaseRetries, release_one. keeps_walk. Qed.

Lemma moves_one l l' : moved l l' -> moves l l'.
Proof. apply rtc_once. Qed.

Lemma moves_trans l1 l2 l3 : moves l1 l2 -> moves l2 l3 -> moves l1 l3.
Proof. apply rtc_trans. Qed.

Lemma moves_same l l' : l' = l -> moves l l'.
Proof. intros ->. apply rtc_refl. Qed.

Lemma moves_alter (f : Decision.t -> Decision.t) i d l :
  l !! i = Some d -> is_open (Decision.state d) = true -> patched d (f d) ->
  moves l (alter f i l).
Proof.
  intros Hrow Hopen Hp. rewrite (alter_insert f i d l Hrow).
  apply moves_one. by eapply moved_patch.
Qed.

Lemma keeps_moves {A} (m : M A) db a db' :
  keeps_decisions m -> m db = Ok (a, db') -> moves (decisions db) (decisions db').
Proof. intros Hm H. apply moves_same. by eapply Hm. Qed.

(** ** The interactive mutations *)

Lemma clean_field fields k s :
  containsSecret (JObj fields) = false ->
  In (k, JStr s) fields -> secret_string s = false.
Proof.
  induction fields as [|[k' x] fields IH]; intros Hclean Hin; [destruct Hin|].
  change (containsSecret (JObj ((k', x) :: fields)))
    with (containsSecret x || containsSecret (JObj fields)) in Hclean.
  apply orb_false_elim in Hclean as [Hx Hrest].
  destruct Hin as [[= -> ->]|Hin]; [exact Hx|by apply IH].
Qed.

Lemma fallback_checked (opts : list DecisionOption) (fallback : option string)
    db db0 :
  match fallback with
  | Some f => if negb (has_option f opts) then throw (InvalidFallback f) else ret tt
  | None => ret tt
  end db = Ok (tt, db0) ->
  db0 = db /\ forall f, fallback = Some f -> has_option f opts = true.
Proof.
  intros H. destruct fallback as [f|].
  - destruct (has_option f opts) eqn:Hf; simpl in H; [|discriminate].
    apply ret_Ok in H as [_ ->]. split; [done|]. by intros ? [= <-].
  - apply ret_Ok in H as [_ ->]. done.
Qed.

Lemma requestDecision_moves who a clk db r db' :
  requestDecision who a clk db = Ok (r, db') ->
  moves (decisions db) (decisions db').
Proof.
  intros (auth & _ & _ & H)%withAuth_Ok. unfold requestDecision_handler in H.
  case_bool_decide as Hopts; [discriminate|].
  tx_inv H. destruct a0.
  apply fallback_checked in Hrun as [-> Hfb].
  apply generateId_Ok in Hrun0 as ->. injection Hrun1 as _ <-.
  apply generateId_Ok in Hrun2 as ->.
  apply appendEvent_fresh in Hrun3 as [Hclean ->]; [|reflexivity].
  apply ret_Ok in H as [_ ->]. simpl.
  apply moves_one, moved_insert. repeat split; try done.
  simpl. intros f Hf. cbn [Event.payload] in Hclean. rewrite Hf in Hclean.
  eapply clean_field; [exact Hclean|]. do 4 right. left. reflexivity.
Qed.

Lemma httpRequestDecision_moves a clk db r db' :
  _httpRequestDecision a clk db = Ok (r, db') ->
  moves (decisions db) (decisions db').
Proof.
  unfold _httpRequestDecision. intros H.
  case_bool_decide as Hopts; [discriminate|].
  tx_inv H. destruct a0.
  apply fallback_checked in Hrun as [-> Hfb].
  apply generateId_Ok in Hrun0 as ->. injection Hrun1 as _ <-.
  apply generateId_Ok in Hrun2 as ->.
  apply appendEvent_fresh in Hrun3 as [Hclean ->]; [|reflexivity].
  apply ret_Ok in H as [_ ->]. simpl.
  apply moves_one, moved_insert. repeat split; try done.
  simpl. intros f Hf. cbn [Event.payload] in Hclean. rewrite Hf in Hclean.
  eapply clean_field; [exact Hclean|]. do 4 right. left. reflexivity.
Qed.

Lemma claimDecision_moves who project decisionId clk db r db' :
  claimDecision who project decisionId clk db = Ok (r, db') ->
  moves (decisions db) (decisions db').
Proof.
  intros (auth & _ & _ & H)%withAuth_Ok. unfold claimDecision_handler in H.
  tx_inv H. apply lookup_decision_Ok in Hrun as [-> Hu].
  destruct a as [[i d]|]; [|discriminate].
  apply unique_decision_facts in Hu as [Hrow _].
  destruct (negb (bool_decide _)); [discriminate|].
  destruct (is_open (Decision.state d)) eqn:Hopen; simpl in H; [|discriminate].
  destruct (held_by_other d (userId auth) clk) as [[by_ until]|].
  - apply ret_Ok in H as [_ ->]. apply rtc_refl.
  - tx_inv H. injection Hrun as _ <-. apply generateId_Ok in Hrun0 as ->.
    apply appendEvent_fresh in Hrun1 as [Hclean ->]; [|reflexivity].
    apply ret_Ok in H as [_ ->]. simpl.
    apply moves_alter with d; [exact Hrow|exact Hopen|constructor].
    eapply clean_field; [exact Hclean|]. left. reflexivity.
Qed.

Lemma renewDecisionClaim_moves who project decisionId clk db r db' :
  renewDecisionClaim who project decisionId clk db = Ok (r, db') ->
  moves (decisions db) (decisions db').
Proof.
  intros (auth & _ & _ & H)%withAuth_Ok. unfold renewDecisionClaim_handler in H.
  tx_inv H. apply lookup_decision_Ok in Hrun as [-> Hu].
  destruct a as [[i d]|]; [|discriminate].
  apply unique_decision_facts in Hu as [Hrow _].
  destruct (negb (bool_decide _)); [discriminate|].
  case_bool_decide as Hst; simpl in H; [|discriminate].
  destruct (negb (bool_decide _)); [discriminate|].
  tx_inv H. injection Hrun as _ <-. apply ret_Ok in H as [_ ->]. simpl.
  apply moves_alter with d; [exact Hrow|by rewrite Hst|by constructor].
Qed.

Lemma renderDecision_moves who a clk db r db' :
  renderDecision who a clk db = Ok (r, db') ->
  moves (decisions db) (decisions db').
Proof.
  intros (auth & _ & _ & H)%withAuth_Ok. unfold renderDecision_handler in H.
  tx_inv H. apply lookup_decision_Ok in Hrun as [-> Hu].
  destruct a0 as [[i d]|]; [|discriminate].
  apply unique_decision_facts in Hu as [Hrow _].
  destruct (negb (bool_decide _)); [discriminate|].
  destruct (is_open (Decision.state d)) eqn:Hopen; simpl in H.
  - destruct (claimed_by_another d (userId auth)).
    + tx_inv H. apply generateId_Ok in Hrun as ->.
      apply appendEvent_fresh in Hrun0 as [_ ->]; [|reflexivity].
      apply ret_Ok in H as [_ ->]. apply rtc_refl.
    + destruct (has_option _ _) eqn:Hopt; simpl in H; [|discriminate].
      tx_inv H. injection Hrun as _ <-. apply generateId_Ok in Hrun0 as ->.
      apply appendEvent_fresh in Hrun1 as [_ ->]; [|reflexivity].
      apply ret_Ok in H as [_ ->]. simpl.
      apply moves_alter with d; [exact Hrow|exact Hopen|by constructor].
  - tx_inv H. apply generateId_Ok in Hrun as ->.
    apply appendEvent_fresh in Hrun0 as [_ ->]; [|reflexivity].
    apply ret_Ok in H as [_ ->]. apply rtc_refl.
Qed.

(** ** The sweeper *)

Lemma snapshot_moves (P : Decision.t -> Prop) (body : nat * Decision.t -> M unit) :
  (forall i d db db',
      decisions db !! i = Some d -> P d -> body (i, d) db = Ok (tt, db') ->
      moves (decisions db) (decisions db') /\
      exists F, decisions db' = alter F i (decisions db)) ->
  forall xs db db',
    NoDup xs.*1 ->
    (forall i d, (i, d) ∈ xs -> decisions db !! i = Some d /\ P d) ->
    for_each xs body db = Ok (tt, db') ->
    moves (decisions db) (decisions db').
Proof.
  intros Hbody xs. induction xs as [|[i d] xs IH]; intros db db' Hnd Hfresh Hrun.
  - apply ret_Ok in Hrun as [_ ->]. apply rtc_refl.
  - rewrite for_each_cons in Hrun. apply bind_Ok in Hrun as ([] & db1 & Hx & Hrest).
    simpl in Hnd. apply NoDup_cons in Hnd as [Hi Hnd].
    destruct (Hfresh i d) as [Hrow HP]; [apply list_elem_of_here|].
    destruct (Hbody _ _ _ _ Hrow HP Hx) as [Hmoves [F HF]].
    eapply moves_trans; [exact Hmoves|].
    apply IH; [exact Hnd| |exact Hrest].
    intros j dj Hj. destruct (Hfresh j dj) as [Hrowj HPj]; [by apply list_elem_of_further|].
    split; [|exact HPj]. rewrite HF, list_lookup_alter_ne; [exact Hrowj|].
    intros ->. apply Hi. apply list_elem_of_fmap. exists (j, dj). done.
Qed.

Lemma expire_one_moves now clk i d db db' :
  decisions db !! i = Some d ->
  is_open (Decision.state d) = true ->
  expire_one now clk (i, d) db = Ok (tt, db') ->
  moves (decisions db) (decisions db') /\
  exists F, decisions db' = alter F i (decisions db).
Proof.
  intros Hrow Hopen (eid1 & eid2 & H)%expire_one_Ok.
  apply resume_card_keeps in H. rewrite H. unfold expired_store.
  destruct (Decision.fallbackOption d) as [f|] eqn:Hf; simpl.
  - split; [|eexists; reflexivity].
    apply moves_alter with d; [exact Hrow|exact Hopen|by constructor].
  - split; [|eexists; reflexivity].
    apply moves_alter with d; [exact Hrow|exact Hopen|by constructor].
Qed.

Lemma reclaim_one_moves now clk i d db db' :
  decisions db !! i = Some d ->
  Decision.state d = CLAIMED ->
  reclaim_one now clk (i, d) db = Ok (tt, db') ->
  moves (decisions db) (decisions db') /\
  exists F, decisions db' = alter F i (decisions db).
Proof.
  intros Hrow Hst [eid ->]%reclaim_one_Ok. simpl.
  split; [|eexists; reflexivity].
  apply moves_alter with d; [exact Hrow|by rewrite Hst|by constructor].
Qed.

Lemma shed_one_moves now clk count i d db db' :
  decisions db !! i = Some d ->
  Decision.state d = PENDING ->
  shed_one now clk count (i, d) db = Ok (tt, db') ->
  moves (decisions db) (decisions db') /\
  exists F, decisions db' = alter F i (decisions db).
Proof.
  intros Hrow Hst (eid1 & eid2 & H)%shed_one_Ok.
  unfold shed_store in H. destruct (Decision.fallbackOption d) as [f|] eqn:Hf.
  - apply resume_card_keeps in H. rewrite H. simpl.
    split; [|eexists; reflexivity].
    apply moves_alter with d; [exact Hrow|by rewrite Hst|by constructor].
  - subst db'. simpl. split; [|eexists; reflexivity].
    apply moves_alter with d; [exact Hrow|by rewrite Hst|by constructor].
Qed.

Lemma expireDecisions_moves now clk db db' :
  expireDecisions now clk db = Ok (tt, db') ->
  moves (decisions db) (decisions db').
Proof.
  unfold expireDecisions. intros H. tx_inv H. apply get_Ok in Hrun as [-> ->].
  eapply (snapshot_moves (fun d => is_open (Decision.state d) = true));
    [| | |exact H].
  - intros i d db1 db2. apply expire_one_moves.
  - apply NoDup_fst_List_filter, NoDup_collect.
  - intros i d [Hin _]%elem_of_List_filter.
    apply elem_of_collect in Hin. exact Hin.
Qed.

Lemma reclaimExpiredClaims_moves now clk db db' :
  reclaimExpiredClaims now clk db = Ok (tt, db') ->
  moves (decisions db) (decisions db').
Proof.
  unfold reclaimExpiredClaims. intros H. tx_inv H. apply get_Ok in Hrun as [-> ->].
  eapply (snapshot_moves (fun d => Decision.state d = CLAIMED));
    [| | |exact H].
  - intros i d db1 db2. apply reclaim_one_moves.
  - apply NoDup_fst_List_filter, NoDup_collect.
  - intros i d [Hin _]%elem_of_List_filter.
    apply elem_of_collect in Hin as [Hrow Hst]. split; [exact Hrow|].
    by apply bool_decide_eq_true in Hst.
Qed.

Lemma shed_project_moves now clk entry db db' :
  shed_project now clk entry db = Ok (tt, db') ->
  moves (decisions db) (decisions db').
Proof.
  destruct entry as [project count]. unfold shed_project. intros H. tx_inv H.
  assert (H0 : decisions db0 = decisions db).
  { destruct (NOW_BACKLOG_ALERT_THRESHOLD <? count).
    - by injection Hrun as _ <-.
    - by apply ret_Ok in Hrun as [_ ->]. }
  rewrite <- H0. clear H0 Hrun.
  destruct (NOW_BACKLOG_DEFER_THRESHOLD <? count);
    [|apply ret_Ok in H as [_ ->]; apply rtc_refl].
  tx_inv H. apply get_Ok in Hrun as [-> ->].
  eapply (snapshot_moves (fun d => Decision.state d = PENDING));
    [| | |exact H].
  - intros i d db1 db2. apply shed_one_moves.
  - apply NoDup_collect.
  - intros i d [Hrow Hp]%elem_of_collect. split; [exact Hrow|].
    unfold is_whenever_pending in Hp.
    apply andb_true_iff in Hp as [[_ Hst]%andb_true_iff _].
    by apply bool_decide_eq_true in Hst.
Qed.

Lemma for_each_moves {X} (xs : list X) (body : X -> M unit) :
  (forall x db db', body x db = Ok (tt, db') ->
                    moves (decisions db) (decisions db')) ->
  forall db db', for_each xs body db = Ok (tt, db') ->
                 moves (decisions db) (decisions db').
Proof.
  intros Hbody. induction xs as [|x xs IH]; intros db db' H.
  - apply ret_Ok in H as [_ ->]. apply rtc_refl.
  - rewrite for_each_cons in H. apply bind_Ok in H as ([] & db1 & Hx & Hrest).
    eapply moves_trans; [by eapply Hbody|by apply IH].
Qed.

Lemma loadShed_moves now clk db db' :
  loadShed now clk db = Ok (tt, db') ->
  moves (decisions db) (decisions db').
Proof.
  unfold loadShed. intros H. tx_inv H. apply get_Ok in Hrun as [-> ->].
  eapply for_each_moves; [|exact H].
  intros x db1 db2. apply shed_project_moves.
Qed.

Lemma sweep_moves now clk db db' :
  sweep now clk db = Ok (tt, db') -> moves (decisions db) (decisions db').
Proof.
  unfold sweep. intros H. tx_inv H. destruct a, a0, a1.
  apply releaseRetries_keeps in Hrun. rewrite <- Hrun.
  eapply moves_trans; [by eapply expireDecisions_moves|].
  eapply moves_trans; [by eapply reclaimExpiredClaims_moves|].
  by eapply loadShed_moves.
Qed.

(** ** Any sequence of requests *)

Lemma commit_moves {A} (m : M A) db :
  (forall r db', m db = Ok (r, db') -> moves (decisions db) (decisions db')) ->
  moves (decisions db) (decisions (commit m db)).
Proof.
  intros H. unfold commit. destruct (m db) as [[r db']|e] eqn:Hm.
  - by eapply H.
  - apply rtc_refl.
Qed.

Lemma serve_moves r db : moves (decisions db) (decisions (serve r db)).
Proof.
  destruct r as [op|who a|a clk|a clk]; simpl; [destruct op; simpl|..];
    apply commit_moves; intros r db' H.
  - eapply keeps_moves; [|exact H]. unfold createCard. keeps_walk.
  - eapply keeps_moves; [|exact H]. apply transitionCard_keeps.
  - eapply keeps_moves; [|exact H].
    unfold requestCommand, requestCommand_handler. keeps_walk.
  - by eapply requestDecision_moves.
  - by eapply claimDecision_moves.
  - by eapply renewDecisionClaim_moves.
  - by eapply renderDecision_moves.
  - destruct r. by eapply sweep_moves.
  - eapply keeps_moves; [|exact H]. unfold emitEvent. keeps_walk.
  - eapply keeps_moves; [|exact H]. unfold _httpRequestCommand. keeps_walk.
  - by eapply httpRequestDecision_moves.
Qed.

Lemma serve_all_moves rs db : moves (decisions db) (decisions (serve_all rs db)).
Proof.
  revert db. induction rs as [|r rs IH]; intros db; simpl.
  - apply rtc_refl.
  - eapply moves_trans; [apply serve_moves|apply IH].
Qed.

(** ** What the moves keep *)

Lemma patched_terms d d' : patched d d' -> same_terms d d'.
Proof. intros []; repeat split. Qed.

Lemma same_terms_trans d1 d2 d3 :
  same_terms d1 d2 -> same_terms d2 d3 -> same_terms d1 d3.
Proof. unfold same_terms. intros H1 H2. intuition congruence. Qed.

Lemma moved_row l l' i d :
  moved l l' -> l !! i = Some d ->
  exists d', l' !! i = Some d' /\
             (d' = d \/ (is_open (Decision.state d) = true /\ patched d d')).
Proof.
  intros [dn Hreq|j dj dj' Hj Hopen Hp] Hi.
  - exists d. split; [by apply lookup_app_l_Some|by left].
  - destruct (decide (j = i)) as [->|Hne].
    + rewrite Hj in Hi. injection Hi as ->. exists dj'. split; [|by right].
      apply list_lookup_insert_eq. by eapply lookup_lt_Some.
    + exists d. split; [|by left]. by rewrite list_lookup_insert_ne.
Qed.

Lemma moves_final l l' :
  moves l l' ->
  forall i d, l !! i = Some d -> is_open (Decision.state d) = false ->
              l' !! i = Some d.
Proof.
  induction 1 as [l|l1 l2 l3 H12 _ IH]; intros i d Hi Hclosed; [exact Hi|].
  apply IH; [|exact Hclosed].
  destruct (moved_row _ _ _ _ H12 Hi) as (d' & Hd' & [->|[Hopen _]]); [exact Hd'|].
  congruence.
Qed.

Lemma moves_terms l l' :
  moves l l' ->
  forall i d, l !! i = Some d ->
              exists d', l' !! i = Some d' /\ same_terms d d'.
Proof.
  induction 1 as [l|l1 l2 l3 H12 _ IH]; intros i d Hi.
  - exists d. split; [exact Hi|]. repeat split.
  - destruct (moved_row _ _ _ _ H12 Hi) as (d2 & Hd2 & Hcase).
    destruct (IH _ _ Hd2) as (d3 & Hd3 & Hterms). exists d3. split; [exact Hd3|].
    destruct Hcase as [->|[_ Hp]]; [exact Hterms|].
    eapply same_terms_trans; [by apply patched_terms|exact Hterms].
Qed.

Lemma patched_state d d' :
  patched d d' -> Decision.state d' = EXPIRED ->
  Decision.state d = EXPIRED \/ Decision.fallbackOption d = None.
Proof.
  intros [] Hst; simpl in Hst; try discriminate; try (left; congruence).
  by right.
Qed.

Lemma moves_expired l l' :
  moves l l' ->
  forall i d d', l !! i = Some d -> l' !! i = Some d' ->
                 Decision.state d' = EXPIRED ->
                 Decision.state d = EXPIRED \/ Decision.fallbackOption d = None.
Proof.
  induction 1 as [l|l1 l2 l3 H12 _ IH]; intros i d d' Hi Hi' Hst.
  - left. congruence.
  - destruct (moved_row _ _ _ _ H12 Hi) as (d2 & Hd2 & Hcase).
    destruct (IH _ _ _ Hd2 Hi' Hst) as [Hexp|Hnone].
    + destruct Hcase as [->|[_ Hp]]; [by left|]. exact (patched_state d d2 Hp Hexp).
    + right. destruct Hcase as [->|[_ Hp]]; [done|].
      apply patched_terms in Hp. unfold same_terms in Hp. intuition congruence.
Qed.

Lemma requested_consistent d : requested d -> consistent d.
Proof.
  intros (Hst & Hby & Huntil & Hopt & Hat & Hrb & _ & Hfb & _).
  split.
  - rewrite Hst, Hby. split; [discriminate|intros [? [=]]].
  - rewrite Hst, Huntil. split; [discriminate|intros [? [=]]].
  - rewrite Hst, Hopt. split; [discriminate|intros [? [=]]].
  - rewrite Hst, Hrb. split; [discriminate|intros [? [=]]].
  - rewrite Hst, Hat. split; [discriminate|intros [? [=]]].
  - exact Hfb.
  - intros k. rewrite Hopt. discriminate.
Qed.

Lemma open_not_rendered d :
  consistent d -> is_open (Decision.state d) = true ->
  Decision.renderedOption d = None /\ Decision.renderedBy d = None /\
  Decision.renderedAt d = None.
Proof.
  intros Hc Hopen.
  assert (Hne : Decision.state d <> RENDERED).
  { intros Hst. rewrite Hst in Hopen. discriminate. }
  repeat split.
  - destruct (Decision.renderedOption d) eqn:E; [|done].
    destruct Hne. apply (render_choice d Hc). rewrite E. by eexists.
  - destruct (Decision.renderedBy d) eqn:E; [|done].
    destruct Hne. apply (render_author d Hc). rewrite E. by eexists.
  - destruct (Decision.renderedAt d) eqn:E; [|done].
    destruct Hne. apply (render_time d Hc). rewrite E. by eexists.
Qed.

Lemma pending_not_claimed d :
  consistent d -> Decision.state d = PENDING ->
  Decision.claimedBy d = None /\ Decision.claimedUntil d = None.
Proof.
  intros Hc Hst. split.
  - destruct (Decision.claimedBy d) eqn:E; [|done].
    assert (Decision.state d = CLAIMED); [|congruence].
    apply (claim_holder d Hc). rewrite E. by eexists.
  - destruct (Decision.claimedUntil d) eqn:E; [|done].
    assert (Decision.state d = CLAIMED); [|congruence].
    apply (claim_deadline d Hc). rewrite E. by eexists.
Qed.

Lemma patched_consistent d d' :
  consistent d -> is_open (Decision.state d) = true -> patched d d' ->
  consistent d'.
Proof.
  intros Hc Hopen Hp.
  destruct (open_not_rendered d Hc Hopen) as (Hopt & Hrb & Hat).
  pose proof (fallback_offered d Hc) as Hfb.
  destruct Hp as [caller until Hcaller|until Hst|Hst|k caller now Hk|f now Hf|Hf
                 |f now Hst Hf|e Hst Hf].
  all: try (destruct (pending_not_claimed d Hc Hst) as [Hby Huntil]).
  all: split; simpl.
  all: try exact Hfb.
  all: try exact (claim_holder d Hc).
  all: try exact (claim_deadline d Hc).
  all: try exact (render_choice d Hc).
  all: try exact (render_author d Hc).
  all: try exact (render_time d Hc).
  all: try exact (choice_offered d Hc).
  all: rewrite ?Hopt, ?Hrb, ?Hat, ?Hby, ?Huntil, ?Hst.
  all: try (split; [discriminate|intros [? [=]]]).
  all: try (split; [by eexists|done]).
  all: try (intros ? [= <-]; first [exact Hk|by apply Hfb]).
  all: intros ? Hnone; discriminate Hnone.
Qed.

Lemma moved_consistent l l' :
  moved l l' -> Forall consistent l -> Forall consistent l'.
Proof.
  intros [dn Hreq|j dj dj' Hj Hopen Hp] Hl.
  - apply Forall_app. split; [exact Hl|].
    constructor; [by apply requested_consistent|constructor].
  - apply Forall_insert; [exact Hl|].
    eapply patched_consistent; [|exact Hopen|exact Hp].
    by eapply Forall_lookup_1.
Qed.

Lemma moves_consistent l l' :
  moves l l' -> Forall consistent l -> Forall consistent l'.
Proof.
  induction 1 as [l|l1 l2 l3 H12 _ IH]; intros Hl; [exact Hl|].
  by eapply IH, moved_consistent.
Qed.

(** X16. A resolved decision is final. Once a decision is [RENDERED] or
    [EXPIRED], no sequence of requests (claims, renewals, renders by
    anyone, sweeps, new requests over either entry point, emitted events)
    changes any field of its row. *)
Theorem resolved_decisions_are_final rs db i d :
  decisions db !! i = Some d ->
  Decision.state d = RENDERED \/ Decision.state d = EXPIRED ->
  decisions (serve_all rs db) !! i = Some d.
Proof.
  intros Hi Hst. eapply moves_final; [apply serve_all_moves|exact Hi|].
  by destruct Hst as [-> | ->].
Qed.

Lemma resolved_decisions_are_final_witness :
  decisions (serve_all Fixture.life Fixture.queue) !! 3%nat
  = Some (Fixture.dated "dec_4" "proj_test" RENDERED u_now 5).
Proof.
  apply (resolved_decisions_are_final Fixture.life Fixture.queue 3
           (Fixture.dated "dec_4" "proj_test" RENDERED u_now 5)).
  - reflexivity.
  - left. reflexivity.
Defined.

(** X17. The terms of a decision are immutable. Whatever requests are
    served, a decision row is never deleted and keeps its id, tenant,
    project, card, command, run, urgency, title, context summary, options,
    artifact references, source thread, request time and fallback
    option. *)
Theorem decision_terms_are_immutable rs db i d :
  decisions db !! i = Some d ->
  exists d',
    decisions (serve_all rs db) !! i = Some d' /\
    Decision.decisionId d' = Decision.decisionId d /\
    Decision.tenantId d' = Decision.tenantId d /\
    Decision.projectId d' = Decision.projectId d /\
    Decision.cardId d' = Decision.cardId d /\
    Decision.commandId d' = Decision.commandId d /\
    Decision.runId d' = Decision.runId d /\
    Decision.urgency d' = Decision.urgency d /\
    Decision.title d' = Decision.title d /\
    Decision.contextSummary d' = Decision.contextSummary d /\
    Decision.options d' = Decision.options d /\
    Decision.artifactRefs d' = Decision.artifactRefs d /\
    Decision.sourceThread d' = Decision.sourceThread d /\
    Decision.requestedAt d' = Decision.requestedAt d /\
    Decision.fallbackOption d' = Decision.fallbackOption d.
Proof.
  intros Hi.
  destruct (moves_terms _ _ (serve_all_moves rs db) i d Hi) as (d' & Hd' & Hterms).
  exists d'. split; [exact Hd'|exact Hterms].
Qed.

Lemma decision_terms_are_immutable_witness :
  exists d',
    decisions (serve_all Fixture.life Scenario.overdue) !! 0%nat = Some d' /\
    Decision.decisionId d' = "dec_1" /\
    Decision.options d' = Scenario.options /\
    Decision.fallbackOption d' = Some "reject".
Proof.
  destruct (decision_terms_are_immutable Fixture.life Scenario.overdue 0
              (Scenario.decision "dec_1" "proj_test" "card_1" PENDING u_today
                                 (Some 50) (Some "reject") None None)
              eq_refl)
    as (d' & Hd' & Hid & _ & _ & _ & _ & _ & _ & _ & _ & Hopts & _ & _ & _ & Hfb).
  exists d'. split; [exact Hd'|]. split; [exact Hid|]. split; [exact Hopts|exact Hfb].
Defined.

(** X18. The rows of the decisions table stay consistent. If in every
    row a claim (holder and deadline) is recorded exactly when the row is
    [CLAIMED], a choice (option, author and time) exactly when it is
    [RENDERED], and fallback and choice are keys of the row's options,
    then the same holds after any sequence of requests; in particular a
    decision is only ever resolved with one of its own options. *)
Theorem decision_rows_stay_consistent rs db :
  Forall consistent (decisions db) ->
  Forall consistent (decisions (serve_all rs db)).
Proof. apply moves_consistent, serve_all_moves. Qed.

Lemma decision_rows_stay_consistent_witness :
  Forall consistent (decisions (serve_all Fixture.life (Scenario.store [] []))).
Proof.
  apply (decision_rows_stay_consistent Fixture.life (Scenario.store [] [])).
  simpl. constructor.
Defined.

(** X19. A decision with a fallback never expires unanswered. Whatever
    requests are served, a row becomes [EXPIRED] only if it has no fallback
    option: a decision that has one and is not [EXPIRED] to begin with is
    never [EXPIRED] later. *)
Theorem fallback_decisions_never_expire rs db i d d' :
  decisions db !! i = Some d ->
  is_Some (Decision.fallbackOption d) ->
  Decision.state d <> EXPIRED ->
  decisions (serve_all rs db) !! i = Some d' ->
  Decision.state d' <> EXPIRED.
Proof.
  intros Hi [f Hf] Hst Hi' Hexp.
  destruct (moves_expired _ _ (serve_all_moves rs db) i d d' Hi Hi' Hexp);
    congruence.
Qed.

Lemma fallback_decisions_never_expire_witness :
  Decision.state
    <$> decisions (serve_all Fixture.life Scenario.overdue) !! 3%nat
  = Some RENDERED.
Proof.
  destruct (decisions (serve_all Fixture.life Scenario.overdue) !! 3%nat)
    as [d'|] eqn:Hrow; [|vm_compute in Hrow; discriminate].
  pose proof (fallback_decisions_never_expire Fixture.life Scenario.overdue 3
                (Scenario.decision "dec_4" "proj_test" "card_3" PENDING u_today
                                   (Some 70) (Some "approve") None None)
                d' eq_refl ltac:(by eexists) ltac:(discriminate) Hrow) as Hne.
  vm_compute in Hrow. injection Hrow as <-. reflexivity.
Defined.

Example decision_lives :
  let db' := serve_all Fixture.life Scenario.overdue in
  map (fun d => (Decision.decisionId d, Decision.state d, Decision.renderedOption d))
      (decisions db')
  = [("dec_1", RENDERED, Some "approve"); ("dec_2", EXPIRED, None);
     ("dec_3", EXPIRED, None); ("dec_4", RENDERED, Some "approve");
     ("dec_1-0", RENDERED, Some "reject"); ("dec_2-2", EXPIRED, None)].
Proof. vm_compute. reflexivity. Qed.

(** * The HTTP entry points *)

Lemma appendEvent_with_members f e db :
  appendEvent e (with_members f db) = with_members_after f (appendEvent e db).
Proof.
  unfold appendEvent.
  destruct (containsSecret (Event.payload e)); [reflexivity|].
  destruct (match Event.tags e with Some t => containsSecret t | None => false end);
    [reflexivity|].
  destruct (Event.idempotencyKey e) as [k|]; [|reflexivity].
  unfold bind, get. simpl.
  destruct (first _ (events db)) as [[i x]|]; reflexivity.
Qed.

Lemma bind_with_members {A B} f (m : M A) (k : A -> M B) db :
  m (with_members f db) = with_members_after f (m db) ->
  (forall a db1, k a (with_members f db1) = with_members_after f (k a db1)) ->
  bind m k (with_members f db) = with_members_after f (bind m k db).
Proof.
  intros Hm Hk. unfold bind. rewrite Hm.
  destruct (m db) as [[a db1]|e]; simpl; [apply Hk|reflexivity].
Qed.

(** X20. The HTTP entry points do what the authenticated ones do, minus
    the guard. For a caller whom the guard admits as bot or owner,
    [_httpRequestDecision] and [_httpRequestCommand], given the tenant and
    project of the caller's membership, validate, write and answer exactly
    as [requestDecision] and [requestCommand] do (the decision entry point
    answers with the decision id only). Neither reads the membership
    table: on any other membership table they do the same. *)
Theorem http_entry_points_agree clk db :
  (forall who auth a,
      resolveAuth who (HttpRequestDecision.projectId a) db = Ok (auth, db) ->
      role auth = owner \/ role auth = bot ->
      HttpRequestDecision.tenantId a = tenantId auth ->
      _httpRequestDecision a clk db
      = match requestDecision who (decision_request a) clk db with
        | Ok ((decisionId, _), db') => Ok (decisionId, db')
        | Throw e => Throw e
        end) /\
  (forall who auth a,
      resolveAuth who (HttpRequestCommand.projectId a) db = Ok (auth, db) ->
      role auth = owner \/ role auth = bot \/ role auth = operator ->
      HttpRequestCommand.tenantId a = tenantId auth ->
      _httpRequestCommand a clk db = requestCommand who (command_request a) clk db) /\
  (forall a f,
      _httpRequestDecision a clk (with_members f db)
      = with_members_after f (_httpRequestDecision a clk db)) /\
  (forall a f,
      _httpRequestCommand a clk (with_members f db)
      = with_members_after f (_httpRequestCommand a clk db)).
Proof.
  split; [|split; [|split]].
  - intros who auth a Hauth Hrole Ht.
    pose proof (resolveAuth_Ok _ _ _ _ _ Hauth)
      as (_ & identity & _ & _ & m & _ & _ & _ & _ & Hp & _).
    unfold requestDecision.
    rewrite (withAuth_run _ _ _ _ _ auth Hauth);
      [|destruct Hrole as [->| ->]; [by left|by right]].
    unfold _httpRequestDecision, requestDecision_handler. simpl.
    rewrite Ht, <- Hp.
    case_bool_decide; [reflexivity|].
    unfold bind, generateId, insert_decision.
    destruct (HttpRequestDecision.fallbackOption a) as [k|];
      [destruct (has_option k (HttpRequestDecision.options a))|]; simpl;
      try reflexivity.
    all: destruct (appendEvent _ _) as [[i db1]|e]; reflexivity.
  - intros who auth a Hauth Hrole Ht.
    pose proof (resolveAuth_Ok _ _ _ _ _ Hauth)
      as (_ & identity & _ & _ & m & _ & _ & _ & _ & Hp & _).
    unfold requestCommand.
    rewrite (withAuth_run _ _ _ _ _ auth Hauth);
      [|destruct Hrole as [->|[->| ->]]; [by left|by right|by right]].
    unfold _httpRequestCommand, requestCommand_handler. simpl.
    rewrite Ht, <- Hp. reflexivity.
  - intros a f. unfold _httpRequestDecision.
    case_bool_decide; [reflexivity|].
    apply bind_with_members.
    { destruct (HttpRequestDecision.fallbackOption a) as [k|]; [|reflexivity].
      destruct (negb _); reflexivity. }
    intros [] db1. cbv zeta.
    apply bind_with_members; [reflexivity|]. intros decisionId db2.
    apply bind_with_members; [reflexivity|]. intros docId db3.
    apply bind_with_members; [reflexivity|]. intros eventId db4.
    apply bind_with_members; [apply appendEvent_with_members|]. intros i db5.
    reflexivity.
  - intros a f. unfold _httpRequestCommand. cbv zeta.
    apply bind_with_members; [reflexivity|]. intros commandId db1.
    apply bind_with_members; [reflexivity|]. intros cardId db2.
    apply bind_with_members; [reflexivity|]. intros eventId db3.
    apply bind_with_members; [apply appendEvent_with_members|]. intros i db4.
    apply bind_with_members; [reflexivity|]. intros j db5.
    apply bind_with_members; [reflexivity|]. intros k db6.
    apply bind_with_members; [reflexivity|]. intros eventId2 db7.
    apply bind_with_members; [apply appendEvent_with_members|]. intros i2 db8.
    reflexivity.
Qed.

(** * Projects and their members *)

Lemma all_of_map {A B} (f : A -> Res B) (g : A -> B) (l : list A) :
  Forall (fun x => f x = Ok (g x)) l -> all_of f l = Ok (map g l).
Proof.
  induction 1 as [|x l Hx _ IH]; simpl; [reflexivity|].
  by rewrite Hx, IH.
Qed.

Lemma key_lookup (l : list Member.t) i j x y :
  NoDup (map membership_key l) ->
  l !! i = Some x -> l !! j = Some y -> membership_key x = membership_key y ->
  i = j.
Proof.
  intros Hnd Hi Hj Hkey. eapply NoDup_lookup; [exact Hnd| |].
  - rewrite list_lookup_fmap, Hi. reflexivity.
  - rewrite list_lookup_fmap, Hj. simpl. by rewrite Hkey.
Qed.

Lemma resolveAuth_member identity project db m :
  NoDup (map membership_key (project_members db)) ->
  m ∈ project_members db ->
  Member.userId m = default (tokenIdentifier identity) (subject identity) ->
  Member.projectId m = project ->
  resolveAuth (Some identity) project db
  = Ok ({| userId := default (tokenIdentifier identity) (subject identity);
           tenantId := Member.tenantId m; projectId := project;
           role := Member.role m |}, db).
Proof.
  intros Hnd [i Hi]%list_elem_of_lookup Hu Hp.
  unfold resolveAuth, bind, get, lift. simpl.
  rewrite (unique_intro _ _ i m Hi).
  - unfold ret. by rewrite Hp.
  - rewrite Hu, Hp. by rewrite !bool_decide_eq_true_2.
  - intros k c Hk Hc. symmetry. eapply key_lookup; [exact Hnd|exact Hi|exact Hk|].
    apply andb_true_iff in Hc as [Hcu Hcp].
    apply bool_decide_eq_true in Hcu, Hcp. unfold membership_key. congruence.
Qed.

Lemma project_found (ps : list Project.t) p :
  NoDup (map Project.projectId ps) -> p ∈ ps ->
  exists i,
    unique (fun q => bool_decide (Project.projectId q = Project.projectId p)) ps
    = Ok (Some (i, p)).
Proof.
  intros Hnd [i Hi]%list_elem_of_lookup. exists i.
  apply unique_intro; [exact Hi|by apply bool_decide_eq_true_2|].
  intros k q Hk Hq. apply bool_decide_eq_true in Hq.
  eapply NoDup_lookup; [exact Hnd| |].
  - rewrite list_lookup_fmap, Hk. simpl. by rewrite Hq.
  - by rewrite list_lookup_fmap, Hi.
Qed.

Lemma project_with_role_Some ps m p r :
  project_with_role ps m = Ok (Some (p, r)) ->
  p ∈ ps /\ Project.projectId p = Member.projectId m /\ r = Member.role m.
Proof.
  unfold project_with_role.
  destruct (unique _ ps) as [[[i q]|]|e] eqn:Hu; intros [=]. subst q r.
  apply unique_Some in Hu as (Hi & Hq & _). apply bool_decide_eq_true in Hq.
  split; [by eapply list_elem_of_lookup_2|done].
Qed.

Lemma project_with_role_run ps m :
  NoDup (map Project.projectId ps) ->
  Member.projectId m ∈ map Project.projectId ps ->
  exists p, p ∈ ps /\ Project.projectId p = Member.projectId m /\
            project_with_role ps m = Ok (Some (p, Member.role m)).
Proof.
  intros Hnd (p & Hid & Hp)%list_elem_of_fmap. exists p.
  split; [exact Hp|]. split; [done|].
  destruct (project_found ps p Hnd Hp) as [i Hu].
  unfold project_with_role. rewrite Hid, Hu. reflexivity.
Qed.

(** X21. [myProjects] agrees with the access guard. In a registry that
    satisfies the registry invariant, [myProjects] answers, without an
    error, with exactly the projects into which the guard admits the
    caller, each with the role the guard gives the caller there, one
    entry per membership; a caller without identity gets the empty
    list. *)
Theorem my_projects_agree_with_guard who reg :
  RegistryInv reg ->
  exists l,
    myProjects who reg = Ok l /\
    (who = None -> l = []) /\
    (forall p r,
        (p, r) ∈ l <->
        p ∈ projects reg /\
        exists auth,
          resolveAuth who (Project.projectId p) (base reg) = Ok (auth, base reg) /\
          role auth = r) /\
    (forall identity,
        who = Some identity ->
        map (fun x => (Project.projectId x.1, x.2)) l
        ≡ₚ map (fun m => (Member.projectId m, Member.role m))
               (List.filter
                  (fun m => bool_decide
                              (Member.userId m
                               = default (tokenIdentifier identity) (subject identity)))
                  (project_members (base reg)))).
Proof.
  intros [Hps Hms Hscoped Howned]. destruct who as [identity|]; unfold myProjects.
  - set (u := default (tokenIdentifier identity) (subject identity)).
    set (ms := by_userId u (project_members (base reg))).
    assert (Hperm : ms ≡ₚ List.filter (fun m => bool_decide (Member.userId m = u))
                                      (project_members (base reg)))
      by apply sort_perm.
    assert (Hin : forall m, m ∈ ms <->
                            m ∈ project_members (base reg) /\ Member.userId m = u).
    { intros m. rewrite Hperm, elem_of_List_filter.
      by rewrite bool_decide_eq_true. }
    set (g := fun m : Member.t =>
                match project_with_role (projects reg) m with
                | Ok r => r
                | Throw _ => None
                end).
    assert (Hg : forall m, m ∈ ms ->
                   exists p, p ∈ projects reg /\
                             Project.projectId p = Member.projectId m /\
                             project_with_role (projects reg) m
                             = Ok (Some (p, Member.role m))).
    { intros m [Hm _]%Hin. apply project_with_role_run; [exact Hps|].
      by apply Hscoped. }
    assert (Hall : all_of (project_with_role (projects reg)) ms = Ok (map g ms)).
    { apply all_of_map, Forall_forall. intros m Hm.
      destruct (Hg m Hm) as (p & _ & _ & Hrun). unfold g. by rewrite Hrun. }
    rewrite Hall. eexists. split; [reflexivity|]. split; [discriminate|]. split.
    + intros p r. rewrite list_elem_of_omap. split.
      * intros (x & Hx & Hid). simpl in Hid. subst x.
        apply list_elem_of_fmap in Hx as (m & Hgm & Hm).
        destruct (Hg m Hm) as (p' & Hp' & Hpid & Hrun).
        unfold g in Hgm. rewrite Hrun in Hgm. injection Hgm as -> ->.
        split; [exact Hp'|].
        apply Hin in Hm as [Hm Hu]. eexists. split.
        -- rewrite Hpid. by apply resolveAuth_member.
        -- reflexivity.
      * intros (Hp & auth & Hauth & Hr).
        apply resolveAuth_Ok in Hauth
          as (_ & identity' & [= <-] & Hu & m & Hm & Hmu & Hmp & _ & _ & Hrole).
        exists (Some (p, r)). split; [|reflexivity].
        apply list_elem_of_fmap. exists m.
        assert (Hms' : m ∈ ms). { apply Hin. split; [exact Hm|]. by rewrite Hmu, Hu. }
        split; [|exact Hms'].
        destruct (Hg m Hms') as (p' & Hp' & Hpid & Hrun).
        unfold g. rewrite Hrun. f_equal. f_equal; [|congruence].
        apply list_elem_of_lookup in Hp as [i Hi], Hp' as [j Hj].
        assert (i = j) as ->; [|congruence].
        eapply NoDup_lookup; [exact Hps| |].
        ++ rewrite list_lookup_fmap, Hi. reflexivity.
        ++ rewrite list_lookup_fmap, Hj. simpl. congruence.
    + intros identity' [= <-]. fold u. rewrite <- Hperm.
      assert (Hmap : map (fun x : Project.t * RbacRole => (Project.projectId x.1, x.2))
                         (omap id (map g ms))
                     = map (fun m => (Member.projectId m, Member.role m)) ms);
        [|by rewrite Hmap].
      assert (Hsome : Forall (fun m => exists p, Project.projectId p = Member.projectId m /\
                                                 g m = Some (p, Member.role m)) ms).
      { apply Forall_forall. intros m Hm.
        destruct (Hg m Hm) as (p & _ & Hpid & Hrun). exists p. split; [exact Hpid|].
        unfold g. by rewrite Hrun. }
      clear -Hsome. induction Hsome as [|m l (p & Hpid & Hgm) _ IH]; [reflexivity|].
      simpl. rewrite Hgm. simpl. rewrite Hpid. f_equal. exact IH.
  - exists []. split; [reflexivity|]. split; [done|]. split; [|discriminate].
    intros p r. split; [by intros ?%elem_of_nil|].
    intros (_ & auth & Hauth & _). discriminate.
Qed.

Lemma nothing_inv : RegistryInv Fixture.nothing.
Proof.
  split; simpl.
  - constructor.
  - constructor.
  - intros m Hm. inversion Hm.
  - intros p Hp. inversion Hp.
Qed.

Lemma my_projects_agree_with_guard_witness :
  exists l,
    myProjects (Scenario.user "user:olga")
               (administer_all Fixture.setup Fixture.nothing) = Ok l /\
    map (fun x => (Project.projectId x.1, x.2)) l = [("proj_test", owner)].
Proof.
  destruct (my_projects_agree_with_guard
              (Scenario.user "user:olga")
              (administer_all Fixture.setup Fixture.nothing)
              (administer_all_keeps_inv Fixture.setup Fixture.nothing nothing_inv))
    as (l & Hrun & _).
  exists l. split; [exact Hrun|].
  vm_compute in Hrun. injection Hrun as <-. reflexivity.
Defined.

(** X22. [initProject] is a one-shot bootstrap. Without an identity it is
    refused. Any caller with an identity may set up a project id that is
    not taken, under whatever tenant id they give: the project and one
    membership are added, and in a registry that satisfies the registry
    invariant the guard then admits the caller to the project as owner in
    that tenant. For a project id that is taken the call is refused, by
    whomever and with whatever tenant and name, and nothing changes. *)
Theorem init_project_bootstraps a clk reg :
  initProject None a clk reg = Failed (Denied Unauthenticated) /\
  (forall identity,
      let user := default (tokenIdentifier identity) (subject identity) in
      (InitProject.projectId a ∉ map Project.projectId (projects reg) ->
       exists reg',
         initProject (Some identity) a clk reg = Done (InitProject.projectId a, reg') /\
         projects reg'
         = (projects reg ++
            [{| Project.tenantId := InitProject.tenantId a;
                Project.projectId := InitProject.projectId a;
                Project.name := InitProject.name a;
                Project.createdAt := clk; Project.createdBy := user |}])%list /\
         project_members (base reg')
         = (project_members (base reg) ++
            [{| Member.tenantId := InitProject.tenantId a;
                Member.projectId := InitProject.projectId a;
                Member.userId := user; Member.role := owner |}])%list /\
         (RegistryInv reg ->
          resolveAuth (Some identity) (InitProject.projectId a) (base reg')
          = Ok ({| userId := user; tenantId := InitProject.tenantId a;
                   projectId := InitProject.projectId a; role := owner |},
                base reg')) /\
         (forall identity2 a2 clk2,
             InitProject.projectId a2 = InitProject.projectId a ->
             NoDup (map Project.projectId (projects reg)) ->
             initProject (Some identity2) a2 clk2 reg'
             = Failed (ProjectExists (InitProject.projectId a)))) /\
      (InitProject.projectId a ∈ map Project.projectId (projects reg) ->
       NoDup (map Project.projectId (projects reg)) ->
       initProject (Some identity) a clk reg
       = Failed (ProjectExists (InitProject.projectId a)))).
Proof.
  split; [reflexivity|]. intros identity user.
  assert (Htaken : forall ps (a2 : InitProject.args) identity2 clk2 b,
             InitProject.projectId a2 ∈ map Project.projectId ps ->
             NoDup (map Project.projectId ps) ->
             initProject (Some identity2) a2 clk2 {| projects := ps; base := b |}
             = Failed (ProjectExists (InitProject.projectId a2))).
  { intros ps a2 identity2 clk2 b (p & Hid & Hp)%list_elem_of_fmap Hnd.
    destruct (project_found ps p Hnd Hp) as [i Hu].
    unfold initProject. simpl. rewrite Hid, Hu. reflexivity. }
  split.
  - intros Hfree.
    assert (Hnone : unique (fun p => bool_decide (Project.projectId p
                                                  = InitProject.projectId a))
                           (projects reg) = Ok None).
    { apply unique_None_intro. intros k p Hk. apply bool_decide_eq_false.
      intros Hid. apply Hfree. apply list_elem_of_fmap. exists p.
      split; [done|]. by eapply list_elem_of_lookup_2. }
    eexists. unfold initProject. rewrite Hnone. fold user.
    split; [reflexivity|]. split; [reflexivity|]. split; [reflexivity|]. split.
    + intros [Hps Hms Hscoped Howned]. simpl.
      set (m := {| Member.tenantId := InitProject.tenantId a;
                   Member.projectId := InitProject.projectId a;
                   Member.userId := user; Member.role := owner |}).
      apply (resolveAuth_member identity (InitProject.projectId a) _ m);
        [|apply elem_of_app; right; apply list_elem_of_singleton; reflexivity
         |reflexivity|reflexivity].
      simpl. rewrite map_app. apply NoDup_app. split; [exact Hms|].
      split; [|apply NoDup_singleton].
      intros key Hkey Hnew. apply list_elem_of_singleton in Hnew. subst key.
      apply list_elem_of_fmap in Hkey as (m' & Hk & Hm').
      apply Hfree. apply Hscoped in Hm'. unfold membership_key in Hk. simpl in Hk.
      injection Hk as _ Hk. by rewrite Hk.
    + intros identity2 a2 clk2 Hid Hnd. rewrite <- Hid. apply Htaken.
      * rewrite map_app, Hid. apply elem_of_app. right.
        apply list_elem_of_singleton. reflexivity.
      * rewrite map_app. apply NoDup_app. split; [exact Hnd|].
        split; [|apply NoDup_singleton].
        intros x Hx Hnew. simpl in Hnew. apply list_elem_of_singleton in Hnew.
        subst x. apply Hfree. by rewrite <- Hid.
  - intros Hin Hnd. destruct reg as [ps b]. by apply Htaken.
Qed.

Lemma init_project_bootstraps_witness :
  initProject (Scenario.user "user:eve")
              {| InitProject.tenantId := "tenant_other";
                 InitProject.projectId := "proj_test"; InitProject.name := "Mine" |}
              9 (administer_all Fixture.setup Fixture.nothing)
  = Failed (ProjectExists "proj_test").
Proof.
  destruct (init_project_bootstraps
              {| InitProject.tenantId := "tenant_other";
                 InitProject.projectId := "proj_test"; InitProject.name := "Mine" |}
              9 (administer_all Fixture.setup Fixture.nothing))
    as [_ H].
  destruct (Scenario.user "user:eve") as [identity|] eqn:Hwho; [|discriminate].
  destruct (H identity) as [_ Htaken].
  apply Htaken.
  - apply list_elem_of_here.
  - apply (projects_unique _ (administer_all_keeps_inv Fixture.setup Fixture.nothing
                                                       nothing_inv)).
Defined.

(** * The secret denylist *)

Lemma matches_prefix_app r s post :
  Regex.matches_prefix r s = true -> Regex.matches_prefix r (s ++ post) = true.
Proof.
  revert r. induction s as [|c s IH]; intros r; simpl.
  - rewrite orb_false_r. intros Hn. destruct post; simpl; by rewrite Hn.
  - intros [Hn|Hd]%orb_true_iff; [by rewrite Hn|].
    rewrite (IH _ Hd). apply orb_true_r.
Qed.

Lemma test_app r pre s post :
  Regex.test r s = true -> Regex.test r (pre ++ s ++ post) = true.
Proof.
  intros Hs.
  assert (Hpost : Regex.test r (s ++ post) = true).
  { clear pre. induction s as [|c s IH]; simpl in *.
    - rewrite !orb_false_r in Hs.
      destruct post; simpl; by rewrite Hs.
    - apply orb_true_iff in Hs as [Hm|Ht].
      + pose proof (matches_prefix_app r (String c s) post Hm) as Hm'.
        simpl in Hm'. by rewrite Hm'.
      + rewrite (IH Ht). apply orb_true_r. }
  induction pre as [|c pre IH]; simpl; [exact Hpost|].
  rewrite IH. apply orb_true_r.
Qed.

Lemma JValue_deep_ind (P : JValue -> Prop) :
  P JNull -> P JUndefined -> (forall b, P (JBool b)) -> (forall n, P (JNum n)) ->
  (forall s, P (JStr s)) ->
  (forall items, Forall P items -> P (JArr items)) ->
  (forall fields, Forall (fun kv => P kv.2) fields -> P (JObj fields)) ->
  forall v, P v.
Proof.
  intros Hnull Hundef Hbool Hnum Hstr Harr Hobj. fix IH 1.
  intros [| |b|n|s|items|fields].
  - exact Hnull.
  - exact Hundef.
  - apply Hbool.
  - apply Hnum.
  - apply Hstr.
  - apply Harr. induction items as [|x items IHitems]; constructor.
    + apply IH.
    + exact IHitems.
  - apply Hobj. induction fields as [|[k x] fields IHfields]; constructor.
    + apply IH.
    + exact IHfields.
Qed.

Lemma containsSecret_items items :
  containsSecret (JArr items) = existsb containsSecret items.
Proof. induction items as [|x items IH]; [reflexivity|]. simpl in *. by rewrite IH. Qed.

Lemma containsSecret_fields fields :
  containsSecret (JObj fields) = existsb (fun kv => containsSecret kv.2) fields.
Proof.
  induction fields as [|[k x] fields IH]; [reflexivity|]. simpl in *. by rewrite IH.
Qed.

(** X23. What the denylist catches. [containsSecret] answers [true]
    exactly when one of the strings the value holds, at any depth of
    arrays and objects, has a substring that matches one of the patterns;
    numbers, booleans, [null] and the keys of objects are not looked at.
    A secret is caught wherever it stands inside a string: whatever is put
    before and after a string that is refused, the result is refused. *)
Theorem denylist_scans_deep :
  (forall v,
      containsSecret v = true <->
      exists s, holds v s /\ secret_string s = true) /\
  (forall pre s post,
      secret_string s = true -> secret_string (pre ++ s ++ post) = true).
Proof.
  split.
  - intros v. induction v as [| |b|n|s|items IH|fields IH] using JValue_deep_ind.
    + split; [discriminate|]. intros (s & Hs & _). inversion Hs.
    + split; [discriminate|]. intros (s & Hs & _). inversion Hs.
    + split; [discriminate|]. intros (s & Hs & _). inversion Hs.
    + split; [discriminate|]. intros (s & Hs & _). inversion Hs.
    + simpl. split.
      * intros Hs. exists s. split; [constructor|exact Hs].
      * intros (s' & Hs' & Hsec). inversion Hs'. by subst.
    + rewrite containsSecret_items, existsb_exists. split.
      * intros (x & Hx%list_elem_of_In & Hsec).
        rewrite Forall_forall in IH. apply (IH x Hx) in Hsec as (s & Hs & Hsec).
        exists s. split; [by econstructor|exact Hsec].
      * intros (s & Hs & Hsec). inversion Hs as [|items' x s' Hx Hxs|]. subst.
        exists x. split; [by apply list_elem_of_In|].
        rewrite Forall_forall in IH. apply (IH x Hx). by exists s.
    + rewrite containsSecret_fields, existsb_exists. split.
      * intros ([k x] & Hx%list_elem_of_In & Hsec).
        rewrite Forall_forall in IH. apply (IH _ Hx) in Hsec as (s & Hs & Hsec).
        exists s. split; [by econstructor|exact Hsec].
      * intros (s & Hs & Hsec). inversion Hs as [| |fields' k x s' Hx Hxs]. subst.
        exists (k, x). split; [by apply list_elem_of_In|].
        rewrite Forall_forall in IH. apply (IH _ Hx). by exists s.
  - intros pre s post. unfold secret_string. rewrite !existsb_exists.
    intros (p & Hp & Ht). exists p. split; [exact Hp|]. by apply test_app.
Qed.

Example denylist_reads_values_only :
  containsSecret (JObj [("sk-aaaaaaaaaaaaaaaaaaaa", JNum 1)]) = false /\
  containsSecret (JObj [("a", JArr [JNull; JObj [("b", JStr "x sk-aaaaaaaaaaaaaaaaaaaa")]])])
  = true /\
  secret_string "sk-aaaaaaaaaaaaaaaaaaa" = false /\
  secret_string "Bearer abc" = true /\ secret_string "bearer abc" = false.
Proof. vm_compute. repeat split; reflexivity. Qed.

(** * The life of a card *)

Lemma card_safe_same {A} (m : M A) :
  (forall db a db', m db = Ok (a, db') -> cards db' = cards db) -> card_safe m.
Proof. intros Hm db a db' H. rewrite (Hm _ _ _ H). apply rtc_refl. Qed.

Lemma card_safe_ret {A} (x : A) : card_safe (ret x).
Proof. apply card_safe_same. by intros db a db' [_ ->]%ret_Ok. Qed.

Lemma card_safe_throw {A} e : card_safe (@throw A e).
Proof. intros db a db' H. discriminate. Qed.

Lemma card_safe_get : card_safe get.
Proof. apply card_safe_same. by intros db a db' [_ ->]%get_Ok. Qed.

Lemma card_safe_lift {A} (r : Res A) : card_safe (lift r).
Proof. apply card_safe_same. by intros db a db' [_ ->]%lift_Ok. Qed.

Lemma card_safe_bind {A B} (m : M A) (f : A -> M B) :
  card_safe m -> (forall a, card_safe (f a)) -> card_safe (bind m f).
Proof.
  intros Hm Hf db b db' (a & db1 & H1 & H2)%bind_Ok.
  eapply rtc_trans; [by eapply Hm|by eapply Hf].
Qed.

Lemma card_safe_modify (f : Store -> Store) :
  (forall db, cards (f db) = cards db) -> card_safe (modify f).
Proof. intros Hf. apply card_safe_same. intros db a db' [= _ <-]. apply Hf. Qed.

Lemma card_safe_generateId prefix clk : card_safe (generateId prefix clk).
Proof. apply card_safe_same. by intros db a db' ->%generateId_Ok. Qed.

Lemma card_safe_insert_command c : card_safe (insert_command c).
Proof. apply card_safe_same. by intros db a db' [= _ <-]. Qed.

Lemma card_safe_insert_decision d : card_safe (insert_decision d).
Proof. apply card_safe_same. by intros db a db' [= _ <-]. Qed.

Lemma card_safe_insert_card c : created c -> card_safe (insert_card c).
Proof.
  intros Hc db a db' [= _ <-]. simpl. apply rtc_once. by constructor.
Qed.

Lemma card_safe_appendEvent e : card_safe (appendEvent e).
Proof.
  apply card_safe_same. by intros db id db' [_ [->|[-> _]]]%appendEvent_Ok.
Qed.

Lemma card_safe_transitionCard a clk : card_safe (transitionCard a clk).
Proof.
  intros db r db' (k & card & eid & Hu & Hv & _ & _ & ->)%transitionCard_Ok.
  apply unique_card_facts in Hu as (Hk & _ & _). simpl.
  rewrite (alter_insert _ k card _ Hk). apply rtc_once. by constructor.
Qed.

Lemma card_safe_for_each {X} (xs : list X) (body : X -> M unit) :
  (forall x, card_safe (body x)) -> card_safe (for_each xs body).
Proof.
  intros Hbody. induction xs as [|x xs IH]; simpl.
  - apply card_safe_ret.
  - apply card_safe_bind; [apply Hbody|intros _; exact IH].
Qed.

Lemma card_safe_withAuth {R} roles (handler : AuthContext -> M R) who project :
  (forall auth, card_safe (handler auth)) ->
  card_safe (withAuth roles handler who project).
Proof.
  intros Hh db r db' (auth & _ & _ & H)%withAuth_Ok. by eapply Hh.
Qed.

(** Walk through a handler, one statement at a time. *)
Ltac card_safe_walk :=
  repeat first
    [ progress cbv zeta
    | apply card_safe_ret | apply card_safe_throw | apply card_safe_get
    | apply card_safe_lift | apply card_safe_generateId
    | apply card_safe_appendEvent | apply card_safe_transitionCard
    | apply card_safe_insert_command | apply card_safe_insert_decision
    | apply card_safe_insert_card; repeat split
    | apply card_safe_modify; intros ?; reflexivity
    | apply card_safe_for_each; intros ?
    | apply card_safe_withAuth; intros ?
    | apply card_safe_bind; [|intros ?]
    | match goal with
      | |- card_safe (if ?c then _ else _) => destruct c
      | |- card_safe (match ?x with _ => _ end) => destruct x
      end ].

Lemma sweep_card_safe now clk : card_safe (sweep now clk).
Proof.
  unfold sweep, releaseRetries, expireDecisions, reclaimExpiredClaims, loadShed,
    release_one, expire_one, reclaim_one, shed_project, shed_one, console_error,
    resume_card, lookup_card, patch_decision.
  card_safe_walk.
Qed.

Lemma serve_card_moves r db : card_moves (cards db) (cards (serve r db)).
Proof.
  assert (Hcommit : forall A (m : M A), card_safe m ->
                      card_moves (cards db) (cards (commit m db))).
  { intros A m Hm. unfold commit. destruct (m db) as [[a db']|e] eqn:Hrun.
    - by eapply Hm.
    - apply rtc_refl. }
  destruct r as [op|who a|a clk|a clk]; simpl; [destruct op; simpl|..];
    apply Hcommit.
  - unfold createCard. card_safe_walk.
  - apply card_safe_transitionCard.
  - unfold requestCommand, requestCommand_handler. card_safe_walk.
  - unfold requestDecision, requestDecision_handler. card_safe_walk.
  - unfold claimDecision, claimDecision_handler, lookup_decision, patch_decision.
    card_safe_walk.
  - unfold renewDecisionClaim, renewDecisionClaim_handler, lookup_decision,
      patch_decision. card_safe_walk.
  - unfold renderDecision, renderDecision_handler, lookup_decision, patch_decision.
    card_safe_walk.
  - apply sweep_card_safe.
  - unfold emitEvent. card_safe_walk.
  - unfold _httpRequestCommand. card_safe_walk.
  - unfold _httpRequestDecision. card_safe_walk.
Qed.

Lemma serve_all_card_moves rs db : card_moves (cards db) (cards (serve_all rs db)).
Proof.
  revert db. induction rs as [|r rs IH]; intros db; simpl.
  - apply rtc_refl.
  - eapply rtc_trans; [apply serve_card_moves|apply IH].
Qed.

Lemma card_moved_row l l' k c :
  card_moved l l' -> l !! k = Some c ->
  exists c', l' !! k = Some c' /\
             (c' = c \/
              exists a now, valid_edge (Card.state c) (Transition.to a) = true /\
                            c' = transition_patch c a now c).
Proof.
  intros [cn Hcn|j cj a now Hj Hv] Hk.
  - exists c. split; [by apply lookup_app_l_Some|by left].
  - destruct (decide (j = k)) as [->|Hne].
    + rewrite Hj in Hk. injection Hk as ->. eexists. split.
      * apply list_lookup_insert_eq. by eapply lookup_lt_Some.
      * right. by exists a, now.
    + exists c. split; [|by left]. by rewrite list_lookup_insert_ne.
Qed.

Lemma transition_patch_same c a now : same_card c (transition_patch c a now c).
Proof.
  unfold transition_patch, same_card.
  destruct (Transition.retryAtTs a); repeat case_bool_decide; simpl;
    repeat split; lia.
Qed.

Lemma card_moves_same l l' :
  card_moves l l' ->
  forall k c, l !! k = Some c -> exists c', l' !! k = Some c' /\ same_card c c'.
Proof.
  induction 1 as [l|l1 l2 l3 H12 _ IH]; intros k c Hk.
  - exists c. split; [exact Hk|]. unfold same_card. repeat split; lia.
  - destruct (card_moved_row _ _ _ _ H12 Hk) as (c2 & Hc2 & Hcase).
    destruct (IH _ _ Hc2) as (c3 & Hc3 & Hsame). exists c3. split; [exact Hc3|].
    destruct Hcase as [->|(a & now & _ & ->)]; [exact Hsame|].
    pose proof (transition_patch_same c a now) as Hp.
    unfold same_card in *. intuition (try congruence; try lia).
Qed.

Lemma transition_patch_retry c a now :
  retry_timed c -> retry_timed (transition_patch c a now c).
Proof.
  unfold retry_timed, transition_patch. intros Hc.
  destruct (Transition.retryAtTs a) as [r|]; repeat case_bool_decide; simpl;
    intros [x Hx]; try discriminate; try done.
  all: try (exfalso; match goal with H : Card.state _ <> RETRY_SCHEDULED |- _ =>
                                       apply H, Hc; by eexists end).
Qed.

Lemma card_moved_retry l l' :
  card_moved l l' -> Forall retry_timed l -> Forall retry_timed l'.
Proof.
  intros [cn (_ & _ & Hr & _)|j cj a now Hj Hv] Hl.
  - apply Forall_app. split; [exact Hl|]. constructor; [|constructor].
    intros [x Hx]. congruence.
  - apply Forall_insert; [exact Hl|]. apply transition_patch_retry.
    by eapply Forall_lookup_1.
Qed.

(** X24. Card rows are stable. Whatever requests are served, a card is
    never deleted and keeps its id, tenant, project, priority, title,
    spec, creation time and capabilities; its lease fields are never
    written; and its attempt count never goes down. *)
Theorem card_rows_are_stable rs db k c :
  cards db !! k = Some c ->
  exists c',
    cards (serve_all rs db) !! k = Some c' /\
    Card.cardId c' = Card.cardId c /\
    Card.tenantId c' = Card.tenantId c /\
    Card.projectId c' = Card.projectId c /\
    Card.priority c' = Card.priority c /\
    Card.title c' = Card.title c /\
    Card.spec c' = Card.spec c /\
    Card.createdTs c' = Card.createdTs c /\
    Card.capabilities c' = Card.capabilities c /\
    Card.leasedTo c' = Card.leasedTo c /\
    Card.leaseUntilTs c' = Card.leaseUntilTs c /\
    Card.lastHeartbeatTs c' = Card.lastHeartbeatTs c /\
    Card.attempt c <= Card.attempt c'.
Proof.
  intros Hk.
  destruct (card_moves_same _ _ (serve_all_card_moves rs db) k c Hk)
    as (c' & Hc' & Hsame).
  exists c'. split; [exact Hc'|exact Hsame].
Qed.

(** X25. Only a card that waits for a retry carries a retry time. If
    every card with a [retryAtTs] is [RETRY_SCHEDULED], this still holds
    after any sequence of requests: leaving [RETRY_SCHEDULED] clears the
    field, and no other transition sets it. *)
Theorem retry_time_only_while_scheduled rs db :
  Forall retry_timed (cards db) ->
  Forall retry_timed (cards (serve_all rs db)).
Proof.
  intros Hl. pose proof (serve_all_card_moves rs db) as Hmoves.
  induction Hmoves as [l|l1 l2 l3 H12 _ IH]; [exact Hl|].
  by eapply IH, card_moved_retry.
Qed.

Lemma card_rows_are_stable_witness :
  exists c',
    cards (serve_all Fixture.retries Scenario.running) !! 0%nat = Some c' /\
    Card.cardId c' = "card_1" /\ 1 <= Card.attempt c'.
Proof.
  destruct (card_rows_are_stable Fixture.retries Scenario.running 0
              (Scenario.card "card_1" RUNNING None) eq_refl)
    as (c' & Hc' & Hid & _ & _ & _ & _ & _ & _ & _ & _ & _ & _ & Hattempt).
  exists c'. split; [exact Hc'|]. split; [exact Hid|exact Hattempt].
Defined.

Lemma retry_time_only_while_scheduled_witness :
  Forall retry_timed (cards (serve_all Fixture.retries Scenario.running)).
Proof.
  apply (retry_time_only_while_scheduled Fixture.retries Scenario.running).
  constructor; [|constructor]. intros [x Hx]. discriminate.
Defined.

Example card_retried :
  map (fun c => (Card.state c, Card.attempt c, Card.retryAtTs c))
      (cards (serve_all Fixture.retries Scenario.running))
  = [(RUNNING, 2, None)].
Proof. vm_compute. reflexivity. Qed.

(** * Reading cards and event chains *)

Lemma requestCommand_Ok who a clk db commandId cardId db' :
  requestCommand who a clk db = Ok ((commandId, cardId), db') ->
  exists auth c e,
    resolveAuth who (RequestCommand.projectId a) db = Ok (auth, db) /\
    cards db' = (cards db ++ [c])%list /\
    Card.cardId c = cardId /\ Card.state c = READY /\
    Card.projectId c = projectId auth /\ Card.tenantId c = tenantId auth /\
    Card.title c = RequestCommand.title a /\
    e ∈ events db' /\
    Event.type e = CardCreated /\
    Event.projectId e = projectId auth /\
    Event.correlationId e = RequestCommand.correlationId a /\
    Event.commandId e = Some commandId /\ Event.cardId e = Some cardId /\
    Event.ts e = clk.
Proof.
  intros (auth & Hauth & _ & H)%withAuth_Ok. unfold requestCommand_handler in H.
  tx_inv H.
  apply generateId_Ok in Hrun as ->. apply generateId_Ok in Hrun0 as ->.
  apply generateId_Ok in Hrun1 as ->.
  injection Hrun3 as _ <-. injection Hrun4 as _ <-.
  apply generateId_Ok in Hrun5 as ->.
  apply appendEvent_fresh in Hrun6 as [_ ->]; [|reflexivity].
  apply ret_Ok in H as [[= <- <-] ->].
  exists auth. eexists. eexists. split; [exact Hauth|].
  apply appendEvent_Ok in Hrun2 as [_ [->|[-> _]]]; simpl.
  all: split; [reflexivity|].
  all: repeat (split; [reflexivity|]).
  all: split; [apply elem_of_app; right; apply list_elem_of_singleton; reflexivity|].
  all: repeat split; reflexivity.
Qed.

(** X26. A requested command can be read back. [cardsByState] answers
    with exactly the cards of the project in the state asked for, by
    priority, and [eventChain] and [listByCorrelationId] both with exactly
    the events of the project under the correlation id, by timestamp;
    none of them changes the store. After a successful [requestCommand]
    the new card is among the [READY] cards of the caller's project, and
    its [CardCreated] event is in the chain of the request's correlation
    id. *)
Theorem requested_command_reads_back :
  (forall project state db,
      exists cs,
        cardsByState project state db = Ok (cs, db) /\
        cs ≡ₚ List.filter (in_state project state) (cards db) /\
        StronglySorted (fun x y => Card.priority x <= Card.priority y) cs) /\
  (forall project correlationId db,
      exists chain,
        eventChain project correlationId db = Ok (chain, db) /\
        listByCorrelationId project correlationId db = Ok (chain, db) /\
        chain ≡ₚ List.filter (in_chain project correlationId) (events db) /\
        StronglySorted (fun x y => Event.ts x <= Event.ts y) chain) /\
  (forall who a clk db commandId cardId db',
      requestCommand who a clk db = Ok ((commandId, cardId), db') ->
      exists auth cs chain c e,
        resolveAuth who (RequestCommand.projectId a) db = Ok (auth, db) /\
        cardsByState (projectId auth) READY db' = Ok (cs, db') /\
        c ∈ cs /\ Card.cardId c = cardId /\
        Card.title c = RequestCommand.title a /\
        eventChain (projectId auth) (RequestCommand.correlationId a) db'
        = Ok (chain, db') /\
        e ∈ chain /\ Event.type e = CardCreated /\
        Event.commandId e = Some commandId /\ Event.cardId e = Some cardId).
Proof.
  split; [|split].
  - intros project state db. eexists. split; [reflexivity|]. split.
    + apply sort_perm.
    + apply (sort_sorted (fun x y => Card.priority x - Card.priority y));
        intros; lia.
  - intros project correlationId db. eexists. split; [reflexivity|].
    split; [reflexivity|]. split.
    + apply sort_perm.
    + apply (sort_sorted (fun x y => Event.ts x - Event.ts y)); intros; lia.
  - intros who a clk db commandId cardId db' H.
    apply requestCommand_Ok in H
      as (auth & c & e & Hauth & Hcards & Hid & Hst & Hp & _ & Htitle & He & Hty
          & Hep & Hec & Hcmd & Hcard & _).
    exists auth. eexists. eexists. exists c, e.
    split; [exact Hauth|]. split; [reflexivity|]. split.
    { rewrite sort_perm. apply elem_of_List_filter. split.
      - rewrite Hcards. apply elem_of_app. right. by apply list_elem_of_singleton.
      - unfold in_state. by rewrite Hp, Hst, !bool_decide_eq_true_2. }
    split; [exact Hid|]. split; [exact Htitle|]. split; [reflexivity|]. split.
    { unfold by_project_correlation. rewrite sort_perm.
      apply elem_of_List_filter. split; [exact He|].
      unfold in_chain. by rewrite Hep, Hec, !bool_decide_eq_true_2. }
    done.
Qed.

Lemma requested_command_reads_back_witness :
  exists cs chain,
    cardsByState "proj_test" READY Scenario.requested_once
      = Ok (cs, Scenario.requested_once) /\
    map Card.title cs = ["Test command"] /\
    eventChain "proj_test" "corr_test" Scenario.requested_once
      = Ok (chain, Scenario.requested_once) /\
    map Event.type chain = [CommandRequested; CardCreated].
Proof.
  destruct requested_command_reads_back as (_ & _ & H).
  destruct (H (Scenario.user "user:bot") (Scenario.command (Some "k1")) 1
              (Scenario.store [] []) "cmd_1-0" "card_1-1" Scenario.requested_once)
    as (auth & cs & chain & c & e & Hauth & Hcs & _ & _ & _ & Hchain & _).
  { vm_compute. reflexivity. }
  vm_compute in Hauth. injection Hauth as <-.
  exists cs, chain. split; [exact Hcs|].
  vm_compute in Hcs. injection Hcs as <-.
  split; [reflexivity|]. split; [exact Hchain|].
  vm_compute in Hchain. injection Hchain as <-. reflexivity.
Defined.

(** * The members of a project *)

Lemma resolveAuth_snoc who project db auth m :
  resolveAuth who project db = Ok (auth, db) ->
  member_of (userId auth) project m = false ->
  resolveAuth who project (with_members (fun l => (l ++ [m])%list) db)
  = Ok (auth, with_members (fun l => (l ++ [m])%list) db).
Proof.
  intros Hauth Hm. destruct who as [identity|]; [|discriminate].
  unfold resolveAuth in *. unfold bind, get, lift in *. simpl in *.
  set (u := default (tokenIdentifier identity) (subject identity)) in *.
  destruct (unique _ (project_members db)) as [[[i x]|]|e] eqn:Hu;
    simpl in Hauth; try discriminate.
  injection Hauth as <-. simpl in Hm.
  rewrite (unique_intro _ _ i x); [reflexivity| | |].
  - apply unique_Some in Hu as (Hi & _). by apply lookup_app_l_Some.
  - by apply unique_Some in Hu as (_ & Hp & _).
  - intros k c Hk Hc. apply unique_Some in Hu as (_ & _ & Huniq).
    simpl in Hk. apply lookup_snoc_Some in Hk as [[_ Hk]|[_ <-]].
    + by destruct (Huniq _ _ Hk Hc).
    + unfold member_of in Hm. congruence.
Qed.

Lemma listMembers_run who project db auth :
  resolveAuth who project db = Ok (auth, db) ->
  listMembers who project db
  = Ok (by_projectId_role project (project_members db), db).
Proof.
  intros Hauth. unfold listMembers.
  rewrite (withAuthQ_run _ _ _ _ _ auth Hauth); [reflexivity|].
  right. apply any_role_passes.
Qed.

(** X27. The member list. To any member of the project, whatever the
    role, [listMembers] answers with exactly the memberships of that
    project, ordered by role name, and changes nothing; the caller is in
    the list. After a successful [addMember] the owner who added the
    member finds them in the list with the role given; after a successful
    [removeMember] nobody finds the removed user in it. *)
Theorem list_members_round_trip :
  (forall who project db auth,
      resolveAuth who project db = Ok (auth, db) ->
      exists l,
        listMembers who project db = Ok (l, db) /\
        l ≡ₚ List.filter (fun m => bool_decide (Member.projectId m = project))
                         (project_members db) /\
        StronglySorted role_le l /\
        exists m, m ∈ l /\ Member.userId m = userId auth /\
                  Member.role m = role auth) /\
  (forall who a db r db',
      addMember who a db = Done (r, db') ->
      exists l,
        listMembers who (AddMember.projectId a) db' = Ok (l, db') /\
        exists m, m ∈ l /\ Member.userId m = AddMember.userId a /\
                  Member.role m = AddMember.role a) /\
  (forall who project user db r db',
      removeMember who project user db = Done (r, db') ->
      forall who2 l db2,
        listMembers who2 project db' = Ok (l, db2) ->
        Forall (fun m => Member.userId m <> user) l).
Proof.
  assert (Hin : forall project ms m,
             m ∈ by_projectId_role project ms <->
             m ∈ ms /\ Member.projectId m = project).
  { intros project ms m. unfold by_projectId_role.
    rewrite sort_perm, elem_of_List_filter. by rewrite bool_decide_eq_true. }
  split; [|split].
  - intros who project db auth Hauth. eexists.
    split; [by eapply listMembers_run|]. split; [apply sort_perm|]. split.
    + apply (sort_sorted
               (fun x y => string_cmp (role_name (Member.role x))
                                      (role_name (Member.role y)))).
      * done.
      * intros x y. unfold role_le.
        destruct (Member.role x), (Member.role y); vm_compute;
          first [by left|by right].
      * intros x y z. unfold role_le.
        destruct (Member.role x), (Member.role y), (Member.role z); vm_compute;
          congruence.
    + apply resolveAuth_Ok in Hauth
        as (_ & identity & _ & _ & m & Hm & Hu & Hp & _ & _ & Hr).
      exists m. split; [by apply Hin|done].
  - intros who a db r db' (auth & Hauth & _ & Hnone & _ & ->)%addMember_Done.
    pose proof (resolveAuth_Ok _ _ _ _ _ Hauth)
      as (_ & identity & _ & _ & m0 & Hm0 & Hu0 & Hp0 & _ & Hproj & _).
    set (m := {| Member.tenantId := tenantId auth;
                 Member.projectId := projectId auth;
                 Member.userId := AddMember.userId a;
                 Member.role := AddMember.role a |}).
    assert (Hauth' : resolveAuth who (AddMember.projectId a)
                       (with_members (fun l => (l ++ [m])%list) db)
                     = Ok (auth, with_members (fun l => (l ++ [m])%list) db)).
    { apply resolveAuth_snoc; [exact Hauth|].
      destruct (member_of (userId auth) (AddMember.projectId a) m) eqn:Hm; [|done].
      apply member_of_key in Hm. unfold membership_key in Hm. simpl in Hm.
      injection Hm as Hu _.
      apply list_elem_of_lookup in Hm0 as [i Hi].
      pose proof (unique_None _ _ Hnone i m0 Hi) as Hfresh.
      unfold member_of in Hfresh.
      rewrite !bool_decide_eq_true_2 in Hfresh; [discriminate|done|congruence]. }
    eexists. split; [by eapply listMembers_run|].
    exists m. split; [|done]. apply Hin. split; [|exact Hproj].
    simpl. apply elem_of_app. right. by apply list_elem_of_singleton.
  - intros who project user db r db'
           (auth & id & member & _ & _ & Hu & _ & _ & ->)%removeMember_Done
           who2 l db2 Hlist.
    unfold listMembers in Hlist.
    apply withAuthQ_Ok in Hlist as (auth2 & _ & Hlist).
    injection Hlist as <- <-. apply Forall_forall. intros m [Hm Hp]%Hin Huser.
    simpl in Hm. apply unique_Some in Hu as (Hid & _ & Huniq).
    apply list_elem_of_lookup in Hm as [k Hk].
    assert (Hkey : member_of user project m = true).
    { unfold member_of. by rewrite !bool_decide_eq_true_2. }
    destruct (decide (k < id)%nat) as [Hlt|Hge].
    + rewrite list_lookup_delete_lt in Hk by exact Hlt.
      destruct (Huniq _ _ Hk Hkey) as [-> _]. lia.
    + rewrite list_lookup_delete_ge in Hk by lia.
      destruct (Huniq _ _ Hk Hkey) as [Heq _]. lia.
Qed.

Lemma list_members_round_trip_witness :
  exists l,
    listMembers (Scenario.user "user:vic") "proj_test" (Scenario.store [] [])
    = Ok (l, Scenario.store [] []) /\
    map Member.userId l
    = ["user:bot"; "user:olga"; "user:oscar"; "user:alice"; "user:vic"].
Proof.
  destruct list_members_round_trip as (H & _ & _).
  destruct (H (Scenario.user "user:vic") "proj_test" (Scenario.store [] [])
              (Scenario.auth "user:vic" viewer))
    as (l & Hrun & _); [vm_compute; reflexivity|].
  exists l. split; [exact Hrun|].
  vm_compute in Hrun. injection Hrun as <-. reflexivity.
Defined.

(** * The patterns of the denylist *)

Lemma append_cons c (s1 s2 : string) : String c s1 ++ s2 = String c (s1 ++ s2).
Proof. reflexivity. Qed.

Lemma append_empty (s : string) : "" ++ s = s.
Proof. reflexivity. Qed.

Lemma append_assoc (s1 s2 s3 : string) : (s1 ++ s2) ++ s3 = s1 ++ (s2 ++ s3).
Proof.
  induction s1 as [|c s1 IH]; [reflexivity|]. rewrite !append_cons. by f_equal.
Qed.

Lemma append_nil (s1 s2 : string) : s1 ++ s2 = "" -> s1 = "" /\ s2 = "".
Proof.
  destruct s1; [by rewrite append_empty|]. rewrite append_cons. discriminate.
Qed.

Lemma lang_Empty_inv s : ~ lang Regex.Empty s.
Proof. intros H. inversion H. Qed.

Lemma lang_Eps_inv s : lang Regex.Eps s <-> s = "".
Proof. split; [by inversion 1|intros ->; constructor]. Qed.

Lemma lang_Cls_inv p s :
  lang (Regex.Cls p) s <-> exists c, s = String c "" /\ p c = true.
Proof.
  split.
  - inversion 1; subst. by eexists.
  - intros (c & -> & Hc). by constructor.
Qed.

Lemma lang_Cat_inv r1 r2 s :
  lang (Regex.Cat r1 r2) s <-> exists s1 s2, s = s1 ++ s2 /\ lang r1 s1 /\ lang r2 s2.
Proof.
  split.
  - inversion 1; subst. by eexists _, _.
  - intros (s1 & s2 & -> & H1 & H2). by constructor.
Qed.

Lemma lang_Alt_inv r1 r2 s :
  lang (Regex.Alt r1 r2) s <-> lang r1 s \/ lang r2 s.
Proof.
  split.
  - inversion 1; subst; [by left|by right].
  - intros [H|H]; [by apply lang_alt_l|by apply lang_alt_r].
Qed.

Lemma lang_Star_cons r c s :
  lang (Regex.Star r) (String c s) ->
  exists s1 s2, s = s1 ++ s2 /\ lang r (String c s1) /\ lang (Regex.Star r) s2.
Proof.
  intros H. remember (Regex.Star r) as r0 eqn:Hr0.
  remember (String c s) as t eqn:Ht. revert s Ht.
  induction H as [|p' c'|r1 r2 t1 t2|r1 r2 t'|r1 r2 t'| |r' t1 t2 H1 _ H2 IH2];
    intros s Ht; try discriminate.
  injection Hr0 as ->. destruct t1 as [|c1 t1].
  - rewrite append_empty in Ht. by apply IH2.
  - rewrite append_cons in Ht. injection Ht as <- <-. by exists t1, t2.
Qed.

Lemma lang_nullable r : Regex.nullable r = true <-> lang r "".
Proof.
  induction r as [| |p|r1 IH1 r2 IH2|r1 IH1 r2 IH2|r IH]; simpl.
  - split; [discriminate|]. intros H. inversion H.
  - split; [constructor|done].
  - split; [discriminate|]. intros H. inversion H.
  - rewrite andb_true_iff, IH1, IH2, lang_Cat_inv. split.
    + intros [H1 H2]. by exists "", "".
    + intros (s1 & s2 & Hs & H1 & H2). symmetry in Hs.
      apply append_nil in Hs as [-> ->]. done.
  - rewrite orb_true_iff, IH1, IH2, lang_Alt_inv. done.
  - split; [constructor|done].
Qed.

Lemma lang_smart_cat r1 r2 s : lang (Regex.cat r1 r2) s <-> lang (Regex.Cat r1 r2) s.
Proof.
  rewrite lang_Cat_inv.
  assert (Hl : forall r, (exists s1 s2, s = s1 ++ s2 /\ lang Regex.Empty s1 /\ lang r s2)
                         <-> False).
  { intros r. split; [|done]. intros (s1 & s2 & _ & H & _). inversion H. }
  assert (Hr : forall r, (exists s1 s2, s = s1 ++ s2 /\ lang r s1 /\ lang Regex.Empty s2)
                         <-> False).
  { intros r. split; [|done]. intros (s1 & s2 & _ & _ & H). inversion H. }
  assert (He : forall r, lang r s <->
                         exists s1 s2, s = s1 ++ s2 /\ lang Regex.Eps s1 /\ lang r s2).
  { intros r. split.
    - intros H. exists "", s. split; [done|]. split; [constructor|exact H].
    - intros (s1 & s2 & -> & ->%lang_Eps_inv & H). exact H. }
  assert (Hempty : lang Regex.Empty s <-> False).
  { split; [apply lang_Empty_inv|done]. }
  destruct r1, r2; simpl;
    rewrite ?Hl, ?Hr, ?Hempty, <- ?He, ?lang_Cat_inv; done.
Qed.

Lemma lang_smart_alt r1 r2 s : lang (Regex.alt r1 r2) s <-> lang (Regex.Alt r1 r2) s.
Proof.
  rewrite lang_Alt_inv.
  assert (Hempty : lang Regex.Empty s <-> False).
  { split; [apply lang_Empty_inv|done]. }
  destruct r1, r2; simpl; rewrite ?Hempty, ?lang_Alt_inv; tauto.
Qed.

Lemma lang_deriv c r s : lang (Regex.deriv c r) s <-> lang r (String c s).
Proof.
  revert s. induction r as [| |p|r1 IH1 r2 IH2|r1 IH1 r2 IH2|r IH]; intros s; simpl.
  - split; intros H; inversion H.
  - split; intros H; inversion H.
  - rewrite lang_Cls_inv. destruct (p c) eqn:Hp.
    + rewrite lang_Eps_inv. split.
      * intros ->. by exists c.
      * intros (c' & [= Hc1 Hc2] & _). exact Hc2.
    + split; [intros H; inversion H|]. intros (c' & [= Hc1 Hc2] & Hc). congruence.
  - assert (Hfirst : lang (Regex.cat (Regex.deriv c r1) r2) s <->
                     exists s1 s2, s = s1 ++ s2 /\ lang r1 (String c s1) /\ lang r2 s2).
    { rewrite lang_smart_cat, lang_Cat_inv. split.
      - intros (s1 & s2 & Hs & H1 & H2). exists s1, s2. by rewrite <- IH1.
      - intros (s1 & s2 & Hs & H1 & H2). exists s1, s2. by rewrite IH1. }
    rewrite (lang_Cat_inv r1 r2 (String c s)).
    destruct (Regex.nullable r1) eqn:Hn.
    + rewrite lang_smart_alt, lang_Alt_inv, Hfirst, IH2. split.
      * intros [(s1 & s2 & -> & H1 & H2)|H].
        -- by exists (String c s1), s2.
        -- exists "", (String c s). split; [done|]. split; [|exact H].
           by apply lang_nullable.
      * intros (t1 & t2 & Ht & H1 & H2). destruct t1 as [|c1 t1]; rewrite ?append_cons, ?append_empty in Ht.
        -- right. by subst t2.
        -- injection Ht as <- ->. left. by exists t1, t2.
    + rewrite Hfirst. split.
      * intros (s1 & s2 & -> & H1 & H2). by exists (String c s1), s2.
      * intros (t1 & t2 & Ht & H1 & H2). destruct t1 as [|c1 t1]; rewrite ?append_cons, ?append_empty in Ht.
        -- apply lang_nullable in H1. congruence.
        -- injection Ht as <- ->. by exists t1, t2.
  - rewrite lang_smart_alt, !lang_Alt_inv, IH1, IH2. done.
  - rewrite lang_smart_cat, lang_Cat_inv. split.
    + intros (s1 & s2 & -> & H1 & H2). apply IH in H1.
      by apply (lang_star_app r (String c s1) s2).
    + intros (s1 & s2 & Hs & H1 & H2)%lang_Star_cons.
      exists s1, s2. by rewrite IH.
Qed.

Lemma matches_prefix_lang r s :
  Regex.matches_prefix r s = true <-> exists m post, s = m ++ post /\ lang r m.
Proof.
  revert r. induction s as [|c s IH]; intros r; simpl.
  - rewrite orb_false_r, lang_nullable. split.
    + intros H. by exists "", "".
    + intros (m & post & Hs & H). symmetry in Hs.
      apply append_nil in Hs as [-> _]. exact H.
  - rewrite orb_true_iff, lang_nullable, IH. split.
    + intros [H|(m & post & -> & H)].
      * by exists "", (String c s).
      * exists (String c m), post. split; [done|]. by apply lang_deriv.
    + intros (m & post & Hs & H). destruct m as [|c1 m]; rewrite ?append_cons, ?append_empty in Hs.
      * by left.
      * injection Hs as <- ->. right. exists m, post. split; [done|].
        by apply lang_deriv.
Qed.

Lemma test_lang r s :
  Regex.test r s = true <-> exists pre m post, s = pre ++ m ++ post /\ lang r m.
Proof.
  induction s as [|c s IH]; simpl.
  - rewrite orb_false_r. change (Regex.nullable r || false)
      with (Regex.matches_prefix r ""). rewrite matches_prefix_lang. split.
    + intros (m & post & Hs & H). by exists "", m, post.
    + intros (pre & m & post & Hs & H). symmetry in Hs.
      apply append_nil in Hs as [-> Hs]. by exists m, post.
  - rewrite orb_true_iff, IH.
    change (Regex.nullable r || Regex.matches_prefix (Regex.deriv c r) s)
      with (Regex.matches_prefix r (String c s)).
    rewrite matches_prefix_lang. split.
    + intros [(m & post & Hs & H)|(pre & m & post & -> & H)].
      * by exists "", m, post.
      * by exists (String c pre), m, post.
    + intros (pre & m & post & Hs & H). destruct pre as [|c1 pre]; rewrite ?append_cons, ?append_empty in Hs.
      * left. by exists m, post.
      * injection Hs as <- ->. right. by exists pre, m, post.
Qed.

Lemma denylist_substrings s :
  secret_string s = true <->
  exists p pre m post,
    In p SECRET_PATTERNS /\ s = pre ++ m ++ post /\ lang p m.
Proof.
  unfold secret_string. rewrite existsb_exists. split.
  - intros (p & Hp & (pre & m & post & Hs & H)%test_lang).
    by exists p, pre, m, post.
  - intros (p & pre & m & post & Hp & Hs & H). exists p. split; [exact Hp|].
    apply test_lang. by exists pre, m, post.
Qed.

(** X28. The string check of the denylist is substring matching. A
    string is refused exactly when some substring of it is in the language
    of one of the patterns of [SECRET_PATTERNS]: the check is not anchored
    and depends on nothing else. *)
Theorem denylist_matches_substrings s :
  secret_string s = true <->
  exists p pre m post,
    In p SECRET_PATTERNS /\ s = pre ++ m ++ post /\ lang p m.
Proof. apply denylist_substrings. Qed.

Lemma lang_lit s : lang (Regex.lit s) s.
Proof.
  induction s as [|c s IH]; simpl; [constructor|].
  apply (lang_cat (Regex.chr c) (Regex.lit s) (String c "") s); [|exact IH].
  constructor. apply Ascii.eqb_refl.
Qed.

Lemma lang_star_class p w : every p w = true -> lang (Regex.Star (Regex.Cls p)) w.
Proof.
  induction w as [|c w IH]; simpl; [constructor|].
  intros [Hc Hw]%andb_true_iff.
  apply (lang_star_app (Regex.Cls p) (String c "") w); [by constructor|by apply IH].
Qed.

Lemma lang_rep_class n p w :
  (n <= String.length w)%nat -> every p w = true ->
  exists a b, w = a ++ b /\ lang (Regex.rep n (Regex.Cls p)) a /\ every p b = true.
Proof.
  revert w. induction n as [|n IH]; intros w Hlen Hw; simpl.
  - exists "", w. split; [done|]. split; [constructor|exact Hw].
  - destruct w as [|c w]; simpl in Hlen; [lia|].
    simpl in Hw. apply andb_true_iff in Hw as [Hc Hw].
    destruct (IH w) as (a & b & -> & Ha & Hb); [lia|exact Hw|].
    exists (String c a), b. split; [done|]. split; [|exact Hb].
    apply (lang_cat (Regex.Cls p) _ (String c "") a); [by constructor|exact Ha].
Qed.

Lemma at_least_caught prefix n p w pre post :
  In (Regex.Cat (Regex.lit prefix) (Regex.at_least n (Regex.Cls p))) SECRET_PATTERNS ->
  (n <= String.length w)%nat -> every p w = true ->
  secret_string (pre ++ prefix ++ w ++ post) = true.
Proof.
  intros Hin Hlen Hw.
  destruct (lang_rep_class n p w Hlen Hw) as (a & b & -> & Ha & Hb).
  apply denylist_substrings. eexists. exists pre, (prefix ++ a ++ b), post.
  split; [exact Hin|]. split; [by rewrite !append_assoc|].
  apply lang_cat; [apply lang_lit|].
  apply lang_cat; [exact Ha|by apply lang_star_class].
Qed.

Lemma exactly_caught prefix n p w pre post :
  In (Regex.Cat (Regex.lit prefix) (Regex.rep n (Regex.Cls p))) SECRET_PATTERNS ->
  (n <= String.length w)%nat -> every p w = true ->
  secret_string (pre ++ prefix ++ w ++ post) = true.
Proof.
  intros Hin Hlen Hw.
  destruct (lang_rep_class n p w Hlen Hw) as (a & b & -> & Ha & Hb).
  apply denylist_substrings. eexists. exists pre, (prefix ++ a), (b ++ post).
  split; [exact Hin|]. split; [by rewrite !append_assoc|].
  apply lang_cat; [apply lang_lit|exact Ha].
Qed.

(** X29. Tokens of the listed families are always caught. A GitHub
    token ([ghp_], [gho_], [ghu_], [ghs_] with 36 word characters,
    [github_pat_] with 22), an [sk-], [sk_live_] or [sk_test_] key with 20
    letters or digits, a Slack [xoxb-] or [xoxp-] token with 6 characters,
    or an [AKIA] key id with 16 capitals or digits, or any longer run of
    such characters after the prefix, makes the string check answer
    [true], whatever surrounds it. *)
Theorem token_families_are_caught prefix n p w pre post :
  In (prefix, n, p) TOKEN_FAMILIES ->
  (n <= String.length w)%nat ->
  every p w = true ->
  secret_string (pre ++ prefix ++ w ++ post) = true.
Proof.
  intros Hin Hlen Hw. unfold TOKEN_FAMILIES in Hin. simpl in Hin.
  repeat (destruct Hin as [[= <- <- <-]|Hin];
          [first [ solve [ eapply at_least_caught; [|exact Hlen|exact Hw];
                           unfold SECRET_PATTERNS;
                           repeat first [left; reflexivity | right] ]
                 | solve [ eapply exactly_caught; [|exact Hlen|exact Hw];
                           unfold SECRET_PATTERNS;
                           repeat first [left; reflexivity | right] ] ]|]).
  destruct Hin.
Qed.

Lemma token_families_are_caught_witness :
  secret_string ("token=sk-" ++ "abcdefghijklmnopqrstuvwxyz" ++ ";") = true.
Proof.
  apply (token_families_are_caught "sk-" 20 Regex.alnum
           "abcdefghijklmnopqrstuvwxyz" "token=" ";").
  - unfold TOKEN_FAMILIES. do 5 right. left. reflexivity.
  - simpl. lia.
  - reflexivity.
Defined.

(** * The sweep completes *)

Lemma lookup_card_total cardId db :
  NoDup (map Card.cardId (cards db)) ->
  lookup_card cardId db = Ok (None, db) \/
  exists k c,
    lookup_card cardId db = Ok (Some (k, c), db) /\
    unique (fun c => bool_decide (Card.cardId c = cardId)) (cards db)
    = Ok (Some (k, c)) /\
    cards db !! k = Some c /\ Card.cardId c = cardId.
Proof.
  intros Hnd. unfold lookup_card, bind, get, lift.
  destruct (unique _ (cards db)) as [[[k c]|]|e] eqn:Hu.
  - right. exists k, c. split; [reflexivity|]. split; [reflexivity|].
    apply unique_Some in Hu as (Hk & Hp & _). split; [exact Hk|].
    by apply bool_decide_eq_true in Hp.
  - by left.
  - exfalso. apply unique_Throw in Hu as (i & j & x & y & Hij & Hi & Hj & Hx & Hy).
    apply bool_decide_eq_true in Hx, Hy. apply Hij.
    eapply NoDup_lookup; [exact Hnd| |].
    + rewrite list_lookup_fmap, Hi. simpl. by rewrite Hx.
    + rewrite list_lookup_fmap, Hj. simpl. by rewrite Hy.
Qed.

Lemma sweepable_transitioned eid k card a clk db :
  sweepable db -> sweepable (transitioned eid k card a clk db).
Proof.
  intros [Hnd Hdec]. split; [|exact Hdec]. simpl.
  rewrite card_ids_alter; [exact Hnd|]. intros c. apply transition_patch_cardId.
Qed.

Lemma sweepable_push e db : sweepable db -> sweepable (push_event e db).
Proof. intros H. exact H. Qed.

Lemma sweepable_with_rng f db : sweepable db -> sweepable (with_rng f db).
Proof. intros H. exact H. Qed.

Lemma sweepable_patch i f db :
  (forall d, loggable d -> loggable (f d)) ->
  sweepable db -> sweepable (with_decisions (alter f i) db).
Proof.
  intros Hf [Hnd Hdec]. split; [exact Hnd|]. simpl.
  apply Forall_alter; [exact Hdec|]. intros d _ Hd. by apply Hf.
Qed.

Lemma resume_card_total d to reason clk db :
  valid_edge NEEDS_DECISION to = true ->
  secret_string reason = false ->
  sweepable db ->
  exists db', resume_card d to reason clk db = Ok (tt, db') /\ sweepable db'.
Proof.
  intros Hv Hclean Hdb. unfold resume_card.
  destruct (lookup_card_total (Decision.cardId d) db (proj1 Hdb))
    as [Hnone|(k & c & Hsome & Hu & Hk & Hid)].
  - rewrite (bind_step _ _ _ _ _ Hnone). by exists db.
  - rewrite (bind_step _ _ _ _ _ Hsome). case_bool_decide as Hst; [|by exists db].
    erewrite bind_step.
    2:{ apply transitionCard_run; [exact Hu| |exact Hclean].
        simpl. rewrite Hst. exact Hv. }
    eexists. split; [reflexivity|]. by apply sweepable_transitioned.
Qed.

Lemma expired_payload_clean d : containsSecret (expired_payload d) = false.
Proof. unfold expired_payload. by destruct (Decision.expiresAt d). Qed.

Lemma sweeper_rendered_payload_clean f note :
  secret_string f = false -> secret_string note = false ->
  containsSecret (sweeper_rendered_payload f note) = false.
Proof.
  intros Hf Hnote. unfold sweeper_rendered_payload.
  assert (Hs : secret_string SWEEPER = false) by (vm_compute; reflexivity).
  revert Hs. generalize SWEEPER. intros s Hs. simpl. by rewrite Hf, Hs, Hnote.
Qed.

Lemma claim_expired_payload_clean d :
  loggable d ->
  containsSecret
    (JObj [("previousClaimedBy", jopt JStr (Decision.claimedBy d));
           ("claimedUntil", jopt JNum (Decision.claimedUntil d))]) = false.
Proof.
  intros [_ Hu]. destruct (Decision.claimedBy d) as [u|] eqn:Hc;
    destruct (Decision.claimedUntil d); simpl; rewrite ?(Hu u eq_refl); reflexivity.
Qed.

Lemma deferred_resolved_payload_clean count :
  containsSecret (deferred_resolved_payload count) = false.
Proof. vm_compute. reflexivity. Qed.

Lemma deferred_extended_payload_clean e count :
  containsSecret (deferred_extended_payload e count) = false.
Proof. vm_compute. reflexivity. Qed.

Lemma loggable_expire_with_fallback f now d :
  loggable d -> loggable (expire_with_fallback f now d).
Proof. intros [Hf Hu]. split; [exact Hf|]. intros u. simpl. discriminate. Qed.

Lemma loggable_expire_without_fallback d :
  loggable d -> loggable (expire_without_fallback d).
Proof. intros [Hf Hu]. split; [exact Hf|]. intros u. simpl. discriminate. Qed.

Lemma loggable_release_claim d : loggable d -> loggable (release_claim d).
Proof. intros [Hf Hu]. split; [exact Hf|]. intros u. simpl. discriminate. Qed.

Lemma loggable_shed_with_fallback f now d :
  loggable d -> loggable (shed_with_fallback f now d).
Proof. intros [Hf Hu]. split; [exact Hf|exact Hu]. Qed.

Lemma loggable_set_expiresAt e d :
  loggable d -> loggable (Decision.set_expiresAt e d).
Proof. intros [Hf Hu]. split; [exact Hf|exact Hu]. Qed.

Lemma expire_one_total now clk i d db :
  loggable d -> sweepable db ->
  exists db', expire_one now clk (i, d) db = Ok (tt, db') /\ sweepable db'.
Proof.
  intros Hd Hdb. unfold expire_one, bind at 1 2, generateId.
  rewrite appendEvent_run; [|apply expired_payload_clean|reflexivity..].
  destruct (Decision.fallbackOption d) as [f|] eqn:Hf.
  - unfold bind at 1 2 3, patch_decision, modify, generateId.
    rewrite appendEvent_run; [| |reflexivity..].
    2:{ apply sweeper_rendered_payload_clean; [exact (proj1 Hd f Hf)|vm_compute; reflexivity]. }
    apply resume_card_total; [reflexivity|vm_compute; reflexivity|].
    apply sweepable_push, sweepable_with_rng, sweepable_patch;
      [apply loggable_expire_with_fallback|]. exact Hdb.
  - unfold bind at 1, patch_decision, modify.
    apply resume_card_total; [reflexivity|vm_compute; reflexivity|].
    apply sweepable_patch; [apply loggable_expire_without_fallback|]. exact Hdb.
Qed.

Lemma reclaim_one_total now clk i d db :
  loggable d -> sweepable db ->
  exists db', reclaim_one now clk (i, d) db = Ok (tt, db') /\ sweepable db'.
Proof.
  intros Hd Hdb. unfold reclaim_one, bind, patch_decision, modify, generateId.
  rewrite appendEvent_run; [|by apply claim_expired_payload_clean|reflexivity..].
  eexists. split; [reflexivity|].
  apply sweepable_push, sweepable_with_rng, sweepable_patch;
    [apply loggable_release_claim|]. exact Hdb.
Qed.

Lemma shed_one_total now clk count i d db :
  loggable d -> sweepable db ->
  exists db', shed_one now clk count (i, d) db = Ok (tt, db') /\ sweepable db'.
Proof.
  intros Hd Hdb. unfold shed_one.
  destruct (Decision.fallbackOption d) as [f|] eqn:Hf.
  - unfold bind at 1 2 3 4 5, patch_decision, modify, generateId.
    rewrite appendEvent_run;
      [|apply deferred_resolved_payload_clean|reflexivity..].
    rewrite appendEvent_run; [| |reflexivity..].
    2:{ apply sweeper_rendered_payload_clean; [exact (proj1 Hd f Hf)|vm_compute; reflexivity]. }
    apply resume_card_total; [reflexivity|vm_compute; reflexivity|].
    apply sweepable_push, sweepable_with_rng, sweepable_push, sweepable_with_rng,
      sweepable_patch; [apply loggable_shed_with_fallback|]. exact Hdb.
  - cbv zeta. unfold bind, patch_decision, modify, generateId.
    rewrite appendEvent_run;
      [|apply deferred_extended_payload_clean|reflexivity..].
    eexists. split; [reflexivity|].
    apply sweepable_push, sweepable_with_rng, sweepable_patch;
      [apply loggable_set_expiresAt|]. exact Hdb.
Qed.

Lemma for_each_total {X} (I : Store -> Prop) (Q : X -> Prop) (body : X -> M unit) :
  (forall x db, Q x -> I db -> exists db', body x db = Ok (tt, db') /\ I db') ->
  forall xs db,
    Forall Q xs -> I db ->
    exists db', for_each xs body db = Ok (tt, db') /\ I db'.
Proof.
  intros Hbody xs. induction xs as [|x xs IH]; intros db Hxs Hdb.
  - by exists db.
  - apply Forall_cons in Hxs as [Hx Hxs].
    destruct (Hbody x db Hx Hdb) as (db1 & H1 & Hdb1).
    rewrite for_each_cons, (bind_step _ _ _ _ _ H1). by apply IH.
Qed.

Lemma snapshot_loggable (p : Decision.t -> bool) (q : nat * Decision.t -> bool) db :
  sweepable db ->
  Forall (fun x => loggable x.2) (List.filter q (collect p (decisions db))).
Proof.
  intros [_ Hdec]. apply Forall_forall. intros [i d] Hin.
  apply elem_of_List_filter in Hin as [Hin _].
  apply elem_of_collect in Hin as [Hi _]. simpl.
  by eapply Forall_lookup_1 in Hdec.
Qed.

Lemma collect_loggable (p : Decision.t -> bool) db :
  sweepable db -> Forall (fun x => loggable x.2) (collect p (decisions db)).
Proof.
  intros [_ Hdec]. apply Forall_forall. intros [i d] Hin.
  apply elem_of_collect in Hin as [Hi _]. simpl.
  by eapply Forall_lookup_1 in Hdec.
Qed.

Lemma expireDecisions_total now clk db :
  sweepable db ->
  exists db', expireDecisions now clk db = Ok (tt, db') /\ sweepable db'.
Proof.
  intros Hdb. unfold expireDecisions, bind at 1, get.
  eapply (for_each_total sweepable (fun x => loggable x.2));
    [|by apply snapshot_loggable|exact Hdb].
  intros [i d] db0 Hd Hdb0. by apply expire_one_total.
Qed.

Lemma reclaimExpiredClaims_total now clk db :
  sweepable db ->
  exists db', reclaimExpiredClaims now clk db = Ok (tt, db') /\ sweepable db'.
Proof.
  intros Hdb. unfold reclaimExpiredClaims, bind at 1, get.
  eapply (for_each_total sweepable (fun x => loggable x.2));
    [|by apply snapshot_loggable|exact Hdb].
  intros [i d] db0 Hd Hdb0. by apply reclaim_one_total.
Qed.

Lemma shed_project_total now clk entry db :
  sweepable db ->
  exists db', shed_project now clk entry db = Ok (tt, db') /\ sweepable db'.
Proof.
  intros Hdb. destruct entry as [project count]. unfold shed_project.
  set (alert := if NOW_BACKLOG_ALERT_THRESHOLD <? count
                then console_error (project, count) else ret tt).
  assert (Halert : exists db1, alert db = Ok (tt, db1) /\ sweepable db1).
  { unfold alert. destruct (_ <? _); eexists; (split; [reflexivity|exact Hdb]). }
  destruct Halert as (db1 & Ha & Hdb1). rewrite (bind_step _ _ _ _ _ Ha).
  destruct (NOW_BACKLOG_DEFER_THRESHOLD <? count); [|by exists db1].
  unfold bind at 1, get.
  eapply (for_each_total sweepable (fun x => loggable x.2));
    [|by apply collect_loggable|exact Hdb1].
  intros [i d] db0 Hd Hdb0. by apply shed_one_total.
Qed.

Lemma loadShed_total now clk db :
  sweepable db ->
  exists db', loadShed now clk db = Ok (tt, db') /\ sweepable db'.
Proof.
  intros Hdb. unfold loadShed, bind at 1, get.
  eapply (for_each_total sweepable (fun _ => True));
    [|apply Forall_true; done|exact Hdb].
  intros entry db0 _ Hdb0. by apply shed_project_total.
Qed.

Lemma release_loop_total now clk xs :
  forall db,
    NoDup xs.*1 -> sweepable db ->
    (forall j cj, (j, cj) ∈ xs ->
                  cards db !! j = Some cj /\ Card.state cj = RETRY_SCHEDULED) ->
    exists db', for_each xs (release_one now clk) db = Ok (tt, db') /\ sweepable db'.
Proof.
  induction xs as [|[j cj] xs IH]; intros db Hnd Hdb Hrows; [by exists db|].
  apply NoDup_cons in Hnd as [Hj Hnd].
  destruct (Hrows j cj) as [Hrow Hst]; [apply list_elem_of_here|].
  assert (Hone : exists db1,
             release_one now clk (j, cj) db = Ok (tt, db1) /\ sweepable db1 /\
             forall k, k <> j -> cards db1 !! k = cards db !! k).
  { unfold release_one. simpl.
    destruct (Card.retryAtTs cj) as [r|]; [|by exists db].
    destruct (r <=? now); [|by exists db].
    erewrite bind_step.
    2:{ apply (transitionCard_run _ _ _ j cj); [| |vm_compute; reflexivity].
        - apply unique_intro; [exact Hrow|by apply bool_decide_eq_true_2|].
          intros k' c' Hk' Hc'. apply bool_decide_eq_true in Hc'. simpl in Hc'.
          eapply NoDup_lookup; [exact (proj1 Hdb)| |].
          + rewrite list_lookup_fmap, Hk'. simpl. by rewrite Hc'.
          + by rewrite list_lookup_fmap, Hrow.
        - simpl. by rewrite Hst. }
    eexists. split; [reflexivity|]. split; [by apply sweepable_transitioned|].
    intros k Hk. simpl. by apply list_lookup_alter_ne. }
  destruct Hone as (db1 & H1 & Hdb1 & Hkeep).
  rewrite for_each_cons, (bind_step _ _ _ _ _ H1). apply IH; [exact Hnd|exact Hdb1|].
  intros k ck Hin. rewrite Hkeep.
  - apply Hrows. by apply list_elem_of_further.
  - intros ->. apply Hj. apply list_elem_of_fmap. by exists (j, ck).
Qed.

Lemma releaseRetries_total now clk db :
  sweepable db ->
  exists db', releaseRetries now clk db = Ok (tt, db') /\ sweepable db'.
Proof.
  intros Hdb. unfold releaseRetries, bind at 1, get.
  apply release_loop_total; [apply NoDup_collect|exact Hdb|].
  intros j cj Hin. apply elem_of_collect in Hin as [Hrow Hp].
  split; [exact Hrow|]. by apply bool_decide_eq_true in Hp.
Qed.

(** Every request keeps the decisions loggable. *)
Lemma patched_loggable d d' : patched d d' -> loggable d -> loggable d'.
Proof.
  intros Hp [Hf Hu].
  destruct Hp as [caller until Hcaller|until Hst|Hst|k caller now Hk|f now Hfb|Hfb
                 |f now Hst Hfb|e Hst Hfb];
    (split; [exact Hf|]); simpl; try exact Hu; try discriminate.
  by intros u [= <-].
Qed.

Lemma requested_loggable d : requested d -> loggable d.
Proof.
  intros (_ & Hby & _ & _ & _ & _ & _ & _ & Hf). split; [exact Hf|].
  intros u. rewrite Hby. discriminate.
Qed.

Lemma moved_loggable l l' :
  moved l l' -> Forall loggable l -> Forall loggable l'.
Proof.
  intros [d Hreq|i d d' Hi Hopen Hp] Hl.
  - apply Forall_app. split; [exact Hl|]. apply Forall_singleton.
    by apply requested_loggable.
  - apply Forall_insert; [exact Hl|]. eapply patched_loggable; [exact Hp|].
    by eapply Forall_lookup_1 in Hl.
Qed.

Lemma moves_loggable l l' :
  moves l l' -> Forall loggable l -> Forall loggable l'.
Proof. induction 1; eauto using moved_loggable. Qed.

(** X30. The sweep completes. On a store in which card ids are unique
    and the fallback option and the claim holder of every decision pass
    the denylist, [sweep] does not throw, whatever the time: all four
    phases run to their end, the mutation commits, and the store it
    leaves satisfies the same two conditions. The second condition is
    kept by every request: a fallback option and a claim holder are
    stored only by mutations that log them. *)
Theorem sweep_completes :
  (forall now clk db,
      sweepable db ->
      exists db',
        sweep now clk db = Ok (tt, db') /\
        commit (sweep now clk) db = db' /\
        sweepable db') /\
  (forall rs db,
      Forall loggable (decisions db) ->
      Forall loggable (decisions (serve_all rs db))).
Proof.
  split.
  - intros now clk db Hdb.
    destruct (releaseRetries_total (default clk now) clk db Hdb)
      as (db1 & H1 & Hdb1).
    destruct (expireDecisions_total (default clk now) clk db1 Hdb1)
      as (db2 & H2 & Hdb2).
    destruct (reclaimExpiredClaims_total (default clk now) clk db2 Hdb2)
      as (db3 & H3 & Hdb3).
    destruct (loadShed_total (default clk now) clk db3 Hdb3) as (db4 & H4 & Hdb4).
    assert (Hrun : sweep now clk db = Ok (tt, db4)).
    { unfold sweep. cbv zeta.
      by rewrite (bind_step _ _ _ _ _ H1), (bind_step _ _ _ _ _ H2),
        (bind_step _ _ _ _ _ H3). }
    exists db4. split; [exact Hrun|]. split; [|exact Hdb4].
    unfold commit. by rewrite Hrun.
  - intros rs db. apply moves_loggable, serve_all_moves.
Qed.

Lemma sweep_completes_witness :
  exists db',
    sweep (Some 100) 100 Scenario.overdue = Ok (tt, db') /\
    map Decision.state (decisions db') = [RENDERED; EXPIRED; EXPIRED; RENDERED].
Proof.
  destruct sweep_completes as [Htotal _].
  destruct (Htotal (Some 100) 100 Scenario.overdue) as (db' & Hrun & Hdb' & _).
  - split.
    + apply (bool_decide_unpack _). vm_compute. exact I.
    + repeat constructor; try (intros ? [= <-]; vm_compute; reflexivity);
        intros ? [=].
  - exists db'. split; [exact Hrun|]. rewrite <- Hdb'. vm_compute. reflexivity.
Defined.

Example sweep_after_requests :
  let db := serve_all Fixture.life
                      (base (administer_all Fixture.team Fixture.nothing)) in
  map (fun d => (Decision.decisionId d, Decision.state d)) (decisions db)
  = [("dec_1-0", RENDERED); ("dec_2-2", EXPIRED)] /\
  exists db', sweep None 3000 db = Ok (tt, db').
Proof. vm_compute. split; [reflexivity|]. eexists. reflexivity. Qed.
